(** * goleveldb memtable and write batch: a shallow embedding

    Source: [goleveldb/leveldb/memdb/memdb_.go], which holds the skip-list
    store [DB_] with its iterator [dbIter_] (package [memdb]) followed by the
    write batch (package [leveldb]).

    Conventions of the embedding.
    - Go's [int] is taken to be the 64-bit one.  Index arithmetic of the
      store is written over [Z]: every quantity there is bounded by the
      length of a slice that exists in memory.  Where a value comes out of
      untrusted input ([decodeBatch]) the wrap-around of [int] is written
      out.
    - A byte slice is a [list byte]; [nil] and the empty slice are both [[]].
    - A Go function that can panic on an index or a slice bound, or loop,
      returns a [res]: [Ok v], [Panic] or [Diverge] (the fuel of a loop ran
      out).  Go [error] results are ordinary values of type [error].
    - The store is passed explicitly; a function that reaches the store
      through a pointer returns the store it leaves behind. *)

From Stdlib Require Import ZArith List Lia Bool String Ascii Sorted.
From Stdlib Require Import DecimalString HexadecimalString.
From Stdlib.Strings Require Import Byte.
From stdpp Require Import base list strings sorting.
Import ListNotations.
Open Scope Z_scope.

(** ** The Go runtime, as far as the code uses it *)

Module Go.

Inductive res (A : Type) : Type :=
| Ok (a : A)
| Panic
| Diverge.
Arguments Ok {A} a.
Arguments Panic {A}.
Arguments Diverge {A}.

#[global] Instance res_ret : MRet res := fun A a => Ok a.
#[global] Instance res_bind : MBind res := fun A B f m =>
  match m with
  | Ok a => f a
  | Panic => Panic
  | Diverge => Diverge
  end.

(** Values of Go's [error] interface that this code produces. *)
Inductive error : Type :=
| nil_error
| ErrNotFound
| ErrIterReleased
| ErrBatchCorrupted (Reason : string).

Definition bytes := list byte.

Definition len {A} (s : list A) : Z := Z.of_nat (length s).

(** [s[i]] *)
Definition elem {A} (s : list A) (i : Z) : res A :=
  if i <? 0 then Panic
  else match s !! Z.to_nat i with
       | Some x => Ok x
       | None => Panic
       end.

(** [s[i] = x] *)
Definition assign {A} (s : list A) (i : Z) (x : A) : res (list A) :=
  if (0 <=? i) && (i <? len s) then Ok (<[Z.to_nat i := x]> s) else Panic.

(** [s[lo:hi]].  Go checks [hi] against the capacity; the model checks it
    against the length, which is the stricter bound. *)
Definition slice {A} (s : list A) (lo hi : Z) : res (list A) :=
  if (0 <=? lo) && (lo <=? hi) && (hi <=? len s)
  then Ok (take (Z.to_nat (hi - lo)) (drop (Z.to_nat lo) s))
  else Panic.

(** [s[lo:]] *)
Definition slice_from {A} (s : list A) (lo : Z) : res (list A) :=
  slice s lo (len s).

(** [s[:hi]] *)
Definition slice_to {A} (s : list A) (hi : Z) : res (list A) :=
  slice s 0 hi.

(** [copy(dst[o:], src)]: copies [min(len(dst)-o, len(src))] bytes and
    returns the number copied.  [o] is within [dst]. *)
Definition copy_at {A} (dst : list A) (o : Z) (src : list A) : list A * Z :=
  let k := Z.min (len dst - o) (len src) in
  (take (Z.to_nat o) dst ++ take (Z.to_nat k) src ++ drop (Z.to_nat (o + k)) dst, k).

Definition byte_to_Z (b : byte) : Z := Z.of_N (Byte.to_N b).

(** [byte(x)]: the low eight bits. *)
Definition byte_of_Z (x : Z) : byte :=
  match Byte.of_N (Z.to_N (x mod 256)) with
  | Some b => b
  | None => x00
  end.

(** 64-bit [int] and [uint64]. *)
Definition int_min : Z := - 2 ^ 63.
Definition int_max : Z := 2 ^ 63 - 1.
Definition wrap_uint64 (x : Z) : Z := x mod 2 ^ 64.
Definition wrap_int (x : Z) : Z := (x + 2 ^ 63) mod 2 ^ 64 - 2 ^ 63.

End Go.
Export Go.

(** ** Package memdb *)

Module memdb.

(** The layout constants.  Their live declarations are in the package's
    other file; this file repeats them in comments (lines 28 and 175-181):
    [const tMaxHeight = 12] and [nKV, nKey, nVal, nHeight, nNext = iota]. *)
Definition tMaxHeight : Z := 12.
Definition nKV : Z := 0.
Definition nKey : Z := 1.
Definition nVal : Z := 2.
Definition nHeight : Z := 3.
Definition nNext : Z := 4.

(** [util.Range]; a [nil] bound is [None]. *)
Record Range : Type := mkRange {
  Start : option bytes;
  Limit : option bytes
}.

(** [DB_].  [rnd] counts the draws made from the generator since it was
    seeded; [kvCap] is [cap(kvData)].  The comparer is fixed when the store
    is made and is a parameter of the operations below; the lock is left
    out (one thread). *)
Record DB_ : Type := mkDB {
  rnd : nat;
  kvData : bytes;
  kvCap : Z;
  nodeData : list Z;
  prevNode : list Z;
  maxHeight : Z;
  n : Z;
  kvSize : Z
}.

Definition set_rnd (p : DB_) (r : nat) : DB_ :=
  mkDB r (kvData p) (kvCap p) (nodeData p) (prevNode p) (maxHeight p) (n p) (kvSize p).
Definition set_nodeData (p : DB_) (nd : list Z) : DB_ :=
  mkDB (rnd p) (kvData p) (kvCap p) nd (prevNode p) (maxHeight p) (n p) (kvSize p).
Definition set_prevNode (p : DB_) (pn : list Z) : DB_ :=
  mkDB (rnd p) (kvData p) (kvCap p) (nodeData p) pn (maxHeight p) (n p) (kvSize p).
Definition set_maxHeight (p : DB_) (h : Z) : DB_ :=
  mkDB (rnd p) (kvData p) (kvCap p) (nodeData p) (prevNode p) h (n p) (kvSize p).
Definition set_n (p : DB_) (k : Z) : DB_ :=
  mkDB (rnd p) (kvData p) (kvCap p) (nodeData p) (prevNode p) (maxHeight p) k (kvSize p).
Definition set_kvSize (p : DB_) (k : Z) : DB_ :=
  mkDB (rnd p) (kvData p) (kvCap p) (nodeData p) (prevNode p) (maxHeight p) (n p) k.

(** [dbIter_].  The pointer [p] of the Go struct is the store handed to
    each operation; [it_released] is the flag of [util.BasicReleaser]. *)
Record dbIter_ : Type := mkIter {
  it_released : bool;
  it_slice : option Range;
  it_node : Z;
  it_forward : bool;
  it_key : bytes;
  it_value : bytes;
  it_err : error
}.

Section store.

(** [comparer.BasicComparer.Compare]. *)
Variable cmp : bytes -> bytes -> Z.

(** The outputs of [rand.New(rand.NewSource(0xdeadbeef))], in order: the
    [k]-th call of [Int()] after seeding returns [rand_Int k]. *)
Variable rand_Int : nat -> Z.

(** The capacity the Go runtime gives a slice of capacity [c] that is
    appended to up to length [l > c]. *)
Variable growslice : Z -> Z -> Z.

(** [p.kvData = append(p.kvData, bs...)] *)
Definition append_kv (p : DB_) (bs : bytes) : DB_ :=
  let d := kvData p ++ bs in
  mkDB (rnd p) d
       (if len d <=? kvCap p then kvCap p else growslice (kvCap p) (len d))
       (nodeData p) (prevNode p) (maxHeight p) (n p) (kvSize p).

Fixpoint randHeight_loop (fuel : nat) (r : nat) (h : Z) : res (nat * Z) :=
  match fuel with
  | O => Diverge
  | S fuel' =>
      if h <? tMaxHeight then
        if Z.rem (rand_Int r) 4 =? 0
        then randHeight_loop fuel' (S r) (h + 1)
        else Ok (S r, h)
      else Ok (r, h)
  end.

Definition randHeight (p : DB_) : res (DB_ * Z) :=
  '(r, h) ← randHeight_loop (Z.to_nat tMaxHeight) (rnd p) 1;
  Ok (set_rnd p r, h).

(** The key bytes of the node at [x]: [p.kvData[o:o+p.nodeData[x+nKey]]]. *)
Definition node_key (p : DB_) (x : Z) : res bytes :=
  o ← elem (nodeData p) x;
  kl ← elem (nodeData p) (x + nKey);
  slice (kvData p) o (o + kl).

Fixpoint findGE_loop (fuel : nat) (p : DB_) (key : bytes) (prev : bool)
    (node h : Z) : res (DB_ * Z * bool) :=
  match fuel with
  | O => Diverge
  | S fuel' =>
      next ← elem (nodeData p) (node + nNext + h);
      c ← (if next =? 0 then Ok 1
           else k ← node_key p next; Ok (cmp k key));
      if c <? 0 then findGE_loop fuel' p key prev next h
      else
        if prev then
          pn ← assign (prevNode p) h node;
          let p' := set_prevNode p pn in
          if h =? 0 then Ok (p', next, c =? 0)
          else findGE_loop fuel' p' key prev node (h - 1)
        else if c =? 0 then Ok (p, next, true)
        else if h =? 0 then Ok (p, next, c =? 0)
        else findGE_loop fuel' p key prev node (h - 1)
  end.

(** Every turn of a loop of the store either follows a link to another
    node or goes down a level, so the length of the node table bounds the
    turns of a loop that ends. *)
Definition loop_fuel (p : DB_) : nat := S (length (nodeData p)).

Definition findGE (p : DB_) (key : bytes) (prev : bool) : res (DB_ * Z * bool) :=
  findGE_loop (loop_fuel p) p key prev 0 (maxHeight p - 1).

Fixpoint findLT_loop (fuel : nat) (p : DB_) (key : bytes) (node h : Z) : res Z :=
  match fuel with
  | O => Diverge
  | S fuel' =>
      next ← elem (nodeData p) (node + nNext + h);
      _ ← elem (nodeData p) next;
      ge ← (if next =? 0 then Ok true
            else k ← node_key p next; Ok (0 <=? cmp k key));
      if ge : bool then
        if h =? 0 then Ok node
        else findLT_loop fuel' p key node (h - 1)
      else findLT_loop fuel' p key next h
  end.

Definition findLT (p : DB_) (key : bytes) : res Z :=
  findLT_loop (loop_fuel p) p key 0 (maxHeight p - 1).

Fixpoint findLast_loop (fuel : nat) (p : DB_) (node h : Z) : res Z :=
  match fuel with
  | O => Diverge
  | S fuel' =>
      next ← elem (nodeData p) (node + nNext + h);
      if next =? 0 then
        if h =? 0 then Ok node
        else findLast_loop fuel' p node (h - 1)
      else findLast_loop fuel' p next h
  end.

Definition findLast (p : DB_) : res Z :=
  findLast_loop (loop_fuel p) p 0 (maxHeight p - 1).

(** The loop of [Put] over [p.prevNode[:h]], from index [i] on. *)
Fixpoint Put_link (nd : list Z) (node : Z) (i : Z) (prevs : list Z) : res (list Z) :=
  match prevs with
  | [] => Ok nd
  | n0 :: prevs' =>
      let m := n0 + nNext + i in
      v ← elem nd m;
      nd' ← assign (nd ++ [v]) m node;
      Put_link nd' node (i + 1) prevs'
  end.

(** [for i := p.maxHeight; i < h; i++ { p.prevNode[i] = 0 }] *)
Fixpoint Put_clear (fuel : nat) (pn : list Z) (i h : Z) : res (list Z) :=
  match fuel with
  | O => Diverge
  | S fuel' =>
      if i <? h then
        pn' ← assign pn i 0;
        Put_clear fuel' pn' (i + 1) h
      else Ok pn
  end.

Definition Put (p : DB_) (key value : bytes) : res (DB_ * error) :=
  '(p, node, exact) ← findGE p key true;
  if exact : bool then
    let kvOffset := len (kvData p) in
    let p := append_kv p key in
    let p := append_kv p value in
    nd ← assign (nodeData p) node kvOffset;
    m ← elem nd (node + nVal);
    nd ← assign nd (node + nVal) (len value);
    Ok (set_kvSize (set_nodeData p nd) (kvSize p + (len value - m)), nil_error)
  else
    '(p, h) ← randHeight p;
    p ← (if maxHeight p <? h then
           pn ← Put_clear (S (Z.to_nat (h - maxHeight p))) (prevNode p) (maxHeight p) h;
           Ok (set_maxHeight (set_prevNode p pn) h)
         else Ok p);
    let kvOffset := len (kvData p) in
    let p := append_kv p key in
    let p := append_kv p value in
    let node := len (nodeData p) in
    let nd := nodeData p ++ [kvOffset; len key; len value; h] in
    prevs ← slice_to (prevNode p) h;
    nd ← Put_link nd node 0 prevs;
    let p := set_nodeData p nd in
    let p := set_kvSize p (kvSize p + (len key + len value)) in
    Ok (set_n p (n p + 1), nil_error).

(** The loop of [Delete] over [p.prevNode[:h]], from index [i] on. *)
Fixpoint Delete_unlink (nd : list Z) (i : Z) (prevs : list Z) : res (list Z) :=
  match prevs with
  | [] => Ok nd
  | n0 :: prevs' =>
      let m := n0 + nNext + i in
      t ← elem nd m;
      v ← elem nd (t + nNext + i);
      nd' ← assign nd m v;
      Delete_unlink nd' (i + 1) prevs'
  end.

Definition Delete (p : DB_) (key : bytes) : res (DB_ * error) :=
  '(p, node, exact) ← findGE p key true;
  if negb exact then Ok (p, ErrNotFound)
  else
    h ← elem (nodeData p) (node + nHeight);
    prevs ← slice_to (prevNode p) h;
    nd ← Delete_unlink (nodeData p) 0 prevs;
    let p := set_nodeData p nd in
    kl ← elem (nodeData p) (node + nKey);
    vl ← elem (nodeData p) (node + nVal);
    let p := set_kvSize p (kvSize p - (kl + vl)) in
    Ok (set_n p (n p - 1), nil_error).

Definition Contains (p : DB_) (key : bytes) : res (DB_ * bool) :=
  '(p, _, exact) ← findGE p key false;
  Ok (p, exact).

Definition Get (p : DB_) (key : bytes) : res (DB_ * bytes * error) :=
  '(p, node, exact) ← findGE p key false;
  if exact : bool then
    o0 ← elem (nodeData p) node;
    kl ← elem (nodeData p) (node + nKey);
    let o := o0 + kl in
    vl ← elem (nodeData p) (node + nVal);
    value ← slice (kvData p) o (o + vl);
    Ok (p, value, nil_error)
  else Ok (p, [], ErrNotFound).

Definition Find (p : DB_) (key : bytes) : res (DB_ * bytes * bytes * error) :=
  '(p, node, _) ← findGE p key false;
  if negb (node =? 0) then
    n0 ← elem (nodeData p) node;
    kl ← elem (nodeData p) (node + nKey);
    let m := n0 + kl in
    rkey ← slice (kvData p) n0 m;
    vl ← elem (nodeData p) (node + nVal);
    value ← slice (kvData p) m (m + vl);
    Ok (p, rkey, value, nil_error)
  else Ok (p, [], [], ErrNotFound).

Definition Capacity (p : DB_) : Z := kvCap p.
Definition Size (p : DB_) : Z := kvSize p.
Definition Free (p : DB_) : Z := kvCap p - len (kvData p).
Definition Len (p : DB_) : Z := n p.

(** The last loop of [Reset], from index [i] on. *)
Fixpoint Reset_clear (fuel : nat) (nd pn : list Z) (i : Z) : res (list Z * list Z) :=
  match fuel with
  | O => Diverge
  | S fuel' =>
      if i <? tMaxHeight then
        nd' ← assign nd (nNext + i) 0;
        pn' ← assign pn i 0;
        Reset_clear fuel' nd' pn' (i + 1)
      else Ok (nd, pn)
  end.

Definition Reset (p : DB_) : res DB_ :=
  nd ← slice_to (nodeData p) (nNext + tMaxHeight);
  nd ← assign nd nKV 0;
  nd ← assign nd nKey 0;
  nd ← assign nd nVal 0;
  nd ← assign nd nHeight tMaxHeight;
  '(nd, pn) ← Reset_clear (S (Z.to_nat tMaxHeight)) nd (prevNode p) 0;
  Ok (mkDB O [] (kvCap p) nd pn 1 0 0).

(** [make([]byte, 0, capacity)] panics on a negative capacity. *)
Definition New_ (capacity : Z) : res DB_ :=
  if capacity <? 0 then Panic
  else
    let nd := replicate (Z.to_nat (4 + tMaxHeight)) 0 in
    nd ← assign nd nHeight tMaxHeight;
    Ok (mkDB O [] capacity nd (replicate (Z.to_nat tMaxHeight) 0) 1 0 0).

(** *** The iterator *)

Definition it_set_node (i : dbIter_) (x : Z) : dbIter_ :=
  mkIter (it_released i) (it_slice i) x (it_forward i) (it_key i) (it_value i) (it_err i).
Definition it_set_forward (i : dbIter_) (f : bool) : dbIter_ :=
  mkIter (it_released i) (it_slice i) (it_node i) f (it_key i) (it_value i) (it_err i).
Definition it_set_key (i : dbIter_) (k : bytes) : dbIter_ :=
  mkIter (it_released i) (it_slice i) (it_node i) (it_forward i) k (it_value i) (it_err i).
Definition it_set_value (i : dbIter_) (v : bytes) : dbIter_ :=
  mkIter (it_released i) (it_slice i) (it_node i) (it_forward i) (it_key i) v (it_err i).
Definition it_set_err (i : dbIter_) (e : error) : dbIter_ :=
  mkIter (it_released i) (it_slice i) (it_node i) (it_forward i) (it_key i) (it_value i) e.

(** The two cases of the [switch] of [fill]. *)
Definition out_of_range (r : Range) (checkStart checkLimit : bool) (k : bytes) : bool :=
  (checkLimit && match Limit r with Some l => 0 <=? cmp k l | None => false end)
  || (checkStart && match Start r with Some s => cmp k s <? 0 | None => false end).

Definition bail (i : dbIter_) : dbIter_ * bool :=
  (it_set_value (it_set_key i []) [], false).

Definition fill (p : DB_) (i : dbIter_) (checkStart checkLimit : bool)
    : res (dbIter_ * bool) :=
  if negb (it_node i =? 0) then
    n0 ← elem (nodeData p) (it_node i);
    kl ← elem (nodeData p) (it_node i + nKey);
    let m := n0 + kl in
    k ← slice (kvData p) n0 m;
    let i := it_set_key i k in
    if match it_slice i with
       | Some r => out_of_range r checkStart checkLimit k
       | None => false
       end
    then Ok (bail (it_set_node i 0))
    else
      vl ← elem (nodeData p) (it_node i + nVal);
      v ← slice (kvData p) m (m + vl);
      Ok (it_set_value i v, true)
  else Ok (bail i).

Definition Valid (i : dbIter_) : bool := negb (it_node i =? 0).

Definition slice_start (i : dbIter_) : option bytes :=
  match it_slice i with Some r => Start r | None => None end.
Definition slice_limit (i : dbIter_) : option bytes :=
  match it_slice i with Some r => Limit r | None => None end.

Definition First (p : DB_) (i : dbIter_) : res (DB_ * dbIter_ * bool) :=
  if it_released i then Ok (p, it_set_err i ErrIterReleased, false)
  else
    let i := it_set_forward i true in
    '(p, x) ← match slice_start i with
              | Some s => '(p, x, _) ← findGE p s false; Ok (p, x)
              | None => x ← elem (nodeData p) nNext; Ok (p, x)
              end;
    '(i, b) ← fill p (it_set_node i x) false true;
    Ok (p, i, b).

Definition Last (p : DB_) (i : dbIter_) : res (DB_ * dbIter_ * bool) :=
  if it_released i then Ok (p, it_set_err i ErrIterReleased, false)
  else
    let i := it_set_forward i false in
    x ← match slice_limit i with
        | Some l => findLT p l
        | None => findLast p
        end;
    '(i, b) ← fill p (it_set_node i x) true false;
    Ok (p, i, b).

Definition Seek (p : DB_) (i : dbIter_) (key : bytes) : res (DB_ * dbIter_ * bool) :=
  if it_released i then Ok (p, it_set_err i ErrIterReleased, false)
  else
    let i := it_set_forward i true in
    let key := match slice_start i with
               | Some s => if cmp key s <? 0 then s else key
               | None => key
               end in
    '(p, x, _) ← findGE p key false;
    '(i, b) ← fill p (it_set_node i x) false true;
    Ok (p, i, b).

Definition Next (p : DB_) (i : dbIter_) : res (DB_ * dbIter_ * bool) :=
  if it_released i then Ok (p, it_set_err i ErrIterReleased, false)
  else if it_node i =? 0 then
    if negb (it_forward i) then First p i else Ok (p, i, false)
  else
    let i := it_set_forward i true in
    x ← elem (nodeData p) (it_node i + nNext);
    '(i, b) ← fill p (it_set_node i x) false true;
    Ok (p, i, b).

Definition Prev (p : DB_) (i : dbIter_) : res (DB_ * dbIter_ * bool) :=
  if it_released i then Ok (p, it_set_err i ErrIterReleased, false)
  else if it_node i =? 0 then
    if it_forward i then Last p i else Ok (p, i, false)
  else
    let i := it_set_forward i false in
    x ← findLT p (it_key i);
    '(i, b) ← fill p (it_set_node i x) true false;
    Ok (p, i, b).

Definition Key (i : dbIter_) : bytes := it_key i.
Definition Value (i : dbIter_) : bytes := it_value i.
Definition Error (i : dbIter_) : error := it_err i.

Definition Release (i : dbIter_) : dbIter_ :=
  if negb (it_released i)
  then mkIter true (it_slice i) 0 (it_forward i) [] [] (it_err i)
  else i.

Definition NewIterator (slice : option Range) : dbIter_ :=
  mkIter false slice 0 false [] [] nil_error.

(** A full forward pass: [First], then [Next] until it returns false,
    collecting [Key()] and [Value()] at every stop. *)
Fixpoint forward_loop (fuel : nat) (p : DB_) (i : dbIter_) (ok : bool)
    : res (list (bytes * bytes)) :=
  match fuel with
  | O => Diverge
  | S fuel' =>
      if ok then
        '(p', i', ok') ← Next p i;
        rest ← forward_loop fuel' p' i' ok';
        Ok ((Key i, Value i) :: rest)
      else Ok []
  end.

Definition iterate_forward (p : DB_) : res (list (bytes * bytes)) :=
  '(p', i, ok) ← First p (NewIterator None);
  forward_loop (loop_fuel p') p' i ok.

(** A full backward pass: [Last], then [Prev] until it returns false,
    collecting [Key()] and [Value()] at every stop. *)
Fixpoint backward_loop (fuel : nat) (p : DB_) (i : dbIter_) (ok : bool)
    : res (list (bytes * bytes)) :=
  match fuel with
  | O => Diverge
  | S fuel' =>
      if ok then
        '(p', i', ok') ← Prev p i;
        rest ← backward_loop fuel' p' i' ok';
        Ok ((Key i, Value i) :: rest)
      else Ok []
  end.

Definition iterate_backward (p : DB_) : res (list (bytes * bytes)) :=
  '(p', i, ok) ← Last p (NewIterator None);
  backward_loop (loop_fuel p') p' i ok.

(** The same two passes with an iterator over the range [r]. *)
Definition iterate_range (p : DB_) (r : Range) : res (list (bytes * bytes)) :=
  '(p', i, ok) ← First p (NewIterator (Some r));
  forward_loop (loop_fuel p') p' i ok.

Definition iterate_range_backward (p : DB_) (r : Range) : res (list (bytes * bytes)) :=
  '(p', i, ok) ← Last p (NewIterator (Some r));
  backward_loop (loop_fuel p') p' i ok.

End store.

End memdb.

(** ** Package encoding/binary (Go standard library) *)

Module binary.

Definition MaxVarintLen32 : Z := 5.
Definition MaxVarintLen64 : Z := 10.

(** [binary.Uvarint(buf)], with [i] bytes read, [x] and [s] as in the loop. *)
Fixpoint Uvarint_loop (buf : bytes) (i x s : Z) : Z * Z :=
  match buf with
  | [] => (0, 0)
  | b :: buf' =>
      if i =? MaxVarintLen64 then (0, - (i + 1))
      else if byte_to_Z b <? 0x80 then
        if (i =? MaxVarintLen64 - 1) && (1 <? byte_to_Z b) then (0, - (i + 1))
        else (Z.lor x (wrap_uint64 (Z.shiftl (byte_to_Z b) s)), i + 1)
      else
        Uvarint_loop buf' (i + 1)
          (Z.lor x (wrap_uint64 (Z.shiftl (Z.land (byte_to_Z b) 0x7f) s)))
          (s + 7)
  end.

Definition Uvarint (buf : bytes) : Z * Z := Uvarint_loop buf 0 0 0.

(** [binary.PutUvarint(data[o:], x)]: writes into [data] from offset [o] and
    returns the number of bytes written; [i] bytes are written so far. *)
Fixpoint PutUvarint_loop (fuel : nat) (data : bytes) (o i x : Z) : res (bytes * Z) :=
  match fuel with
  | O => Diverge
  | S fuel' =>
      if 0x80 <=? x then
        data' ← assign data (o + i) (byte_of_Z (Z.lor (x mod 256) 0x80));
        PutUvarint_loop fuel' data' o (i + 1) (Z.shiftr x 7)
      else
        data' ← assign data (o + i) (byte_of_Z x);
        Ok (data', i + 1)
  end.

Definition PutUvarint_at (data : bytes) (o x : Z) : res (bytes * Z) :=
  _ ← slice_from data o;
  PutUvarint_loop (Z.to_nat MaxVarintLen64) data o 0 x.

(** The value of a byte string read as a little-endian number. *)
Fixpoint le_value (bs : bytes) : Z :=
  match bs with
  | [] => 0
  | b :: bs' => byte_to_Z b + 256 * le_value bs'
  end.

(** [binary.LittleEndian.Uint64(b)] and [Uint32(b)]. *)
Definition LittleEndian_Uint64 (b : bytes) : res Z :=
  bs ← slice_to b 8; Ok (le_value bs).
Definition LittleEndian_Uint32 (b : bytes) : res Z :=
  bs ← slice_to b 4; Ok (le_value bs).

(** The eight bytes [binary.LittleEndian.PutUint64] writes for [v]. *)
Fixpoint le_bytes (k : nat) (v : Z) : bytes :=
  match k with
  | O => []
  | S k' => byte_of_Z v :: le_bytes k' (Z.shiftr v 8)
  end.

(** [binary.LittleEndian.PutUint64(b[o:], v)] and [PutUint32(b[o:], v)]:
    the bytes of [b] from offset [o] on are overwritten. *)
Definition LittleEndian_PutUint64_at (b : bytes) (o v : Z) : res bytes :=
  rest ← slice_from b o;
  if len rest <? 8 then Panic
  else Ok (take (Z.to_nat o) b ++ le_bytes 8 v ++ drop (Z.to_nat (o + 8)) b).
Definition LittleEndian_PutUint32_at (b : bytes) (o v : Z) : res bytes :=
  rest ← slice_from b o;
  if len rest <? 4 then Panic
  else Ok (take (Z.to_nat o) b ++ le_bytes 4 v ++ drop (Z.to_nat (o + 4)) b).

End binary.

(** ** Package leveldb: the write batch *)

Module leveldb.
Import binary.

Definition batchHeaderLen : Z := 8 + 4.
Definition batchGrowRec : Z := 3000.

(** Modelled from the spec: the two op tags of type [keyType], declared in
    the package's key file, which is not part of the sources at hand.  The
    wire format gives their values: 0x00 is delete, 0x01 is put. *)
Definition keyTypeDel : Z := 0.
Definition keyTypeVal : Z := 1.

(** Modelled from the spec: the largest sequence number (56 bits). *)
Definition keyMaxSeq : Z := 2 ^ 56 - 1.

(** Modelled from the spec: [makeInternalKey], declared in the package's key
    file.  It fails (a panic) when the sequence number does not fit 56 bits
    and otherwise returns the user key followed by the trailer, the
    little-endian 64-bit value [(seq << 8) | type]. *)
Definition makeInternalKey (ukey : bytes) (seq : Z) (kt : Z) : res bytes :=
  if (keyMaxSeq <? seq) || (keyTypeVal <? kt) then Panic
  else Ok (ukey ++ le_bytes 8 (Z.lor (Z.shiftl seq 8) kt)).

(** Modelled from the spec: the parts of an internal key.  A key shorter
    than the trailer is not an internal key; there the user key is empty
    and the trailer is what is there. *)
Definition ukey (ik : bytes) : bytes := take (length ik - 8)%nat ik.
Definition num (ik : bytes) : Z := le_value (drop (length ik - 8)%nat ik).

(** Modelled from the spec: the internal key comparator over the ordering
    policy [ucmp]: by user key ascending, then by trailer descending. *)
Definition icmp (ucmp : bytes -> bytes -> Z) (a b : bytes) : Z :=
  let x := ucmp (ukey a) (ukey b) in
  if x =? 0 then
    if num b <? num a then -1
    else if num a <? num b then 1
    else x
  else x.

Record batchIndex : Type := mkIndex {
  keyType : Z;
  keyPos : Z;
  keyLen : Z;
  valuePos : Z;
  valueLen : Z
}.

Definition k (index : batchIndex) (data : bytes) : res bytes :=
  slice data (keyPos index) (keyPos index + keyLen index).

Definition v (index : batchIndex) (data : bytes) : res bytes :=
  if negb (valueLen index =? 0)
  then slice data (valuePos index) (valuePos index + valueLen index)
  else Ok [].

Definition kv (index : batchIndex) (data : bytes) : res (bytes * bytes) :=
  key ← k index data; value ← v index data; Ok (key, value).

(** [Batch].  [spare] holds the bytes of the backing array of [data] between
    its length and its capacity. *)
Record Batch : Type := mkBatch {
  data : bytes;
  spare : bytes;
  index : list batchIndex;
  internalLen : Z
}.

Definition grow (b : Batch) (n : Z) : Batch :=
  let o := len (data b) in
  if len (spare b) <? n then
    let div := if batchGrowRec <? len (index b)
               then Z.quot (len (index b)) batchGrowRec else 1 in
    mkBatch (data b) (replicate (Z.to_nat (n + Z.quot o div)) x00)
            (index b) (internalLen b)
  else b.

Definition appendRec (b : Batch) (kt : Z) (key value : bytes) : res Batch :=
  let n := 1 + MaxVarintLen32 + len key in
  let n := if kt =? keyTypeVal then n + (MaxVarintLen32 + len value) else n in
  let b := grow b n in
  let o := len (data b) in
  let array := data b ++ spare b in
  data0 ← slice_to array (o + n);
  data1 ← assign data0 o (byte_of_Z kt);
  let o := o + 1 in
  '(data2, w) ← PutUvarint_at data1 o (len key);
  let o := o + w in
  let index_keyPos := o in
  let index_keyLen := len key in
  _ ← slice_from data2 o;
  let '(data3, c) := copy_at data2 o key in
  let o := o + c in
  '(data4, o, index_valuePos, index_valueLen) ←
    (if kt =? keyTypeVal then
       '(data4, w) ← PutUvarint_at data3 o (len value);
       let o := o + w in
       _ ← slice_from data4 o;
       let '(data5, c) := copy_at data4 o value in
       Ok (data5, o + c, o, len value)
     else Ok (data3, o, 0, 0));
  data5 ← slice_to data4 o;
  Ok (mkBatch data5
        (drop (Z.to_nat o) data4 ++ drop (Z.to_nat (len data4)) array)
        (index b ++ [mkIndex kt index_keyPos index_keyLen index_valuePos index_valueLen])
        (internalLen b + (index_keyLen + index_valueLen + 8))).

Definition Put (b : Batch) (key value : bytes) : res Batch :=
  appendRec b keyTypeVal key value.

Definition Delete (b : Batch) (key : bytes) : res Batch :=
  appendRec b keyTypeDel key [].

Definition Dump (b : Batch) : bytes := data b.

Definition Len (b : Batch) : Z := len (index b).

Definition Reset (b : Batch) : Batch :=
  mkBatch [] (data b ++ spare b) [] 0.

(** [&Batch{}] and [MakeBatch(n)]. *)
Definition newBatch : Batch := mkBatch [] [] [] 0.
Definition MakeBatch (n : Z) : res Batch :=
  if n <? 0 then Panic
  else Ok (mkBatch [] (replicate (Z.to_nat n) x00) [] 0).

Definition newErrBatchCorrupted (reason : string) : error :=
  ErrBatchCorrupted reason.

(** [fmt.Sprintf("%d", x)] and [fmt.Sprintf("%#x", x)] for [x >= 0]. *)
Definition fmt_d (x : Z) : string :=
  DecimalString.NilZero.string_of_int (Z.to_int x).
Definition fmt_sharp_x (x : Z) : string :=
  "0x" +:+ HexadecimalString.NilZero.string_of_uint (N.to_hex_uint (Z.to_N x)).

(** [int(x)] for a [uint64] [x]. *)
Definition int_of_uint64 (x : Z) : Z := wrap_int x.

Section decode.

(** The state the callback closes over, and the callback. *)
Context {St : Type}.
Variable fn : St -> Z -> batchIndex -> res (St * error).

Fixpoint decodeBatch_loop (fuel : nat) (data : bytes) (st : St) (i o : Z)
    : res (St * error) :=
  match fuel with
  | O => Diverge
  | S fuel' =>
      if o <? len data then
        b ← elem data o;
        let index_keyType := byte_to_Z b in
        if keyTypeVal <? index_keyType then
          Ok (st, newErrBatchCorrupted
                    ("bad record: invalid type " +:+ fmt_sharp_x index_keyType))
        else
          let o := wrap_int (o + 1) in
          buf ← slice_from data o;
          let '(x, n) := Uvarint buf in
          let o := wrap_int (o + n) in
          if (n <=? 0) || (len data <? wrap_int (o + int_of_uint64 x)) then
            Ok (st, newErrBatchCorrupted "bad record: invalid key length")
          else
            let index_keyPos := o in
            let index_keyLen := int_of_uint64 x in
            let o := wrap_int (o + index_keyLen) in
            r ← (if index_keyType =? keyTypeVal then
                   buf ← slice_from data o;
                   let '(x, n) := Uvarint buf in
                   let o := wrap_int (o + n) in
                   if (n <=? 0) || (len data <? wrap_int (o + int_of_uint64 x)) then
                     Ok (inl (newErrBatchCorrupted "bad record: invalid value length"))
                   else
                     Ok (inr (o, int_of_uint64 x, wrap_int (o + int_of_uint64 x)))
                 else Ok (inr (0, 0, o)));
            match r with
            | inl e => Ok (st, e)
            | inr (index_valuePos, index_valueLen, o) =>
                '(st, e) ← fn st i
                  (mkIndex index_keyType index_keyPos index_keyLen
                           index_valuePos index_valueLen);
                match e with
                | nil_error => decodeBatch_loop fuel' data st (wrap_int (i + 1)) o
                | _ => Ok (st, e)
                end
            end
      else Ok (st, nil_error)
  end.

(** The offset [o] determines the rest of a run whose callback never fails,
    so a run that ends visits no offset twice: it takes at most [len(data)]
    turns. *)
Definition decodeBatch (data : bytes) (st : St) : res (St * error) :=
  decodeBatch_loop (S (length data)) data st 0 0.

(** [decodeBatch] under a callback that fails at turn [limit] at the latest:
    the loop then ends within [limit + 1] turns whatever the buffer holds,
    also a buffer on which the offset goes backwards. *)
Definition decodeBatch_within (limit : Z) (data : bytes) (st : St) : res (St * error) :=
  decodeBatch_loop (S (Z.to_nat limit)) data st 0 0.

End decode.

(** The callback of [Batch.decode]. *)
Definition decode_fn (b : Batch) (i : Z) (ix : batchIndex) : res (Batch * error) :=
  Ok (mkBatch (data b) (spare b) (index b ++ [ix])
        (wrap_int (internalLen b + wrap_int (wrap_int (keyLen ix + valueLen ix) + 8))),
      nil_error).

(** [b.decode(data, expectedLen)].  The capacity of the slice handed in is
    not part of the model: the batch is left with no spare room. *)
Definition decode (b : Batch) (data0 : bytes) (expectedLen : Z) : res (Batch * error) :=
  let b := mkBatch data0 [] [] 0 in
  '(b, err) ← decodeBatch decode_fn data0 b;
  match err with
  | nil_error =>
      if (0 <=? expectedLen) && negb (len (index b) =? expectedLen) then
        Ok (b, newErrBatchCorrupted
                 ("invalid records length: " +:+ fmt_d expectedLen +:+ " vs "
                  +:+ fmt_d (len (index b))))
      else Ok (b, nil_error)
  | _ => Ok (b, err)
  end.

Definition Load (b : Batch) (data0 : bytes) : res (Batch * error) :=
  decode b data0 (-1).

Definition decodeBatchHeader (data0 : bytes) : res (Z * Z * error) :=
  if len data0 <? batchHeaderLen then
    Ok (0, 0, newErrBatchCorrupted "too short")
  else
    seq ← LittleEndian_Uint64 data0;
    rest ← slice_from data0 8;
    u ← LittleEndian_Uint32 rest;
    let batchLen := wrap_int u in
    if batchLen <? 0 then Ok (0, 0, newErrBatchCorrupted "invalid records length")
    else Ok (seq, batchLen, nil_error).

Section mem.

(** The store the batch is applied to.  The Go code names the type
    [memdb.DB]; the sources at hand hold it under the name [DB_]. *)
Variable cmp : bytes -> bytes -> Z.
Variable rand_Int : nat -> Z.
Variable growslice : Z -> Z -> Z.

(** The loop of [putMem] over [b.index], from index [i] on. *)
Fixpoint putMem_loop (data0 : bytes) (seq : Z) (i : Z) (ixs : list batchIndex)
    (mdb : memdb.DB_) : res (memdb.DB_ * error) :=
  match ixs with
  | [] => Ok (mdb, nil_error)
  | ix :: ixs' =>
      key ← k ix data0;
      ik ← makeInternalKey key (wrap_uint64 (seq + i)) (keyType ix);
      value ← v ix data0;
      '(mdb, err) ← memdb.Put cmp rand_Int growslice mdb ik value;
      match err with
      | nil_error => putMem_loop data0 seq (i + 1) ixs' mdb
      | _ => Ok (mdb, err)
      end
  end.

Definition putMem (b : Batch) (seq : Z) (mdb : memdb.DB_) : res (memdb.DB_ * error) :=
  putMem_loop (data b) seq 0 (index b) mdb.

(** The loop of [revertMem] over [b.index], from index [i] on. *)
Fixpoint revertMem_loop (data0 : bytes) (seq : Z) (i : Z) (ixs : list batchIndex)
    (mdb : memdb.DB_) : res (memdb.DB_ * error) :=
  match ixs with
  | [] => Ok (mdb, nil_error)
  | ix :: ixs' =>
      key ← k ix data0;
      ik ← makeInternalKey key (wrap_uint64 (seq + i)) (keyType ix);
      '(mdb, err) ← memdb.Delete cmp mdb ik;
      match err with
      | nil_error => revertMem_loop data0 seq (i + 1) ixs' mdb
      | _ => Ok (mdb, err)
      end
  end.

Definition revertMem (b : Batch) (seq : Z) (mdb : memdb.DB_) : res (memdb.DB_ * error) :=
  revertMem_loop (data b) seq 0 (index b) mdb.

(** [decodeBatchToMem].  The callback closes over the store and the count
    [decodedLen]; the lines the function prints are left out.  The callback
    fails at turn [batchLen], which bounds the turns of [decodeBatch]. *)
Definition decodeBatchToMem_fn (data0 : bytes) (seq batchLen : Z)
    (st : memdb.DB_ * Z) (i : Z) (ix : batchIndex) : res (memdb.DB_ * Z * error) :=
  let '(mdb, decodedLen) := st in
  if batchLen <=? i then Ok (mdb, decodedLen, newErrBatchCorrupted "invalid records length")
  else
    key ← k ix data0;
    ik ← makeInternalKey key (wrap_uint64 (seq + i)) (keyType ix);
    value ← v ix data0;
    '(mdb, err) ← memdb.Put cmp rand_Int growslice mdb ik value;
    match err with
    | nil_error => Ok (mdb, wrap_int (decodedLen + 1), nil_error)
    | _ => Ok (mdb, decodedLen, err)
    end.

Definition decodeBatchToMem (data0 : bytes) (expectSeq : Z) (mdb : memdb.DB_)
    : res (memdb.DB_ * (Z * Z * error)) :=
  '(seq, batchLen, err) ← decodeBatchHeader data0;
  match err with
  | nil_error =>
      data1 ← slice_from data0 batchHeaderLen;
      '(mdb, decodedLen, err) ←
        decodeBatch_within (decodeBatchToMem_fn data1 seq batchLen) batchLen data1
          (mdb, 0);
      match err with
      | nil_error =>
          if negb (decodedLen =? batchLen) then
            Ok (mdb, (seq, batchLen,
                      newErrBatchCorrupted
                        ("invalid records length: " +:+ fmt_d batchLen +:+ " vs "
                         +:+ fmt_d decodedLen)))
          else Ok (mdb, (seq, batchLen, nil_error))
      | _ => Ok (mdb, (seq, batchLen, err))
      end
  | _ => Ok (mdb, (0, 0, err))
  end.

End mem.

(** *** Replaying a batch *)

(** [BatchReplay], the receiver of [Replay]: [R] is the state its two
    methods act on.  The receiver is not the batch that is replayed. *)
Class BatchReplay (R : Type) : Type := {
  BatchReplay_Put : R -> bytes -> bytes -> res R;
  BatchReplay_Delete : R -> bytes -> res R
}.

Section replay.
Context {R : Type} `{BatchReplay R}.

(** The loop of [Replay] over [b.index]. *)
Fixpoint Replay_loop (data0 : bytes) (ixs : list batchIndex) (r : R) : res R :=
  match ixs with
  | [] => Ok r
  | ix :: ixs' =>
      r ← (if keyType ix =? keyTypeVal then
             key ← k ix data0; value ← v ix data0; BatchReplay_Put r key value
           else if keyType ix =? keyTypeDel then
             key ← k ix data0; BatchReplay_Delete r key
           else Ok r);
      Replay_loop data0 ixs' r
  end.

Definition Replay (b : Batch) (r : R) : res (R * error) :=
  r ← Replay_loop (data b) (index b) r; Ok (r, nil_error).

End replay.

(** A batch is itself such a receiver. *)
#[global] Instance Batch_BatchReplay : BatchReplay Batch := {
  BatchReplay_Put := Put;
  BatchReplay_Delete := Delete
}.

Section replayInternal.

(** The state the callback closes over, and the callback. *)
Context {St : Type}.
Variable fn : St -> Z -> Z -> bytes -> bytes -> res (St * error).

(** The loop of [replayInternal] over [b.index], from index [i] on. *)
Fixpoint replayInternal_loop (data0 : bytes) (i : Z) (ixs : list batchIndex) (st : St)
    : res (St * error) :=
  match ixs with
  | [] => Ok (st, nil_error)
  | ix :: ixs' =>
      key ← k ix data0;
      value ← v ix data0;
      '(st, err) ← fn st i (keyType ix) key value;
      match err with
      | nil_error => replayInternal_loop data0 (i + 1) ixs' st
      | _ => Ok (st, err)
      end
  end.

Definition replayInternal (b : Batch) (st : St) : res (St * error) :=
  replayInternal_loop (data b) 0 (index b) st.

End replayInternal.

(** *** Joining two batches *)

Section append.

(** The capacity the Go runtime gives a slice of capacity [c] that is
    appended to up to length [l > c]. *)
Variable growslice : Z -> Z -> Z.

(** [append(d, src...)] for a slice [d] with the spare room [sp]: the new
    slice and its spare room. *)
Definition append_bytes (d sp src : bytes) : bytes * bytes :=
  if len src <=? len sp then (d ++ src, drop (Z.to_nat (len src)) sp)
  else (d ++ src,
        replicate (Z.to_nat (growslice (len d + len sp) (len d + len src)
                             - (len d + len src))) x00).

(** One turn of the loop of [append] on the entry [index]. *)
Definition append_shift (ob : Z) (ix : batchIndex) : batchIndex :=
  mkIndex (keyType ix) (wrap_int (keyPos ix + ob)) (keyLen ix)
          (if negb (valueLen ix =? 0) then wrap_int (valuePos ix + ob) else valuePos ix)
          (valueLen ix).

Fixpoint append_loop (fuel : nat) (ixs : list batchIndex) (oi ob : Z)
    : res (list batchIndex) :=
  match fuel with
  | O => Diverge
  | S fuel' =>
      if oi <? len ixs then
        ix ← elem ixs oi;
        ixs' ← assign ixs oi (append_shift ob ix);
        append_loop fuel' ixs' (oi + 1) ob
      else Ok ixs
  end.

(** [b.append(p)].  The capacity of [b.index] is not part of the model. *)
Definition append (b p : Batch) : res Batch :=
  let ob := len (data b) in
  let oi := len (index b) in
  let '(d, sp) := append_bytes (data b) (spare b) (data p) in
  let ixs := index b ++ index p in
  let il := wrap_int (internalLen b + internalLen p) in
  ixs ← (if negb (ob =? 0) then append_loop (S (length (index p))) ixs oi ob
         else Ok ixs);
  Ok (mkBatch d sp ixs il).

End append.

(** *** The header of a batch in the journal *)

(** Modelled from the spec: [ensureBuffer], declared in the package's util
    file, which is not part of the sources at hand.  The header has twelve
    bytes (section 6), so the buffer that is returned has [n] bytes: the
    first [n] of [dst] when [dst] has them, new ones otherwise. *)
Definition ensureBuffer (dst : bytes) (n : Z) : bytes :=
  if len dst <? n then replicate (Z.to_nat n) x00 else take (Z.to_nat n) dst.

(** [uint32(x)] *)
Definition wrap_uint32 (x : Z) : Z := x mod 2 ^ 32.

Definition encodeBatchHeader (dst : bytes) (seq batchLen : Z) : res bytes :=
  let dst := ensureBuffer dst batchHeaderLen in
  dst ← LittleEndian_PutUint64_at dst 0 seq;
  LittleEndian_PutUint32_at dst 8 (wrap_uint32 batchLen).

Definition batchesLen (batches : list Batch) : Z :=
  fold_left (fun batchLen batch => wrap_int (batchLen + Len batch)) batches 0.

(** [io.Writer]: [W] is the state of the writer; [Write] returns the
    number of bytes written and an error. *)
Class Writer (W : Type) : Type := {
  Writer_Write : W -> bytes -> res (W * Z * error)
}.

Section write.
Context {W : Type} `{Writer W}.

(** The loop of [writeBatchesWithHeader] over [batches]. *)
Fixpoint writeBatches_loop (wr : W) (batches : list Batch) : res (W * error) :=
  match batches with
  | [] => Ok (wr, nil_error)
  | batch :: batches' =>
      '(wr, _, err) ← Writer_Write wr (data batch);
      match err with
      | nil_error => writeBatches_loop wr batches'
      | _ => Ok (wr, err)
      end
  end.

Definition writeBatchesWithHeader (wr : W) (batches : list Batch) (seq : Z)
    : res (W * error) :=
  hdr ← encodeBatchHeader [] seq (batchesLen batches);
  '(wr, _, err) ← Writer_Write wr hdr;
  match err with
  | nil_error => writeBatches_loop wr batches
  | _ => Ok (wr, err)
  end.

End write.

End leveldb.

(** ** What the comparer promises

    The contract of [comparer.BasicComparer.Compare]: the result is
    negative, zero or positive as [a] is less than, equal to or greater than
    [b], and two keys are equal only if their contents are.  [dom] is the
    set of keys the comparer is defined on (every byte string for a
    bytewise comparer, the internal keys for the internal key comparer). *)

Record BasicComparer (dom : bytes -> Prop) (cmp : bytes -> bytes -> Z) : Prop := {
  cmp_eq : forall a b, dom a -> dom b -> (cmp a b = 0 <-> a = b);
  cmp_flip : forall a b, dom a -> dom b -> (cmp a b < 0 <-> 0 < cmp b a);
  cmp_trans : forall a b c, dom a -> dom b -> dom c ->
      cmp a b < 0 -> cmp b c < 0 -> cmp a c < 0
}.

Definition any_key : bytes -> Prop := fun _ => True.
Definition internal_key : bytes -> Prop := fun ik => 8 <= len ik.

(** [bytes.Compare] of the Go standard library, the default comparer. *)
Fixpoint bytes_Compare (a b : bytes) : Z :=
  match a, b with
  | [], [] => 0
  | [], _ :: _ => -1
  | _ :: _, [] => 1
  | x :: a', y :: b' =>
      if byte_to_Z x <? byte_to_Z y then -1
      else if byte_to_Z y <? byte_to_Z x then 1
      else bytes_Compare a' b'
  end.

(** ** The reference ordered map

    An association list kept in strictly increasing key order: [put]
    inserts or overwrites, [delete] removes. *)

Module RefMap.
Section refmap.
Variable cmp : bytes -> bytes -> Z.

Definition t : Type := list (bytes * bytes).

Fixpoint put (key value : bytes) (m : t) : t :=
  match m with
  | [] => [(key, value)]
  | (k', v') :: m' =>
      if cmp k' key <? 0 then (k', v') :: put key value m'
      else if cmp k' key =? 0 then (key, value) :: m'
      else (key, value) :: m
  end.

Fixpoint delete (key : bytes) (m : t) : t :=
  match m with
  | [] => []
  | (k', v') :: m' =>
      if cmp k' key =? 0 then m' else (k', v') :: delete key m'
  end.

Fixpoint get (key : bytes) (m : t) : option bytes :=
  match m with
  | [] => None
  | (k', v') :: m' => if cmp k' key =? 0 then Some v' else get key m'
  end.

(** The first entry whose key is at least [key]. *)
Fixpoint find_ge (key : bytes) (m : t) : option (bytes * bytes) :=
  match m with
  | [] => None
  | (k', v') :: m' => if cmp k' key <? 0 then find_ge key m' else Some (k', v')
  end.

Definition keys (m : t) : list bytes := map fst m.

Definition payload (m : t) : Z :=
  fold_right (fun e acc => len (fst e) + len (snd e) + acc) 0 m.

Definition lt (a b : bytes) : Prop := cmp a b < 0.

Definition sorted (m : t) : Prop := StronglySorted lt (keys m).

(** The entry [e] lies before [key]. *)
Definition key_before (key : bytes) (e : bytes * bytes) : Prop := cmp (fst e) key < 0.

End refmap.

(** Sorted, with every key in the domain of the comparer. *)
Definition wf (dom : bytes -> Prop) (cmp : bytes -> bytes -> Z) (m : t) : Prop :=
  sorted cmp m /\ Forall (fun e => dom (fst e)) m.

End RefMap.

(** ** Sequences of operations on a store *)

Inductive op : Type :=
| OpPut (key value : bytes)
| OpDelete (key : bytes).

Definition op_key (o : op) : bytes :=
  match o with OpPut key _ => key | OpDelete key => key end.

Section run.
Variable cmp : bytes -> bytes -> Z.
Variable rand_Int : nat -> Z.
Variable growslice : Z -> Z -> Z.

Definition apply_op (p : memdb.DB_) (o : op) : res (memdb.DB_ * error) :=
  match o with
  | OpPut key value => memdb.Put cmp rand_Int growslice p key value
  | OpDelete key => memdb.Delete cmp p key
  end.

(** The operations one after the other; what each returns is dropped. *)
Fixpoint run (p : memdb.DB_) (ops : list op) : res memdb.DB_ :=
  match ops with
  | [] => Ok p
  | o :: ops' => '(p', _) ← apply_op p o; run p' ops'
  end.

Definition replay_op (m : RefMap.t) (o : op) : RefMap.t :=
  match o with
  | OpPut key value => RefMap.put cmp key value m
  | OpDelete key => RefMap.delete cmp key m
  end.

Definition replay (m : RefMap.t) (ops : list op) : RefMap.t :=
  fold_left replay_op ops m.

End run.

(** ** The representation invariant of the store *)

Module Rep.
Import memdb.

(** Reading a cell of the node table where no bound is to be checked. *)
Definition rd (nd : list Z) (a : Z) : Z :=
  match nd !! Z.to_nat a with Some x => x | None => 0 end.

Definition height (nd : list Z) (x : Z) : Z := rd nd (x + nHeight).
Definition next (nd : list Z) (i x : Z) : Z := rd nd (x + nNext + i).
Definition koff (nd : list Z) (x : Z) : Z := rd nd x.
Definition klen (nd : list Z) (x : Z) : Z := rd nd (x + nKey).
Definition vlen (nd : list Z) (x : Z) : Z := rd nd (x + nVal).

Definition sub (kv : bytes) (o l : Z) : bytes :=
  take (Z.to_nat l) (drop (Z.to_nat o) kv).
Definition keyOf (nd : list Z) (kv : bytes) (x : Z) : bytes :=
  sub kv (koff nd x) (klen nd x).
Definition valOf (nd : list Z) (kv : bytes) (x : Z) : bytes :=
  sub kv (koff nd x + klen nd x) (vlen nd x).
Definition entry (nd : list Z) (kv : bytes) (x : Z) : bytes * bytes :=
  (keyOf nd kv x, valOf nd kv x).

(** [x], then the nodes [ys] one after the other, then [z], following [nx]. *)
Fixpoint linked (nx : Z -> Z) (x : Z) (ys : list Z) (z : Z) : Prop :=
  match ys with
  | [] => nx x = z
  | y :: ys' => nx x = y /\ linked nx y ys' z
  end.

(** The nodes of [l] that take part in level [i]. *)
Definition level (nd : list Z) (i : Z) (l : list Z) : list Z :=
  filter (fun x => i < height nd x) l.

(** The last of [x :: ys]. *)
Definition lastd (x : Z) (ys : list Z) : Z := List.last ys x.

Record node_ok (dom : bytes -> Prop) (nd : list Z) (kv : bytes) (x : Z) : Prop := {
  nk_pos : nNext + tMaxHeight <= x;
  nk_height : 1 <= height nd x <= tMaxHeight;
  nk_fit : x + nNext + height nd x <= len nd;
  nk_off : 0 <= koff nd x;
  nk_klen : 0 <= klen nd x;
  nk_vlen : 0 <= vlen nd x;
  nk_kv : koff nd x + klen nd x + vlen nd x <= len kv;
  nk_dom : dom (keyOf nd kv x)
}.

(** The cells of two nodes do not overlap. *)
Definition apart (nd : list Z) (x y : Z) : Prop :=
  x + nNext + height nd x <= y \/ y + nNext + height nd y <= x.

Definition key_lt (cmp : bytes -> bytes -> Z) (nd : list Z) (kv : bytes) (x y : Z) : Prop :=
  cmp (keyOf nd kv x) (keyOf nd kv y) < 0.

Definition total (nd : list Z) (l : list Z) : Z :=
  fold_right (fun x acc => klen nd x + vlen nd x + acc) 0 l.

(** [Inv dom cmp p l]: the store [p] holds the live nodes [l], in key
    order. *)
Record Inv (dom : bytes -> Prop) (cmp : bytes -> bytes -> Z)
    (p : DB_) (l : list Z) : Prop := {
  inv_maxHeight : 1 <= maxHeight p <= tMaxHeight;
  inv_prevNode : len (prevNode p) = tMaxHeight;
  inv_head : nNext + tMaxHeight <= len (nodeData p);
  inv_head_height : height (nodeData p) 0 = tMaxHeight;
  inv_nodes : Forall (node_ok dom (nodeData p) (kvData p)) l;
  inv_heights : Forall (fun x => height (nodeData p) x <= maxHeight p) l;
  inv_apart : forall x y, x ∈ l -> y ∈ l -> x <> y -> apart (nodeData p) x y;
  inv_sorted : StronglySorted (key_lt cmp (nodeData p) (kvData p)) l;
  inv_links : forall i, 0 <= i < tMaxHeight ->
      linked (next (nodeData p) i) 0 (level (nodeData p) i l) 0;
  inv_count : len l + nNext + tMaxHeight <= len (nodeData p);
  inv_n : n p = len l;
  inv_kvSize : kvSize p = total (nodeData p) l
}.

(** The entries of the store, in key order. *)
Definition entries (p : DB_) (l : list Z) : RefMap.t :=
  map (entry (nodeData p) (kvData p)) l.

(** [p] represents the ordered map [m]. *)
Definition Repr (dom : bytes -> Prop) (cmp : bytes -> bytes -> Z)
    (p : DB_) (m : RefMap.t) : Prop :=
  exists l, Inv dom cmp p l /\ entries p l = m.

(** The addresses [Put] and [Delete] write in their loops over
    [p.prevNode[:h]], from level [i] on. *)
Fixpoint cells (i : Z) (prevs : list Z) : list Z :=
  match prevs with
  | [] => []
  | x :: prevs' => (x + nNext + i) :: cells (i + 1) prevs'
  end.

(** *** What the proofs say about a search *)

Section order.
Variable cmp : bytes -> bytes -> Z.

(** [x] lies before [key]. *)
Definition before (p : DB_) (key : bytes) (x : Z) : Prop :=
  cmp (keyOf (nodeData p) (kvData p) x) key < 0.

(** Whether the first of [l2] carries [key]. *)
Definition exact_hd (p : DB_) (key : bytes) (l2 : list Z) : bool :=
  match l2 with
  | [] => false
  | y :: _ => cmp (keyOf (nodeData p) (kvData p) y) key =? 0
  end.

(** What the loop compares the key with at [next]. *)
Definition probe (p : DB_) (key : bytes) (next0 : Z) : res Z :=
  if next0 =? 0 then Ok 1
  else k ← node_key p next0; Ok (cmp k key).

End order.

(** A cell belongs to the head or to a live node. *)
Definition owns (p : DB_) (l : list Z) (x f : Z) : Prop :=
  (x = 0 \/ x ∈ l) /\ 0 <= f < nNext + height (nodeData p) x.

(** The chain of level [h] behind a node that takes part in it. *)
Definition at_node (p : DB_) (a : list Z) (node h : Z) : Prop :=
  (a = [] /\ node = 0) \/
  (exists a', a = a' ++ [node] /\ h < height (nodeData p) node).

(** The node before the key on level [j]. *)
Definition prev_at (p : DB_) (l1 : list Z) (j : Z) : Z :=
  lastd 0 (level (nodeData p) j l1).

(** The four leading cells of a node are the same in both tables. *)
Definition same_head (nd nd' : list Z) (x : Z) : Prop :=
  forall f, 0 <= f < nNext -> rd nd' (x + f) = rd nd (x + f).

(** [a] is the link cell, on a level below [h], of the node before the key. *)
Definition written (p : DB_) (l1 : list Z) (h a : Z) : Prop :=
  exists i, 0 <= i < h /\ a = prev_at p l1 i + nNext + i.

(** The node table and the scratch array of an empty store. *)
Definition empty_nodeData : list Z := [0; 0; 0; 12; 0; 0; 0; 0; 0; 0; 0; 0; 0; 0; 0; 0].
Definition empty_prevNode : list Z := [0; 0; 0; 0; 0; 0; 0; 0; 0; 0; 0; 0].

(** The store [New_] returns for the capacity [c]. *)
Definition empty_store (c : Z) : DB_ :=
  mkDB O [] c empty_nodeData empty_prevNode 1 0 0.

(** The iterator stands on the live node [x]. *)
Definition stands_on (p : DB_) (i : dbIter_) (x : Z) : Prop :=
  it_released i = false /\ it_slice i = None /\ it_node i = x
  /\ it_key i = keyOf (nodeData p) (kvData p) x
  /\ it_value i = valOf (nodeData p) (kvData p) x.

End Rep.

(** ** The stores the operations reach *)

Section reach.
Variable dom : bytes -> Prop.
Variable cmp : bytes -> bytes -> Z.
Variable rand_Int : nat -> Z.
Variable growslice : Z -> Z -> Z.

(** The stores that [New_] followed by [Put], [Delete] and [Reset] can
    produce, with keys the comparer is defined on. *)
Inductive reachable : memdb.DB_ -> Prop :=
| reach_New capacity p :
    memdb.New_ capacity = Ok p -> reachable p
| reach_Put p key value p' e :
    reachable p -> dom key ->
    memdb.Put cmp rand_Int growslice p key value = Ok (p', e) -> reachable p'
| reach_Delete p key p' e :
    reachable p -> dom key ->
    memdb.Delete cmp p key = Ok (p', e) -> reachable p'
| reach_Reset p p' :
    reachable p -> memdb.Reset p = Ok p' -> reachable p'.

End reach.

Module HeightInv.
Import memdb Rep.

(** [l] is the list of nodes met from the head along level 0. *)
Definition level0_chain (p : DB_) (l : list Z) : Prop :=
  linked (next (nodeData p) 0) 0 l 0.

(** The bounds on heights. *)
Definition heights_ok (p : DB_) (l : list Z) : Prop :=
  1 <= maxHeight p <= tMaxHeight
  /\ rd (nodeData p) nHeight = tMaxHeight
  /\ Forall (fun x => 1 <= rd (nodeData p) (x + nHeight) <= maxHeight p) l.

End HeightInv.

(** The bytes of a string literal. *)
Definition b_ (s : string) : bytes := list_byte_of_string s.

(** One [Put] per pair, in order. *)
Definition put_ops (kvs : list (bytes * bytes)) : list op :=
  map (fun e => OpPut (fst e) (snd e)) kvs.

(** The parameters the examples run with: the bytewise comparer, a
    generator that always returns 0 (every new node gets the full height)
    and a runtime that doubles a slice. *)
Definition rand0 : nat -> Z := fun _ => 0.
Definition grow2 : Z -> Z -> Z := fun _ l => 2 * l.

(** The store after [Put("a","1")] and [Put("b","2")] on an empty store of
    capacity 4. *)
Definition two_puts : list op := [OpPut (b_ "a") (b_ "1"); OpPut (b_ "b") (b_ "2")].
Definition two_entry_store : memdb.DB_ :=
  Eval vm_compute in
    match run bytes_Compare rand0 grow2 (Rep.empty_store 4) two_puts with
    | Ok p => p
    | _ => Rep.empty_store 4
    end.

(** ** The wire format of a batch *)

Module Wire.
Import binary leveldb.

(** The bytes [PutUvarint] writes for [x], at most [fuel] of them. *)
Fixpoint uvarint_bytes (fuel : nat) (x : Z) : bytes :=
  match fuel with
  | O => []
  | S fuel' =>
      if 0x80 <=? x
      then byte_of_Z (Z.lor (x mod 256) 0x80) :: uvarint_bytes fuel' (Z.shiftr x 7)
      else [byte_of_Z x]
  end.

Definition uvarint (x : Z) : bytes := uvarint_bytes (Z.to_nat MaxVarintLen64) x.

(** A record of a batch: op tag, key, value (empty for a delete). *)
Definition record : Type := Z * bytes * bytes.

(** The bytes of a record on the wire. *)
Definition enc_rec (r : record) : bytes :=
  let '(kt, key, value) := r in
  byte_of_Z kt :: uvarint (len key) ++ key
    ++ (if kt =? keyTypeVal then uvarint (len value) ++ value else []).

(** The index entry of a record whose bytes start at offset [off]. *)
Definition index_at (off : Z) (r : record) : batchIndex :=
  let '(kt, key, value) := r in
  let kp := off + 1 + len (uvarint (len key)) in
  if kt =? keyTypeVal
  then mkIndex kt kp (len key) (kp + len key + len (uvarint (len value))) (len value)
  else mkIndex kt kp (len key) 0 0.

(** The index of records that follow one another from offset [off] on. *)
Fixpoint indexes (off : Z) (rs : list record) : list batchIndex :=
  match rs with
  | [] => []
  | r :: rs' => index_at off r :: indexes (off + len (enc_rec r)) rs'
  end.

(** The calls that build a batch. *)
Inductive bop : Type :=
| BPut (key value : bytes)
| BDelete (key : bytes).

(** The record a call appends. *)
Definition bop_record (o : bop) : record :=
  match o with
  | BPut key value => (keyTypeVal, key, value)
  | BDelete key => (keyTypeDel, key, [])
  end.

(** The calls carried out, one after the other. *)
Definition apply_bop (b : Batch) (o : bop) : res Batch :=
  match o with
  | BPut key value => leveldb.Put b key value
  | BDelete key => leveldb.Delete b key
  end.

Fixpoint build (b : Batch) (ops : list bop) : res Batch :=
  match ops with
  | [] => Ok b
  | o :: ops' => b' ← apply_bop b o; build b' ops'
  end.

(** The record at position [i] of a batch: op tag, key bytes, value bytes. *)
Definition record_at (b : Batch) (i : nat) : option (res record) :=
  match index b !! i with
  | Some ix => Some (key ← k ix (data b); value ← v ix (data b);
                     Ok (keyType ix, key, value))
  | None => None
  end.

(** The lengths that fit the room [appendRec] reserves for a length: five
    bytes hold a varint below [2^35]. *)
Definition short (s : bytes) : Prop := len s < 2 ^ 35.
Definition short_op (o : bop) : Prop :=
  match o with
  | BPut key value => short key /\ short value
  | BDelete key => short key
  end.

(** The op tag of a record is one of the two defined tags. *)
Definition tag_ok (r : record) : Prop :=
  let '(kt, _, _) := r in kt = keyTypeDel \/ kt = keyTypeVal.

(** The bytes of a sequence of records. *)
Definition enc (rs : list record) : bytes := concat (map enc_rec rs).

(** What the index entry [ix] reads from [data0]. *)
Definition read (data0 : bytes) (ix : batchIndex) : res record :=
  key ← k ix data0; value ← v ix data0; Ok (keyType ix, key, value).

(** The batches [Put] and [Delete] build from an empty one. *)
Definition records (ops : list bop) : list record := map bop_record ops.

(** A key of [2^35] bytes, the shortest whose length takes six bytes as a
    varint. *)
Definition long_key : bytes := replicate (Z.to_nat (2 ^ 35)) x00.

(** A delete record whose key length reads as [2^63]. *)
Definition overflow_input : bytes :=
  [x00; x80; x80; x80; x80; x80; x80; x80; x80; x80; x01].

(** A delete record whose key length reads as [2^64 - 11]. *)
Definition rewind_input : bytes :=
  [x00; xf5; xff; xff; xff; xff; xff; xff; xff; xff; x01].

(** A put of "k" with the value "v". *)
Definition one_put : list record := [(keyTypeVal, b_ "k", b_ "v")].

(** A delete of the empty key whose key length is written in two bytes,
    0x80 0x00, where one would do: [binary.Uvarint] reads it as 0.  And the
    batch [Load] makes of it. *)
Definition padded_delete : bytes := [x00; x80; x00].
Definition padded_batch : Batch :=
  mkBatch padded_delete [] [mkIndex keyTypeDel 3 0 0 0] 8.

(** Three calls: a put, a delete, a put. *)
Definition three_ops : list bop :=
  [BPut (b_ "a") (b_ "1"); BDelete (b_ "b"); BPut (b_ "c") (b_ "3")].

(** The batch the three calls build. *)
Definition three_batch : Batch :=
  Eval vm_compute in
    match build newBatch three_ops with Ok b => b | _ => newBatch end.

(** A batch of two calls, a delete and a put. *)
Definition two_ops : list bop := [BDelete (b_ "a"); BPut (b_ "d") (b_ "4")].
Definition two_batch : Batch :=
  Eval vm_compute in
    match build newBatch two_ops with Ok b => b | _ => newBatch end.

(** The calls a receiver gets when the calls [ops] are played to it. *)
Fixpoint play {R : Type} `{BatchReplay R} (ops : list bop) (r : R) : res R :=
  match ops with
  | [] => Ok r
  | BPut key value :: ops' => r' ← BatchReplay_Put r key value; play ops' r'
  | BDelete key :: ops' => r' ← BatchReplay_Delete r key; play ops' r'
  end.

(** The callback run on the records [rs], numbered from [i] on, up to its
    first error. *)
Fixpoint visit {St : Type} (fn : St -> Z -> Z -> bytes -> bytes -> res (St * error))
    (i : Z) (rs : list record) (st : St) : res (St * error) :=
  match rs with
  | [] => Ok (st, nil_error)
  | (kt, key, value) :: rs' =>
      '(st, err) ← fn st i kt key value;
      match err with
      | nil_error => visit fn (i + 1) rs' st
      | _ => Ok (st, err)
      end
  end.

(** The internal length of records: for each one the length of the key and
    of the value, and eight bytes. *)
Definition weigh (rs : list record) : Z :=
  fold_right (fun r acc => let '(_, key, value) := r in len key + len value + 8 + acc) 0 rs.

End Wire.

(** ** The reasons of a corrupted batch *)

Module Reasons.
Import binary leveldb.

(** The three reasons [decodeBatch] gives. *)
Definition reason_type (tag : Z) : string :=
  "bad record: invalid type " +:+ fmt_sharp_x tag.
Definition reason_key : string := "bad record: invalid key length".
Definition reason_value : string := "bad record: invalid value length".

(** The reason of [Batch.decode] for a wrong number of records. *)
Definition reason_count (x y : Z) : string :=
  "invalid records length: " +:+ fmt_d x +:+ " vs " +:+ fmt_d y.

(** The reasons [decodeBatch] gives for a record. *)
Inductive record_reason : string -> Prop :=
| rr_type tag : keyTypeVal < tag < 256 -> record_reason (reason_type tag)
| rr_key : record_reason reason_key
| rr_value : record_reason reason_value.

(** The reasons as the specification lists them, [X] and [Y] standing for
    two numbers. *)
Definition enumerated_reason (r : string) : Prop :=
  r = "bad record: invalid type"
  \/ r = "bad record: invalid key length"
  \/ (exists x y, r = reason_count x y)
  \/ r = "too short".

End Reasons.

(** ** A batch applied to the store *)

Module Mem.
Import binary leveldb Wire.

(** The bytes of the internal key of a record: the key, then the trailer. *)
Definition ikey (key : bytes) (seq kt : Z) : bytes :=
  key ++ le_bytes 8 (Z.lor (Z.shiftl seq 8) kt).

(** The entries [putMem] puts for the records [rs], the first one with
    sequence number [seq]: record by record, the internal key and the
    value. *)
Fixpoint mem_kvs (seq : Z) (rs : list record) : list (bytes * bytes) :=
  match rs with
  | [] => []
  | (kt, key, value) :: rs' => (ikey key seq kt, value) :: mem_kvs (seq + 1) rs'
  end.

(** What [putMem] does to the store: one [Put] per record, in order. *)
Definition mem_puts (seq : Z) (rs : list record) : list op :=
  put_ops (mem_kvs seq rs).


(** The batch [b] holds the records [rs]: entry [i] of the index reads
    record [i] from the buffer. *)
Definition holds (b : Batch) (rs : list record) : Prop :=
  Forall2 (fun ix r => read (data b) ix = Ok r) (index b) rs.

End Mem.

(** ** The moves of an iterator *)

Module Pass.
Import memdb Rep.

Section pass.
Variable cmp : bytes -> bytes -> Z.

(** Whether [fill] lets the key [k] pass under the range [sl]. *)
Definition inside (sl : option Range) (checkStart checkLimit : bool) (k : bytes) : bool :=
  negb (match sl with
        | Some r => out_of_range cmp r checkStart checkLimit k
        | None => false
        end).

(** The iterator [i'] and the result [ok] that a move of [i] to [x] (the
    head, or a live node) leaves behind, where the move sets the direction
    to [fw] and fills with the two checks. *)
Definition lands (p : DB_) (i : dbIter_) (fw checkStart checkLimit : bool) (x : Z)
    (i' : dbIter_) (ok : bool) : Prop :=
  it_released i' = false /\ it_slice i' = it_slice i /\ it_forward i' = fw
  /\ it_err i' = it_err i
  /\ if negb (x =? 0)
        && inside (it_slice i) checkStart checkLimit (keyOf (nodeData p) (kvData p) x)
     then ok = true /\ it_node i' = x
          /\ it_key i' = keyOf (nodeData p) (kvData p) x
          /\ it_value i' = valOf (nodeData p) (kvData p) x
     else ok = false /\ it_node i' = 0 /\ it_key i' = [] /\ it_value i' = [].

(** The nodes [l1] that [First] skips for the bound [s] and the nodes
    [l2] it leaves; the nodes [l1] that [Last] leaves for the bound [t] and
    the nodes [l2] it skips. *)
Definition split_start (p : DB_) (s : option bytes) (l1 l2 : list Z) : Prop :=
  match s with
  | Some s => Forall (fun y => cmp (keyOf (nodeData p) (kvData p) y) s < 0) l1
              /\ Forall (fun y => ~ cmp (keyOf (nodeData p) (kvData p) y) s < 0) l2
  | None => l1 = []
  end.
Definition split_limit (p : DB_) (t : option bytes) (l1 l2 : list Z) : Prop :=
  match t with
  | Some t => Forall (fun y => cmp (keyOf (nodeData p) (kvData p) y) t < 0) l1
              /\ Forall (fun y => ~ cmp (keyOf (nodeData p) (kvData p) y) t < 0) l2
  | None => l2 = []
  end.

End pass.

(** The nodes at the front of [ys] that [f] accepts. *)
Fixpoint upto (f : Z -> bool) (ys : list Z) : list Z :=
  match ys with
  | [] => []
  | y :: ys' => if f y then y :: upto f ys' else []
  end.

End Pass.

(** The iterator on [two_entry_store] after [Seek("a")], and the one after
    the [Next] that follows. *)
Definition iter_at_a : memdb.dbIter_ :=
  Eval vm_compute in
    match memdb.Seek bytes_Compare two_entry_store (memdb.NewIterator None) (b_ "a") with
    | Ok (_, i, _) => i
    | _ => memdb.NewIterator None
    end.
Definition iter_at_b : memdb.dbIter_ :=
  Eval vm_compute in
    match memdb.Next bytes_Compare two_entry_store iter_at_a with
    | Ok (_, i, _) => i
    | _ => memdb.NewIterator None
    end.

(** ** A writer for the journal *)

(** A buffer in memory as an [io.Writer], as [bytes.Buffer] is one:
    [Write] appends the bytes and returns nil. *)
#[global] Instance Buffer_Writer : leveldb.Writer bytes := {
  Writer_Write wr p := Ok (wr ++ p, len p, nil_error)
}.

(** * Proofs *)

(** ** Slices *)

Section slices.
Context {A : Type}.
Implicit Types (s : list A) (i lo hi : Z).

Lemma len_nonneg s : 0 <= len s.
Proof. unfold len. lia. Qed.

Lemma len_app s t : len (s ++ t) = len s + len t.
Proof. unfold len. rewrite length_app. lia. Qed.

Lemma len_nil : len (@nil A) = 0.
Proof. reflexivity. Qed.

Lemma len_cons x s : len (x :: s) = 1 + len s.
Proof. unfold len. simpl length. lia. Qed.

Lemma len_insert s k x : len (<[k := x]> s) = len s.
Proof. unfold len. by rewrite length_insert. Qed.

Lemma elem_lookup s i x :
  0 <= i -> s !! Z.to_nat i = Some x -> elem s i = Ok x.
Proof.
  intros Hi Hx. unfold elem.
  destruct (Z.ltb_spec i 0); [lia|]. by rewrite Hx.
Qed.

Lemma elem_inv s i x :
  elem s i = Ok x -> 0 <= i < len s /\ s !! Z.to_nat i = Some x.
Proof.
  unfold elem. destruct (Z.ltb_spec i 0); [done|].
  destruct (s !! Z.to_nat i) eqn:E; [|done].
  intros [= ->]. split; [|done].
  apply lookup_lt_Some in E. unfold len. lia.
Qed.

Lemma elem_in_range s i :
  0 <= i < len s -> exists x, elem s i = Ok x /\ s !! Z.to_nat i = Some x.
Proof.
  intros Hi. destruct (lookup_lt_is_Some_2 s (Z.to_nat i)) as [x Hx].
  { unfold len in Hi. lia. }
  exists x. split; [|done]. apply elem_lookup; [lia|done].
Qed.

Lemma assign_in_range s i x :
  0 <= i < len s -> assign s i x = Ok (<[Z.to_nat i := x]> s).
Proof.
  intros Hi. unfold assign.
  destruct (Z.leb_spec 0 i); [|lia]. destruct (Z.ltb_spec i (len s)); [|lia]. done.
Qed.

Lemma assign_inv s i x s' :
  assign s i x = Ok s' -> 0 <= i < len s /\ s' = <[Z.to_nat i := x]> s.
Proof.
  unfold assign.
  destruct (Z.leb_spec 0 i); [|done]. destruct (Z.ltb_spec i (len s)); [|done].
  intros [= <-]. split; [lia|done].
Qed.

Lemma slice_in_range s lo hi :
  0 <= lo <= hi -> hi <= len s ->
  slice s lo hi = Ok (take (Z.to_nat (hi - lo)) (drop (Z.to_nat lo) s)).
Proof.
  intros Hlo Hhi. unfold slice.
  destruct (Z.leb_spec 0 lo); [|lia]. destruct (Z.leb_spec lo hi); [|lia].
  destruct (Z.leb_spec hi (len s)); [|lia]. done.
Qed.

Lemma slice_inv s lo hi t :
  slice s lo hi = Ok t ->
  0 <= lo <= hi /\ hi <= len s /\ t = take (Z.to_nat (hi - lo)) (drop (Z.to_nat lo) s).
Proof.
  unfold slice.
  destruct (Z.leb_spec 0 lo); [|done]. destruct (Z.leb_spec lo hi); [|done].
  destruct (Z.leb_spec hi (len s)); [|done].
  intros [= <-]. repeat split; lia.
Qed.

Lemma slice_to_all s : slice_to s (len s) = Ok s.
Proof.
  unfold slice_to. rewrite slice_in_range by (pose proof (len_nonneg s); lia).
  f_equal. rewrite Z.sub_0_r. simpl. apply firstn_all2. unfold len. lia.
Qed.

Lemma slice_to_in_range s hi :
  0 <= hi <= len s -> slice_to s hi = Ok (take (Z.to_nat hi) s).
Proof.
  intros H. unfold slice_to. rewrite slice_in_range by lia.
  by rewrite Z.sub_0_r.
Qed.

Lemma len_take s k : 0 <= k <= len s -> len (take (Z.to_nat k) s) = k.
Proof. unfold len. intros H. rewrite length_take. lia. Qed.

Lemma len_drop s k : 0 <= k <= len s -> len (drop (Z.to_nat k) s) = len s - k.
Proof. unfold len. intros H. rewrite length_drop. lia. Qed.

Lemma len_replicate k (x : A) : 0 <= k -> len (replicate (Z.to_nat k) x) = k.
Proof. unfold len. intros H. rewrite length_replicate. lia. Qed.

End slices.

(** A step of a computation in [res]. *)
Lemma bind_Ok {A B} (m : res A) (f : A -> res B) a :
  m = Ok a -> (m ≫= f) = f a.
Proof. by intros ->. Qed.

Lemma bind_inv {A B} (m : res A) (f : A -> res B) b :
  (m ≫= f) = Ok b -> exists a, m = Ok a /\ f a = Ok b.
Proof. destruct m; simpl; [eauto|done|done]. Qed.

(** ** Cells of the node table *)

Module RepFacts.
Import memdb Rep.

Lemma rd_lookup nd a x : nd !! Z.to_nat a = Some x -> rd nd a = x.
Proof. unfold rd. by intros ->. Qed.

Lemma elem_rd (nd : list Z) a : 0 <= a < len nd -> elem nd a = Ok (rd nd a).
Proof.
  intros H. destruct (elem_in_range nd a H) as (x & -> & Hx).
  by rewrite (rd_lookup _ _ _ Hx).
Qed.

Lemma rd_insert nd a b x :
  0 <= a < len nd -> 0 <= b ->
  rd (<[Z.to_nat a := x]> nd) b = if decide (b = a) then x else rd nd b.
Proof.
  intros Ha Hb. unfold rd. case_decide as E.
  - subst b. rewrite list_lookup_insert_eq; [done|]. unfold len in Ha. lia.
  - rewrite list_lookup_insert_ne; [done|]. lia.
Qed.

Lemma rd_insert_eq nd a x :
  0 <= a < len nd -> rd (<[Z.to_nat a := x]> nd) a = x.
Proof. intros. rewrite rd_insert by lia. by rewrite decide_True. Qed.

Lemma rd_insert_ne nd a b x :
  0 <= a -> 0 <= b -> b <> a -> rd (<[Z.to_nat a := x]> nd) b = rd nd b.
Proof.
  intros Ha Hb E. unfold rd. rewrite list_lookup_insert_ne; [done|]. lia.
Qed.

Lemma rd_app_l nd t a : 0 <= a < len nd -> rd (nd ++ t) a = rd nd a.
Proof.
  intros H. unfold rd. rewrite lookup_app_l; [done|]. unfold len in H. lia.
Qed.

Lemma rd_app_r nd t j : 0 <= j -> rd (nd ++ t) (len nd + j) = rd t j.
Proof.
  intros H. unfold rd. rewrite lookup_app_r; [|unfold len; lia].
  replace (Z.to_nat (len nd + j) - length nd)%nat with (Z.to_nat j);
    [done|unfold len; lia].
Qed.

Lemma slice_sub kv o l :
  0 <= o -> 0 <= l -> o + l <= len kv -> slice kv o (o + l) = Ok (sub kv o l).
Proof.
  intros. rewrite slice_in_range by lia. unfold sub. do 3 f_equal. lia.
Qed.

Lemma sub_app_l kv t o l :
  0 <= o -> 0 <= l -> o + l <= len kv -> sub (kv ++ t) o l = sub kv o l.
Proof.
  intros Ho Hl H. unfold sub. unfold len in H.
  rewrite drop_app_le by lia. rewrite take_app_le; [done|].
  rewrite length_drop. lia.
Qed.

Lemma sub_app_r kv t : sub (kv ++ t) (len kv) (len t) = t.
Proof.
  unfold sub, len. rewrite !Nat2Z.id.
  rewrite drop_app_length. apply firstn_all.
Qed.

Lemma sub_app_mid kv t u : sub (kv ++ t ++ u) (len kv) (len t) = t.
Proof.
  unfold sub, len. rewrite !Nat2Z.id.
  rewrite drop_app_length. by rewrite take_app_length.
Qed.

Lemma sub_app_end kv t u : sub (kv ++ t ++ u) (len kv + len t) (len u) = u.
Proof.
  rewrite app_assoc. rewrite <- len_app. apply sub_app_r.
Qed.

End RepFacts.

(** ** Singly linked chains *)

Module Chain.
Import Rep.

#[global] Arguments lastd : simpl never.
#[global] Arguments level : simpl never.

Lemma lastd_cons x y ys : lastd x (y :: ys) = lastd y ys.
Proof.
  unfold lastd. revert y. induction ys as [|w ys IH]; intros y; [done|].
  change (List.last (y :: w :: ys) x) with (List.last (w :: ys) x).
  change (List.last (w :: ys) y) with
    (match ys with [] => w | _ :: _ => List.last ys y end).
  rewrite IH. destruct ys as [|u ys]; [done|].
  clear IH. revert u w y. induction ys as [|t ys IH]; intros u w y; [done|].
  change (List.last (u :: t :: ys) w) with (List.last (t :: ys) w).
  change (List.last (u :: t :: ys) y) with (List.last (t :: ys) y).
  apply (IH t w y).
Qed.

Lemma lastd_app x ys zs : lastd x (ys ++ zs) = lastd (lastd x ys) zs.
Proof.
  revert x. induction ys as [|y ys IH]; intros x; [done|].
  rewrite <- app_comm_cons, !lastd_cons. apply IH.
Qed.

Lemma lastd_snoc x ys y : lastd x (ys ++ [y]) = y.
Proof. by rewrite lastd_app. Qed.

Lemma lastd_elem x ys : lastd x ys ∈ x :: ys.
Proof.
  revert x. induction ys as [|y ys IH]; intros x.
  - apply list_elem_of_here.
  - rewrite lastd_cons. apply list_elem_of_further, IH.
Qed.

Section chain.
Variables nx nx' : Z -> Z.

Lemma linked_hd x ys z : linked nx x ys z -> nx x = hd z ys.
Proof. destruct ys; simpl; [done|by intros [? _]]. Qed.

Lemma linked_app_last x A B z :
  linked nx x (A ++ B) z -> linked nx (lastd x A) B z.
Proof.
  revert x. induction A as [|a A IH]; intros x; [done|].
  simpl. intros [_ H]. rewrite lastd_cons. by apply IH.
Qed.

Lemma linked_ext x ys z :
  (forall u, u ∈ x :: ys -> nx' u = nx u) ->
  linked nx x ys z -> linked nx' x ys z.
Proof.
  revert x. induction ys as [|y ys IH]; intros x Hext; simpl.
  - intros <-. apply Hext, list_elem_of_here.
  - intros [<- H]. split; [apply Hext, list_elem_of_here|].
    apply IH; [|done]. intros u Hu. by apply Hext, list_elem_of_further.
Qed.

(** Splicing [node] in after the last of [x :: A]. *)
Lemma linked_insert x A B z node :
  NoDup (x :: A ++ B) ->
  linked nx x (A ++ B) z ->
  nx' (lastd x A) = node ->
  nx' node = nx (lastd x A) ->
  (forall u, u ∈ x :: A ++ B -> u <> lastd x A -> nx' u = nx u) ->
  linked nx' x (A ++ node :: B) z.
Proof.
  revert x. induction A as [|a A IH]; intros x Hnd Hl Hp Hn Hext.
  - simpl in *. split; [done|]. apply NoDup_cons in Hnd as [Hx _].
    unfold lastd in Hn. simpl in Hn.
    destruct B as [|y B]; simpl in *; [congruence|].
    destruct Hl as [Hy Hl]. split; [congruence|].
    apply linked_ext; [|done]. intros u Hu. apply Hext.
    + by apply list_elem_of_further.
    + unfold lastd. simpl. intros ->. done.
  - rewrite lastd_cons in *. simpl in Hl. destruct Hl as [Ha Hl].
    pose proof Hnd as Hnd'. apply NoDup_cons in Hnd' as [Hx Hnd'].
    simpl. split.
    + rewrite <- Ha. apply Hext; [apply list_elem_of_here|].
      intros ->. apply Hx.
      pose proof (lastd_elem a A) as Hin.
      change (a :: A ++ B) with ((a :: A) ++ B). apply elem_of_app. by left.
    + apply IH; try done.
      intros u Hu. by apply Hext, list_elem_of_further.
Qed.

(** Taking [node] out from behind the last of [x :: A]. *)
Lemma linked_delete x A B z node :
  NoDup (x :: A ++ node :: B) ->
  linked nx x (A ++ node :: B) z ->
  nx' (lastd x A) = nx node ->
  (forall u, u ∈ x :: A ++ B -> u <> lastd x A -> nx' u = nx u) ->
  linked nx' x (A ++ B) z.
Proof.
  revert x. induction A as [|a A IH]; intros x Hnd Hl Hp Hext.
  - simpl in *. destruct Hl as [Hx Hl]. unfold lastd in Hp. simpl in Hp.
    apply NoDup_cons in Hnd as [Hx' Hnd]. apply not_elem_of_cons in Hx' as [_ Hx'].
    destruct B as [|y B]; simpl in *; [congruence|].
    destruct Hl as [Hy Hl]. split; [congruence|].
    apply linked_ext; [|done]. intros u Hu. apply Hext.
    + by apply list_elem_of_further.
    + unfold lastd. simpl. intros ->. done.
  - rewrite lastd_cons in *. simpl in Hl. destruct Hl as [Ha Hl].
    pose proof Hnd as Hnd'. apply NoDup_cons in Hnd' as [Hx Hnd'].
    simpl. split.
    + rewrite <- Ha. apply Hext; [apply list_elem_of_here|].
      intros ->. apply Hx.
      pose proof (lastd_elem a A) as Hin.
      change (a :: A ++ node :: B) with ((a :: A) ++ node :: B).
      apply elem_of_app. by left.
    + apply IH; try done.
      intros u Hu. by apply Hext, list_elem_of_further.
Qed.

End chain.

(** *** Levels *)

Lemma level_app nd i A B : level nd i (A ++ B) = level nd i A ++ level nd i B.
Proof. apply filter_app. Qed.

Lemma level_elem nd i l x : x ∈ level nd i l <-> i < height nd x /\ x ∈ l.
Proof. unfold level. by rewrite list_elem_of_filter. Qed.

Lemma level_cons_in nd i x l : i < height nd x -> level nd i (x :: l) = x :: level nd i l.
Proof. intros. unfold level. by rewrite filter_cons_True. Qed.

Lemma level_cons_out nd i x l : ~ i < height nd x -> level nd i (x :: l) = level nd i l.
Proof. intros. unfold level. by rewrite filter_cons_False. Qed.

Lemma level_ext nd nd' i l :
  (forall x, x ∈ l -> height nd' x = height nd x) -> level nd' i l = level nd i l.
Proof.
  induction l as [|x l IH]; intros H; [done|].
  assert (height nd' x = height nd x) as E by apply H, list_elem_of_here.
  assert (level nd' i l = level nd i l) as E'.
  { apply IH. intros y Hy. by apply H, list_elem_of_further. }
  destruct (decide (i < height nd x)).
  - rewrite !level_cons_in by lia. by rewrite E'.
  - rewrite !level_cons_out by lia. done.
Qed.

Lemma level_all nd l :
  Forall (fun x => 1 <= height nd x) l -> level nd 0 l = l.
Proof.
  induction 1 as [|x l Hx _ IH]; [done|].
  rewrite level_cons_in by lia. by rewrite IH.
Qed.

Lemma level_none nd i l :
  Forall (fun x => height nd x <= i) l -> level nd i l = [].
Proof.
  induction 1 as [|x l Hx _ IH]; [done|].
  rewrite level_cons_out by lia. done.
Qed.

(** The first node of a level is preceded by nodes below the level. *)
Lemma level_hd_split nd i l y ys :
  level nd i l = y :: ys ->
  exists l1 l2, l = l1 ++ y :: l2 /\ level nd i l1 = [] /\ level nd i l2 = ys
                /\ i < height nd y.
Proof.
  induction l as [|x l IH]; [done|].
  destruct (decide (i < height nd x)).
  - rewrite level_cons_in by done. intros [= -> <-].
    exists [], l. done.
  - rewrite level_cons_out by done. intros H.
    destruct (IH H) as (l1 & l2 & -> & H1 & H2 & Hy).
    exists (x :: l1), l2. split; [done|]. split; [|done].
    by rewrite level_cons_out.
Qed.

Lemma NoDup_level nd i l : NoDup l -> NoDup (level nd i l).
Proof. apply NoDup_filter. Qed.

End Chain.

(** ** The search *)

Module Search.
Import memdb Rep RepFacts Chain.

Ltac consts := unfold nNext, nKV, nKey, nVal, nHeight, tMaxHeight in *.

Section search.
Variable dom : bytes -> Prop.
Variable cmp : bytes -> bytes -> Z.
Hypothesis HC : BasicComparer dom cmp.

Implicit Types (p : DB_) (l : list Z) (key : bytes).

Local Abbreviation before := (Rep.before cmp).
Local Abbreviation exact_hd := (Rep.exact_hd cmp).

Lemma cmp_refl a : dom a -> cmp a a = 0.
Proof. intros Ha. by apply (cmp_eq _ _ HC). Qed.

Lemma cmp_irrefl a : dom a -> ~ cmp a a < 0.
Proof. intros Ha. rewrite cmp_refl by done. lia. Qed.

Lemma Inv_node p l x : Inv dom cmp p l -> x ∈ l -> node_ok dom (nodeData p) (kvData p) x.
Proof. intros HI Hx. pose proof (inv_nodes _ _ _ _ HI) as H. rewrite Forall_forall in H. by apply H. Qed.

Lemma Inv_height_le p l x : Inv dom cmp p l -> x ∈ l -> height (nodeData p) x <= maxHeight p.
Proof. intros HI Hx. pose proof (inv_heights _ _ _ _ HI) as H. rewrite Forall_forall in H. by apply H. Qed.

Lemma Inv_pos p l x : Inv dom cmp p l -> x ∈ l -> nNext + tMaxHeight <= x.
Proof. intros HI Hx. by destruct (Inv_node p l x HI Hx). Qed.

Lemma Inv_not_head p l : Inv dom cmp p l -> 0 ∉ l.
Proof. intros HI H0. pose proof (Inv_pos p l 0 HI H0). unfold nNext, tMaxHeight in *. lia. Qed.

Lemma Inv_dom p l x : Inv dom cmp p l -> x ∈ l -> dom (keyOf (nodeData p) (kvData p) x).
Proof. intros HI Hx. by destruct (Inv_node p l x HI Hx). Qed.

Lemma sorted_NoDup p l :
  Forall (node_ok dom (nodeData p) (kvData p)) l ->
  StronglySorted (key_lt cmp (nodeData p) (kvData p)) l -> NoDup l.
Proof.
  intros Hn. induction 1 as [|x l Hs IH Hx]; [constructor|].
  apply Forall_cons in Hn as [Hnx Hn].
  apply NoDup_cons. split; [|by apply IH].
  intros Hin. rewrite Forall_forall in Hx. specialize (Hx x Hin).
  unfold key_lt in Hx. by apply cmp_irrefl in Hx; [|apply Hnx].
Qed.

Lemma Inv_NoDup p l : Inv dom cmp p l -> NoDup l.
Proof. intros HI. eapply sorted_NoDup; apply HI. Qed.

Lemma Inv_NoDup_head p l : Inv dom cmp p l -> NoDup (0 :: l).
Proof.
  intros HI. apply NoDup_cons. split; [by eapply Inv_not_head|by eapply Inv_NoDup].
Qed.

Lemma Inv_set_prevNode p l pn :
  Inv dom cmp p l -> len pn = tMaxHeight -> Inv dom cmp (set_prevNode p pn) l.
Proof. intros HI Hpn. destruct HI. by constructor. Qed.

Lemma owns_range p l x f :
  Inv dom cmp p l -> owns p l x f -> 0 <= x /\ 0 <= x + f < len (nodeData p).
Proof.
  intros HI [[->|Hx] Hf].
  - rewrite (inv_head_height _ _ _ _ HI) in Hf.
    pose proof (inv_head _ _ _ _ HI). consts. lia.
  - destruct (Inv_node _ _ _ HI Hx). unfold nNext, tMaxHeight in *. lia.
Qed.

Lemma owns_inj p l x f y g :
  Inv dom cmp p l -> owns p l x f -> owns p l y g -> x + f = y + g ->
  x = y /\ f = g.
Proof.
  intros HI [Hx Hf] [Hy Hg] E.
  destruct (decide (x = y)) as [->|Hne]; [split; [done|lia]|exfalso].
  pose proof (inv_head_height _ _ _ _ HI) as Hh.
  destruct Hx as [->|Hx], Hy as [->|Hy]; try done.
  - rewrite Hh in Hf. pose proof (Inv_pos _ _ _ HI Hy). consts. lia.
  - rewrite Hh in Hg. pose proof (Inv_pos _ _ _ HI Hx). consts. lia.
  - destruct (inv_apart _ _ _ _ HI x y Hx Hy Hne); consts; lia.
Qed.

Lemma node_key_ok p l x :
  Inv dom cmp p l -> x ∈ l ->
  node_key p x = Ok (keyOf (nodeData p) (kvData p) x).
Proof.
  intros HI Hx. destruct (Inv_node _ _ _ HI Hx).
  unfold node_key, nNext, tMaxHeight, nKey in *.
  rewrite (bind_Ok _ _ _ (elem_rd (nodeData p) x ltac:(lia))).
  rewrite (bind_Ok _ _ _ (elem_rd (nodeData p) (x + 1) ltac:(lia))).
  unfold keyOf, koff, klen, nKey in *.
  by apply slice_sub; lia.
Qed.

Lemma at_node_lastd p a node h :
  at_node p a node h -> lastd 0 (level (nodeData p) h a) = node.
Proof.
  intros [[-> ->]|(a' & -> & Hh)]; [done|].
  rewrite level_app, level_cons_in by done. apply lastd_snoc.
Qed.

Lemma at_node_owns p a rest node h :
  Inv dom cmp p (a ++ rest) -> 0 <= h < tMaxHeight -> at_node p a node h ->
  owns p (a ++ rest) node (nNext + h).
Proof.
  intros HI Hh [[-> ->]|(a' & -> & Hn)].
  - split; [by left|]. rewrite (inv_head_height _ _ _ _ HI). unfold nNext. lia.
  - split; [|unfold nNext; lia]. right.
    rewrite !elem_of_app, elem_of_cons. auto.
Qed.

Lemma at_node_linked p a rest node h :
  Inv dom cmp p (a ++ rest) -> 0 <= h < tMaxHeight -> at_node p a node h ->
  linked (next (nodeData p) h) node (level (nodeData p) h rest) 0.
Proof.
  intros HI Hh Hat. pose proof (inv_links _ _ _ _ HI h Hh) as Hl.
  rewrite level_app in Hl. apply linked_app_last in Hl.
  by rewrite (at_node_lastd _ _ _ _ Hat) in Hl.
Qed.

(** The sorted list of nodes splits around any key. *)
Lemma split_at_key p l key :
  Inv dom cmp p l -> dom key ->
  exists l1 l2, l = l1 ++ l2 /\ Forall (before p key) l1
                /\ Forall (fun y => ~ before p key y) l2.
Proof.
  intros HI Hk. pose proof (inv_sorted _ _ _ _ HI) as Hs.
  pose proof (inv_nodes _ _ _ _ HI) as Hn. clear HI.
  induction Hs as [|x l Hs IH Hx].
  - exists [], []. by repeat constructor.
  - apply Forall_cons in Hn as [Hnx Hn].
    destruct (Z_lt_dec (cmp (keyOf (nodeData p) (kvData p) x) key) 0) as [Hb|Hb].
    + destruct (IH Hn) as (l1 & l2 & -> & H1 & H2).
      exists (x :: l1), l2. split; [done|]. split; [by constructor|done].
    + exists [], (x :: l). split; [done|]. split; [constructor|].
      constructor; [done|]. rewrite Forall_forall in Hx, Hn |- *.
      intros y Hy Hyb. apply Hb. unfold Rep.before in *.
      eapply (cmp_trans _ _ HC); [apply Hnx|apply (Hn y Hy)|done|apply (Hx y Hy)|done].
Qed.

(** Only the first node at or after a key can carry it. *)
Lemma exact_is_hd p l1 l2 key y :
  Inv dom cmp p (l1 ++ l2) -> dom key ->
  Forall (fun y => ~ before p key y) l2 ->
  y ∈ l2 -> cmp (keyOf (nodeData p) (kvData p) y) key = 0 ->
  exists r, l2 = y :: r.
Proof.
  intros HI Hk H2 Hy Hc. destruct l2 as [|y0 r]; [by apply elem_of_nil in Hy|].
  apply elem_of_cons in Hy as [->|Hy]; [by eexists|exfalso].
  pose proof (inv_sorted _ _ _ _ HI) as Hs.
  apply StronglySorted_app_1_r in Hs.
  apply StronglySorted_cons in Hs as [Hs _]. rewrite Forall_forall in Hs.
  specialize (Hs y Hy). apply Forall_cons in H2 as [H0 _]. apply H0.
  assert (y ∈ l1 ++ y0 :: r) as Hyl by (rewrite elem_of_app, elem_of_cons; auto).
  apply (cmp_eq _ _ HC) in Hc; [|by eapply Inv_dom|done].
  unfold Rep.before. by rewrite <- Hc.
Qed.

End search.
End Search.

Module FindGE.
Import memdb Rep RepFacts Chain Search.

Section findGE.
Variable dom : bytes -> Prop.
Variable cmp : bytes -> bytes -> Z.
Hypothesis HC : BasicComparer dom cmp.

Implicit Types (p : DB_) (l : list Z) (key : bytes).

Local Abbreviation probe := (Rep.probe cmp).

Lemma probe_node p l key y :
  Inv dom cmp p l -> y ∈ l ->
  probe p key y = Ok (cmp (keyOf (nodeData p) (kvData p) y) key).
Proof.
  intros HI Hy. unfold Rep.probe.
  pose proof (Inv_pos _ _ _ _ _ HI Hy). consts.
  destruct (Z.eqb_spec y 0); [lia|].
  by rewrite (bind_Ok _ _ _ (node_key_ok _ _ _ _ _ HI Hy)).
Qed.

(** The probe when a node before the key is left on the level. *)
Lemma probe_before p key a b l2 node h y ys :
  Inv dom cmp p (a ++ b ++ l2) ->
  Forall (before cmp p key) (a ++ b) ->
  0 <= h < tMaxHeight -> at_node p a node h ->
  level (nodeData p) h b = y :: ys ->
  next (nodeData p) h node = y /\
  exists c, probe p key y = Ok c /\ c < 0.
Proof.
  intros HI H1 Hh Hat Eb.
  pose proof (at_node_linked _ _ p a (b ++ l2) node h HI Hh Hat) as Hl.
  rewrite level_app, Eb in Hl. destruct Hl as [Hn _]. split; [done|].
  assert (y ∈ b) as Hyb.
  { eapply (level_elem _ h). rewrite Eb. apply list_elem_of_here. }
  eexists. split.
  - eapply probe_node; [done|]. rewrite !elem_of_app. auto.
  - rewrite Forall_forall in H1. apply H1. rewrite elem_of_app. auto.
Qed.

(** The probe when the level holds no further node before the key. *)
Lemma probe_at p key a b l2 node h :
  Inv dom cmp p (a ++ b ++ l2) -> dom key ->
  Forall (fun y => ~ before cmp p key y) l2 ->
  0 <= h < tMaxHeight -> at_node p a node h ->
  level (nodeData p) h b = [] ->
  exists c, probe p key (next (nodeData p) h node) = Ok c /\ 0 <= c
    /\ (c = 0 -> hd 0 l2 = next (nodeData p) h node /\ exact_hd cmp p key l2 = true)
    /\ (h = 0 -> hd 0 l2 = next (nodeData p) h node
                 /\ exact_hd cmp p key l2 = (c =? 0)).
Proof.
  intros HI Hk H2 Hh Hat Eb.
  pose proof (at_node_linked _ _ p a (b ++ l2) node h HI Hh Hat) as Hl.
  rewrite level_app, Eb in Hl. simpl in Hl. apply linked_hd in Hl.
  assert (h = 0 -> level (nodeData p) h l2 = l2) as Hall.
  { intros ->. apply level_all. apply Forall_forall. intros y Hy.
    assert (y ∈ a ++ b ++ l2) as Hyl by (rewrite !elem_of_app; auto).
    by destruct (Inv_node _ _ _ _ _ HI Hyl) as [_ [? _] _ _ _ _ _ _]. }
  destruct (level (nodeData p) h l2) as [|y ys] eqn:E2; simpl in Hl; rewrite Hl.
  - exists 1. split; [done|]. split; [lia|]. split; [lia|].
    intros ->. rewrite <- (Hall eq_refl). done.
  - assert (y ∈ l2) as Hy2.
    { eapply (level_elem _ h). rewrite E2. apply list_elem_of_here. }
    assert (y ∈ a ++ b ++ l2) as Hyl by (rewrite !elem_of_app; auto).
    exists (cmp (keyOf (nodeData p) (kvData p) y) key).
    split; [by eapply probe_node|].
    rewrite Forall_forall in H2. pose proof (H2 y Hy2) as Hnb. unfold before in Hnb.
    split; [lia|]. split.
    + intros Hc.
      replace (a ++ b ++ l2) with ((a ++ b) ++ l2) in HI by by rewrite app_assoc.
      destruct (exact_is_hd _ _ HC p (a ++ b) l2 key y HI Hk) as [r ->]; try done.
      { by apply Forall_forall. }
      simpl. split; [done|]. by apply Z.eqb_eq.
    + intros ->. rewrite <- (Hall eq_refl). done.
Qed.

Lemma set_prevNode_twice p pn pn' :
  set_prevNode (set_prevNode p pn) pn' = set_prevNode p pn'.
Proof. done. Qed.

Lemma findGE_loop_spec (prev : bool) fuel :
  forall p key node h a b l2,
  Inv dom cmp p (a ++ b ++ l2) -> dom key ->
  Forall (before cmp p key) (a ++ b) ->
  Forall (fun y => ~ before cmp p key y) l2 ->
  0 <= h < maxHeight p ->
  at_node p a node h ->
  (length b + Z.to_nat h < fuel)%nat ->
  exists pn,
    findGE_loop cmp fuel p key prev node h
      = Ok (if prev then set_prevNode p pn else p, hd 0 l2, exact_hd cmp p key l2)
    /\ len pn = tMaxHeight
    /\ (prev = true -> forall j, 0 <= j <= h ->
          rd pn j = lastd 0 (level (nodeData p) j (a ++ b)))
    /\ (forall j, h < j -> rd pn j = rd (prevNode p) j).
Proof.
  induction fuel as [|fuel IH]; intros p key node h a b l2 HI Hk H1 H2 Hh Hat Hfuel;
    [lia|].
  assert (0 <= h < tMaxHeight) as Hh12
    by (pose proof (inv_maxHeight _ _ _ _ HI); lia).
  pose proof (at_node_owns _ _ p a (b ++ l2) node h HI Hh12 Hat) as Hown.
  pose proof (owns_range _ _ _ _ _ _ HI Hown) as [Hnode Hrange].
  pose proof (inv_prevNode _ _ _ _ HI) as Hpn.
  cbn [findGE_loop].
  rewrite (bind_Ok _ _ _ (elem_rd (nodeData p) (node + nNext + h) ltac:(lia))).
  fold (next (nodeData p) h node). fold (probe p key (next (nodeData p) h node)).
  destruct (level (nodeData p) h b) as [|y ys] eqn:Eb.
  - destruct (probe_at p key a b l2 node h HI Hk H2 Hh12 Hat Eb)
      as (c & Hc & Hc0 & Hex & Hbot).
    rewrite (bind_Ok _ _ _ Hc). destruct (Z.ltb_spec c 0); [lia|].
    assert (lastd 0 (level (nodeData p) h (a ++ b)) = node) as Hlast.
    { rewrite level_app, Eb, app_nil_r. by apply at_node_lastd. }
    destruct prev.
    + rewrite (bind_Ok _ _ _ (assign_in_range (prevNode p) h node ltac:(lia))).
      set (pn1 := <[Z.to_nat h := node]> (prevNode p)).
      assert (len pn1 = tMaxHeight) as Hpn1 by (unfold pn1; by rewrite len_insert).
      destruct (Z.eqb_spec h 0) as [->|Hh0].
      * destruct (Hbot eq_refl) as [-> ->]. exists pn1.
        split; [done|]. split; [done|]. split.
        -- intros _ j Hj. assert (j = 0) as -> by lia.
           unfold pn1. rewrite rd_insert_eq by lia. done.
        -- intros j Hj. unfold pn1. apply rd_insert_ne; lia.
      * destruct (IH (set_prevNode p pn1) key node (h - 1) a b l2) as (pn & Hr & Hlen & Hlow & Hhigh).
        { by apply Inv_set_prevNode. }
        { done. } { done. } { done. } { simpl. lia. }
        { destruct Hat as [?|(a' & ? & ?)]; [by left|right]. exists a'. simpl. split; [done|lia]. }
        { lia. }
        exists pn. split; [exact Hr|]. split; [done|]. split.
        -- intros _ j Hj. destruct (decide (j = h)) as [->|Hne].
           ++ rewrite Hhigh by lia. simpl. unfold pn1. rewrite rd_insert_eq by lia. done.
           ++ apply (Hlow eq_refl). lia.
        -- intros j Hj. rewrite Hhigh by lia. simpl. unfold pn1.
           apply rd_insert_ne; lia.
    + destruct (Z.eqb_spec c 0) as [Hce|Hce].
      * destruct (Hex Hce) as [-> ->]. exists (prevNode p).
        split; [done|]. split; [done|]. split; [done|]. done.
      * destruct (Z.eqb_spec h 0) as [->|Hh0].
        -- destruct (Hbot eq_refl) as [-> ->]. exists (prevNode p).
           split; [done|done].
        -- destruct (IH p key node (h - 1) a b l2) as (pn & Hr & Hlen & Hlow & Hhigh);
             try done; try lia.
           { destruct Hat as [?|(a' & ? & ?)]; [by left|right]. exists a'. split; [done|lia]. }
           exists (prevNode p). split; [exact Hr|]. done.
  - destruct (probe_before p key a b l2 node h y ys HI H1 Hh12 Hat Eb)
      as (Hn & c & Hc & Hc0).
    rewrite Hn, (bind_Ok _ _ _ Hc). destruct (Z.ltb_spec c 0); [|lia].
    destruct (level_hd_split _ _ _ _ _ Eb) as (b1 & b2 & -> & Hb1 & Hb2 & Hy).
    assert ((a ++ b1 ++ [y]) ++ b2 = a ++ b1 ++ y :: b2) as Eab
      by (by rewrite <- !app_assoc).
    destruct (IH p key y h (a ++ b1 ++ [y]) b2 l2) as (pn & Hr & Hlen & Hlow & Hhigh);
      try done.
    + rewrite <- app_assoc. rewrite <- app_assoc in HI. simpl.
      by rewrite <- !app_assoc in *.
    + by rewrite Eab.
    + right. exists (a ++ b1). split; [by rewrite app_assoc|done].
    + rewrite length_app in Hfuel. simpl in Hfuel. lia.
    + exists pn. rewrite Eab in Hlow. done.
Qed.

End findGE.
End FindGE.

Module Loops.
Import memdb Rep RepFacts Chain Search FindGE.

Section findGE_top.
Variable dom : bytes -> Prop.
Variable cmp : bytes -> bytes -> Z.
Hypothesis HC : BasicComparer dom cmp.

Lemma findGE_spec (prev : bool) (p : DB_) (l : list Z) (key : bytes) :
  Inv dom cmp p l -> dom key ->
  exists l1 l2 pn,
    l = l1 ++ l2 /\ Forall (before cmp p key) l1
    /\ Forall (fun y => ~ before cmp p key y) l2
    /\ findGE cmp p key prev
       = Ok (if prev then set_prevNode p pn else p, hd 0 l2, exact_hd cmp p key l2)
    /\ len pn = tMaxHeight
    /\ (prev = true -> forall j, 0 <= j < maxHeight p -> rd pn j = prev_at p l1 j).
Proof.
  intros HI Hk.
  destruct (split_at_key _ _ HC p l key HI Hk) as (l1 & l2 & -> & H1 & H2).
  pose proof (inv_maxHeight _ _ _ _ HI) as Hmh.
  destruct (findGE_loop_spec _ _ HC prev (loop_fuel p) p key 0 (maxHeight p - 1) [] l1 l2)
    as (pn & Hr & Hlen & Hlow & _); try done; try lia.
  - by left.
  - pose proof (inv_count _ _ _ _ HI) as Hc. unfold loop_fuel.
    rewrite len_app in Hc. unfold len in Hc. consts. lia.
  - exists l1, l2, pn. repeat (split; [done|]).
    intros Hp j Hj. apply (Hlow Hp). lia.
Qed.

(** Past the split nothing carries the key unless the first node does. *)
Lemma not_exact_after (p : DB_) (l1 l2 : list Z) (key : bytes) :
  Inv dom cmp p (l1 ++ l2) -> dom key ->
  Forall (fun y => ~ before cmp p key y) l2 ->
  exact_hd cmp p key l2 = false ->
  Forall (fun y => cmp key (keyOf (nodeData p) (kvData p) y) < 0) l2.
Proof.
  intros HI Hk H2 Hex. apply Forall_forall. intros y Hy.
  assert (y ∈ l1 ++ l2) as Hyl by (rewrite elem_of_app; auto).
  pose proof (Inv_dom _ _ _ _ _ HI Hyl) as Hd.
  apply (cmp_flip _ _ HC); [done|done|].
  rewrite Forall_forall in H2. pose proof (H2 y Hy) as Hnb. unfold before in Hnb.
  destruct (decide (cmp (keyOf (nodeData p) (kvData p) y) key = 0)) as [E|E]; [|lia].
  destruct (exact_is_hd _ _ HC p l1 l2 key y HI Hk) as [r ->]; try done.
  { by apply Forall_forall. }
  simpl in Hex. apply Z.eqb_neq in Hex. done.
Qed.

Lemma prev_at_owns (p : DB_) (l1 l2 : list Z) (i : Z) :
  Inv dom cmp p (l1 ++ l2) -> 0 <= i < tMaxHeight ->
  owns p (l1 ++ l2) (prev_at p l1 i) (nNext + i).
Proof.
  intros HI Hi. unfold prev_at.
  pose proof (lastd_elem 0 (level (nodeData p) i l1)) as Hin.
  apply elem_of_cons in Hin as [->|Hin].
  - split; [by left|]. rewrite (inv_head_height _ _ _ _ HI). consts. lia.
  - apply level_elem in Hin as [Hh Hin]. split; [|consts; lia].
    right. rewrite elem_of_app. auto.
Qed.

Lemma prev_at_top (p : DB_) (l1 l2 : list Z) (i : Z) :
  Inv dom cmp p (l1 ++ l2) -> maxHeight p <= i -> prev_at p l1 i = 0.
Proof.
  intros HI Hi. unfold prev_at. rewrite level_none; [done|].
  apply Forall_forall. intros x Hx.
  assert (x ∈ l1 ++ l2) as Hxl by (rewrite elem_of_app; auto).
  pose proof (Inv_height_le _ _ _ _ _ HI Hxl). lia.
Qed.

End findGE_top.

(** *** The loops of [Put], [Delete] and [Reset] *)

Section loops.
Variable rand_Int : nat -> Z.

Lemma randHeight_loop_spec fuel : forall r h,
  1 <= h <= tMaxHeight -> (Z.to_nat (tMaxHeight - h) < fuel)%nat ->
  exists r' h', randHeight_loop rand_Int fuel r h = Ok (r', h')
                /\ h <= h' <= tMaxHeight.
Proof.
  induction fuel as [|fuel IH]; intros r h Hh Hf; [lia|].
  cbn [randHeight_loop]. destruct (Z.ltb_spec h tMaxHeight).
  - destruct (Z.rem (rand_Int r) 4 =? 0).
    + destruct (IH (S r) (h + 1)) as (r' & h' & -> & Hh'); [lia|lia|].
      exists r', h'. split; [done|lia].
    + exists (S r), h. split; [done|lia].
  - exists r, h. split; [done|lia].
Qed.

Lemma randHeight_spec (p : DB_) :
  exists r h, randHeight rand_Int p = Ok (set_rnd p r, h) /\ 1 <= h <= tMaxHeight.
Proof.
  unfold randHeight.
  destruct (randHeight_loop_spec (Z.to_nat tMaxHeight) (rnd p) 1) as (r & h & -> & Hh).
  - consts. lia.
  - consts. lia.
  - exists r, h. split; [done|lia].
Qed.

End loops.

Lemma Put_clear_spec fuel : forall pn i h,
  0 <= i -> h <= len pn -> (Z.to_nat (h - i) < fuel)%nat ->
  exists pn', Put_clear fuel pn i h = Ok pn' /\ len pn' = len pn
    /\ (forall j, i <= j < h -> rd pn' j = 0)
    /\ (forall j, 0 <= j -> ~ i <= j < h -> rd pn' j = rd pn j).
Proof.
  induction fuel as [|fuel IH]; intros pn i h Hi Hh Hf; [lia|].
  cbn [Put_clear]. destruct (Z.ltb_spec i h).
  - rewrite (bind_Ok _ _ _ (assign_in_range pn i 0 ltac:(lia))).
    destruct (IH (<[Z.to_nat i := 0]> pn) (i + 1) h) as (pn' & -> & Hl & Hz & Ho);
      [lia|by rewrite len_insert|lia|].
    exists pn'. split; [done|]. rewrite len_insert in Hl. split; [done|]. split.
    + intros j Hj. destruct (decide (j = i)) as [->|Hne].
      * rewrite Ho by lia. apply rd_insert_eq. lia.
      * apply Hz. lia.
    + intros j Hj0 Hj. rewrite Ho by lia. apply rd_insert_ne; lia.
  - exists pn. split; [done|]. split; [done|]. split; [intros j Hj; lia|done].
Qed.

(** [Put]'s loop: each cell of [cells i prevs] is moved to the end of the
    table and then made to point at [node]. *)
Lemma Put_link_spec prevs : forall nd node i,
  NoDup (cells i prevs) ->
  Forall (fun a => 0 <= a < len nd) (cells i prevs) ->
  exists nd', Put_link nd node i prevs = Ok nd'
    /\ len nd' = len nd + len prevs
    /\ (forall a, 0 <= a < len nd -> a ∉ cells i prevs -> rd nd' a = rd nd a)
    /\ (forall a, a ∈ cells i prevs -> rd nd' a = node)
    /\ (forall j a, cells i prevs !! j = Some a ->
          rd nd' (len nd + Z.of_nat j) = rd nd a).
Proof.
  induction prevs as [|x prevs IH]; intros nd node i Hnd Hr.
  - exists nd. simpl. split; [done|]. rewrite len_nil. split; [lia|].
    split; [done|]. split; [by intros a Ha%elem_of_nil|done].
  - simpl in Hnd, Hr. apply NoDup_cons in Hnd as [Hx Hnd].
    apply Forall_cons in Hr as [Hxr Hr].
    set (m := x + nNext + i) in *. cbn [Put_link]. fold m.
    rewrite (bind_Ok _ _ _ (elem_rd nd m Hxr)).
    assert (len (nd ++ [rd nd m]) = len nd + 1) as Hl0
      by (rewrite len_app, len_cons, len_nil; lia).
    rewrite (bind_Ok _ _ _ (assign_in_range (nd ++ [rd nd m]) m node ltac:(lia))).
    set (nd1 := <[Z.to_nat m := node]> (nd ++ [rd nd m])).
    assert (len nd1 = len nd + 1) as Hl1
      by (unfold nd1; rewrite len_insert; lia).
    destruct (IH nd1 node (i + 1) Hnd) as (nd' & -> & Hl & Ho & Hw & Hn).
    { eapply Forall_impl; [exact Hr|]. simpl. intros a Ha. lia. }
    exists nd'. split; [done|]. split; [rewrite Hl, len_cons; lia|].
    assert (forall a, 0 <= a < len nd -> a <> m -> rd nd1 a = rd nd a) as Hnd1.
    { intros a Ha Hne. unfold nd1. rewrite rd_insert_ne by lia.
      by apply rd_app_l. }
    split; [|split].
    + intros a Ha Hnot. apply not_elem_of_cons in Hnot as [Hne Hnot].
      rewrite Ho by (done || lia). by apply Hnd1.
    + intros a Ha. apply elem_of_cons in Ha as [->|Ha]; [|by apply Hw].
      rewrite Ho by (done || lia). unfold nd1. apply rd_insert_eq. lia.
    + intros j a Hj. destruct j as [|j]; simpl in Hj.
      * injection Hj as <-. rewrite Z.add_0_r.
        rewrite Ho; [|lia|].
        -- unfold nd1. rewrite rd_insert_ne by lia.
           replace (len nd) with (len nd + 0) at 1 by lia.
           by rewrite rd_app_r.
        -- intros Hin. rewrite Forall_forall in Hr. specialize (Hr _ Hin). lia.
      * replace (len nd + Z.of_nat (S j)) with (len nd1 + Z.of_nat j) by lia.
        rewrite (Hn j a Hj). apply Hnd1.
        -- rewrite Forall_forall in Hr. apply Hr. by eapply list_elem_of_lookup_2.
        -- intros ->. apply Hx. by eapply list_elem_of_lookup_2.
Qed.

(** [Delete]'s loop: each cell of [cells i prevs] takes over the link of
    the node it points at. *)
Lemma Delete_unlink_spec prevs : forall nd i,
  NoDup (cells i prevs) ->
  Forall (fun a => 0 <= a < len nd) (cells i prevs) ->
  (forall j a, cells i prevs !! j = Some a ->
     let t := rd nd a + nNext + (i + Z.of_nat j) in
     0 <= t < len nd /\ t ∉ cells i prevs) ->
  exists nd', Delete_unlink nd i prevs = Ok nd'
    /\ len nd' = len nd
    /\ (forall a, 0 <= a -> a ∉ cells i prevs -> rd nd' a = rd nd a)
    /\ (forall j a, cells i prevs !! j = Some a ->
          rd nd' a = rd nd (rd nd a + nNext + (i + Z.of_nat j))).
Proof.
  induction prevs as [|x prevs IH]; intros nd i Hnd Hr Ht.
  - exists nd. simpl. done.
  - simpl in Hnd, Hr, Ht. apply NoDup_cons in Hnd as [Hx Hnd].
    apply Forall_cons in Hr as [Hxr Hr].
    set (m := x + nNext + i) in *. cbn [Delete_unlink]. fold m.
    rewrite (bind_Ok _ _ _ (elem_rd nd m Hxr)).
    destruct (Ht O m eq_refl) as [Ht0 Ht0'].
    rewrite Z.add_0_r in Ht0, Ht0'.
    rewrite (bind_Ok _ _ _ (elem_rd nd _ Ht0)).
    rewrite (bind_Ok _ _ _ (assign_in_range nd m _ Hxr)).
    set (nd1 := <[Z.to_nat m := rd nd (rd nd m + nNext + i)]> nd).
    assert (forall a, 0 <= a -> a <> m -> rd nd1 a = rd nd a) as Hnd1.
    { intros a Ha Hne. unfold nd1. apply rd_insert_ne; lia. }
    assert (forall a, a ∈ cells (i + 1) prevs -> a <> m) as Hne.
    { intros a Ha ->. done. }
    rewrite Forall_forall in Hr.
    destruct (IH nd1 (i + 1) Hnd) as (nd' & -> & Hl & Ho & Hw).
    { apply Forall_forall. intros a Ha. unfold nd1. rewrite len_insert. by apply Hr. }
    { intros j a Hj. simpl. pose proof (list_elem_of_lookup_2 _ _ _ Hj) as Hin.
      rewrite Hnd1; [|specialize (Hr _ Hin); lia|by apply Hne].
      destruct (Ht (S j) a Hj) as [Ht1 Ht2].
      replace (i + 1 + Z.of_nat j) with (i + Z.of_nat (S j)) by lia.
      unfold nd1. rewrite len_insert. split; [done|].
      intros Hc. apply Ht2. by apply list_elem_of_further. }
    exists nd'. split; [done|]. split; [by rewrite Hl; unfold nd1; rewrite len_insert|].
    split.
    + intros a Ha Hnot. apply not_elem_of_cons in Hnot as [Hnm Hnot].
      rewrite Ho by done. by apply Hnd1.
    + intros j a Hj. destruct j as [|j]; simpl in Hj.
      * injection Hj as <-. rewrite Z.add_0_r. rewrite Ho by (done || lia).
        unfold nd1. apply rd_insert_eq. lia.
      * pose proof (list_elem_of_lookup_2 _ _ _ Hj) as Hin.
        rewrite (Hw j a Hj).
        destruct (Ht (S j) a Hj) as [Ht1 Ht2].
        rewrite (Hnd1 a); [|specialize (Hr _ Hin); lia|by apply Hne].
        replace (i + 1 + Z.of_nat j) with (i + Z.of_nat (S j)) by lia.
        apply Hnd1; [lia|]. intros E. apply Ht2. rewrite E. apply list_elem_of_here.
Qed.

Lemma cells_lookup prevs : forall i j x,
  prevs !! j = Some x -> cells i prevs !! j = Some (x + nNext + (i + Z.of_nat j)).
Proof.
  induction prevs as [|y prevs IH]; intros i j x Hj; [done|].
  destruct j as [|j]; simpl in *.
  - injection Hj as ->. by rewrite Z.add_0_r.
  - rewrite (IH (i + 1) j x Hj). do 2 f_equal. lia.
Qed.

Lemma cells_elem prevs i a :
  a ∈ cells i prevs <->
  exists j x, prevs !! j = Some x /\ a = x + nNext + (i + Z.of_nat j).
Proof.
  revert i. induction prevs as [|y prevs IH]; intros i; simpl.
  - split; [by intros ?%elem_of_nil|by intros (j & x & ? & _)].
  - rewrite elem_of_cons, IH. split.
    + intros [->|(j & x & Hj & ->)].
      * exists O, y. split; [done|]. simpl. lia.
      * exists (S j), x. split; [done|]. lia.
    + intros (j & x & Hj & ->). destruct j as [|j]; simpl in Hj.
      * injection Hj as ->. left. simpl. lia.
      * right. exists j, x. split; [done|]. lia.
Qed.

Lemma len_cells prevs i : len (cells i prevs) = len prevs.
Proof.
  revert i. induction prevs as [|y prevs IH]; intros i; [done|].
  simpl. rewrite !len_cons. by rewrite IH.
Qed.

End Loops.

(** ** What a write to the node table leaves alone *)

Module Frame.
Import memdb Rep RepFacts Chain Search FindGE Loops.

Lemma same_head_fields nd nd' x :
  same_head nd nd' x ->
  koff nd' x = koff nd x /\ klen nd' x = klen nd x /\ vlen nd' x = vlen nd x
  /\ height nd' x = height nd x.
Proof.
  intros H. unfold same_head in H. unfold koff, klen, vlen, height. consts.
  pose proof (H 0 ltac:(lia)) as H0. rewrite Z.add_0_r in H0.
  rewrite H0, (H 1), (H 2), (H 3) by lia. done.
Qed.

Lemma same_head_entry nd nd' kv t x :
  same_head nd nd' x ->
  0 <= koff nd x -> 0 <= klen nd x -> 0 <= vlen nd x ->
  koff nd x + klen nd x + vlen nd x <= len kv ->
  keyOf nd' (kv ++ t) x = keyOf nd kv x /\ valOf nd' (kv ++ t) x = valOf nd kv x.
Proof.
  intros H Ho Hk Hv Hkv.
  destruct (same_head_fields _ _ _ H) as (E1 & E2 & E3 & _).
  unfold keyOf, valOf. rewrite E1, E2, E3.
  split; apply sub_app_l; lia.
Qed.

Lemma node_ok_frame dom nd nd' kv t x :
  node_ok dom nd kv x -> same_head nd nd' x -> len nd <= len nd' ->
  node_ok dom nd' (kv ++ t) x.
Proof.
  intros [] H Hl.
  destruct (same_head_fields _ _ _ H) as (E1 & E2 & E3 & E4).
  destruct (same_head_entry nd nd' kv t x H) as [Ek Ev]; try done.
  constructor; rewrite ?E1, ?E2, ?E3, ?E4, ?Ek; try done; try lia.
  rewrite len_app. pose proof (len_nonneg t). lia.
Qed.

Lemma total_ext nd nd' l :
  (forall x, x ∈ l -> same_head nd nd' x) -> total nd' l = total nd l.
Proof.
  induction l as [|x l IH]; intros H; [done|]. simpl.
  destruct (same_head_fields _ _ _ (H x ltac:(apply list_elem_of_here)))
    as (_ & -> & -> & _).
  rewrite IH; [done|]. intros y Hy. by apply H, list_elem_of_further.
Qed.

Lemma total_app nd l1 l2 : total nd (l1 ++ l2) = total nd l1 + total nd l2.
Proof. induction l1 as [|x l1 IH]; simpl; lia. Qed.

Lemma sorted_ext cmp nd nd' kv kv' l :
  (forall x, x ∈ l -> keyOf nd' kv' x = keyOf nd kv x) ->
  StronglySorted (key_lt cmp nd kv) l -> StronglySorted (key_lt cmp nd' kv') l.
Proof.
  intros H. induction 1 as [|x l Hs IH Hx]; [constructor|].
  constructor.
  - apply IH. intros y Hy. by apply H, list_elem_of_further.
  - rewrite Forall_forall in Hx |- *. intros y Hy. unfold key_lt.
    rewrite (H x), (H y); [by apply Hx| |]; [by apply list_elem_of_further|apply list_elem_of_here].
Qed.

Lemma entries_ext nd nd' kv kv' (l : list Z) :
  (forall x, x ∈ l -> entry nd' kv' x = entry nd kv x) ->
  map (entry nd' kv') l = map (entry nd kv) l.
Proof.
  induction l as [|x l IH]; intros H; [done|]. simpl.
  rewrite (H x) by apply list_elem_of_here. f_equal.
  apply IH. intros y Hy. by apply H, list_elem_of_further.
Qed.

Lemma keyOf_len nd kv x :
  0 <= koff nd x -> 0 <= klen nd x -> koff nd x + klen nd x <= len kv ->
  len (keyOf nd kv x) = klen nd x.
Proof.
  intros. unfold keyOf, sub, len in *. rewrite length_take, length_drop. lia.
Qed.

Lemma valOf_len nd kv x :
  0 <= koff nd x -> 0 <= klen nd x -> 0 <= vlen nd x ->
  koff nd x + klen nd x + vlen nd x <= len kv ->
  len (valOf nd kv x) = vlen nd x.
Proof.
  intros. unfold valOf, sub, len in *. rewrite length_take, length_drop. lia.
Qed.

Lemma total_payload dom nd kv l :
  Forall (node_ok dom nd kv) l ->
  total nd l = RefMap.payload (map (entry nd kv) l).
Proof.
  induction 1 as [|x l Hx _ IH]; [done|]. simpl. rewrite IH.
  destruct Hx. rewrite keyOf_len, valOf_len by lia. done.
Qed.

End Frame.

(** ** Inserting a node *)

Module Insert.
Import memdb Rep RepFacts Chain Search FindGE Loops Frame.

Section insert.
Variable dom : bytes -> Prop.
Variable cmp : bytes -> bytes -> Z.
Hypothesis HC : BasicComparer dom cmp.

Lemma owned_written p l1 l2 h x f :
  Inv dom cmp p (l1 ++ l2) -> h <= tMaxHeight ->
  owns p (l1 ++ l2) x f -> written p l1 h (x + f) ->
  exists i, 0 <= i < h /\ x = prev_at p l1 i /\ f = nNext + i.
Proof.
  intros HI Hh Hown (i & Hi & E).
  pose proof (prev_at_owns _ _ p l1 l2 i HI ltac:(lia)) as Hp.
  destruct (owns_inj _ _ p _ x f (prev_at p l1 i) (nNext + i) HI Hown Hp) as [-> ->];
    [lia|]. by exists i.
Qed.

Lemma owns_head_cell p l x f :
  Inv dom cmp p l -> x = 0 \/ x ∈ l -> 0 <= f < nNext -> owns p l x f.
Proof.
  intros HI Hx Hf. split; [done|]. destruct Hx as [->|Hx].
  - rewrite (inv_head_height _ _ _ _ HI). consts. lia.
  - destruct (Inv_node _ _ _ _ _ HI Hx). lia.
Qed.

Lemma head_cell_not_written p l1 l2 h x f :
  Inv dom cmp p (l1 ++ l2) -> h <= tMaxHeight ->
  x = 0 \/ x ∈ l1 ++ l2 -> 0 <= f < nNext -> ~ written p l1 h (x + f).
Proof.
  intros HI Hh Hx Hf Hw.
  destruct (owned_written p l1 l2 h x f HI Hh) as (i & Hi & _ & E); [|done|lia].
  by apply owns_head_cell.
Qed.

Section new_node.
Variables (p : DB_) (l1 l2 : list Z) (key value : bytes) (h : Z).
Variables (nd' : list Z) (p' : DB_).

Local Abbreviation nd := (nodeData p).
Local Abbreviation kv := (kvData p).
Local Abbreviation node := (len (nodeData p)).

Hypothesis HI : Inv dom cmp p (l1 ++ l2).
Hypothesis Hkey : dom key.
Hypothesis Hbefore : Forall (before cmp p key) l1.
Hypothesis Hafter : Forall (fun y => cmp key (keyOf nd kv y) < 0) l2.
Hypothesis Hh : 1 <= h <= tMaxHeight.

Hypothesis Hlen : len nd' = len nd + nNext + h.
Hypothesis Hkoff : rd nd' node = len kv.
Hypothesis Hklen : rd nd' (node + nKey) = len key.
Hypothesis Hvlen : rd nd' (node + nVal) = len value.
Hypothesis Hheight : rd nd' (node + nHeight) = h.
Hypothesis Hprev : forall i, 0 <= i < h ->
  rd nd' (prev_at p l1 i + nNext + i) = node.
Hypothesis Hnext : forall i, 0 <= i < h ->
  rd nd' (node + nNext + i) = rd nd (prev_at p l1 i + nNext + i).
Hypothesis Hother : forall a, 0 <= a < len nd -> ~ written p l1 h a ->
  rd nd' a = rd nd a.

Hypothesis Hnd' : nodeData p' = nd'.
Hypothesis Hkv' : kvData p' = kv ++ key ++ value.
Hypothesis Hpn' : len (prevNode p') = tMaxHeight.
Hypothesis Hmh' : maxHeight p <= maxHeight p' <= tMaxHeight /\ h <= maxHeight p'.
Hypothesis Hn' : n p' = n p + 1.
Hypothesis Hsize' : kvSize p' = kvSize p + (len key + len value).

Lemma new_same_head x : x = 0 \/ x ∈ l1 ++ l2 -> same_head nd nd' x.
Proof.
  intros Hx f Hf. apply Hother.
  - pose proof (owns_head_cell p _ x f HI Hx Hf) as Hown.
    pose proof (owns_range _ _ _ _ _ _ HI Hown). lia.
  - apply (head_cell_not_written p l1 l2 h x f HI); [lia|done|done].
Qed.

Lemma new_height x : x ∈ l1 ++ l2 -> height nd' x = height nd x.
Proof. intros Hx. apply same_head_fields, new_same_head. auto. Qed.

Lemma new_entry x :
  x ∈ l1 ++ l2 -> entry nd' (kv ++ key ++ value) x = entry nd kv x.
Proof.
  intros Hx. destruct (Inv_node _ _ _ _ _ HI Hx).
  unfold entry.
  destruct (same_head_entry nd nd' kv (key ++ value) x) as [-> ->]; try done.
  apply new_same_head. auto.
Qed.

Lemma new_keyOf x :
  x ∈ l1 ++ l2 -> keyOf nd' (kv ++ key ++ value) x = keyOf nd kv x.
Proof. intros Hx. pose proof (new_entry x Hx) as E. by injection E. Qed.

Lemma new_node_entry : entry nd' (kv ++ key ++ value) node = (key, value).
Proof.
  unfold entry, keyOf, valOf, koff, klen, vlen. rewrite Hkoff, Hklen, Hvlen.
  by rewrite sub_app_mid, sub_app_end.
Qed.

Lemma new_node_fresh : node ∉ l1 ++ l2.
Proof.
  intros Hin. destruct (Inv_node _ _ _ _ _ HI Hin).
  consts. lia.
Qed.

Lemma new_level i :
  level nd' i (l1 ++ node :: l2)
  = level nd i l1 ++ (if decide (i < h) then [node] else []) ++ level nd i l2.
Proof.
  rewrite level_app. f_equal.
  { apply level_ext. intros x Hx. apply new_height. rewrite elem_of_app. auto. }
  assert (level nd' i l2 = level nd i l2) as E.
  { apply level_ext. intros x Hx. apply new_height. rewrite elem_of_app. auto. }
  case_decide.
  - rewrite level_cons_in; [by rewrite E|]. unfold height. by rewrite Hheight.
  - rewrite level_cons_out; [by rewrite E|]. unfold height. by rewrite Hheight.
Qed.

Lemma new_next_other i u :
  0 <= i < tMaxHeight -> u = 0 \/ u ∈ l1 ++ l2 -> i < height nd u ->
  h <= i \/ u <> prev_at p l1 i ->
  next nd' i u = next nd i u.
Proof.
  intros Hi Hu Hhu Hne. unfold next. apply Hother.
  - assert (owns p (l1 ++ l2) u (nNext + i)) as Hown by (split; [done|consts; lia]).
    pose proof (owns_range _ _ _ _ _ _ HI Hown). lia.
  - intros Hw.
    destruct (owned_written p l1 l2 h u (nNext + i) HI ltac:(lia)) as (j & Hj & E1 & E2).
    + split; [done|]. consts. lia.
    + by rewrite Z.add_assoc.
    + assert (j = i) as -> by lia. destruct Hne; [lia|done].
Qed.

Lemma new_links i :
  0 <= i < tMaxHeight ->
  linked (next nd' i) 0 (level nd' i (l1 ++ node :: l2)) 0.
Proof.
  intros Hi. rewrite new_level.
  pose proof (inv_links _ _ _ _ HI i Hi) as Hl. rewrite level_app in Hl.
  pose proof (inv_head_height _ _ _ _ HI) as Hhh.
  assert (forall u, u ∈ 0 :: level nd i l1 ++ level nd i l2 ->
            (u = 0 \/ u ∈ l1 ++ l2) /\ i < height nd u) as Hmem.
  { intros u Hu. apply elem_of_cons in Hu as [->|Hu].
    - split; [by left|]. rewrite Hhh. lia.
    - rewrite <- level_app in Hu. apply level_elem in Hu as [? ?]. auto. }
  case_decide as Hih.
  - apply (linked_insert (next nd i)); try done.
    + rewrite <- level_app.
      pose proof (NoDup_level nd i _ (Inv_NoDup _ _ HC _ _ HI)) as Hnd.
      apply NoDup_cons. split; [|done]. intros H0%level_elem.
      by apply (Inv_not_head _ _ _ _ HI), H0.
    + unfold next. apply Hprev. lia.
    + unfold next. apply Hnext. lia.
    + intros u Hu Hne. destruct (Hmem u Hu) as [Hu1 Hu2].
      apply new_next_other; auto.
  - simpl. apply (linked_ext (next nd i)); [|done].
    intros u Hu. destruct (Hmem u Hu) as [Hu1 Hu2].
    apply new_next_other; auto. left. lia.
Qed.

Lemma Inv_new_node : Inv dom cmp p' (l1 ++ node :: l2).
Proof.
  pose proof HI as [Imh Ipn Ihead Ihh Inodes Iheights Iapart Isorted Ilinks Icount In Isize].
  assert (node_ok dom nd' (kv ++ key ++ value) node) as Hnode.
  { assert (keyOf nd' (kv ++ key ++ value) node = key) as Ek
      by (pose proof new_node_entry as E; by injection E).
    constructor; unfold koff, klen, vlen, height; rewrite ?Hkoff, ?Hklen, ?Hvlen, ?Hheight,
      ?Ek; try done; try apply len_nonneg; rewrite ?len_app; consts; lia. }
  assert (Forall (node_ok dom nd' (kv ++ key ++ value)) (l1 ++ l2)) as Hold.
  { apply Forall_forall. intros x Hx. rewrite Forall_forall in Inodes.
    apply node_ok_frame with (nd := nd); [by apply Inodes| |consts; lia].
    apply new_same_head. auto. }
  constructor; rewrite ?Hnd', ?Hkv'.
  - lia.
  - done.
  - consts. lia.
  - rewrite (proj2 (proj2 (proj2 (same_head_fields nd nd' 0 (new_same_head 0 ltac:(auto)))))).
    done.
  - apply Forall_app in Hold as [Ho1 Ho2]. apply Forall_app. split; [done|].
    by constructor.
  - apply Forall_forall. intros x Hx.
    rewrite elem_of_app, elem_of_cons in Hx.
    destruct (decide (x = node)) as [->|Hne].
    + unfold height. rewrite Hheight. lia.
    + rewrite new_height by (rewrite elem_of_app; tauto).
      rewrite Forall_forall in Iheights.
      specialize (Iheights x ltac:(rewrite elem_of_app; tauto)). lia.
  - assert (forall x, x ∈ l1 ++ l2 -> apart nd' x node) as Hap.
    { intros x Hx. left. rewrite new_height by done.
      rewrite Forall_forall in Inodes. destruct (Inodes x Hx). done. }
    intros x y Hx Hy Hne.
    rewrite elem_of_app, elem_of_cons in Hx, Hy.
    destruct (decide (x = node)) as [->|Hxn], (decide (y = node)) as [->|Hyn]; [done| | |].
    + destruct (Hap y ltac:(rewrite elem_of_app; tauto)); [by right|by left].
    + apply Hap. rewrite elem_of_app. tauto.
    + assert (x ∈ l1 ++ l2) as Hx' by (rewrite elem_of_app; tauto).
      assert (y ∈ l1 ++ l2) as Hy' by (rewrite elem_of_app; tauto).
      unfold apart. rewrite !new_height by done. by apply Iapart.
  - apply StronglySorted_app in Isorted as (H12 & Hs1 & Hs2).
    apply StronglySorted_app_2.
    + intros x1 x2 Hx1 Hx2. unfold key_lt.
      rewrite (new_keyOf x1) by (rewrite elem_of_app; auto).
      apply elem_of_cons in Hx2 as [->|Hx2].
      * pose proof new_node_entry as E. injection E as -> _.
        rewrite Forall_forall in Hbefore. by apply Hbefore.
      * rewrite (new_keyOf x2) by (rewrite elem_of_app; auto). by apply H12.
    + eapply sorted_ext; [|exact Hs1]. intros x Hx. apply new_keyOf.
      rewrite elem_of_app. auto.
    + constructor.
      * eapply sorted_ext; [|exact Hs2]. intros x Hx. apply new_keyOf.
        rewrite elem_of_app. auto.
      * apply Forall_forall. intros y Hy. unfold key_lt.
        pose proof new_node_entry as E. injection E as -> _.
        rewrite new_keyOf by (rewrite elem_of_app; auto).
        rewrite Forall_forall in Hafter. by apply Hafter.
  - apply new_links.
  - rewrite len_app, len_cons. rewrite len_app in Icount. consts. lia.
  - rewrite Hn', In, !len_app, len_cons. lia.
  - rewrite Hsize', Isize, !total_app. simpl.
    rewrite (total_ext nd nd' l1), (total_ext nd nd' l2).
    + unfold klen, vlen. rewrite Hklen, Hvlen. lia.
    + intros x Hx. apply new_same_head. rewrite elem_of_app. auto.
    + intros x Hx. apply new_same_head. rewrite elem_of_app. auto.
Qed.

Lemma entries_new_node :
  entries p' (l1 ++ node :: l2) = entries p l1 ++ (key, value) :: entries p l2.
Proof.
  unfold entries. rewrite Hnd', Hkv'. rewrite map_app. simpl.
  rewrite new_node_entry. f_equal; [|f_equal]; apply entries_ext; intros x Hx;
    apply new_entry; rewrite elem_of_app; auto.
Qed.

End new_node.
End insert.
End Insert.

(** ** Overwriting the value of a node *)

Module Overwrite.
Import memdb Rep RepFacts Chain Search FindGE Loops Frame Insert.

Section overwrite.
Variable dom : bytes -> Prop.
Variable cmp : bytes -> bytes -> Z.
Hypothesis HC : BasicComparer dom cmp.

Variables (p : DB_) (l1 : list Z) (y : Z) (r : list Z) (key value : bytes).
Variables (nd' : list Z) (p' : DB_).

Local Abbreviation nd := (nodeData p).
Local Abbreviation kv := (kvData p).
Local Abbreviation l := (l1 ++ y :: r).

Hypothesis HI : Inv dom cmp p l.
Hypothesis Hy : keyOf nd kv y = key.

Hypothesis Hlen : len nd' = len nd.
Hypothesis Hkoff : rd nd' y = len kv.
Hypothesis Hvlen : rd nd' (y + nVal) = len value.
Hypothesis Hother : forall a, 0 <= a -> a <> y -> a <> y + nVal -> rd nd' a = rd nd a.

Hypothesis Hnd' : nodeData p' = nd'.
Hypothesis Hkv' : kvData p' = kv ++ key ++ value.
Hypothesis Hpn' : len (prevNode p') = tMaxHeight.
Hypothesis Hmh' : maxHeight p' = maxHeight p.
Hypothesis Hn' : n p' = n p.
Hypothesis Hsize' : kvSize p' = kvSize p + (len value - vlen nd y).

Lemma ow_y_in : y ∈ l.
Proof. rewrite elem_of_app, elem_of_cons. auto. Qed.

Lemma ow_cell x f :
  owns p l x f -> x <> y \/ (f <> 0 /\ f <> nVal) -> rd nd' (x + f) = rd nd (x + f).
Proof.
  intros Hown Hne.
  pose proof (owns_range _ _ _ _ _ _ HI Hown) as [Hx Hr].
  assert (owns p l y 0) as Hy0 by (eapply owns_head_cell; [exact HI|right; apply ow_y_in|consts; lia]).
  assert (owns p l y nVal) as Hy2 by (eapply owns_head_cell; [exact HI|right; apply ow_y_in|consts; lia]).
  apply Hother; [lia| |].
  - intros E. destruct (owns_inj _ _ _ _ x f y 0 HI Hown Hy0) as [-> ->]; [lia|].
    destruct Hne as [?|[? _]]; done.
  - intros E. destruct (owns_inj _ _ _ _ x f y nVal HI Hown Hy2) as [-> ->]; [lia|].
    destruct Hne as [?|[_ ?]]; done.
Qed.

Lemma ow_same_head x : x = 0 \/ x ∈ l -> x <> y -> same_head nd nd' x.
Proof.
  intros Hx Hne f Hf. apply ow_cell; [|by left]. by eapply owns_head_cell.
Qed.

Lemma ow_height x : x = 0 \/ x ∈ l -> height nd' x = height nd x.
Proof.
  intros Hx. unfold height. apply ow_cell.
  - eapply owns_head_cell; [exact HI|done|consts; lia].
  - right. consts. lia.
Qed.

Lemma ow_klen : klen nd' y = klen nd y.
Proof.
  unfold klen. apply ow_cell.
  - eapply owns_head_cell; [exact HI|right; apply ow_y_in|consts; lia].
  - right. consts. lia.
Qed.

Lemma ow_klen_key : klen nd y = len key.
Proof.
  destruct (Inv_node _ _ _ _ _ HI ow_y_in). rewrite <- Hy. symmetry.
  apply keyOf_len; lia.
Qed.

Lemma ow_entry x : x ∈ l -> x <> y -> entry nd' (kv ++ key ++ value) x = entry nd kv x.
Proof.
  intros Hx Hne. destruct (Inv_node _ _ _ _ _ HI Hx). unfold entry.
  destruct (same_head_entry nd nd' kv (key ++ value) x) as [-> ->]; try done.
  apply ow_same_head; auto.
Qed.

Lemma ow_entry_y : entry nd' (kv ++ key ++ value) y = (key, value).
Proof.
  unfold entry, keyOf, valOf. rewrite ow_klen, ow_klen_key.
  unfold koff, vlen. rewrite Hkoff, Hvlen.
  by rewrite sub_app_mid, sub_app_end.
Qed.

Lemma ow_keyOf x : x ∈ l -> keyOf nd' (kv ++ key ++ value) x = keyOf nd kv x.
Proof.
  intros Hx. destruct (decide (x = y)) as [->|Hne].
  - pose proof ow_entry_y as E. injection E as -> _. done.
  - pose proof (ow_entry x Hx Hne) as E. by injection E.
Qed.

Lemma ow_not_in : (y ∉ l1) /\ (y ∉ r).
Proof.
  pose proof (Inv_NoDup _ _ HC _ _ HI) as Hnd.
  apply NoDup_app in Hnd as (_ & H1 & H2). apply NoDup_cons in H2 as [H2 _].
  split; [|done]. intros Hin. apply (H1 y Hin). apply list_elem_of_here.
Qed.

Lemma Inv_overwrite : Inv dom cmp p' l.
Proof.
  pose proof HI as [Imh Ipn Ihead Ihh Inodes Iheights Iapart Isorted Ilinks Icount In Isize].
  pose proof ow_y_in as Hyl. destruct ow_not_in as [Hy1 Hyr].
  constructor; rewrite ?Hnd', ?Hkv'.
  - lia.
  - done.
  - lia.
  - rewrite ow_height by auto. done.
  - apply Forall_forall. intros x Hx. rewrite Forall_forall in Inodes.
    destruct (decide (x = y)) as [->|Hne].
    + destruct (Inodes y Hx).
      assert (keyOf nd' (kv ++ key ++ value) y = key) as Ek
        by (pose proof ow_entry_y as E; by injection E).
      pose proof ow_klen_key as Ekl.
      constructor; rewrite ?ow_height, ?ow_klen, ?Ek by auto; try done; try lia.
      * unfold koff. rewrite Hkoff. apply len_nonneg.
      * unfold vlen. rewrite Hvlen. apply len_nonneg.
      * unfold koff, vlen. rewrite Hkoff, Hvlen, Ekl, !len_app. lia.
      * by rewrite <- Hy.
    + apply node_ok_frame with (nd := nd); [by apply Inodes| |lia].
      apply ow_same_head; auto.
  - apply Forall_forall. intros x Hx. rewrite ow_height by auto.
    rewrite Forall_forall in Iheights. rewrite Hmh'. by apply Iheights.
  - intros x z Hx Hz Hne. unfold apart. rewrite !ow_height by auto. by apply Iapart.
  - eapply sorted_ext; [|exact Isorted]. intros x Hx. by apply ow_keyOf.
  - intros i Hi. rewrite (level_ext nd nd') by (intros x Hx; apply ow_height; auto).
    apply (linked_ext (next nd i)); [|by apply Ilinks].
    intros u Hu. unfold next. rewrite <- !Z.add_assoc. apply ow_cell.
    + split.
      * apply elem_of_cons in Hu as [->|Hu]; [by left|right].
        by apply level_elem in Hu as [_ ?].
      * apply elem_of_cons in Hu as [->|Hu].
        -- rewrite Ihh. consts. lia.
        -- apply level_elem in Hu as [? _]. consts. lia.
    + right. consts. lia.
  - lia.
  - lia.
  - rewrite Hsize', Isize, !total_app. simpl.
    rewrite (total_ext nd nd' l1), (total_ext nd nd' r).
    + rewrite ow_klen. unfold vlen at 3. rewrite Hvlen. simpl. lia.
    + intros x Hx. apply ow_same_head; [right; rewrite elem_of_app, elem_of_cons; auto|].
      by intros ->.
    + intros x Hx. apply ow_same_head; [right; rewrite elem_of_app; auto|].
      by intros ->.
Qed.

Lemma entries_overwrite :
  entries p' l = entries p l1 ++ (key, value) :: entries p r.
Proof.
  destruct ow_not_in as [Hy1 Hyr].
  unfold entries. rewrite Hnd', Hkv'. rewrite map_app. simpl.
  rewrite ow_entry_y. f_equal; [|f_equal]; apply entries_ext; intros x Hx;
    apply ow_entry.
  - rewrite elem_of_app. auto.
  - by intros ->.
  - rewrite elem_of_app, elem_of_cons. auto.
  - by intros ->.
Qed.

End overwrite.
End Overwrite.

(** ** The reference map, split around a key *)

Module RefFacts.
Section reffacts.
Variable cmp : bytes -> bytes -> Z.
Implicit Types (m : RefMap.t) (key value : bytes).

Local Abbreviation key_before := (RefMap.key_before cmp).

Lemma put_app m1 m2 key value :
  Forall (key_before key) m1 ->
  RefMap.put cmp key value (m1 ++ m2) = m1 ++ RefMap.put cmp key value m2.
Proof.
  induction 1 as [|[k' v'] m1 Hk _ IH]; [done|]. simpl.
  unfold RefMap.key_before in Hk. simpl in Hk.
  destruct (Z.ltb_spec (cmp k' key) 0); [|lia]. by rewrite IH.
Qed.

Lemma delete_app m1 m2 key :
  Forall (key_before key) m1 ->
  RefMap.delete cmp key (m1 ++ m2) = m1 ++ RefMap.delete cmp key m2.
Proof.
  induction 1 as [|[k' v'] m1 Hk _ IH]; [done|]. simpl.
  unfold RefMap.key_before in Hk. simpl in Hk.
  destruct (Z.eqb_spec (cmp k' key) 0); [lia|]. by rewrite IH.
Qed.

Lemma get_app m1 m2 key :
  Forall (key_before key) m1 ->
  RefMap.get cmp key (m1 ++ m2) = RefMap.get cmp key m2.
Proof.
  induction 1 as [|[k' v'] m1 Hk _ IH]; [done|]. simpl.
  unfold RefMap.key_before in Hk. simpl in Hk.
  destruct (Z.eqb_spec (cmp k' key) 0); [lia|]. by rewrite IH.
Qed.

Lemma find_ge_app m1 m2 key :
  Forall (key_before key) m1 ->
  RefMap.find_ge cmp key (m1 ++ m2) = RefMap.find_ge cmp key m2.
Proof.
  induction 1 as [|[k' v'] m1 Hk _ IH]; [done|]. simpl.
  unfold RefMap.key_before in Hk. simpl in Hk.
  destruct (Z.ltb_spec (cmp k' key) 0); [|lia]. by rewrite IH.
Qed.

Lemma delete_absent m key :
  Forall (fun e => cmp (fst e) key <> 0) m -> RefMap.delete cmp key m = m.
Proof.
  induction 1 as [|[k' v'] m Hk _ IH]; [done|]. simpl in *.
  destruct (Z.eqb_spec (cmp k' key) 0); [lia|]. by rewrite IH.
Qed.

Lemma get_absent m key :
  Forall (fun e => cmp (fst e) key <> 0) m -> RefMap.get cmp key m = None.
Proof.
  induction 1 as [|[k' v'] m Hk _ IH]; [done|]. simpl in *.
  destruct (Z.eqb_spec (cmp k' key) 0); [lia|]. by rewrite IH.
Qed.

End reffacts.

Abbreviation key_before := RefMap.key_before.
End RefFacts.

(** ** [Put] *)

Module PutSpec.
Import memdb Rep RepFacts Chain Search FindGE Loops Frame Insert Overwrite RefFacts.

Lemma cells_lookup_inv prevs i j a :
  cells i prevs !! j = Some a ->
  exists x, prevs !! j = Some x /\ a = x + nNext + (i + Z.of_nat j).
Proof.
  intros Hj. pose proof (lookup_lt_Some _ _ _ Hj) as Hlt.
  pose proof (len_cells prevs i) as Hl. unfold len in Hl.
  destruct (lookup_lt_is_Some_2 prevs j ltac:(lia)) as [x Hx].
  exists x. split; [done|]. rewrite (cells_lookup _ i _ _ Hx) in Hj. by injection Hj.
Qed.

Lemma take_lookup_rd (pn : list Z) h j x :
  take (Z.to_nat h) pn !! j = Some x -> rd pn (Z.of_nat j) = x /\ Z.of_nat j < h.
Proof.
  intros [Hx Hj]%lookup_take_Some. split; [|lia].
  apply rd_lookup. by rewrite Nat2Z.id.
Qed.

Lemma cells_take_elem (pn : list Z) h a :
  0 <= h <= len pn ->
  a ∈ cells 0 (take (Z.to_nat h) pn) <->
  exists i, 0 <= i < h /\ a = rd pn i + nNext + i.
Proof.
  intros Hh. rewrite cells_elem. split.
  - intros (j & x & Hj & ->). destruct (take_lookup_rd _ _ _ _ Hj) as [<- Hjh].
    exists (Z.of_nat j). split; [lia|]. lia.
  - intros (i & Hi & ->). exists (Z.to_nat i), (rd pn i). split; [|lia].
    apply lookup_take_Some. split; [|lia]. unfold rd.
    destruct (lookup_lt_is_Some_2 pn (Z.to_nat i)) as [x Hx].
    { unfold len in Hh. lia. }
    by rewrite Hx.
Qed.

Section put.
Variable dom : bytes -> Prop.
Variable cmp : bytes -> bytes -> Z.
Hypothesis HC : BasicComparer dom cmp.
Variable rand_Int : nat -> Z.
Variable growslice : Z -> Z -> Z.

Lemma nodeData_append_kv p bs : nodeData (append_kv growslice p bs) = nodeData p.
Proof. done. Qed.

(** The cells of the loops of [Put] and [Delete] are those of [written]. *)
Lemma cells_written p l1 l2 (pn : list Z) h a :
  Inv dom cmp p (l1 ++ l2) -> 0 <= h <= tMaxHeight -> len pn = tMaxHeight ->
  (forall j, 0 <= j < h -> rd pn j = prev_at p l1 j) ->
  a ∈ cells 0 (take (Z.to_nat h) pn) <-> written p l1 h a.
Proof.
  intros HI Hh Hl Hpn. rewrite cells_take_elem by lia. unfold written.
  split; intros (i & Hi & ->); exists i; (split; [done|]).
  - by rewrite Hpn.
  - by rewrite Hpn.
Qed.

Lemma cells_NoDup p l1 l2 (pn : list Z) h :
  Inv dom cmp p (l1 ++ l2) -> 0 <= h <= tMaxHeight -> len pn = tMaxHeight ->
  (forall j, 0 <= j < h -> rd pn j = prev_at p l1 j) ->
  NoDup (cells 0 (take (Z.to_nat h) pn)).
Proof.
  intros HI Hh Hl Hpn. apply NoDup_alt. intros i j a Hi Hj.
  apply cells_lookup_inv in Hi as (x & Hx & E1).
  apply cells_lookup_inv in Hj as (y & Hy & E2).
  apply take_lookup_rd in Hx as [<- Hih]. apply take_lookup_rd in Hy as [<- Hjh].
  rewrite Hpn in E1, E2 by lia.
  pose proof (prev_at_owns _ _ p l1 l2 (Z.of_nat i) HI ltac:(lia)) as Ho1.
  pose proof (prev_at_owns _ _ p l1 l2 (Z.of_nat j) HI ltac:(lia)) as Ho2.
  destruct (owns_inj _ _ _ _ _ _ _ _ HI Ho1 Ho2); lia.
Qed.

Lemma cells_range p l1 l2 (pn : list Z) h :
  Inv dom cmp p (l1 ++ l2) -> 0 <= h <= tMaxHeight -> len pn = tMaxHeight ->
  (forall j, 0 <= j < h -> rd pn j = prev_at p l1 j) ->
  Forall (fun a => 0 <= a < len (nodeData p)) (cells 0 (take (Z.to_nat h) pn)).
Proof.
  intros HI Hh Hl Hpn. apply Forall_forall. intros a Ha.
  apply (cells_written p l1 l2 pn h a HI Hh Hl Hpn) in Ha as (i & Hi & ->).
  pose proof (prev_at_owns _ _ p l1 l2 i HI ltac:(lia)) as Ho.
  pose proof (owns_range _ _ _ _ _ _ HI Ho). lia.
Qed.

End put.
End PutSpec.

Module PutProof.
Import memdb Rep RepFacts Chain Search FindGE Loops Frame Insert Overwrite RefFacts PutSpec.

#[global] Arguments len : simpl never.
#[global] Arguments rd : simpl never.
#[global] Arguments elem : simpl never.
#[global] Arguments assign : simpl never.
#[global] Arguments slice : simpl never.
#[global] Arguments slice_to : simpl never.
#[global] Arguments slice_from : simpl never.
#[global] Arguments findGE : simpl never.
#[global] Arguments randHeight : simpl never.
#[global] Arguments Put_clear : simpl never.
#[global] Arguments Put_link : simpl never.
#[global] Arguments Delete_unlink : simpl never.
#[global] Arguments cells : simpl never.

Section put.
Variable dom : bytes -> Prop.
Variable cmp : bytes -> bytes -> Z.
Hypothesis HC : BasicComparer dom cmp.
Variable rand_Int : nat -> Z.
Variable growslice : Z -> Z -> Z.

Lemma entries_app p l1 l2 : entries p (l1 ++ l2) = entries p l1 ++ entries p l2.
Proof. apply map_app. Qed.

Lemma entries_before p l1 key :
  Forall (before cmp p key) l1 -> Forall (key_before cmp key) (entries p l1).
Proof.
  intros H. unfold entries. apply Forall_map. eapply Forall_impl; [exact H|]. done.
Qed.

Lemma Put_overwrite_spec p l1 y r pn key value :
  Inv dom cmp p (l1 ++ y :: r) -> dom key ->
  Forall (before cmp p key) l1 ->
  cmp (keyOf (nodeData p) (kvData p) y) key = 0 ->
  len pn = tMaxHeight ->
  findGE cmp p key true = Ok (set_prevNode p pn, y, true) ->
  exists p', Put cmp rand_Int growslice p key value = Ok (p', nil_error)
    /\ Inv dom cmp p' (l1 ++ y :: r)
    /\ entries p' (l1 ++ y :: r) = RefMap.put cmp key value (entries p (l1 ++ y :: r)).
Proof.
  intros HI Hk H1 Hc Hpnl Hf.
  assert (y ∈ l1 ++ y :: r) as Hyl by (rewrite elem_of_app, elem_of_cons; auto).
  pose proof (Inv_node _ _ _ _ _ HI Hyl) as Hy.
  assert (keyOf (nodeData p) (kvData p) y = key) as Hkey.
  { apply (cmp_eq _ _ HC); [apply Hy|done|done]. }
  unfold Put. rewrite (bind_Ok _ _ _ Hf). simpl.
  destruct Hy. consts.
  rewrite (bind_Ok _ _ _ (assign_in_range (nodeData p) y _ ltac:(lia))).
  remember (<[Z.to_nat y := len (kvData p)]> (nodeData p)) as nd1 eqn:End1.
  assert (len nd1 = len (nodeData p)) as Hl1 by (subst nd1; apply len_insert).
  assert (0 <= y + 2 < len nd1) as Hr1 by lia.
  rewrite (bind_Ok _ _ _ (elem_rd nd1 (y + 2) Hr1)).
  rewrite (bind_Ok _ _ _ (assign_in_range nd1 (y + 2) _ Hr1)).
  remember (<[Z.to_nat (y + 2) := len value]> nd1) as nd2 eqn:End2.
  assert (rd nd1 (y + 2) = vlen (nodeData p) y) as Hm.
  { subst nd1. rewrite rd_insert_ne by lia. done. }
  rewrite Hm.
  assert (len nd2 = len (nodeData p)) as Hl2 by (subst nd2; by rewrite len_insert).
  assert (rd nd2 y = len (kvData p)) as Ho2.
  { subst nd2 nd1. rewrite rd_insert_ne by lia. apply rd_insert_eq. lia. }
  assert (rd nd2 (y + nVal) = len value) as Hv2.
  { subst nd2. consts. apply rd_insert_eq. lia. }
  assert (forall a, 0 <= a -> a <> y -> a <> y + nVal -> rd nd2 a = rd (nodeData p) a) as Hot.
  { intros a Ha Hne1 Hne2. subst nd2 nd1; unfold nVal in *. rewrite !rd_insert_ne by lia. done. }
  eexists. split; [reflexivity|].
  split.
  - eapply (Inv_overwrite dom cmp HC p l1 y r key value nd2); simpl; try done.
    by rewrite <- app_assoc.
  - rewrite (entries_overwrite dom cmp HC p l1 y r key value nd2); simpl; try done.
    + rewrite entries_app, put_app by by apply entries_before.
      f_equal. simpl. rewrite Hc. simpl. done.
    + by rewrite <- app_assoc.
Qed.

(** The scratch array after the levels above the old height are cleared. *)
Lemma Put_raise p l1 l2 (pn : list Z) r h :
  Inv dom cmp p (l1 ++ l2) -> 1 <= h <= tMaxHeight -> len pn = tMaxHeight ->
  (forall j, 0 <= j < maxHeight p -> rd pn j = prev_at p l1 j) ->
  let p2 := set_rnd (set_prevNode p pn) r in
  exists pn3,
    (if maxHeight p2 <? h then
       pn' ← Put_clear (S (Z.to_nat (h - maxHeight p2))) (prevNode p2) (maxHeight p2) h;
       Ok (set_maxHeight (set_prevNode p2 pn') h)
     else Ok p2)
    = Ok (mkDB r (kvData p) (kvCap p) (nodeData p) pn3
            (Z.max (maxHeight p) h) (n p) (kvSize p))
    /\ len pn3 = tMaxHeight
    /\ (forall j, 0 <= j < h -> rd pn3 j = prev_at p l1 j).
Proof.
  intros HI Hh Hpnl Hpn p2. subst p2. simpl.
  pose proof (inv_maxHeight _ _ _ _ HI) as Hmh.
  destruct (Z.ltb_spec (maxHeight p) h) as [Hlt|Hge].
  - destruct (Put_clear_spec (S (Z.to_nat (h - maxHeight p))) pn (maxHeight p) h)
      as (pn' & -> & Hl & Hz & Ho); [lia|lia|lia|].
    exists pn'. simpl. unfold set_maxHeight, set_prevNode. simpl.
    rewrite Z.max_r by lia. split; [done|]. split; [lia|].
    intros j Hj. destruct (decide (j < maxHeight p)).
    + rewrite Ho by lia. apply Hpn. lia.
    + rewrite Hz by lia. symmetry. eapply prev_at_top; [exact HI|lia].
  - exists pn. unfold set_rnd, set_prevNode. simpl.
    rewrite Z.max_l by lia. split; [done|]. split; [done|].
    intros j Hj. apply Hpn. lia.
Qed.

Lemma Put_insert_spec p l1 l2 pn key value :
  Inv dom cmp p (l1 ++ l2) -> dom key ->
  Forall (before cmp p key) l1 ->
  Forall (fun y => ~ before cmp p key y) l2 ->
  exact_hd cmp p key l2 = false ->
  len pn = tMaxHeight ->
  (forall j, 0 <= j < maxHeight p -> rd pn j = prev_at p l1 j) ->
  findGE cmp p key true = Ok (set_prevNode p pn, hd 0 l2, false) ->
  exists p', Put cmp rand_Int growslice p key value = Ok (p', nil_error)
    /\ Inv dom cmp p' (l1 ++ len (nodeData p) :: l2)
    /\ entries p' (l1 ++ len (nodeData p) :: l2)
       = RefMap.put cmp key value (entries p (l1 ++ l2)).
Proof.
  intros HI Hk H1 H2 Hex Hpnl Hpn Hf.
  pose proof (inv_maxHeight _ _ _ _ HI) as Hmh.
  pose proof (inv_head _ _ _ _ HI) as Hhead.
  unfold Put. rewrite (bind_Ok _ _ _ Hf). simpl.
  destruct (randHeight_spec rand_Int (set_prevNode p pn)) as (r & h & Hrh & Hh).
  rewrite (bind_Ok _ _ _ Hrh). simpl.
  destruct (Put_raise p l1 l2 pn r h HI Hh Hpnl Hpn) as (pn3 & Hraise & Hl3 & Hpn3).
  simpl in Hraise. rewrite (bind_Ok _ _ _ Hraise). simpl. clear Hraise.
  assert (0 <= h <= tMaxHeight) as Hh0 by lia.
  rewrite (bind_Ok _ _ _ (slice_to_in_range pn3 h ltac:(lia))).
  set (hdr := [len (kvData p); len key; len value; h]).
  set (prevs := take (Z.to_nat h) pn3).
  assert (len (nodeData p ++ hdr) = len (nodeData p) + 4) as Hl0
    by (by rewrite len_app).
  assert (len prevs = h) as Hlp by (apply len_take; lia).
  destruct (Put_link_spec prevs (nodeData p ++ hdr) (len (nodeData p)) 0)
    as (nd' & Hlink & Hlen & Hother & Hw & Hn).
  { eapply cells_NoDup; eauto. }
  { eapply Forall_impl; [eapply cells_range; eauto|]. simpl. intros a Ha. lia. }
  rewrite (bind_Ok _ _ _ Hlink). simpl.
  assert (forall a, a ∈ cells 0 prevs <-> written p l1 h a) as Hcw.
  { intros a. eapply cells_written; eauto. }
  assert (forall f, 0 <= f < 4 ->
            rd nd' (len (nodeData p) + f) = rd hdr f) as Hhdr.
  { intros f Hf4. consts. rewrite Hother.
    - apply rd_app_r. lia.
    - lia.
    - intros Hin. pose proof (cells_range _ _ p l1 l2 pn3 h HI Hh0 Hl3 Hpn3) as Hr.
      rewrite Forall_forall in Hr. specialize (Hr _ Hin). lia. }
  eexists. split; [reflexivity|].
  assert (Forall (fun y => cmp key (keyOf (nodeData p) (kvData p) y) < 0) l2) as Hafter
    by (eapply not_exact_after; eauto).
  split.
  - eapply (Inv_new_node dom cmp HC p l1 l2 key value h nd'); simpl; try done.
    + consts. lia.
    + specialize (Hhdr 0 ltac:(lia)). by rewrite Z.add_0_r in Hhdr.
    + apply (Hhdr 1). lia.
    + apply (Hhdr 2). lia.
    + apply (Hhdr 3). lia.
    + intros i Hi. apply Hw, Hcw. by exists i.
    + intros i Hi.
      assert (cells 0 prevs !! Z.to_nat i
              = Some (prev_at p l1 i + nNext + i)) as Hci.
      { rewrite (cells_lookup prevs 0 (Z.to_nat i) (rd pn3 i)).
        - rewrite Hpn3 by lia. do 2 f_equal. lia.
        - apply lookup_take_Some. split; [|lia]. unfold rd.
          destruct (lookup_lt_is_Some_2 pn3 (Z.to_nat i)) as [x Hx].
          { unfold len in Hl3. consts. lia. }
          by rewrite Hx. }
      specialize (Hn _ _ Hci).
      replace (len (nodeData p ++ hdr) + Z.of_nat (Z.to_nat i))
        with (len (nodeData p) + nNext + i) in Hn by (consts; lia).
      rewrite Hn. apply rd_app_l.
      pose proof (prev_at_owns _ _ p l1 l2 i HI ltac:(lia)) as Ho.
      pose proof (owns_range _ _ _ _ _ _ HI Ho). lia.
    + intros a Ha Hnw. rewrite Hother; [by apply rd_app_l|lia|].
      by rewrite Hcw.
    + by rewrite <- app_assoc.
    + lia.
  - rewrite (entries_new_node dom cmp p l1 l2 key value h nd'); simpl; try done.
    + rewrite entries_app, put_app by by apply entries_before.
      f_equal. destruct l2 as [|y r2]; [done|]. simpl in *.
      apply Forall_cons in H2 as [Hy _]. unfold before in Hy.
      destruct (Z.ltb_spec (cmp (keyOf (nodeData p) (kvData p) y) key) 0); [lia|].
      by rewrite Hex.
    + specialize (Hhdr 0 ltac:(lia)). by rewrite Z.add_0_r in Hhdr.
    + apply (Hhdr 1). lia.
    + apply (Hhdr 2). lia.
    + intros a Ha Hnw. rewrite Hother; [by apply rd_app_l|lia|].
      by rewrite Hcw.
    + by rewrite <- app_assoc.
Qed.

Theorem Put_spec p l key value :
  Inv dom cmp p l -> dom key ->
  exists p' l', Put cmp rand_Int growslice p key value = Ok (p', nil_error)
    /\ Inv dom cmp p' l'
    /\ entries p' l' = RefMap.put cmp key value (entries p l).
Proof.
  intros HI Hk.
  destruct (findGE_spec dom cmp HC true p l key HI Hk)
    as (l1 & l2 & pn & -> & H1 & H2 & Hf & Hpnl & Hpn).
  specialize (Hpn eq_refl).
  destruct (exact_hd cmp p key l2) eqn:Hex.
  - destruct l2 as [|y r]; [done|]. simpl in Hex, Hf. apply Z.eqb_eq in Hex.
    destruct (Put_overwrite_spec p l1 y r pn key value HI Hk H1 Hex Hpnl Hf)
      as (p' & ? & ? & ?).
    by exists p', (l1 ++ y :: r).
  - destruct (Put_insert_spec p l1 l2 pn key value HI Hk H1 H2 Hex Hpnl Hpn Hf)
      as (p' & ? & ? & ?).
    by exists p', (l1 ++ len (nodeData p) :: l2).
Qed.

End put.
End PutProof.

(** ** [Delete] *)

Module DeleteProof.
Import memdb Rep RepFacts Chain Search FindGE Loops Frame Insert Overwrite RefFacts
  PutSpec PutProof.

Section unlink.
Variable dom : bytes -> Prop.
Variable cmp : bytes -> bytes -> Z.
Hypothesis HC : BasicComparer dom cmp.

Variables (p : DB_) (l1 : list Z) (y : Z) (r : list Z).
Variables (nd' : list Z) (p' : DB_).

Local Abbreviation nd := (nodeData p).
Local Abbreviation kv := (kvData p).
Local Abbreviation l := (l1 ++ y :: r).
Local Abbreviation h := (height (nodeData p) y).

Hypothesis HI : Inv dom cmp p l.

Hypothesis Hlen : len nd' = len nd.
Hypothesis Hprev : forall i, 0 <= i < h ->
  rd nd' (prev_at p l1 i + nNext + i) = rd nd (y + nNext + i).
Hypothesis Hother : forall a, 0 <= a -> ~ written p l1 h a -> rd nd' a = rd nd a.

Hypothesis Hnd' : nodeData p' = nd'.
Hypothesis Hkv' : kvData p' = kv.
Hypothesis Hpn' : len (prevNode p') = tMaxHeight.
Hypothesis Hmh' : maxHeight p' = maxHeight p.
Hypothesis Hn' : n p' = n p - 1.
Hypothesis Hsize' : kvSize p' = kvSize p - (klen nd y + vlen nd y).

Lemma del_y_in : y ∈ l.
Proof. rewrite elem_of_app, elem_of_cons. auto. Qed.

Lemma del_h : 1 <= h <= tMaxHeight.
Proof. by destruct (Inv_node _ _ _ _ _ HI del_y_in). Qed.

Lemma del_sub x : x ∈ l1 ++ r -> x ∈ l.
Proof. rewrite !elem_of_app, elem_of_cons. tauto. Qed.

Lemma del_same_head x : x = 0 \/ x ∈ l -> same_head nd nd' x.
Proof.
  intros Hx f Hf.
  pose proof (owns_head_cell _ _ p _ x f HI Hx Hf) as Hown.
  pose proof (owns_range _ _ _ _ _ _ HI Hown).
  apply Hother; [lia|].
  apply (head_cell_not_written _ _ p l1 (y :: r) h x f HI); [apply del_h|done|done].
Qed.

Lemma del_height x : x = 0 \/ x ∈ l -> height nd' x = height nd x.
Proof. intros Hx. by apply same_head_fields, del_same_head. Qed.

Lemma del_entry x : x ∈ l -> entry nd' kv x = entry nd kv x.
Proof.
  intros Hx. destruct (Inv_node _ _ _ _ _ HI Hx). unfold entry.
  destruct (same_head_entry nd nd' kv [] x) as [Ek Ev]; try done.
  { apply del_same_head. auto. }
  rewrite app_nil_r in Ek, Ev. by rewrite Ek, Ev.
Qed.

Lemma del_next_other i u :
  0 <= i < tMaxHeight -> u = 0 \/ u ∈ l -> i < height nd u ->
  h <= i \/ u <> prev_at p l1 i ->
  next nd' i u = next nd i u.
Proof.
  intros Hi Hu Hhu Hne. unfold next.
  assert (owns p l u (nNext + i)) as Hown by (split; [done|consts; lia]).
  pose proof (owns_range _ _ _ _ _ _ HI Hown).
  apply Hother; [lia|]. intros Hw. pose proof del_h.
  destruct (owned_written _ _ p l1 (y :: r) h u (nNext + i) HI ltac:(lia) Hown)
    as (j & Hj & E1 & E2).
  - by rewrite Z.add_assoc.
  - assert (j = i) as -> by lia. destruct Hne; [lia|done].
Qed.

Lemma del_links i :
  0 <= i < tMaxHeight -> linked (next nd' i) 0 (level nd' i (l1 ++ r)) 0.
Proof.
  intros Hi.
  rewrite (level_ext nd nd') by (intros x Hx; apply del_height; right; by apply del_sub).
  pose proof (inv_links _ _ _ _ HI i Hi) as Hl. rewrite level_app in Hl |- *.
  pose proof (inv_head_height _ _ _ _ HI) as Hhh.
  pose proof (Inv_NoDup_head _ _ HC _ _ HI) as Hnd.
  assert (forall u, u ∈ 0 :: level nd i l1 ++ level nd i r ->
            (u = 0 \/ u ∈ l) /\ i < height nd u) as Hmem.
  { intros u Hu. apply elem_of_cons in Hu as [->|Hu].
    - split; [by left|]. rewrite Hhh. lia.
    - rewrite <- level_app in Hu. apply level_elem in Hu as [? ?].
      split; [right; by apply del_sub|done]. }
  destruct (decide (i < h)) as [Hih|Hih].
  - rewrite level_cons_in in Hl by done.
    apply (linked_delete (next nd i) _ _ _ _ _ y); try done.
    + assert (NoDup (level nd i (0 :: l))) as Hn2 by by apply NoDup_level.
      rewrite level_cons_in, level_app, level_cons_in in Hn2 by (rewrite ?Hhh; lia).
      done.
    + unfold next. apply Hprev. pose proof del_h. lia.
    + intros u Hu Hne. destruct (Hmem u Hu) as [Hu1 Hu2].
      apply del_next_other; auto.
  - rewrite level_cons_out in Hl by done.
    apply (linked_ext (next nd i)); [|done].
    intros u Hu. destruct (Hmem u Hu) as [Hu1 Hu2].
    apply del_next_other; auto. left. lia.
Qed.

Lemma Inv_unlink : Inv dom cmp p' (l1 ++ r).
Proof.
  pose proof HI as [Imh Ipn Ihead Ihh Inodes Iheights Iapart Isorted Ilinks Icount In Isize].
  constructor; rewrite ?Hnd', ?Hkv'.
  - lia.
  - done.
  - lia.
  - rewrite del_height by auto. done.
  - apply Forall_forall. intros x Hx%del_sub. rewrite Forall_forall in Inodes.
    rewrite <- (app_nil_r kv).
    apply node_ok_frame with (nd := nd); [by apply Inodes| |lia].
    apply del_same_head; auto.
  - apply Forall_forall. intros x Hx%del_sub. rewrite del_height by auto.
    rewrite Forall_forall in Iheights. rewrite Hmh'. by apply Iheights.
  - intros x z Hx%del_sub Hz%del_sub Hne. unfold apart.
    rewrite !del_height by auto. by apply Iapart.
  - apply (sorted_ext cmp nd nd' kv kv).
    { intros x Hx%del_sub. pose proof (del_entry x Hx) as E. by injection E. }
    apply StronglySorted_app in Isorted as (H12 & Hs1 & Hs2).
    apply StronglySorted_cons in Hs2 as [_ Hs2].
    apply StronglySorted_app_2; [|done|done].
    intros x1 x2 Hx1 Hx2. apply H12; [done|by apply list_elem_of_further].
  - apply del_links.
  - rewrite len_app in *. rewrite len_cons in Icount. lia.
  - rewrite Hn', In, !len_app, len_cons. lia.
  - rewrite Hsize', Isize, !total_app. simpl.
    rewrite (total_ext nd nd' l1), (total_ext nd nd' r).
    + lia.
    + intros x Hx. apply del_same_head. right. rewrite elem_of_app, elem_of_cons. auto.
    + intros x Hx. apply del_same_head. right. rewrite elem_of_app. auto.
Qed.

Lemma entries_unlink : entries p' (l1 ++ r) = entries p l1 ++ entries p r.
Proof.
  unfold entries. rewrite Hnd', Hkv', map_app.
  f_equal; apply entries_ext; intros x Hx; apply del_entry;
    rewrite elem_of_app, ?elem_of_cons; auto.
Qed.

End unlink.
End DeleteProof.

Module Ops.
Import memdb Rep RepFacts Chain Search FindGE Loops Frame Insert Overwrite RefFacts
  PutSpec PutProof DeleteProof.

Section ops.
Variable dom : bytes -> Prop.
Variable cmp : bytes -> bytes -> Z.
Hypothesis HC : BasicComparer dom cmp.

(** The node before the key on a level points at the first node at or
    after the key on that level. *)
Lemma prev_at_next p l1 y r j :
  Inv dom cmp p (l1 ++ y :: r) -> 0 <= j < height (nodeData p) y ->
  next (nodeData p) j (prev_at p l1 j) = y.
Proof.
  intros HI Hj.
  assert (y ∈ l1 ++ y :: r) as Hyl by (rewrite elem_of_app, elem_of_cons; auto).
  destruct (Inv_node _ _ _ _ _ HI Hyl).
  pose proof (inv_links _ _ _ _ HI j ltac:(lia)) as Hl.
  rewrite level_app, level_cons_in in Hl by lia.
  apply linked_app_last in Hl. by destruct Hl.
Qed.

Lemma entries_not_exact p l1 l2 key :
  Inv dom cmp p (l1 ++ l2) -> dom key ->
  Forall (fun y => ~ before cmp p key y) l2 ->
  exact_hd cmp p key l2 = false ->
  Forall (fun e => cmp (fst e) key <> 0) (entries p l2).
Proof.
  intros HI Hk H2 Hex.
  pose proof (not_exact_after _ _ HC p l1 l2 key HI Hk H2 Hex) as Ha.
  unfold entries. apply Forall_map. apply Forall_forall. intros y Hy. simpl.
  rewrite Forall_forall in Ha. specialize (Ha y Hy).
  apply (cmp_flip _ _ HC) in Ha; [lia|done|].
  eapply Inv_dom; [exact HI|]. rewrite elem_of_app. auto.
Qed.

Lemma Delete_found_spec p l1 y r pn key :
  Inv dom cmp p (l1 ++ y :: r) -> dom key ->
  Forall (before cmp p key) l1 ->
  cmp (keyOf (nodeData p) (kvData p) y) key = 0 ->
  len pn = tMaxHeight ->
  (forall j, 0 <= j < maxHeight p -> rd pn j = prev_at p l1 j) ->
  findGE cmp p key true = Ok (set_prevNode p pn, y, true) ->
  exists p', Delete cmp p key = Ok (p', nil_error)
    /\ Inv dom cmp p' (l1 ++ r)
    /\ entries p' (l1 ++ r) = RefMap.delete cmp key (entries p (l1 ++ y :: r))
    /\ kvData p' = kvData p /\ kvCap p' = kvCap p
    /\ kvSize p' = kvSize p - (klen (nodeData p) y + vlen (nodeData p) y).
Proof.
  intros HI Hk H1 Hc Hpnl Hpn Hf.
  assert (y ∈ l1 ++ y :: r) as Hyl by (rewrite elem_of_app, elem_of_cons; auto).
  pose proof (Inv_node _ _ _ _ _ HI Hyl) as Hy.
  pose proof (Inv_height_le _ _ _ _ _ HI Hyl) as Hymh.
  pose proof (inv_maxHeight _ _ _ _ HI) as Hmh.
  pose proof (Inv_NoDup_head _ _ HC _ _ HI) as Hnd.
  set (h := height (nodeData p) y) in *.
  assert (0 <= h <= tMaxHeight) as Hh0 by (destruct Hy; lia).
  assert (forall j, 0 <= j < h -> rd pn j = prev_at p l1 j) as Hpnh
    by (intros j Hj; apply Hpn; lia).
  unfold Delete. rewrite (bind_Ok _ _ _ Hf). simpl.
  assert (0 <= y + nHeight < len (nodeData p)) as Hr3 by (destruct Hy; consts; lia).
  rewrite (bind_Ok _ _ _ (elem_rd (nodeData p) (y + nHeight) Hr3)).
  fold (height (nodeData p) y). fold h.
  rewrite (bind_Ok _ _ _ (slice_to_in_range pn h ltac:(lia))).
  set (prevs := take (Z.to_nat h) pn).
  assert (forall a, a ∈ cells 0 prevs <-> written p l1 h a) as Hcw.
  { intros a. eapply cells_written; eauto. }
  assert (forall j a, cells 0 prevs !! j = Some a ->
            Z.of_nat j < h /\ a = prev_at p l1 (Z.of_nat j) + nNext + Z.of_nat j
            /\ rd (nodeData p) a = y) as Hcell.
  { intros j a Hj. apply cells_lookup_inv in Hj as (x & Hx & ->).
    apply take_lookup_rd in Hx as [<- Hjh]. rewrite Hpnh by lia.
    split; [done|]. split; [lia|].
    replace (0 + Z.of_nat j) with (Z.of_nat j) by lia.
    apply (prev_at_next p l1 y r (Z.of_nat j) HI). fold h. lia. }
  destruct (Delete_unlink_spec prevs (nodeData p) 0)
    as (nd' & Hun & Hlen & Hother & Hw).
  { eapply cells_NoDup; eauto. }
  { eapply cells_range; eauto. }
  { intros j a Hj. destruct (Hcell j a Hj) as (Hjh & -> & ->). simpl.
    assert (owns p (l1 ++ y :: r) y (nNext + (0 + Z.of_nat j))) as Hown.
    { split; [by right|]. fold h. consts. lia. }
    pose proof (owns_range _ _ _ _ _ _ HI Hown) as [_ Hr].
    split; [lia|]. rewrite Hcw. intros Hwr.
    destruct (owned_written _ _ p l1 (y :: r) h y (nNext + (0 + Z.of_nat j)) HI
                ltac:(lia) Hown) as (i & Hi & E & _).
    { by rewrite Z.add_assoc. }
    pose proof (lastd_elem 0 (level (nodeData p) i l1)) as Hin.
    fold (prev_at p l1 i) in Hin. rewrite <- E in Hin.
    apply NoDup_cons in Hnd as [Hn0 Hnd].
    apply elem_of_cons in Hin as [->|Hin]; [done|].
    apply level_elem in Hin as [_ Hin].
    apply NoDup_app in Hnd as (_ & Hd & _). apply (Hd y Hin), list_elem_of_here. }
  rewrite (bind_Ok _ _ _ Hun). simpl.
  assert (same_head (nodeData p) nd' y) as Hsh.
  { intros f Hf4.
    pose proof (owns_head_cell _ _ p _ y f HI ltac:(by right) Hf4) as Hown.
    pose proof (owns_range _ _ _ _ _ _ HI Hown).
    apply Hother; [lia|]. rewrite Hcw.
    apply (head_cell_not_written _ _ p l1 (y :: r) h y f HI); [lia|by right|done]. }
  destruct (same_head_fields _ _ _ Hsh) as (_ & Ekl & Evl & _).
  assert (0 <= y + nKey < len nd' /\ 0 <= y + nVal < len nd') as [Hr1 Hr2]
    by (destruct Hy; consts; lia).
  rewrite (bind_Ok _ _ _ (elem_rd nd' (y + nKey) Hr1)).
  rewrite (bind_Ok _ _ _ (elem_rd nd' (y + nVal) Hr2)).
  fold (klen nd' y) (vlen nd' y). rewrite Ekl, Evl.
  assert (forall i, 0 <= i < h ->
            rd nd' (prev_at p l1 i + nNext + i) = rd (nodeData p) (y + nNext + i)) as Hprev.
  { intros i Hi.
    assert (cells 0 prevs !! Z.to_nat i = Some (prev_at p l1 i + nNext + i)) as Hci.
    { rewrite (cells_lookup prevs 0 (Z.to_nat i) (rd pn i)).
      - rewrite Hpnh by lia. do 2 f_equal. lia.
      - apply lookup_take_Some. split; [|lia]. unfold rd.
        destruct (lookup_lt_is_Some_2 pn (Z.to_nat i)) as [x Hx].
        { unfold len in Hpnl. consts. lia. }
        by rewrite Hx. }
    rewrite (Hw _ _ Hci). destruct (Hcell _ _ Hci) as (_ & _ & ->).
    f_equal. lia. }
  assert (forall a, 0 <= a -> ~ written p l1 h a -> rd nd' a = rd (nodeData p) a) as Hoth.
  { intros a Ha Hnw. apply Hother; [done|]. by rewrite Hcw. }
  eexists. split; [reflexivity|].
  split; [|split; [|done]].
  - eapply (Inv_unlink dom cmp HC p l1 y r nd'); simpl; done.
  - rewrite (entries_unlink dom cmp p l1 y r nd'); simpl; try done.
    rewrite entries_app, delete_app by by apply entries_before.
    f_equal. simpl. by rewrite Hc.
Qed.

Theorem Delete_spec p l key :
  Inv dom cmp p l -> dom key ->
  exists p' l' e, Delete cmp p key = Ok (p', e)
    /\ Inv dom cmp p' l'
    /\ entries p' l' = RefMap.delete cmp key (entries p l)
    /\ kvData p' = kvData p /\ kvCap p' = kvCap p
    /\ e = match RefMap.get cmp key (entries p l) with
           | Some _ => nil_error
           | None => ErrNotFound
           end
    /\ (e = ErrNotFound -> exists pn, p' = set_prevNode p pn /\ l' = l).
Proof.
  intros HI Hk.
  destruct (findGE_spec dom cmp HC true p l key HI Hk)
    as (l1 & l2 & pn & -> & H1 & H2 & Hf & Hpnl & Hpn).
  specialize (Hpn eq_refl).
  rewrite (entries_app p l1 l2), get_app by by apply entries_before.
  destruct (exact_hd cmp p key l2) eqn:Hex.
  - destruct l2 as [|y r]; [done|]. simpl in Hex, Hf. apply Z.eqb_eq in Hex.
    destruct (Delete_found_spec p l1 y r pn key HI Hk H1 Hex Hpnl Hpn Hf)
      as (p' & Hd & HI' & He & Hkv & Hcap & _).
    exists p', (l1 ++ r), nil_error. rewrite <- entries_app.
    repeat (split; [done|]). simpl. rewrite Hex. simpl. done.
  - exists (set_prevNode p pn), (l1 ++ l2), ErrNotFound.
    pose proof (entries_not_exact p l1 l2 key HI Hk H2 Hex) as Hne.
    split; [|split; [|split; [|split; [done|split; [done|split]]]]].
    + unfold Delete. rewrite (bind_Ok _ _ _ Hf). done.
    + by apply Inv_set_prevNode.
    + rewrite delete_app by by apply entries_before.
      rewrite delete_absent by done. by rewrite <- entries_app.
    + by rewrite get_absent.
    + intros _. by exists pn.
Qed.

(** Reading the entry of a live node. *)
Lemma read_entry p l y :
  Inv dom cmp p l -> y ∈ l ->
  elem (nodeData p) y = Ok (koff (nodeData p) y)
  /\ elem (nodeData p) (y + nKey) = Ok (klen (nodeData p) y)
  /\ elem (nodeData p) (y + nVal) = Ok (vlen (nodeData p) y)
  /\ slice (kvData p) (koff (nodeData p) y) (koff (nodeData p) y + klen (nodeData p) y)
     = Ok (keyOf (nodeData p) (kvData p) y)
  /\ slice (kvData p) (koff (nodeData p) y + klen (nodeData p) y)
       (koff (nodeData p) y + klen (nodeData p) y + vlen (nodeData p) y)
     = Ok (valOf (nodeData p) (kvData p) y).
Proof.
  intros HI Hy. destruct (Inv_node _ _ _ _ _ HI Hy). consts.
  split; [apply elem_rd; lia|]. split; [apply elem_rd; lia|].
  split; [apply elem_rd; lia|]. split; apply slice_sub; lia.
Qed.

Theorem Get_spec p l key :
  Inv dom cmp p l -> dom key ->
  exists value e, Get cmp p key = Ok (p, value, e)
    /\ match RefMap.get cmp key (entries p l) with
       | Some v' => value = v' /\ e = nil_error
       | None => value = [] /\ e = ErrNotFound
       end.
Proof.
  intros HI Hk.
  destruct (findGE_spec dom cmp HC false p l key HI Hk)
    as (l1 & l2 & pn & -> & H1 & H2 & Hf & _).
  rewrite (entries_app p l1 l2), get_app by by apply entries_before.
  unfold Get. rewrite (bind_Ok _ _ _ Hf). simpl.
  destruct (exact_hd cmp p key l2) eqn:Hex.
  - destruct l2 as [|y r]; [done|]. simpl in *.
    assert (y ∈ l1 ++ y :: r) as Hyl by (rewrite elem_of_app, elem_of_cons; auto).
    destruct (read_entry p _ y HI Hyl) as (E0 & E1 & E2 & _ & Ev).
    rewrite (bind_Ok _ _ _ E0), (bind_Ok _ _ _ E1), (bind_Ok _ _ _ E2).
    rewrite (bind_Ok _ _ _ Ev). rewrite Hex. by eexists _, _.
  - rewrite get_absent by by eapply entries_not_exact.
    by exists [], ErrNotFound.
Qed.

Theorem Find_spec p l key :
  Inv dom cmp p l -> dom key ->
  exists rkey value e, Find cmp p key = Ok (p, rkey, value, e)
    /\ match RefMap.find_ge cmp key (entries p l) with
       | Some kv' => (rkey, value) = kv' /\ e = nil_error
       | None => rkey = [] /\ value = [] /\ e = ErrNotFound
       end.
Proof.
  intros HI Hk.
  destruct (findGE_spec dom cmp HC false p l key HI Hk)
    as (l1 & l2 & pn & -> & H1 & H2 & Hf & _).
  rewrite (entries_app p l1 l2), find_ge_app by by apply entries_before.
  unfold Find. rewrite (bind_Ok _ _ _ Hf). simpl.
  destruct l2 as [|y r]; simpl.
  - by exists [], [], ErrNotFound.
  - assert (y ∈ l1 ++ y :: r) as Hyl by (rewrite elem_of_app, elem_of_cons; auto).
    pose proof (Inv_pos _ _ _ _ _ HI Hyl) as Hpos.
    destruct (Z.eqb_spec y 0); [consts; lia|]. simpl.
    destruct (read_entry p _ y HI Hyl) as (E0 & E1 & E2 & Ek & Ev).
    rewrite (bind_Ok _ _ _ E0), (bind_Ok _ _ _ E1), (bind_Ok _ _ _ Ek).
    rewrite (bind_Ok _ _ _ E2), (bind_Ok _ _ _ Ev).
    apply Forall_cons in H2 as [Hy _]. unfold before in Hy.
    destruct (Z.ltb_spec (cmp (keyOf (nodeData p) (kvData p) y) key) 0); [lia|].
    by eexists _, _, _.
Qed.

Theorem Contains_spec p l key :
  Inv dom cmp p l -> dom key ->
  Contains cmp p key
  = Ok (p, match RefMap.get cmp key (entries p l) with Some _ => true | None => false end).
Proof.
  intros HI Hk.
  destruct (findGE_spec dom cmp HC false p l key HI Hk)
    as (l1 & l2 & pn & -> & H1 & H2 & Hf & _).
  rewrite (entries_app p l1 l2), get_app by by apply entries_before.
  unfold Contains. rewrite (bind_Ok _ _ _ Hf). simpl.
  destruct (exact_hd cmp p key l2) eqn:Hex.
  - destruct l2 as [|y r]; [done|]. simpl in *. by rewrite Hex.
  - by rewrite get_absent by by eapply entries_not_exact.
Qed.

End ops.
End Ops.

(** ** A fresh store, [Reset], and the forward pass *)

Module Fresh.
Import memdb Rep RepFacts Chain Search FindGE Loops Frame Insert Overwrite RefFacts
  PutSpec PutProof DeleteProof Ops.

Lemma forward_loop_S cmp fuel p i :
  forward_loop cmp (S fuel) p i true
  = '(p', i', ok') ← Next cmp p i;
    rest ← forward_loop cmp fuel p' i' ok';
    Ok ((Key i, Value i) :: rest).
Proof. reflexivity. Qed.

Lemma forward_loop_false cmp fuel p i : forward_loop cmp (S fuel) p i false = Ok [].
Proof. reflexivity. Qed.

#[global] Arguments forward_loop : simpl never.
#[global] Arguments loop_fuel : simpl never.

Lemma New__eq c : 0 <= c -> New_ c = Ok (empty_store c).
Proof.
  intros Hc. unfold New_. destruct (Z.ltb_spec c 0); [lia|]. reflexivity.
Qed.

Lemma New__negative c : c < 0 -> New_ c = Panic.
Proof. intros Hc. unfold New_. destruct (Z.ltb_spec c 0); [done|lia]. Qed.

Lemma small_cases i : 0 <= i < 12 ->
  i = 0 \/ i = 1 \/ i = 2 \/ i = 3 \/ i = 4 \/ i = 5 \/ i = 6 \/ i = 7 \/ i = 8
  \/ i = 9 \/ i = 10 \/ i = 11.
Proof. lia. Qed.

Lemma Inv_empty dom cmp p :
  nodeData p = empty_nodeData -> len (prevNode p) = tMaxHeight ->
  maxHeight p = 1 -> n p = 0 -> kvSize p = 0 ->
  Inv dom cmp p [].
Proof.
  intros Hnd Hpn Hmh Hn Hsz. constructor; rewrite ?Hnd, ?Hmh, ?Hn, ?Hsz.
  - consts. lia.
  - done.
  - done.
  - done.
  - constructor.
  - constructor.
  - intros x y Hx. by apply elem_of_nil in Hx.
  - constructor.
  - intros i Hi. simpl. unfold next. consts.
    destruct (small_cases i Hi) as [->|[->|[->|[->|[->|[->|[->|[->|[->|[->|[->| ->]]]]]]]]]]];
      reflexivity.
  - done.
  - done.
  - done.
Qed.

Lemma Inv_empty_store dom cmp c : Inv dom cmp (empty_store c) [].
Proof. by apply Inv_empty. Qed.

Lemma list_of_len_12 (l : list Z) : len l = 12 ->
  exists a0 a1 a2 a3 a4 a5 a6 a7 a8 a9 a10 a11,
    l = [a0; a1; a2; a3; a4; a5; a6; a7; a8; a9; a10; a11].
Proof.
  unfold len. intros H.
  do 12 (destruct l as [|? l]; [simpl in H; lia|]).
  destruct l; [|simpl in H; lia]. by repeat eexists.
Qed.

Lemma list_of_len_16 (l : list Z) : len l = 16 ->
  exists a0 a1 a2 a3 a4 a5 a6 a7 a8 a9 a10 a11 a12 a13 a14 a15,
    l = [a0; a1; a2; a3; a4; a5; a6; a7; a8; a9; a10; a11; a12; a13; a14; a15].
Proof.
  unfold len. intros H.
  do 16 (destruct l as [|? l]; [simpl in H; lia|]).
  destruct l; [|simpl in H; lia]. by repeat eexists.
Qed.

Lemma Reset_eq (p : DB_) :
  nNext + tMaxHeight <= len (nodeData p) -> len (prevNode p) = tMaxHeight ->
  Reset p = Ok (mkDB O [] (kvCap p) empty_nodeData empty_prevNode 1 0 0).
Proof.
  intros Hnd Hpn. pose proof (len_nonneg (nodeData p)). unfold Reset.
  assert (0 <= nNext + tMaxHeight <= len (nodeData p)) as Hr by (consts; lia).
  rewrite (bind_Ok _ _ _ (slice_to_in_range (nodeData p) (nNext + tMaxHeight) Hr)).
  destruct (list_of_len_16 (take (Z.to_nat (nNext + tMaxHeight)) (nodeData p)))
    as (a0&a1&a2&a3&a4&a5&a6&a7&a8&a9&a10&a11&a12&a13&a14&a15&->).
  { rewrite len_take by lia. done. }
  destruct (list_of_len_12 (prevNode p) Hpn)
    as (b0&b1&b2&b3&b4&b5&b6&b7&b8&b9&b10&b11&->).
  reflexivity.
Qed.

Section forward.
Variable dom : bytes -> Prop.
Variable cmp : bytes -> bytes -> Z.
Hypothesis HC : BasicComparer dom cmp.

Theorem Reset_spec p l :
  Inv dom cmp p l -> exists p', Reset p = Ok p' /\ Inv dom cmp p' []
    /\ kvCap p' = kvCap p.
Proof.
  intros HI. eexists. split; [|split].
  - apply Reset_eq; apply HI.
  - by apply Inv_empty.
  - done.
Qed.

(** [fill] on an iterator without a range that was moved to [x]. *)
Lemma fill_node p l i x :
  Inv dom cmp p l -> x ∈ l -> it_released i = false -> it_slice i = None ->
  exists i', fill cmp p (it_set_node i x) false true = Ok (i', true)
    /\ stands_on p i' x.
Proof.
  intros HI Hx Hrel Hsl. unfold fill. simpl.
  pose proof (Inv_pos _ _ _ _ _ HI Hx) as Hpos.
  destruct (Z.eqb_spec x 0); [consts; lia|]. simpl.
  destruct (read_entry _ _ p _ x HI Hx) as (E0 & E1 & E2 & Ek & Ev).
  rewrite (bind_Ok _ _ _ E0), (bind_Ok _ _ _ E1), (bind_Ok _ _ _ Ek).
  rewrite Hsl. rewrite (bind_Ok _ _ _ E2), (bind_Ok _ _ _ Ev).
  eexists. split; [reflexivity|]. by repeat split.
Qed.

Lemma fill_end p i :
  exists i', fill cmp p (it_set_node i 0) false true = Ok (i', false).
Proof. unfold fill. simpl. by eexists. Qed.

(** Moving to the node [hd 0 ys], where [ys] is what is left of the list. *)
Lemma fill_hd p l i pre ys :
  Inv dom cmp p l -> l = pre ++ ys -> it_released i = false -> it_slice i = None ->
  exists i' ok, fill cmp p (it_set_node i (hd 0 ys)) false true = Ok (i', ok)
    /\ match ys with
       | [] => ok = false
       | x :: _ => ok = true /\ stands_on p i' x
       end.
Proof.
  intros HI -> Hrel Hsl. destruct ys as [|x ys]; simpl.
  - destruct (fill_end p i) as [i' ->]. by exists i', false.
  - destruct (fill_node p _ i x HI) as (i' & -> & Hs); try done.
    { rewrite elem_of_app, elem_of_cons. auto. }
    by exists i', true.
Qed.

Lemma level0 p l : Inv dom cmp p l -> level (nodeData p) 0 l = l.
Proof.
  intros HI. apply level_all. eapply Forall_impl; [apply HI|].
  simpl. intros x []. lia.
Qed.

Lemma forward_loop_spec p l fuel : forall ys pre x i,
  Inv dom cmp p l -> l = pre ++ x :: ys -> stands_on p i x ->
  (S (length ys) < fuel)%nat ->
  forward_loop cmp fuel p i true = Ok (entries p (x :: ys)).
Proof.
  induction fuel as [|fuel IH]; intros ys pre x i HI El Hs Hfuel; [lia|].
  destruct Hs as (Hrel & Hsl & Hnode & Hkey & Hval).
  rewrite forward_loop_S. unfold Next. rewrite Hrel, Hnode.
  assert (x ∈ l) as Hxl by (subst l; rewrite elem_of_app, elem_of_cons; auto).
  pose proof (Inv_pos _ _ _ _ _ HI Hxl) as Hpos.
  destruct (Z.eqb_spec x 0); [consts; lia|].
  destruct (Inv_node _ _ _ _ _ HI Hxl).
  cbn [it_node it_set_forward]. rewrite Hnode.
  assert (0 <= x + nNext < len (nodeData p)) as Hrx by (consts; lia).
  rewrite (bind_Ok _ _ _ (elem_rd (nodeData p) (x + nNext) Hrx)).
  assert (rd (nodeData p) (x + nNext) = hd 0 ys) as ->.
  { pose proof (inv_links _ _ _ _ HI 0 ltac:(consts; lia)) as Hl.
    rewrite (level0 p l HI), El in Hl. apply linked_app_last in Hl.
    destruct Hl as [_ Hl]. apply linked_hd in Hl. unfold next in Hl.
    by rewrite Z.add_0_r in Hl. }
  destruct (fill_hd p l (it_set_forward i true) (pre ++ [x]) ys HI)
    as (i' & ok & Hfill & Hok); [by rewrite <- app_assoc|done|done|].
  assert (it_set_node (it_set_forward i true) (hd 0 ys)
          = it_set_node (it_set_forward i true) (hd 0 ys)) as _ by done.
  rewrite (bind_Ok _ _ _ Hfill). simpl.
  unfold Key, Value. rewrite Hkey, Hval.
  destruct ys as [|x' ys].
  - subst ok. destruct fuel; [simpl in Hfuel; lia|]. by rewrite forward_loop_false.
  - destruct Hok as [-> Hs'].
    rewrite (IH ys (pre ++ [x]) x' i' HI); [done| |done|simpl in Hfuel; lia].
    by rewrite <- app_assoc.
Qed.

Theorem iterate_forward_spec p l :
  Inv dom cmp p l -> iterate_forward cmp p = Ok (entries p l).
Proof.
  intros HI. unfold iterate_forward, First. simpl.
  pose proof (inv_head _ _ _ _ HI) as Hhead.
  rewrite (bind_Ok _ _ _ (elem_rd (nodeData p) nNext ltac:(consts; lia))). simpl.
  assert (rd (nodeData p) nNext = hd 0 l) as ->.
  { pose proof (inv_links _ _ _ _ HI 0 ltac:(consts; lia)) as Hl.
    rewrite (level0 p l HI) in Hl. apply linked_hd in Hl. unfold next in Hl.
    by rewrite Z.add_0_r in Hl. }
  destruct (fill_hd p l (it_set_forward (NewIterator None) true) [] l HI)
    as (i' & ok & Hfill & Hok); [done|done|done|].
  rewrite (bind_Ok _ _ _ Hfill). simpl.
  destruct l as [|x ys].
  - subst ok. unfold loop_fuel. by rewrite forward_loop_false.
  - destruct Hok as [-> Hs].
    apply (forward_loop_spec p (x :: ys) _ ys [] x i' HI); [done|done|].
    pose proof (inv_count _ _ _ _ HI) as Hc. unfold loop_fuel.
    rewrite len_cons in Hc. unfold len in Hc. consts. lia.
Qed.

End forward.
End Fresh.

(** ** The reference map as a map *)

Module RefTheory.
Import RefFacts.

Section reftheory.
Variable dom : bytes -> Prop.
Variable cmp : bytes -> bytes -> Z.
Hypothesis HC : BasicComparer dom cmp.

Implicit Types (m : RefMap.t) (k key value : bytes).

Local Abbreviation wf := (RefMap.wf dom cmp).

Lemma wf_nil : wf [].
Proof. split; constructor. Qed.

Lemma wf_cons_inv k v m :
  wf ((k, v) :: m) ->
  dom k /\ wf m /\ Forall (fun e => cmp k (fst e) < 0) m.
Proof.
  intros [Hs Hd]. apply Forall_cons in Hd as [Hk Hd].
  unfold RefMap.sorted, RefMap.keys in Hs. simpl in Hs.
  apply StronglySorted_cons in Hs as [Hlt Hs].
  split; [done|]. split; [by split|].
  apply Forall_forall. intros e He. rewrite Forall_forall in Hlt.
  apply Hlt. by apply list_elem_of_fmap_2.
Qed.

Lemma cmp_zero_eq a b : dom a -> dom b -> cmp a b = 0 -> a = b.
Proof. intros Ha Hb. by apply (cmp_eq _ _ HC). Qed.

Lemma cmp_self a : dom a -> cmp a a = 0.
Proof. intros Ha. by apply (cmp_eq _ _ HC). Qed.

(** Nothing after the first entry carries a key that is not after it. *)
Lemma after_absent k s m :
  dom k -> dom s -> Forall (fun e => dom (fst e)) m ->
  Forall (fun e => cmp s (fst e) < 0) m -> ~ cmp s k < 0 ->
  Forall (fun e => cmp (fst e) k <> 0) m.
Proof.
  intros Hk Hs Hd Hlt Hsk. apply Forall_forall. intros e He Hc.
  rewrite Forall_forall in Hd, Hlt. specialize (Hd e He). specialize (Hlt e He).
  apply cmp_zero_eq in Hc; [|done|done]. by rewrite Hc in Hlt.
Qed.

Lemma get_put m k key value :
  Forall (fun e => dom (fst e)) m -> dom k -> dom key ->
  RefMap.get cmp k (RefMap.put cmp key value m)
  = if cmp key k =? 0 then Some value else RefMap.get cmp k m.
Proof.
  intros Hd Hk Hkey. induction Hd as [|[s sv] m Hs Hd IH]; simpl in *; [done|].
  destruct (Z.ltb_spec (cmp s key) 0) as [Hlt|Hge]; simpl.
  - rewrite IH. destruct (Z.eqb_spec (cmp key k) 0) as [E|E]; [|done].
    apply cmp_zero_eq in E; [|done|done]. subst k.
    destruct (Z.eqb_spec (cmp s key) 0); [lia|done].
  - destruct (Z.eqb_spec (cmp s key) 0) as [E|E]; simpl; [|done].
    apply cmp_zero_eq in E; [|done|done]. subst s.
    destruct (Z.eqb_spec (cmp key k) 0); done.
Qed.

Lemma get_delete m k key :
  wf m -> dom k -> dom key ->
  RefMap.get cmp k (RefMap.delete cmp key m)
  = if cmp key k =? 0 then None else RefMap.get cmp k m.
Proof.
  intros Hwf Hk Hkey. induction m as [|[s sv] m IH]; simpl.
  - by destruct (cmp key k =? 0).
  - apply wf_cons_inv in Hwf as (Hs & Hwf & Hlt). specialize (IH Hwf).
    destruct (Z.eqb_spec (cmp s key) 0) as [E|E]; simpl.
    + apply cmp_zero_eq in E; [|done|done]. subst s.
      destruct (Z.eqb_spec (cmp key k) 0) as [E'|E']; [|done].
      apply get_absent. apply (after_absent k key); try done; [apply Hwf|].
      apply cmp_zero_eq in E'; [|done|done]. subst k.
      rewrite cmp_self by done. lia.
    + rewrite IH. destruct (Z.eqb_spec (cmp key k) 0) as [E'|E']; [|done].
      apply cmp_zero_eq in E'; [|done|done]. subst k.
      destruct (Z.eqb_spec (cmp s key) 0); done.
Qed.

Lemma not_lt_absent m k s :
  dom k -> dom s -> Forall (fun e => dom (fst e)) m ->
  Forall (fun e => cmp s (fst e) < 0) m -> ~ cmp s k < 0 -> cmp s k <> 0 ->
  RefMap.get cmp k m = None.
Proof.
  intros Hk Hs Hd Hlt Hnlt Hne. apply get_absent.
  apply Forall_forall. intros e He Hc.
  rewrite Forall_forall in Hd, Hlt. specialize (Hd e He). specialize (Hlt e He).
  apply cmp_zero_eq in Hc; [|done|done]. rewrite Hc in Hlt.
  assert (0 < cmp s k) as Hgt by lia.
  apply (cmp_flip _ _ HC) in Hgt; [|done|done].
  pose proof (cmp_trans _ _ HC k s k Hk Hs Hk Hgt Hlt) as Hkk.
  rewrite cmp_self in Hkk by done. lia.
Qed.

Lemma len_put m key value :
  wf m -> dom key ->
  len (RefMap.put cmp key value m)
  = len m + match RefMap.get cmp key m with Some _ => 0 | None => 1 end.
Proof.
  intros Hwf Hkey. induction m as [|[s sv] m IH]; simpl; [done|].
  apply wf_cons_inv in Hwf as (Hs & Hwf & Hlt). specialize (IH Hwf).
  destruct (Z.ltb_spec (cmp s key) 0) as [Hl|Hge].
  - destruct (Z.eqb_spec (cmp s key) 0); [lia|]. rewrite !len_cons, IH. lia.
  - destruct (Z.eqb_spec (cmp s key) 0) as [E|E].
    + rewrite !len_cons. lia.
    + rewrite (not_lt_absent m key s); [|done|done|apply Hwf|done|lia|done].
      rewrite !len_cons. lia.
Qed.

Lemma payload_put_new m key value :
  wf m -> dom key -> RefMap.get cmp key m = None ->
  RefMap.payload (RefMap.put cmp key value m)
  = RefMap.payload m + (len key + len value).
Proof.
  intros Hwf Hkey. induction m as [|[s sv] m IH]; simpl; [lia|].
  apply wf_cons_inv in Hwf as (Hs & Hwf & Hlt). specialize (IH Hwf).
  destruct (Z.eqb_spec (cmp s key) 0) as [E|E]; [done|]. intros Hg.
  destruct (Z.ltb_spec (cmp s key) 0) as [Hl|Hge]; simpl.
  - rewrite IH by done. lia.
  - lia.
Qed.

Lemma len_delete m key :
  len (RefMap.delete cmp key m)
  = len m - match RefMap.get cmp key m with Some _ => 1 | None => 0 end.
Proof.
  induction m as [|[s sv] m IH]; simpl; [done|].
  destruct (Z.eqb_spec (cmp s key) 0) as [E|E].
  - rewrite len_cons. lia.
  - rewrite !len_cons, IH. lia.
Qed.

Lemma payload_delete m key value :
  Forall (fun e => dom (fst e)) m -> dom key ->
  RefMap.get cmp key m = Some value ->
  RefMap.payload (RefMap.delete cmp key m)
  = RefMap.payload m - (len key + len value).
Proof.
  intros Hd Hkey. induction Hd as [|[s sv] m Hs Hd IH]; simpl in *; [done|].
  destruct (Z.eqb_spec (cmp s key) 0) as [E|E].
  - intros [= ->]. apply cmp_zero_eq in E; [|done|done]. subst s. lia.
  - intros Hg. simpl. rewrite IH by done. lia.
Qed.

Lemma get_find_ge m key value :
  wf m -> dom key -> RefMap.get cmp key m = Some value ->
  RefMap.find_ge cmp key m = Some (key, value).
Proof.
  intros Hwf Hkey. induction m as [|[s sv] m IH]; simpl; [done|].
  apply wf_cons_inv in Hwf as (Hs & Hwf & Hlt). specialize (IH Hwf).
  destruct (Z.eqb_spec (cmp s key) 0) as [E|E].
  - intros [= ->]. destruct (Z.ltb_spec (cmp s key) 0); [lia|].
    apply cmp_zero_eq in E; [|done|done]. by subst s.
  - intros Hg. destruct (Z.ltb_spec (cmp s key) 0); [by apply IH|].
    rewrite (not_lt_absent m key s) in Hg; [done|done|done|apply Hwf|done|lia|done].
Qed.

(** [get] finds an entry exactly when the map holds the key. *)
Lemma get_Some_elem m key value :
  RefMap.get cmp key m = Some value ->
  exists k', (k', value) ∈ m /\ cmp k' key = 0.
Proof.
  induction m as [|[s sv] m IH]; simpl; [done|].
  destruct (Z.eqb_spec (cmp s key) 0) as [E|E].
  - intros [= ->]. exists s. split; [apply list_elem_of_here|done].
  - intros Hg. destruct (IH Hg) as (k' & Hin & Hc).
    exists k'. split; [by apply list_elem_of_further|done].
Qed.

Lemma get_None_elem m key :
  RefMap.get cmp key m = None <-> (forall e, e ∈ m -> cmp (fst e) key <> 0).
Proof.
  induction m as [|[s sv] m IH]; simpl.
  - split; [by intros _ e He%elem_of_nil|done].
  - destruct (Z.eqb_spec (cmp s key) 0) as [E|E].
    + split; [done|]. intros H. exfalso. by apply (H (s, sv)), E; apply list_elem_of_here.
    + rewrite IH. split.
      * intros H e He. apply elem_of_cons in He as [->|He]; [done|by apply H].
      * intros H e He. by apply H, list_elem_of_further.
Qed.

(** [find_ge] returns the first entry at or after the key. *)
Lemma find_ge_None m key :
  RefMap.find_ge cmp key m = None <-> (forall e, e ∈ m -> cmp (fst e) key < 0).
Proof.
  induction m as [|[s sv] m IH]; simpl.
  - split; [by intros _ e He%elem_of_nil|done].
  - destruct (Z.ltb_spec (cmp s key) 0) as [Hl|Hge].
    + rewrite IH. split.
      * intros H e He. apply elem_of_cons in He as [->|He]; [done|by apply H].
      * intros H e He. by apply H, list_elem_of_further.
    + split; [done|]. intros H. specialize (H (s, sv) ltac:(apply list_elem_of_here)).
      simpl in H. lia.
Qed.

Lemma find_ge_Some m key e :
  wf m -> dom key -> RefMap.find_ge cmp key m = Some e ->
  e ∈ m /\ 0 <= cmp (fst e) key
  /\ (forall e', e' ∈ m -> 0 <= cmp (fst e') key -> e' = e \/ cmp (fst e) (fst e') < 0).
Proof.
  intros Hwf Hkey. induction m as [|[s sv] m IH]; simpl; [done|].
  apply wf_cons_inv in Hwf as (Hs & Hwf & Hlt). specialize (IH Hwf).
  destruct (Z.ltb_spec (cmp s key) 0) as [Hl|Hge].
  - intros Hf. destruct (IH Hf) as (Hin & Hc & Hmin).
    split; [by apply list_elem_of_further|]. split; [done|].
    intros e' He' Hc'. apply elem_of_cons in He' as [->|He']; [simpl in Hc'; lia|].
    by apply Hmin.
  - intros [= <-]. split; [apply list_elem_of_here|]. split; [done|].
    intros e' He' _. apply elem_of_cons in He' as [->|He']; [by left|right].
    rewrite Forall_forall in Hlt. by apply Hlt.
Qed.

End reftheory.

Abbreviation wf := RefMap.wf.
End RefTheory.

(** ** Bytes and the bytewise comparer *)

Module Bytes.

Lemma byte_to_Z_range b : 0 <= byte_to_Z b < 256.
Proof. unfold byte_to_Z. pose proof (Byte.to_N_bounded b). lia. Qed.

Lemma byte_to_Z_inj a b : byte_to_Z a = byte_to_Z b -> a = b.
Proof.
  unfold byte_to_Z. intros H. apply N2Z.inj in H.
  pose proof (Byte.of_to_N a) as Ha. rewrite H, Byte.of_to_N in Ha. by injection Ha.
Qed.

Lemma byte_to_of_Z x : byte_to_Z (byte_of_Z x) = x mod 256.
Proof.
  unfold byte_of_Z, byte_to_Z.
  pose proof (Z.mod_pos_bound x 256 ltac:(lia)) as Hr.
  destruct (Byte.of_N (Z.to_N (x mod 256))) as [b|] eqn:E.
  - apply Byte.to_of_N in E. rewrite E. lia.
  - pose proof (Byte.to_of_N_option_map (Z.to_N (x mod 256))) as H.
    rewrite E in H. simpl in H.
    destruct (N.leb_spec (Z.to_N (x mod 256)) 255); [done|lia].
Qed.

Lemma byte_of_to_Z b : byte_of_Z (byte_to_Z b) = b.
Proof.
  apply byte_to_Z_inj. rewrite byte_to_of_Z. pose proof (byte_to_Z_range b).
  by apply Z.mod_small.
Qed.

Lemma bytes_Compare_eq a b : bytes_Compare a b = 0 <-> a = b.
Proof.
  revert b. induction a as [|x a IH]; intros [|y b]; simpl; try done.
  destruct (Z.ltb_spec (byte_to_Z x) (byte_to_Z y)).
  - split; [done|]. intros [= -> _]. lia.
  - destruct (Z.ltb_spec (byte_to_Z y) (byte_to_Z x)).
    + split; [done|]. intros [= -> _]. lia.
    + rewrite IH. assert (x = y) as -> by (apply byte_to_Z_inj; lia).
      split; [by intros ->|by intros [= ->]].
Qed.

Lemma bytes_Compare_flip a b : bytes_Compare a b < 0 <-> 0 < bytes_Compare b a.
Proof.
  revert b. induction a as [|x a IH]; intros [|y b]; simpl; try lia.
  destruct (Z.ltb_spec (byte_to_Z x) (byte_to_Z y)),
    (Z.ltb_spec (byte_to_Z y) (byte_to_Z x)); try lia. apply IH.
Qed.

Lemma bytes_Compare_trans a b c :
  bytes_Compare a b < 0 -> bytes_Compare b c < 0 -> bytes_Compare a c < 0.
Proof.
  revert b c. induction a as [|x a IH]; intros [|y b] [|z c]; simpl; try lia.
  destruct (Z.ltb_spec (byte_to_Z x) (byte_to_Z y)),
    (Z.ltb_spec (byte_to_Z y) (byte_to_Z x)),
    (Z.ltb_spec (byte_to_Z y) (byte_to_Z z)),
    (Z.ltb_spec (byte_to_Z z) (byte_to_Z y)),
    (Z.ltb_spec (byte_to_Z x) (byte_to_Z z)),
    (Z.ltb_spec (byte_to_Z z) (byte_to_Z x)); try lia.
  apply IH.
Qed.

Lemma bytes_Compare_lawful : BasicComparer any_key bytes_Compare.
Proof.
  constructor.
  - intros a b _ _. apply bytes_Compare_eq.
  - intros a b _ _. apply bytes_Compare_flip.
  - intros a b c _ _ _. apply bytes_Compare_trans.
Qed.

End Bytes.

(** ** The store as a map *)

Module Store.
Import memdb Rep RepFacts Chain Search FindGE Loops Frame Insert Overwrite RefFacts
  PutSpec PutProof DeleteProof Ops Fresh RefTheory.

Section store.
Variable dom : bytes -> Prop.
Variable cmp : bytes -> bytes -> Z.
Hypothesis HC : BasicComparer dom cmp.
Variable rand_Int : nat -> Z.
Variable growslice : Z -> Z -> Z.

Implicit Types (p : DB_) (m : RefMap.t) (key value : bytes).

Lemma sorted_entries nd kv (l : list Z) :
  StronglySorted (key_lt cmp nd kv) l -> RefMap.sorted cmp (map (entry nd kv) l).
Proof.
  unfold RefMap.sorted, RefMap.keys.
  induction 1 as [|x l' Hs IH Hx]; [constructor|]. simpl. constructor; [done|].
  rewrite Forall_forall in Hx. apply Forall_forall. intros k Hk.
  apply list_elem_of_fmap in Hk as (e & -> & He).
  apply list_elem_of_fmap in He as (y & -> & Hy). by apply Hx.
Qed.

Lemma Repr_wf p m : Repr dom cmp p m -> wf dom cmp m.
Proof.
  intros (l & HI & <-). split.
  - apply sorted_entries, HI.
  - unfold entries. apply Forall_map. eapply Forall_impl; [apply HI|].
    simpl. by intros x [].
Qed.

Lemma Repr_Len p m : Repr dom cmp p m -> Len p = len m.
Proof.
  intros (l & HI & <-). unfold Len, entries, len. rewrite length_map.
  apply HI.
Qed.

Lemma Repr_Size p m : Repr dom cmp p m -> Size p = RefMap.payload m.
Proof.
  intros (l & HI & <-). unfold Size. rewrite (inv_kvSize _ _ _ _ HI).
  eapply total_payload, HI.
Qed.

Lemma Repr_heights p m : Repr dom cmp p m ->
  1 <= maxHeight p <= tMaxHeight
  /\ height (nodeData p) 0 = tMaxHeight
  /\ len (prevNode p) = tMaxHeight.
Proof. intros (l & HI & _). split; [|split]; apply HI. Qed.

Lemma New__Repr c p : New_ c = Ok p -> Repr dom cmp p [].
Proof.
  intros H. destruct (Z.ltb_spec c 0) as [Hc|Hc].
  - by rewrite New__negative in H.
  - rewrite New__eq in H by done. injection H as <-.
    exists []. split; [apply Inv_empty_store|done].
Qed.

Lemma Reset_Repr p m :
  Repr dom cmp p m -> exists p', Reset p = Ok p' /\ Repr dom cmp p' []
    /\ Capacity p' = Capacity p.
Proof.
  intros (l & HI & _). destruct (Reset_spec dom cmp p l HI) as (p' & Hr & HI' & Hc).
  exists p'. split; [done|]. split; [by exists []|done].
Qed.

Lemma Put_Repr p m key value :
  Repr dom cmp p m -> dom key ->
  exists p', Put cmp rand_Int growslice p key value = Ok (p', nil_error)
    /\ Repr dom cmp p' (RefMap.put cmp key value m).
Proof.
  intros (l & HI & <-) Hk.
  destruct (Put_spec dom cmp HC rand_Int growslice p l key value HI Hk)
    as (p' & l' & HP & HI' & He).
  exists p'. split; [done|]. by exists l'.
Qed.

Lemma Delete_Repr p m key :
  Repr dom cmp p m -> dom key ->
  exists p' e, Delete cmp p key = Ok (p', e)
    /\ Repr dom cmp p' (RefMap.delete cmp key m)
    /\ Capacity p' = Capacity p
    /\ e = match RefMap.get cmp key m with
           | Some _ => nil_error
           | None => ErrNotFound
           end
    /\ (e = ErrNotFound -> Repr dom cmp p' m /\ Len p' = Len p /\ Size p' = Size p).
Proof.
  intros (l & HI & <-) Hk.
  destruct (Delete_spec dom cmp HC p l key HI Hk)
    as (p' & l' & e & HD & HI' & He & Hkv & Hcap & Hee & Hnf).
  exists p', e. split; [done|]. split; [by exists l'|]. split; [done|].
  split; [done|]. intros Hnot. destruct (Hnf Hnot) as (pn & -> & ->).
  split; [|done]. exists l. split; [done|]. done.
Qed.

Lemma Get_Repr p m key :
  Repr dom cmp p m -> dom key ->
  exists value e, Get cmp p key = Ok (p, value, e)
    /\ match RefMap.get cmp key m with
       | Some v' => value = v' /\ e = nil_error
       | None => value = [] /\ e = ErrNotFound
       end.
Proof. intros (l & HI & <-) Hk. by apply (Get_spec dom cmp HC). Qed.

Lemma Find_Repr p m key :
  Repr dom cmp p m -> dom key ->
  exists rkey value e, Find cmp p key = Ok (p, rkey, value, e)
    /\ match RefMap.find_ge cmp key m with
       | Some kv' => (rkey, value) = kv' /\ e = nil_error
       | None => rkey = [] /\ value = [] /\ e = ErrNotFound
       end.
Proof. intros (l & HI & <-) Hk. by apply (Find_spec dom cmp HC). Qed.

Lemma Contains_Repr p m key :
  Repr dom cmp p m -> dom key ->
  Contains cmp p key
  = Ok (p, match RefMap.get cmp key m with Some _ => true | None => false end).
Proof. intros (l & HI & <-) Hk. by apply (Contains_spec dom cmp HC). Qed.

Lemma iterate_Repr p m : Repr dom cmp p m -> iterate_forward cmp p = Ok m.
Proof. intros (l & HI & <-). by apply (iterate_forward_spec dom cmp). Qed.

Lemma apply_op_Repr p m o :
  Repr dom cmp p m -> dom (op_key o) ->
  exists p' e, apply_op cmp rand_Int growslice p o = Ok (p', e)
    /\ Repr dom cmp p' (replay_op cmp m o).
Proof.
  intros HR Hk. destruct o as [key value|key]; simpl in *.
  - destruct (Put_Repr p m key value HR Hk) as (p' & HP & HR'). by exists p', nil_error.
  - destruct (Delete_Repr p m key HR Hk) as (p' & e & HD & HR' & _). by exists p', e.
Qed.

Lemma run_Repr ops : forall p m,
  Repr dom cmp p m -> Forall (fun o => dom (op_key o)) ops ->
  exists p', run cmp rand_Int growslice p ops = Ok p'
    /\ Repr dom cmp p' (replay cmp m ops).
Proof.
  induction ops as [|o ops IH]; intros p m HR Hd.
  - by exists p.
  - apply Forall_cons in Hd as [Ho Hd].
    destruct (apply_op_Repr p m o HR Ho) as (p1 & e & Ha & HR1).
    destruct (IH p1 _ HR1 Hd) as (p' & Hrun & HR').
    exists p'. split; [|done]. cbn [run]. by rewrite (bind_Ok _ _ _ Ha).
Qed.

End store.
End Store.

Module Reach.
Import memdb Rep RepFacts Chain Search FindGE Loops Frame Insert Overwrite RefFacts
  PutSpec PutProof DeleteProof Ops Fresh RefTheory Store HeightInv.

Section reach.
Variable dom : bytes -> Prop.
Variable cmp : bytes -> bytes -> Z.
Hypothesis HC : BasicComparer dom cmp.
Variable rand_Int : nat -> Z.
Variable growslice : Z -> Z -> Z.

Lemma reachable_Repr p :
  reachable dom cmp rand_Int growslice p -> exists m, Repr dom cmp p m.
Proof.
  induction 1 as [c p HN|p key value p' e _ [m HR] Hk HP|p key p' e _ [m HR] Hk HD
                  |p p' _ [m HR] HRs].
  - exists []. by eapply New__Repr.
  - destruct (Put_Repr dom cmp HC rand_Int growslice p m key value HR Hk) as (p1 & HP1 & HR1).
    rewrite HP in HP1. injection HP1 as -> _. by eexists.
  - destruct (Delete_Repr dom cmp HC p m key HR Hk) as (p1 & e1 & HD1 & HR1 & _).
    rewrite HD in HD1. injection HD1 as -> _. by eexists.
  - destruct (Reset_Repr dom cmp p m HR) as (p1 & HR1 & HRe & _).
    rewrite HRs in HR1. injection HR1 as ->. by eexists.
Qed.

Lemma run_reachable ops : forall p p',
  reachable dom cmp rand_Int growslice p ->
  Forall (fun o => dom (op_key o)) ops ->
  run cmp rand_Int growslice p ops = Ok p' ->
  reachable dom cmp rand_Int growslice p'.
Proof.
  induction ops as [|o ops IH]; intros p p' Hr Hd Hrun.
  - simpl in Hrun. by injection Hrun as <-.
  - apply Forall_cons in Hd as [Ho Hd]. cbn [run] in Hrun.
    apply bind_inv in Hrun as ([p1 e] & Ha & Hrun).
    apply (IH p1 p'); [|done|done].
    destruct o as [key value|key]; simpl in Ha, Ho.
    + by eapply reach_Put.
    + by eapply reach_Delete.
Qed.

Lemma Inv_heights_ok p l :
  Inv dom cmp p l -> level0_chain p l /\ heights_ok p l.
Proof.
  intros HI. split.
  - pose proof (inv_links _ _ _ _ HI 0 ltac:(consts; lia)) as Hl.
    by rewrite (level0 dom cmp p l HI) in Hl.
  - split; [apply HI|]. split.
    + pose proof (inv_head_height _ _ _ _ HI) as H. unfold height in H.
      by rewrite Z.add_0_l in H.
    + apply Forall_forall. intros x Hx.
      destruct (Inv_node _ _ _ _ _ HI Hx).
      pose proof (Inv_height_le _ _ _ _ _ HI Hx). unfold height in *. lia.
Qed.

(** [First] and [Seek] of any iterator on a store that satisfies the
    invariant. *)
Lemma fill_total p l i x cs cl :
  Inv dom cmp p l -> x = 0 \/ x ∈ l ->
  exists i' ok, fill cmp p (it_set_node i x) cs cl = Ok (i', ok).
Proof.
  intros HI Hx. unfold fill. cbn [it_node it_set_node].
  destruct Hx as [->|Hx]; [by eexists _, _|].
  pose proof (Inv_pos _ _ _ _ _ HI Hx) as Hpos.
  destruct (Z.eqb_spec x 0); [consts; lia|]. cbn [negb].
  destruct (read_entry _ _ p _ x HI Hx) as (E0 & E1 & E2 & Ek & Ev).
  rewrite (bind_Ok _ _ _ E0), (bind_Ok _ _ _ E1), (bind_Ok _ _ _ Ek).
  match goal with |- context [if ?c then _ else _] => destruct c end.
  - by eexists _, _.
  - cbn [it_node it_set_key it_set_node].
    rewrite (bind_Ok _ _ _ E2), (bind_Ok _ _ _ Ev). by eexists _, _.
Qed.

Lemma findGE_total p l key (prev : bool) :
  Inv dom cmp p l -> dom key ->
  exists p' x ex, findGE cmp p key prev = Ok (p', x, ex)
    /\ (x = 0 \/ x ∈ l) /\ (prev = false -> p' = p)
    /\ Inv dom cmp p' l.
Proof.
  intros HI Hk.
  destruct (findGE_spec dom cmp HC prev p l key HI Hk)
    as (l1 & l2 & pn & -> & H1 & H2 & Hf & Hpnl & Hpn).
  eexists _, _, _. split; [exact Hf|]. split; [|split].
  - destruct l2 as [|y r]; [by left|right]. simpl.
    rewrite elem_of_app, elem_of_cons. auto.
  - by intros ->.
  - destruct prev; [by apply Inv_set_prevNode|done].
Qed.

Lemma First_total p l i :
  Inv dom cmp p l ->
  match slice_start i with Some s => dom s | None => True end ->
  exists i' ok, First cmp p i = Ok (p, i', ok).
Proof.
  intros HI Hs. unfold First. destruct (it_released i); [by eexists _, _|].
  replace (slice_start (it_set_forward i true)) with (slice_start i) by done.
  destruct (slice_start i) as [s|].
  - destruct (findGE_total p l s false HI Hs) as (p' & x & ex & Hf & Hx & Hp & _).
    rewrite (Hp eq_refl) in Hf. rewrite (bind_Ok _ _ _ Hf). simpl.
    destruct (fill_total p l (it_set_forward i true) x false true HI Hx) as (i' & ok & Hfill).
    rewrite (bind_Ok _ _ _ Hfill). by eexists _, _.
  - pose proof (inv_head _ _ _ _ HI) as Hhead.
    assert (0 <= nNext < len (nodeData p)) as Hr by (consts; lia).
    rewrite (bind_Ok _ _ _ (elem_rd (nodeData p) nNext Hr)). simpl.
    assert (rd (nodeData p) nNext = 0 \/ rd (nodeData p) nNext ∈ l) as Hx.
    { pose proof (inv_links _ _ _ _ HI 0 ltac:(consts; lia)) as Hl.
      rewrite (level0 dom cmp p l HI) in Hl. apply linked_hd in Hl.
      unfold next in Hl. rewrite Z.add_0_r, Z.add_0_l in Hl. rewrite Hl.
      destruct l; [by left|right; apply list_elem_of_here]. }
    destruct (fill_total p l (it_set_forward i true) _ false true HI Hx) as (i' & ok & Hfill).
    rewrite (bind_Ok _ _ _ Hfill). by eexists _, _.
Qed.

Lemma Seek_total p l i key :
  Inv dom cmp p l -> dom key ->
  match slice_start i with Some s => dom s | None => True end ->
  exists i' ok, Seek cmp p i key = Ok (p, i', ok).
Proof.
  intros HI Hk Hs. unfold Seek. destruct (it_released i); [by eexists _, _|].
  replace (slice_start (it_set_forward i true)) with (slice_start i) by done.
  set (key' := match slice_start i with
               | Some s => if cmp key s <? 0 then s else key
               | None => key
               end).
  assert (dom key') as Hk'.
  { unfold key'. destruct (slice_start i); [|done]. by destruct (cmp key b <? 0). }
  destruct (findGE_total p l key' false HI Hk') as (p' & x & ex & Hf & Hx & Hp & _).
  rewrite (Hp eq_refl) in Hf. rewrite (bind_Ok _ _ _ Hf). simpl.
  destruct (fill_total p l (it_set_forward i true) x false true HI Hx) as (i' & ok & Hfill).
  rewrite (bind_Ok _ _ _ Hfill). by eexists _, _.
Qed.

(** A search that does not record the path leaves the store as it is. *)
Lemma findGE_loop_read fuel : forall p key node h p' x ex,
  findGE_loop cmp fuel p key false node h = Ok (p', x, ex) -> p' = p.
Proof.
  induction fuel as [|fuel IH]; intros p key node h p' x ex; [done|].
  cbn [findGE_loop]. intros (nx & _ & H)%bind_inv.
  apply bind_inv in H as (c & _ & H).
  destruct (c <? 0); [by eapply IH|].
  destruct (c =? 0); [by inversion H|].
  destruct (h =? 0); [by inversion H|by eapply IH].
Qed.

Lemma findGE_read p key p' x ex :
  findGE cmp p key false = Ok (p', x, ex) -> p' = p.
Proof. apply findGE_loop_read. Qed.

Ltac same_store := let E := fresh in intros E; inversion E; subst; done.

(** No positioning operation changes the store. *)
Lemma First_read p i p' i' ok : First cmp p i = Ok (p', i', ok) -> p' = p.
Proof.
  unfold First. destruct (it_released i); [same_store|].
  destruct (slice_start _).
  - intros ([p1 x] & Hm & H1)%bind_inv.
    apply bind_inv in Hm as ([[p2 x2] ex] & Hf & E). apply findGE_read in Hf as ->.
    simpl in E. inversion E; subst.
    simpl in H1. apply bind_inv in H1 as ([i2 b2] & _ & E2). by inversion E2.
  - intros ([p1 x] & Hm & H1)%bind_inv.
    apply bind_inv in Hm as (x0 & _ & E). inversion E; subst.
    simpl in H1. apply bind_inv in H1 as ([i2 b2] & _ & E2). by inversion E2.
Qed.

Lemma Last_read p i p' i' ok : Last cmp p i = Ok (p', i', ok) -> p' = p.
Proof.
  unfold Last. destruct (it_released i); [same_store|].
  intros (x & _ & H1)%bind_inv.
  apply bind_inv in H1 as ([i2 b2] & _ & E2). by inversion E2.
Qed.

Lemma Seek_read p i key p' i' ok : Seek cmp p i key = Ok (p', i', ok) -> p' = p.
Proof.
  unfold Seek. destruct (it_released i); [same_store|].
  intros (((p1 & x) & ex) & Hf & H1)%bind_inv. apply findGE_read in Hf as ->.
  simpl in H1. apply bind_inv in H1 as ([i2 b2] & _ & E2). by inversion E2.
Qed.

Lemma Next_read p i p' i' ok : Next cmp p i = Ok (p', i', ok) -> p' = p.
Proof.
  unfold Next. destruct (it_released i); [same_store|].
  destruct (it_node i =? 0).
  - destruct (negb (it_forward i)); [apply First_read|same_store].
  - intros (x & _ & H1)%bind_inv.
    apply bind_inv in H1 as ([i2 b2] & _ & E2). by inversion E2.
Qed.

Lemma Prev_read p i p' i' ok : Prev cmp p i = Ok (p', i', ok) -> p' = p.
Proof.
  unfold Prev. destruct (it_released i); [same_store|].
  destruct (it_node i =? 0).
  - destruct (it_forward i); [apply Last_read|same_store].
  - intros (x & _ & H1)%bind_inv.
    apply bind_inv in H1 as ([i2 b2] & _ & E2). by inversion E2.
Qed.

End reach.
End Reach.

(** ** The searches of the backward pass *)

Module Backward.
Import memdb Rep RepFacts Chain Search FindGE Loops Frame Insert Overwrite RefFacts
  PutSpec PutProof DeleteProof Ops Fresh RefTheory Store HeightInv Reach.

Section backward.
Variable dom : bytes -> Prop.
Variable cmp : bytes -> bytes -> Z.
Hypothesis HC : BasicComparer dom cmp.

Implicit Types (p : DB_) (l : list Z) (key : bytes).

(** The link a search follows leads to the head or to a live node. *)
Lemma next_in_chain p a rest node h :
  Inv dom cmp p (a ++ rest) -> 0 <= h < tMaxHeight -> at_node p a node h ->
  next (nodeData p) h node = 0 \/ next (nodeData p) h node ∈ a ++ rest.
Proof.
  intros HI Hh Hat.
  pose proof (at_node_linked _ _ p a rest node h HI Hh Hat) as Hl.
  apply linked_hd in Hl. rewrite Hl.
  destruct (level (nodeData p) h rest) as [|y ys] eqn:E; [by left|right].
  cbn [hd]. assert (y ∈ level (nodeData p) h rest) as Hy by (rewrite E; apply list_elem_of_here).
  apply level_elem in Hy as [_ Hy]. rewrite elem_of_app. auto.
Qed.

Lemma elem_node p l x :
  Inv dom cmp p l -> x = 0 \/ x ∈ l -> elem (nodeData p) x = Ok (rd (nodeData p) x).
Proof.
  intros HI [->|Hx].
  - apply elem_rd. pose proof (inv_head _ _ _ _ HI). consts. lia.
  - by destruct (read_entry _ _ p l x HI Hx) as (E0 & _).
Qed.

Lemma level0_part p l l1 l2 :
  Inv dom cmp p l -> l = l1 ++ l2 -> level (nodeData p) 0 l1 = l1.
Proof.
  intros HI ->. apply level_all. apply Forall_forall. intros y Hy.
  assert (y ∈ l1 ++ l2) as Hyl by (rewrite elem_of_app; auto).
  by destruct (Inv_node _ _ _ _ _ HI Hyl) as [_ [? _] _ _ _ _ _ _].
Qed.

(** The test of [findLT], through the probe of [findGE]. *)
Lemma findLT_test p key nx :
  (if nx =? 0 then Ok true else k ← node_key p nx; Ok (0 <=? cmp k key))
  = (c ← probe cmp p key nx; Ok (0 <=? c)).
Proof.
  unfold probe. destruct (nx =? 0); [done|].
  by destruct (node_key p nx).
Qed.

Lemma findLT_loop_spec fuel :
  forall p key node h a b l2,
  Inv dom cmp p (a ++ b ++ l2) -> dom key ->
  Forall (before cmp p key) (a ++ b) ->
  Forall (fun y => ~ before cmp p key y) l2 ->
  0 <= h < maxHeight p ->
  at_node p a node h ->
  (length b + Z.to_nat h < fuel)%nat ->
  findLT_loop cmp fuel p key node h = Ok (lastd 0 (a ++ b)).
Proof.
  induction fuel as [|fuel IH]; intros p key node h a b l2 HI Hk H1 H2 Hh Hat Hfuel;
    [lia|].
  assert (0 <= h < tMaxHeight) as Hh12
    by (pose proof (inv_maxHeight _ _ _ _ HI); lia).
  pose proof (at_node_owns _ _ p a (b ++ l2) node h HI Hh12 Hat) as Hown.
  pose proof (owns_range _ _ _ _ _ _ HI Hown) as [Hnode Hrange].
  cbn [findLT_loop].
  rewrite (bind_Ok _ _ _ (elem_rd (nodeData p) (node + nNext + h) ltac:(lia))).
  fold (next (nodeData p) h node).
  rewrite (bind_Ok _ _ _ (elem_node p _ _ HI (next_in_chain p a (b ++ l2) node h HI Hh12 Hat))).
  rewrite findLT_test.
  destruct (level (nodeData p) h b) as [|y ys] eqn:Eb.
  - destruct (probe_at _ _ HC p key a b l2 node h HI Hk H2 Hh12 Hat Eb)
      as (c & Hc & Hc0 & _).
    rewrite (bind_Ok _ _ _ Hc). rewrite (bind_Ok (Ok _) _ _ eq_refl).
    destruct (Z.leb_spec 0 c); [|lia].
    destruct (Z.eqb_spec h 0) as [->|Hh0].
    + f_equal. rewrite <- (level0_part p _ (a ++ b) l2 HI) by (by rewrite <- app_assoc).
      rewrite level_app, Eb, app_nil_r. symmetry. by apply at_node_lastd.
    + apply (IH p key node (h - 1) a b l2); try done; try lia.
      destruct Hat as [?|(a' & ? & ?)]; [by left|right]. exists a'. split; [done|lia].
  - destruct (probe_before _ _ p key a b l2 node h y ys HI H1 Hh12 Hat Eb)
      as (Hn & c & Hc & Hc0).
    rewrite Hn, (bind_Ok _ _ _ Hc). rewrite (bind_Ok (Ok _) _ _ eq_refl).
    destruct (Z.leb_spec 0 c); [lia|].
    destruct (level_hd_split _ _ _ _ _ Eb) as (b1 & b2 & -> & Hb1 & Hb2 & Hy).
    assert ((a ++ b1 ++ [y]) ++ b2 = a ++ b1 ++ y :: b2) as Eab
      by (by rewrite <- !app_assoc).
    rewrite <- Eab.
    apply (IH p key y h (a ++ b1 ++ [y]) b2 l2); try done.
    + rewrite <- app_assoc. rewrite <- app_assoc in HI. simpl.
      by rewrite <- !app_assoc in *.
    + by rewrite Eab.
    + right. exists (a ++ b1). split; [by rewrite app_assoc|done].
    + rewrite length_app in Hfuel. simpl in Hfuel. lia.
Qed.

(** [findLT] returns the last node before the key, the head when there
    is none. *)
Lemma findLT_spec p l key :
  Inv dom cmp p l -> dom key ->
  exists l1 l2,
    l = l1 ++ l2 /\ Forall (before cmp p key) l1
    /\ Forall (fun y => ~ before cmp p key y) l2
    /\ findLT cmp p key = Ok (lastd 0 l1).
Proof.
  intros HI Hk.
  destruct (split_at_key _ _ HC p l key HI Hk) as (l1 & l2 & -> & H1 & H2).
  pose proof (inv_maxHeight _ _ _ _ HI) as Hmh.
  exists l1, l2. repeat (split; [done|]).
  apply (findLT_loop_spec (loop_fuel p) p key 0 (maxHeight p - 1) [] l1 l2);
    try done; try lia.
  - by left.
  - pose proof (inv_count _ _ _ _ HI) as Hc. unfold loop_fuel.
    rewrite len_app in Hc. unfold len in Hc. consts. lia.
Qed.

Lemma findLast_loop_spec fuel :
  forall p node h a b,
  Inv dom cmp p (a ++ b) ->
  0 <= h < maxHeight p ->
  at_node p a node h ->
  (length b + Z.to_nat h < fuel)%nat ->
  findLast_loop fuel p node h = Ok (lastd 0 (a ++ b)).
Proof.
  induction fuel as [|fuel IH]; intros p node h a b HI Hh Hat Hfuel; [lia|].
  assert (0 <= h < tMaxHeight) as Hh12
    by (pose proof (inv_maxHeight _ _ _ _ HI); lia).
  pose proof (at_node_owns _ _ p a b node h HI Hh12 Hat) as Hown.
  pose proof (owns_range _ _ _ _ _ _ HI Hown) as [Hnode Hrange].
  cbn [findLast_loop].
  rewrite (bind_Ok _ _ _ (elem_rd (nodeData p) (node + nNext + h) ltac:(lia))).
  fold (next (nodeData p) h node).
  pose proof (at_node_linked _ _ p a b node h HI Hh12 Hat) as Hl.
  destruct (level (nodeData p) h b) as [|y ys] eqn:Eb.
  - apply linked_hd in Hl. cbn [hd] in Hl. rewrite Hl. cbn [Z.eqb].
    destruct (Z.eqb_spec h 0) as [->|Hh0].
    + f_equal. rewrite <- (level0_part p _ (a ++ b) [] HI) by (by rewrite app_nil_r).
      rewrite level_app, Eb, app_nil_r. symmetry. by apply at_node_lastd.
    + apply (IH p node (h - 1) a b); try done; try lia.
      destruct Hat as [?|(a' & ? & ?)]; [by left|right]. exists a'. split; [done|lia].
  - destruct Hl as [Hn _]. rewrite Hn.
    assert (y ∈ b) as Hyb.
    { eapply (level_elem _ h). rewrite Eb. apply list_elem_of_here. }
    assert (y ∈ a ++ b) as Hyl by (rewrite elem_of_app; auto).
    pose proof (Inv_pos _ _ _ _ _ HI Hyl) as Hpos.
    destruct (Z.eqb_spec y 0); [consts; lia|].
    destruct (level_hd_split _ _ _ _ _ Eb) as (b1 & b2 & -> & Hb1 & Hb2 & Hy).
    assert ((a ++ b1 ++ [y]) ++ b2 = a ++ b1 ++ y :: b2) as Eab
      by (by rewrite <- !app_assoc).
    rewrite <- Eab.
    apply (IH p y h (a ++ b1 ++ [y]) b2); try done.
    + by rewrite Eab.
    + right. exists (a ++ b1). split; [by rewrite app_assoc|done].
    + rewrite length_app in Hfuel. simpl in Hfuel. lia.
Qed.

(** [findLast] returns the last node, the head when the store is empty. *)
Lemma findLast_spec p l :
  Inv dom cmp p l -> findLast p = Ok (lastd 0 l).
Proof.
  intros HI. pose proof (inv_maxHeight _ _ _ _ HI) as Hmh.
  apply (findLast_loop_spec (loop_fuel p) p 0 (maxHeight p - 1) [] l);
    try done; try lia.
  - by left.
  - pose proof (inv_count _ _ _ _ HI) as Hc. unfold loop_fuel.
    unfold len in Hc. consts. lia.
Qed.

Lemma lastd_in (l1 l2 : list Z) : lastd 0 l1 = 0 \/ lastd 0 l1 ∈ l1 ++ l2.
Proof.
  pose proof (lastd_elem 0 l1) as H. apply elem_of_cons in H as [H|H]; [by left|right].
  rewrite elem_of_app. auto.
Qed.

(** Where [fill] leaves the iterator. *)
Lemma fill_stays p i x cs cl i' ok :
  fill cmp p (it_set_node i x) cs cl = Ok (i', ok) -> it_node i' = x \/ it_node i' = 0.
Proof.
  unfold fill. cbn [it_node it_set_node].
  destruct (Z.eqb_spec x 0) as [->|Hx]; cbn [negb].
  { intros [= <- <-]. by left. }
  intros (n0 & _ & H)%bind_inv. apply bind_inv in H as (kl & _ & H).
  apply bind_inv in H as (k & _ & H).
  match type of H with context [if ?c then _ else _] => destruct c end.
  - injection H as <- <-. by right.
  - apply bind_inv in H as (vl & _ & H). apply bind_inv in H as (v & _ & H).
    injection H as <- <-. by left.
Qed.

(** [Last], [Next] and [Prev] of an iterator that stands on a live node
    or on none: they return, and leave the iterator on a live node or on
    none. *)
Lemma Last_total p l i :
  Inv dom cmp p l ->
  match slice_limit i with Some s => dom s | None => True end ->
  it_node i = 0 \/ it_node i ∈ l ->
  exists i' ok, Last cmp p i = Ok (p, i', ok) /\ (it_node i' = 0 \/ it_node i' ∈ l).
Proof.
  intros HI Hs Hi. unfold Last. destruct (it_released i).
  { by eexists _, _. }
  replace (slice_limit (it_set_forward i false)) with (slice_limit i) by done.
  assert (exists x, match slice_limit i with
                    | Some l0 => findLT cmp p l0
                    | None => findLast p
                    end = Ok x /\ (x = 0 \/ x ∈ l)) as (x & Hx & Hxl).
  { destruct (slice_limit i) as [s|].
    - destruct (findLT_spec p l s HI Hs) as (l1 & l2 & -> & _ & _ & Hf).
      eexists. split; [exact Hf|]. apply lastd_in.
    - eexists. split; [by apply findLast_spec|].
      pose proof (lastd_in l []) as H. by rewrite app_nil_r in H. }
  rewrite (bind_Ok _ _ _ Hx).
  destruct (fill_total dom cmp p l (it_set_forward i false) x true false HI Hxl)
    as (i' & ok & Hfill).
  rewrite (bind_Ok _ _ _ Hfill). eexists _, _. split; [done|].
  destruct (fill_stays _ _ _ _ _ _ _ Hfill) as [-> | ->]; [done|by left].
Qed.

Lemma First_lands p l i :
  Inv dom cmp p l ->
  match slice_start i with Some s => dom s | None => True end ->
  it_node i = 0 \/ it_node i ∈ l ->
  exists i' ok, First cmp p i = Ok (p, i', ok) /\ (it_node i' = 0 \/ it_node i' ∈ l).
Proof.
  intros HI Hs Hi. unfold First. destruct (it_released i).
  { by eexists _, _. }
  replace (slice_start (it_set_forward i true)) with (slice_start i) by done.
  assert (exists x, match slice_start i with
                    | Some s => '(p0, x, _) ← findGE cmp p s false; Ok (p0, x)
                    | None => x ← elem (nodeData p) nNext; Ok (p, x)
                    end = Ok (p, x) /\ (x = 0 \/ x ∈ l)) as (x & Hx & Hxl).
  { destruct (slice_start i) as [s|].
    - destruct (findGE_total dom cmp HC p l s false HI Hs) as (p' & x & ex & Hf & Hx & Hp & _).
      rewrite (Hp eq_refl) in Hf. exists x. by rewrite (bind_Ok _ _ _ Hf).
    - pose proof (inv_head _ _ _ _ HI) as Hhead.
      assert (0 <= nNext < len (nodeData p)) as Hr by (consts; lia).
      rewrite (bind_Ok _ _ _ (elem_rd (nodeData p) nNext Hr)).
      eexists. split; [done|].
      pose proof (inv_links _ _ _ _ HI 0 ltac:(consts; lia)) as Hl.
      rewrite (level0 dom cmp p l HI) in Hl. apply linked_hd in Hl.
      unfold next in Hl. rewrite Z.add_0_r, Z.add_0_l in Hl. rewrite Hl.
      destruct l; [by left|right; apply list_elem_of_here]. }
  rewrite (bind_Ok _ _ _ Hx). cbv beta iota.
  destruct (fill_total dom cmp p l (it_set_forward i true) x false true HI Hxl)
    as (i' & ok & Hfill).
  rewrite (bind_Ok _ _ _ Hfill). eexists _, _. split; [done|].
  destruct (fill_stays _ _ _ _ _ _ _ Hfill) as [-> | ->]; [done|by left].
Qed.

(** The link of level 0 of a live node leads to a live node or to the
    head. *)
Lemma next0_in_chain p l x :
  Inv dom cmp p l -> x ∈ l ->
  elem (nodeData p) (x + nNext) = Ok (rd (nodeData p) (x + nNext))
  /\ (rd (nodeData p) (x + nNext) = 0 \/ rd (nodeData p) (x + nNext) ∈ l).
Proof.
  intros HI Hx.
  destruct (Inv_node _ _ _ _ _ HI Hx) as [Hpos [Hh1 _] Hfit _ _ _ _ _].
  split; [apply elem_rd; consts; lia|].
  apply list_elem_of_split in Hx as (a & b & ->).
  assert (at_node p (a ++ [x]) x 0) as Hat.
  { right. exists a. split; [done|lia]. }
  replace (a ++ x :: b) with ((a ++ [x]) ++ b) in HI by (by rewrite <- app_assoc).
  pose proof (next_in_chain p (a ++ [x]) b x 0 HI ltac:(consts; lia) Hat) as H.
  unfold next in H. rewrite Z.add_0_r in H.
  by rewrite <- app_assoc in H.
Qed.

Lemma Next_total p l i :
  Inv dom cmp p l ->
  match slice_start i with Some s => dom s | None => True end ->
  it_node i = 0 \/ it_node i ∈ l ->
  exists i' ok, Next cmp p i = Ok (p, i', ok) /\ (it_node i' = 0 \/ it_node i' ∈ l).
Proof.
  intros HI Hs Hi. unfold Next. destruct (it_released i) eqn:Hrel.
  { by eexists _, _. }
  destruct (Z.eqb_spec (it_node i) 0) as [Hz|Hnz].
  - destruct (it_forward i); cbn [negb]; [by eexists _, _|].
    by apply First_lands.
  - destruct Hi as [?|Hi]; [done|].
    destruct (next0_in_chain p l _ HI Hi) as [E Hn].
    cbn [it_node it_set_forward]. rewrite (bind_Ok _ _ _ E).
    destruct (fill_total dom cmp p l (it_set_forward i true) _ false true HI Hn)
      as (i' & ok & Hfill).
    rewrite (bind_Ok _ _ _ Hfill). eexists _, _. split; [done|].
    destruct (fill_stays _ _ _ _ _ _ _ Hfill) as [-> | ->]; [done|by left].
Qed.

Lemma Prev_total p l i :
  Inv dom cmp p l ->
  match slice_limit i with Some s => dom s | None => True end ->
  dom (it_key i) ->
  it_node i = 0 \/ it_node i ∈ l ->
  exists i' ok, Prev cmp p i = Ok (p, i', ok) /\ (it_node i' = 0 \/ it_node i' ∈ l).
Proof.
  intros HI Hs Hk Hi. unfold Prev. destruct (it_released i) eqn:Hrel.
  { by eexists _, _. }
  destruct (Z.eqb_spec (it_node i) 0) as [Hz|Hnz].
  - destruct (it_forward i); [|by eexists _, _].
    by apply Last_total.
  - cbn [it_key it_set_forward].
    destruct (findLT_spec p l (it_key i) HI Hk) as (l1 & l2 & -> & _ & _ & Hf).
    rewrite (bind_Ok _ _ _ Hf).
    destruct (fill_total dom cmp p (l1 ++ l2) (it_set_forward i false) _ true false HI
                (lastd_in l1 l2)) as (i' & ok & Hfill).
    rewrite (bind_Ok _ _ _ Hfill). eexists _, _. split; [done|].
    destruct (fill_stays _ _ _ _ _ _ _ Hfill) as [-> | ->]; [apply lastd_in|by left].
Qed.

End backward.
End Backward.

(** ** The store: the properties of the specification *)

Module MemdbClaims.
Import memdb Rep RepFacts Chain Search Loops RefFacts Fresh RefTheory Store HeightInv Reach
  Backward Bytes.

Section claims.
Variable cmp : bytes -> bytes -> Z.
Hypothesis HC : BasicComparer any_key cmp.
Variable rand_Int : nat -> Z.
Variable growslice : Z -> Z -> Z.

Local Abbreviation Reachable := (reachable any_key cmp rand_Int growslice).

Lemma all_keys (ops : list op) : Forall (fun o => any_key (op_key o)) ops.
Proof. by apply Forall_forall. Qed.

Lemma fresh_reachable c p0 ops p :
  New_ c = Ok p0 -> run cmp rand_Int growslice p0 ops = Ok p -> Reachable p.
Proof.
  intros HN Hrun. eapply run_reachable; [by eapply reach_New|apply all_keys|done].
Qed.

Lemma run_fresh c p0 ops :
  New_ c = Ok p0 ->
  exists p, run cmp rand_Int growslice p0 ops = Ok p
    /\ Repr any_key cmp p (replay cmp [] ops).
Proof.
  intros HN. apply (run_Repr any_key cmp HC); [by eapply New__Repr|apply all_keys].
Qed.

Lemma run_puts kvs : forall p m,
  Repr any_key cmp p m ->
  NoDup (map fst kvs) ->
  (forall k, k ∈ map fst kvs -> RefMap.get cmp k m = None) ->
  exists p' m', run cmp rand_Int growslice p (put_ops kvs) = Ok p'
    /\ Repr any_key cmp p' m'
    /\ RefMap.payload m' = RefMap.payload m + RefMap.payload kvs.
Proof.
  induction kvs as [|[k v] kvs IH]; intros p m HR Hnd Hfresh.
  - exists p, m. simpl. split; [done|]. split; [done|lia].
  - simpl in Hnd. apply NoDup_cons in Hnd as [Hk Hnd].
    destruct (Put_Repr any_key cmp HC rand_Int growslice p m k v HR I) as (p1 & HP & HR1).
    destruct (IH p1 _ HR1 Hnd) as (p' & m' & Hrun & HR' & Hpay).
    { intros k' Hk'.
      rewrite (get_put any_key cmp HC); [|apply (Repr_wf any_key cmp p m HR)|done|done].
      destruct (Z.eqb_spec (cmp k k') 0) as [E|E].
      - apply (cmp_eq _ _ HC) in E; [|done|done]. by subst k'.
      - apply Hfresh. simpl. by apply list_elem_of_further. }
    exists p', m'. split; [|split; [done|]].
    + simpl. cbn [run apply_op]. simpl. by rewrite (bind_Ok _ _ _ HP).
    + rewrite Hpay, (payload_put_new any_key cmp); [simpl; lia| |done|].
      * apply (Repr_wf any_key cmp p m HR).
      * apply Hfresh. simpl. apply list_elem_of_here.
Qed.

End claims.

Lemma two_entry_store_reachable :
  reachable any_key bytes_Compare rand0 grow2 two_entry_store.
Proof.
  eapply (run_reachable _ _ _ _ two_puts (empty_store 4)).
  - apply (reach_New _ _ _ _ 4). reflexivity.
  - by apply Forall_forall.
  - by vm_compute.
Qed.

(** C1.  After each operation of any sequence of [Put]s and [Delete]s on a
    store made by [New_] (after the first [k] operations, for every [k]), a
    full forward pass of an iterator without a range returns exactly the
    entries of the reference ordered map on which the same operations were
    replayed, and the keys come in strictly increasing order under the
    comparer of the store. *)
Theorem forward_iteration_matches_reference_map
    (cmp : bytes -> bytes -> Z) (rand_Int : nat -> Z) (growslice : Z -> Z -> Z)
    (capacity : Z) (p0 : DB_) (ops : list op) (k : nat) :
  BasicComparer any_key cmp ->
  New_ capacity = Ok p0 ->
  exists p,
    run cmp rand_Int growslice p0 (take k ops) = Ok p
    /\ iterate_forward cmp p = Ok (replay cmp [] (take k ops))
    /\ RefMap.sorted cmp (replay cmp [] (take k ops)).
Proof.
  intros HC HN.
  destruct (run_fresh cmp HC rand_Int growslice capacity p0 (take k ops) HN)
    as (p & Hrun & HR).
  exists p. split; [done|]. split.
  - by apply (iterate_Repr any_key cmp).
  - apply (Repr_wf any_key cmp p _ HR).
Qed.

Lemma forward_iteration_matches_reference_map_witness :
  BasicComparer any_key bytes_Compare
  /\ New_ 8 = Ok (empty_store 8)
  /\ exists p,
    run bytes_Compare rand0 grow2 (empty_store 8)
      (take 2 [OpPut (b_ "k2") (b_ "v2"); OpPut (b_ "k1") (b_ "v1"); OpDelete (b_ "k2")])
      = Ok p
    /\ iterate_forward bytes_Compare p
       = Ok (replay bytes_Compare []
               (take 2 [OpPut (b_ "k2") (b_ "v2"); OpPut (b_ "k1") (b_ "v1");
                        OpDelete (b_ "k2")]))
    /\ RefMap.sorted bytes_Compare
         (replay bytes_Compare []
            (take 2 [OpPut (b_ "k2") (b_ "v2"); OpPut (b_ "k1") (b_ "v1");
                     OpDelete (b_ "k2")])).
Proof.
  split; [exact bytes_Compare_lawful|]. split; [reflexivity|].
  apply (forward_iteration_matches_reference_map bytes_Compare rand0 grow2 8).
  - exact bytes_Compare_lawful.
  - reflexivity.
Defined.

(** C5.  On an empty store, [Put("a","1")], [Put("b","2")], [Delete("a")]
    leave a store with [Len() == 1] in which [Get("a")] is not found,
    [Get("b")] returns "2", and a full forward pass yields the one pair
    ("b","2"). *)
Theorem put_put_delete_scenario
    (cmp : bytes -> bytes -> Z) (rand_Int : nat -> Z) (growslice : Z -> Z -> Z)
    (capacity : Z) (p0 : DB_) :
  BasicComparer any_key cmp ->
  New_ capacity = Ok p0 ->
  exists p,
    run cmp rand_Int growslice p0
      [OpPut (b_ "a") (b_ "1"); OpPut (b_ "b") (b_ "2"); OpDelete (b_ "a")] = Ok p
    /\ Len p = 1
    /\ Get cmp p (b_ "a") = Ok (p, [], ErrNotFound)
    /\ Get cmp p (b_ "b") = Ok (p, b_ "2", nil_error)
    /\ iterate_forward cmp p = Ok [(b_ "b", b_ "2")].
Proof.
  intros HC HN.
  destruct (run_fresh cmp HC rand_Int growslice capacity p0
              [OpPut (b_ "a") (b_ "1"); OpPut (b_ "b") (b_ "2"); OpDelete (b_ "a")] HN)
    as (p & Hrun & HR).
  assert (replay cmp [] [OpPut (b_ "a") (b_ "1"); OpPut (b_ "b") (b_ "2");
                         OpDelete (b_ "a")] = [(b_ "b", b_ "2")]) as Hm.
  { assert (cmp (b_ "a") (b_ "b") <> 0) as Hab
      by (intros E; by apply (cmp_eq _ _ HC) in E).
    assert (cmp (b_ "b") (b_ "a") <> 0) as Hba
      by (intros E; by apply (cmp_eq _ _ HC) in E).
    assert (cmp (b_ "a") (b_ "a") = 0) as Haa by by apply (cmp_eq _ _ HC).
    unfold replay. simpl.
    destruct (Z.ltb_spec (cmp (b_ "a") (b_ "b")) 0); simpl.
    - by rewrite Haa.
    - destruct (Z.eqb_spec (cmp (b_ "a") (b_ "b")) 0); [done|]. simpl.
      destruct (Z.eqb_spec (cmp (b_ "b") (b_ "a")) 0); [done|].
      by rewrite Haa. }
  rewrite Hm in HR. exists p. split; [done|].
  assert (cmp (b_ "b") (b_ "a") <> 0) as Hba
    by (intros E; by apply (cmp_eq _ _ HC) in E).
  assert (cmp (b_ "b") (b_ "b") = 0) as Hbb by by apply (cmp_eq _ _ HC).
  split; [by rewrite (Repr_Len any_key cmp p _ HR)|]. split; [|split].
  - destruct (Get_Repr any_key cmp HC p _ (b_ "a") HR I) as (v & e & HG & Hv).
    simpl in Hv. destruct (Z.eqb_spec (cmp (b_ "b") (b_ "a")) 0); [done|].
    by destruct Hv as [-> ->].
  - destruct (Get_Repr any_key cmp HC p _ (b_ "b") HR I) as (v & e & HG & Hv).
    simpl in Hv. rewrite Hbb in Hv. simpl in Hv. by destruct Hv as [-> ->].
  - by apply (iterate_Repr any_key cmp).
Qed.

Lemma put_put_delete_scenario_witness :
  BasicComparer any_key bytes_Compare
  /\ New_ 0 = Ok (empty_store 0)
  /\ exists p,
    run bytes_Compare rand0 grow2 (empty_store 0)
      [OpPut (b_ "a") (b_ "1"); OpPut (b_ "b") (b_ "2"); OpDelete (b_ "a")] = Ok p
    /\ Len p = 1
    /\ Get bytes_Compare p (b_ "a") = Ok (p, [], ErrNotFound)
    /\ Get bytes_Compare p (b_ "b") = Ok (p, b_ "2", nil_error)
    /\ iterate_forward bytes_Compare p = Ok [(b_ "b", b_ "2")].
Proof.
  split; [exact bytes_Compare_lawful|]. split; [reflexivity|].
  apply (put_put_delete_scenario bytes_Compare rand0 grow2 0).
  - exact bytes_Compare_lawful.
  - reflexivity.
Defined.

(** C6.  On a fresh store, [Put]s of pairwise distinct keys leave [Size()]
    equal to the total length of the keys and values put.  On any store
    reached from a fresh one, [Delete(key)] returns nil exactly when
    [Get(key)] finds the key, and then lowers [Size()] by the length of the
    key plus the length of the value [Get] returned; for a key that is not
    there it returns not-found and [Size()] stays.  [Capacity()] is left as
    it is in both cases. *)
Theorem size_accounting
    (cmp : bytes -> bytes -> Z) (rand_Int : nat -> Z) (growslice : Z -> Z -> Z)
    (capacity : Z) (p0 : DB_) :
  BasicComparer any_key cmp ->
  New_ capacity = Ok p0 ->
  (forall kvs, NoDup (map fst kvs) ->
     exists p, run cmp rand_Int growslice p0 (put_ops kvs) = Ok p
       /\ Size p = RefMap.payload kvs)
  /\ (forall ops p key,
        run cmp rand_Int growslice p0 ops = Ok p ->
        exists value e p',
          Get cmp p key = Ok (p, value, e)
          /\ Delete cmp p key = Ok (p', e)
          /\ (e = nil_error \/ e = ErrNotFound)
          /\ (e = nil_error -> Size p' = Size p - (len key + len value))
          /\ (e = ErrNotFound -> Size p' = Size p)
          /\ Capacity p' = Capacity p).
Proof.
  intros HC HN. split.
  - intros kvs Hnd.
    destruct (run_puts cmp HC rand_Int growslice kvs p0 [])
      as (p & m & Hrun & HR & Hpay); [by eapply New__Repr|done|done|].
    exists p. split; [done|]. rewrite (Repr_Size any_key cmp p m HR), Hpay. simpl. lia.
  - intros ops p key Hrun.
    destruct (run_fresh cmp HC rand_Int growslice capacity p0 ops HN) as (p1 & Hrun1 & HR).
    rewrite Hrun in Hrun1. injection Hrun1 as <-.
    destruct (Delete_Repr any_key cmp HC p _ key HR I)
      as (p' & e & HD & HR' & Hcap & He & Hnf).
    destruct (Get_Repr any_key cmp HC p _ key HR I) as (v & eg & HG & Hv).
    destruct (RefMap.get cmp key (replay cmp [] ops)) as [v'|] eqn:Hg.
    + destruct Hv as [-> ->]. subst e. exists v', nil_error, p'.
      split; [done|]. split; [done|]. split; [by left|]. split; [|split; [done|done]].
      intros _.
      rewrite (Repr_Size any_key cmp p' _ HR'), (Repr_Size any_key cmp p _ HR).
      apply (payload_delete any_key cmp HC); [|done|done].
      apply (Repr_wf any_key cmp p _ HR).
    + destruct Hv as [-> ->]. subst e. exists [], ErrNotFound, p'.
      split; [done|]. split; [done|]. split; [by right|]. split; [done|].
      split; [|done]. intros _. by destruct (Hnf eq_refl) as (_ & _ & ?).
Qed.

Lemma size_accounting_witness :
  BasicComparer any_key bytes_Compare
  /\ New_ 4 = Ok (empty_store 4)
  /\ NoDup (map fst [(b_ "a", b_ "1"); (b_ "b", b_ "2")])
  /\ run bytes_Compare rand0 grow2 (empty_store 4) two_puts = Ok two_entry_store
  /\ Size two_entry_store = RefMap.payload [(b_ "a", b_ "1"); (b_ "b", b_ "2")]
  /\ exists p',
       Get bytes_Compare two_entry_store (b_ "a") = Ok (two_entry_store, b_ "1", nil_error)
       /\ Delete bytes_Compare two_entry_store (b_ "a") = Ok (p', nil_error)
       /\ Size two_entry_store = 4 /\ Size p' = 2
       /\ Capacity p' = Capacity two_entry_store.
Proof.
  assert (NoDup (map fst [(b_ "a", b_ "1"); (b_ "b", b_ "2")])) as Hnd.
  { repeat constructor; [|by apply not_elem_of_nil].
    intros H. apply elem_of_cons in H as [H|H]; [discriminate H|].
    by apply elem_of_nil in H. }
  assert (run bytes_Compare rand0 grow2 (empty_store 4) two_puts = Ok two_entry_store)
    as Hrun by (vm_compute; reflexivity).
  assert (Get bytes_Compare two_entry_store (b_ "a")
          = Ok (two_entry_store, b_ "1", nil_error)) as HG by (vm_compute; reflexivity).
  destruct (size_accounting bytes_Compare rand0 grow2 4 (empty_store 4)
              bytes_Compare_lawful eq_refl) as [Hputs Hdel].
  destruct (Hputs _ Hnd) as (p & Hp & Hsize).
  change (put_ops [(b_ "a", b_ "1"); (b_ "b", b_ "2")]) with two_puts in Hp.
  rewrite Hrun in Hp. injection Hp as <-.
  destruct (Hdel two_puts two_entry_store (b_ "a") Hrun)
    as (value & e & p' & HG' & HD & _ & Hlow & _ & Hcap).
  rewrite HG in HG'. injection HG' as <- <-.
  split; [exact bytes_Compare_lawful|]. split; [reflexivity|]. split; [exact Hnd|].
  split; [exact Hrun|]. split; [exact Hsize|].
  exists p'. split; [exact HG|]. split; [exact HD|].
  split; [vm_compute; reflexivity|]. split; [|exact Hcap].
  rewrite (Hlow eq_refl). vm_compute. reflexivity.
Defined.

(** C7.  On a store reached from a fresh one, whose forward pass yields the
    entries [m]: [Get(key)] reports not-found exactly when no entry of [m] has
    a key that compares equal to [key]; [Delete(key)] reports not-found under
    the same condition and then leaves [Len()], [Size()] and the entries as
    they were; [Find(key)] reports not-found exactly when every key of [m] is
    smaller than [key], and otherwise returns the entry of [m] with the
    smallest key among those at or after [key]. *)
Theorem not_found_conditions
    (cmp : bytes -> bytes -> Z) (rand_Int : nat -> Z) (growslice : Z -> Z -> Z)
    (p : DB_) (key : bytes) :
  BasicComparer any_key cmp ->
  reachable any_key cmp rand_Int growslice p ->
  exists m,
    iterate_forward cmp p = Ok m
    /\ (exists value e, Get cmp p key = Ok (p, value, e)
          /\ (e = ErrNotFound <-> forall kv, kv ∈ m -> cmp (fst kv) key <> 0))
    /\ (exists p' e, Delete cmp p key = Ok (p', e)
          /\ (e = ErrNotFound <-> forall kv, kv ∈ m -> cmp (fst kv) key <> 0)
          /\ (e = ErrNotFound ->
                Len p' = Len p /\ Size p' = Size p /\ iterate_forward cmp p' = Ok m))
    /\ (exists rkey value e, Find cmp p key = Ok (p, rkey, value, e)
          /\ (e = ErrNotFound <-> forall kv, kv ∈ m -> cmp (fst kv) key < 0)
          /\ (e <> ErrNotFound ->
                (rkey, value) ∈ m /\ 0 <= cmp rkey key
                /\ forall kv, kv ∈ m -> 0 <= cmp (fst kv) key ->
                     kv = (rkey, value) \/ cmp rkey (fst kv) < 0)).
Proof.
  intros HC Hreach.
  destruct (reachable_Repr any_key cmp HC rand_Int growslice p Hreach) as [m HR].
  pose proof (Repr_wf any_key cmp p m HR) as Hwf.
  exists m. split; [by apply (iterate_Repr any_key cmp)|]. split; [|split].
  - destruct (Get_Repr any_key cmp HC p m key HR I) as (v & e & HG & Hv).
    exists v, e. split; [done|]. rewrite <- (get_None_elem cmp).
    destruct (RefMap.get cmp key m); destruct Hv as [_ ->]; done.
  - destruct (Delete_Repr any_key cmp HC p m key HR I)
      as (p' & e & HD & HR' & _ & He & Hsame).
    exists p', e. split; [done|]. split.
    + rewrite <- (get_None_elem cmp). rewrite He.
      by destruct (RefMap.get cmp key m).
    + intros Hnf. destruct (Hsame Hnf) as (HRm & HL & HS).
      split; [done|]. split; [done|]. by apply (iterate_Repr any_key cmp).
  - destruct (Find_Repr any_key cmp HC p m key HR I) as (rk & v & e & HF & Hv).
    exists rk, v, e. split; [done|]. rewrite <- (find_ge_None cmp).
    destruct (RefMap.find_ge cmp key m) as [kv'|] eqn:Hfg.
    + destruct Hv as [<- ->]. split; [done|]. intros _.
      destruct (find_ge_Some any_key cmp m key (rk, v) Hwf I Hfg) as (Hin & Hc & Hmin).
      done.
    + destruct Hv as (-> & -> & ->). done.
Qed.

Lemma not_found_conditions_witness :
  BasicComparer any_key bytes_Compare
  /\ reachable any_key bytes_Compare rand0 grow2 two_entry_store
  /\ exists m,
    iterate_forward bytes_Compare two_entry_store = Ok m
    /\ (exists value e, Get bytes_Compare two_entry_store (b_ "a")
                        = Ok (two_entry_store, value, e)
          /\ (e = ErrNotFound <->
              forall kv, kv ∈ m -> bytes_Compare (fst kv) (b_ "a") <> 0))
    /\ (exists p' e, Delete bytes_Compare two_entry_store (b_ "a") = Ok (p', e)
          /\ (e = ErrNotFound <->
              forall kv, kv ∈ m -> bytes_Compare (fst kv) (b_ "a") <> 0)
          /\ (e = ErrNotFound ->
                Len p' = Len two_entry_store /\ Size p' = Size two_entry_store
                /\ iterate_forward bytes_Compare p' = Ok m))
    /\ (exists rkey value e, Find bytes_Compare two_entry_store (b_ "a")
                             = Ok (two_entry_store, rkey, value, e)
          /\ (e = ErrNotFound <->
              forall kv, kv ∈ m -> bytes_Compare (fst kv) (b_ "a") < 0)
          /\ (e <> ErrNotFound ->
                (rkey, value) ∈ m /\ 0 <= bytes_Compare rkey (b_ "a")
                /\ forall kv, kv ∈ m -> 0 <= bytes_Compare (fst kv) (b_ "a") ->
                     kv = (rkey, value) \/ bytes_Compare rkey (fst kv) < 0)).
Proof.
  split; [exact bytes_Compare_lawful|].
  split; [exact two_entry_store_reachable|].
  exact (not_found_conditions bytes_Compare rand0 grow2 two_entry_store (b_ "a")
           bytes_Compare_lawful two_entry_store_reachable).
Defined.

(** C10.  Every store reached from [New_] by [Put], [Delete] and [Reset]
    keeps [1 <= maxHeight <= tMaxHeight], the stored height of the head
    equal to [tMaxHeight], and the height of every node on the level-0 chain
    within [1, maxHeight]; [randHeight] returns a height in
    [1, tMaxHeight]; on such a store [findGE], [Put], [Delete] and [Reset] run
    without an index out of range (they return [Ok]), and [Get], [Find],
    [Contains] and the positioning operations of an iterator return the
    store as it was; [Last], [Next] and [Prev] return for an iterator that
    stands on a node of the chain or on none, and leave it on such a
    node. *)
Theorem height_bounds_preserved
    (cmp : bytes -> bytes -> Z) (rand_Int : nat -> Z) (growslice : Z -> Z -> Z)
    (p : DB_) :
  BasicComparer any_key cmp ->
  reachable any_key cmp rand_Int growslice p ->
  (exists l, level0_chain p l /\ heights_ok p l)
  /\ (exists r h, randHeight rand_Int p = Ok (set_rnd p r, h) /\ 1 <= h <= tMaxHeight)
  /\ (forall key prev, exists p' x exact, findGE cmp p key prev = Ok (p', x, exact))
  /\ (forall key value, exists p',
        Put cmp rand_Int growslice p key value = Ok (p', nil_error)
        /\ reachable any_key cmp rand_Int growslice p')
  /\ (forall key, exists p' e,
        Delete cmp p key = Ok (p', e)
        /\ reachable any_key cmp rand_Int growslice p')
  /\ (exists p', Reset p = Ok p' /\ reachable any_key cmp rand_Int growslice p')
  /\ (forall key, exists value e, Get cmp p key = Ok (p, value, e))
  /\ (forall key, exists rkey value e, Find cmp p key = Ok (p, rkey, value, e))
  /\ (forall key, exists b, Contains cmp p key = Ok (p, b))
  /\ (forall i key,
        (exists i' ok, First cmp p i = Ok (p, i', ok))
        /\ (exists i' ok, Seek cmp p i key = Ok (p, i', ok)))
  /\ (forall i p' i' ok,
        Last cmp p i = Ok (p', i', ok) \/ Next cmp p i = Ok (p', i', ok)
        \/ Prev cmp p i = Ok (p', i', ok) -> p' = p)
  /\ (exists l, level0_chain p l
        /\ forall i, it_node i = 0 \/ it_node i ∈ l ->
             (exists i' ok, Last cmp p i = Ok (p, i', ok)
                            /\ (it_node i' = 0 \/ it_node i' ∈ l))
             /\ (exists i' ok, Next cmp p i = Ok (p, i', ok)
                               /\ (it_node i' = 0 \/ it_node i' ∈ l))
             /\ (exists i' ok, Prev cmp p i = Ok (p, i', ok)
                               /\ (it_node i' = 0 \/ it_node i' ∈ l))).
Proof.
  intros HC Hreach.
  destruct (reachable_Repr any_key cmp HC rand_Int growslice p Hreach) as (m & l & HI & Hm).
  assert (Repr any_key cmp p m) as HR by by exists l.
  split; [exists l; by apply (Inv_heights_ok any_key cmp)|].
  split; [apply randHeight_spec|].
  split.
  { intros key prev.
    destruct (findGE_total any_key cmp HC p l key prev HI I) as (p' & x & ex & Hf & _).
    by exists p', x, ex. }
  split.
  { intros key value.
    destruct (Put_Repr any_key cmp HC rand_Int growslice p m key value HR I) as (p' & HP & _).
    exists p'. split; [done|]. by eapply reach_Put. }
  split.
  { intros key.
    destruct (Delete_Repr any_key cmp HC p m key HR I) as (p' & e & HD & _).
    exists p', e. split; [done|]. by eapply reach_Delete. }
  split.
  { destruct (Reset_Repr any_key cmp p m HR) as (p' & HRs & _).
    exists p'. split; [done|]. by eapply reach_Reset. }
  split.
  { intros key. destruct (Get_Repr any_key cmp HC p m key HR I) as (v & e & HG & _).
    by exists v, e. }
  split.
  { intros key. destruct (Find_Repr any_key cmp HC p m key HR I) as (rk & v & e & HF & _).
    by exists rk, v, e. }
  split.
  { intros key. eexists. by apply (Contains_Repr any_key cmp HC p m). }
  split.
  { intros i key. split.
    - apply (First_total any_key cmp HC p l i HI). by destruct (slice_start i).
    - apply (Seek_total any_key cmp HC p l i key HI I). by destruct (slice_start i). }
  split.
  { intros i p' i' ok [H|[H|H]].
    - by eapply Last_read.
    - by eapply Next_read.
    - by eapply Prev_read. }
  exists l. split; [by apply (Inv_heights_ok any_key cmp)|].
  intros i Hi. split; [|split].
  - apply (Last_total any_key cmp HC p l i HI); [by destruct (slice_limit i)|done].
  - apply (Next_total any_key cmp HC p l i HI); [by destruct (slice_start i)|done].
  - apply (Prev_total any_key cmp HC p l i HI); [by destruct (slice_limit i)|done|done].
Qed.

Lemma height_bounds_preserved_witness :
  BasicComparer any_key bytes_Compare
  /\ reachable any_key bytes_Compare rand0 grow2 two_entry_store
  /\ (exists l, level0_chain two_entry_store l /\ heights_ok two_entry_store l)
  /\ (exists r h, randHeight rand0 two_entry_store = Ok (set_rnd two_entry_store r, h)
                  /\ 1 <= h <= tMaxHeight)
  /\ (forall key value, exists p',
        Put bytes_Compare rand0 grow2 two_entry_store key value = Ok (p', nil_error)
        /\ reachable any_key bytes_Compare rand0 grow2 p').
Proof.
  split; [exact bytes_Compare_lawful|].
  split; [exact two_entry_store_reachable|].
  destruct (height_bounds_preserved bytes_Compare rand0 grow2 two_entry_store
              bytes_Compare_lawful two_entry_store_reachable)
    as (H1 & H2 & _ & H4 & _).
  split; [exact H1|]. split; [exact H2|exact H4].
Defined.

End MemdbClaims.

(** ** Varints *)

Module Varint.
Import binary Bytes Wire.

Lemma forall_below_256 (P : Z -> bool) :
  forallb P (map Z.of_nat (seq 0 256)) = true ->
  forall a, 0 <= a < 256 -> P a = true.
Proof.
  intros H a Ha. rewrite forallb_forall in H. apply H.
  apply in_map_iff. exists (Z.to_nat a). split; [lia|].
  apply in_seq. lia.
Qed.

Lemma lor_128 a : 0 <= a < 256 -> Z.lor a 128 = a mod 128 + 128.
Proof.
  intros Ha. apply Z.eqb_eq.
  by apply (forall_below_256 (fun a => Z.lor a 128 =? a mod 128 + 128)).
Qed.

Lemma land_127 a : 0 <= a < 256 -> Z.land a 127 = a mod 128.
Proof.
  intros Ha. apply Z.eqb_eq.
  by apply (forall_below_256 (fun a => Z.land a 127 =? a mod 128)).
Qed.

(** The value of a continuation byte and of a last byte. *)
Lemma cont_byte x : 0 <= x ->
  byte_to_Z (byte_of_Z (Z.lor (x mod 256) 128)) = x mod 128 + 128.
Proof.
  intros Hx. rewrite byte_to_of_Z.
  pose proof (Z.mod_pos_bound x 256 ltac:(lia)) as H256.
  rewrite lor_128 by done.
  replace ((x mod 256) mod 128) with (x mod 128).
  - pose proof (Z.mod_pos_bound x 128 ltac:(lia)). apply Z.mod_small. lia.
  - symmetry. apply Z.mod_mod_divide. exists 2. lia.
Qed.

Lemma last_byte x : 0 <= x < 128 -> byte_to_Z (byte_of_Z x) = x.
Proof. intros Hx. rewrite byte_to_of_Z. apply Z.mod_small. lia. Qed.

Lemma lor_shifted acc v s :
  0 <= s -> 0 <= acc < 2 ^ s -> 0 <= v ->
  Z.lor acc (Z.shiftl v s) = acc + v * 2 ^ s.
Proof.
  intros Hs Hacc Hv. rewrite Z.shiftl_mul_pow2 by done.
  assert (Z.land acc (v * 2 ^ s) = 0) as Hland.
  { apply Z.bits_inj'. intros n Hn. rewrite Z.land_spec, Z.bits_0.
    destruct (Z.ltb_spec n s).
    - rewrite Z.mul_pow2_bits_low by lia. apply andb_false_r.
    - destruct (Z.eq_dec acc 0) as [->|Hne]; [by rewrite Z.bits_0|].
      rewrite (Z.bits_above_log2 acc n); [done|lia|].
      apply Z.log2_lt_pow2; [lia|].
      pose proof (Z.pow_le_mono_r 2 s n ltac:(lia) ltac:(lia)). lia. }
  by rewrite <- (Z.lxor_lor _ _ Hland), <- (Z.add_nocarry_lxor _ _ Hland).
Qed.

Lemma len_uvarint_bytes_pos fuel x : (0 < fuel)%nat -> 1 <= len (uvarint_bytes fuel x).
Proof.
  destruct fuel; [lia|]. intros _. simpl. destruct (128 <=? x).
  - rewrite len_cons. pose proof (len_nonneg (uvarint_bytes fuel (Z.shiftr x 7))). lia.
  - rewrite len_cons, len_nil. lia.
Qed.

Lemma len_uvarint_bytes_le fuel : forall x (k : nat),
  0 <= x < 2 ^ (7 * Z.of_nat k) -> (1 <= k <= fuel)%nat ->
  len (uvarint_bytes fuel x) <= Z.of_nat k.
Proof.
  induction fuel as [|fuel IH]; intros x k Hx Hk; [lia|]. simpl.
  destruct (Z.leb_spec 128 x).
  - rewrite len_cons. destruct k as [|k]; [lia|].
    destruct k as [|k]; [simpl in Hx; lia|].
    specialize (IH (Z.shiftr x 7) (S k)).
    rewrite Z.shiftr_div_pow2 in * by lia.
    assert (0 <= x / 2 ^ 7 < 2 ^ (7 * Z.of_nat (S k))) as Hq.
    { split; [apply Z.div_pos; lia|]. apply Z.div_lt_upper_bound; [lia|].
      rewrite <- Z.pow_add_r by lia.
      replace (7 + 7 * Z.of_nat (S k)) with (7 * Z.of_nat (S (S k))) by lia. lia. }
    specialize (IH Hq ltac:(lia)). lia.
  - rewrite len_cons, len_nil. lia.
Qed.

Lemma len_uvarint_le_5 x : 0 <= x < 2 ^ 35 -> 1 <= len (uvarint x) <= 5.
Proof.
  intros Hx. split; [apply len_uvarint_bytes_pos; unfold MaxVarintLen64; lia|].
  apply (len_uvarint_bytes_le _ x 5); [done|unfold MaxVarintLen64; lia].
Qed.

Lemma len_uvarint_le_10 x : 0 <= x < 2 ^ 64 -> 1 <= len (uvarint x) <= 10.
Proof.
  intros Hx. split; [apply len_uvarint_bytes_pos; unfold MaxVarintLen64; lia|].
  apply (len_uvarint_bytes_le _ x 10); [lia|unfold MaxVarintLen64; lia].
Qed.

(** Decoding what the encoder wrote. *)
Lemma Uvarint_loop_enc fuel : forall x i acc rest,
  0 <= x -> 0 <= i -> 0 <= acc < 2 ^ (7 * i) ->
  acc + x * 2 ^ (7 * i) < 2 ^ 64 ->
  x < 2 ^ (7 * Z.of_nat fuel) -> (0 < fuel)%nat ->
  i + len (uvarint_bytes fuel x) <= 10 ->
  Uvarint_loop (uvarint_bytes fuel x ++ rest) i acc (7 * i)
  = (acc + x * 2 ^ (7 * i), i + len (uvarint_bytes fuel x)).
Proof.
  induction fuel as [|fuel IH]; intros x i acc rest Hx Hi Hacc Hlt Hfuel Hpos Hlen;
    [lia|]. clear Hpos.
  simpl in *. unfold MaxVarintLen64 in *.
  assert (0 < 2 ^ (7 * i)) as Hpow by (apply Z.pow_pos_nonneg; lia).
  destruct (Z.leb_spec 128 x) as [Hbig|Hsmall].
  - rewrite len_cons in *. simpl. unfold MaxVarintLen64.
    pose proof (len_nonneg (uvarint_bytes fuel (Z.shiftr x 7))) as Hl0.
    destruct (Z.eqb_spec i 10); [lia|].
    rewrite cont_byte by done.
    pose proof (Z.mod_pos_bound x 128 ltac:(lia)) as Hm.
    destruct (Z.ltb_spec (x mod 128 + 128) 128); [lia|].
    rewrite land_127 by lia.
    replace ((x mod 128 + 128) mod 128) with (x mod 128)
      by (rewrite <- Z.add_mod_idemp_r, Z.mod_same, Z.add_0_r by lia;
          symmetry; apply Z.mod_mod; lia).
    pose proof (Z.div_mod x 128 ltac:(lia)) as Hdm.
    assert (0 <= x / 128) as Hq by (apply Z.div_pos; lia).
    assert (2 ^ (7 * (i + 1)) = 128 * 2 ^ (7 * i)) as Hp1.
    { replace (7 * (i + 1)) with (7 + 7 * i) by lia. rewrite Z.pow_add_r by lia. lia. }
    assert (x mod 128 * 2 ^ (7 * i) < 2 ^ 64) as Hfit by nia.
    unfold wrap_uint64. rewrite Z.shiftl_mul_pow2 by lia.
    rewrite (Z.mod_small (x mod 128 * 2 ^ (7 * i))) by nia.
    rewrite <- (Z.shiftl_mul_pow2 (x mod 128) (7 * i)) by lia.
    rewrite lor_shifted by lia.
    replace (7 * i + 7) with (7 * (i + 1)) by lia.
    rewrite Z.shiftr_div_pow2 in * by lia. change (2 ^ 7) with 128 in *.
    rewrite IH.
    + f_equal; first [lia | rewrite Hp1; nia].
    + done.
    + lia.
    + rewrite Hp1. nia.
    + rewrite Hp1. nia.
    + apply Z.div_lt_upper_bound; [lia|].
      replace (7 * Z.of_nat (S fuel)) with (7 + 7 * Z.of_nat fuel) in Hfuel by lia.
      rewrite Z.pow_add_r in Hfuel by lia. lia.
    + destruct fuel; [|lia]. change (2 ^ (7 * Z.of_nat 1)) with 128 in Hfuel. lia.
    + lia.
  - rewrite len_cons, len_nil in *. simpl. unfold MaxVarintLen64.
    destruct (Z.eqb_spec i 10); [lia|].
    rewrite last_byte by lia.
    destruct (Z.ltb_spec x 128); [|lia].
    assert ((i =? 10 - 1) && (1 <? x) = false) as ->.
    { destruct (Z.eqb_spec i (10 - 1)) as [->|]; [|done]. simpl.
      destruct (Z.ltb_spec 1 x); [|done]. change (7 * (10 - 1)) with 63 in *.
      assert (2 * 2 ^ 63 <= x * 2 ^ 63) by nia. lia. }
    unfold wrap_uint64. rewrite Z.shiftl_mul_pow2 by lia.
    rewrite Z.mod_small by nia.
    rewrite <- (Z.shiftl_mul_pow2 x (7 * i)) by lia.
    rewrite lor_shifted by lia. rewrite ?Z.shiftl_mul_pow2 by lia. done.
Qed.

Lemma Uvarint_uvarint x rest :
  0 <= x < 2 ^ 64 -> Uvarint (uvarint x ++ rest) = (x, len (uvarint x)).
Proof.
  intros Hx. unfold Uvarint, uvarint.
  pose proof (Uvarint_loop_enc (Z.to_nat MaxVarintLen64) x 0 0 rest) as H.
  change (7 * 0) with 0 in H. rewrite H; try lia.
  - f_equal. lia.
  - unfold MaxVarintLen64. change (7 * Z.of_nat (Z.to_nat 10)) with 70. lia.
  - unfold MaxVarintLen64. lia.
  - pose proof (len_uvarint_le_10 x Hx). unfold uvarint in *. lia.
Qed.

End Varint.

(** ** Writing at the end of a buffer *)

Module Writer.
Import binary Bytes Wire Varint RepFacts.

Section writer.
Context {A : Type}.
Implicit Types (Q pad src : list A).

Lemma slice_to_app Q S n :
  0 <= n <= len S -> slice_to (Q ++ S) (len Q + n) = Ok (Q ++ take (Z.to_nat n) S).
Proof.
  intros Hn. pose proof (len_nonneg Q).
  rewrite slice_to_in_range by (rewrite len_app; lia). f_equal.
  replace (Z.to_nat (len Q + n)) with (length Q + Z.to_nat n)%nat by (unfold len; lia).
  by rewrite take_app_add.
Qed.

Lemma slice_to_end Q pad : slice_to (Q ++ pad) (len Q) = Ok Q.
Proof.
  pose proof (slice_to_app Q pad 0 ltac:(pose proof (len_nonneg pad); lia)) as H.
  rewrite Z.add_0_r in H. rewrite H. simpl. by rewrite app_nil_r.
Qed.

Lemma slice_from_end Q pad : slice_from (Q ++ pad) (len Q) = Ok pad.
Proof.
  unfold slice_from. pose proof (len_nonneg Q). pose proof (len_nonneg pad).
  rewrite slice_in_range by (rewrite ?len_app; lia). f_equal.
  rewrite len_app. replace (Z.to_nat (len Q)) with (length Q) by (unfold len; lia).
  rewrite drop_app_length. apply firstn_all2. unfold len. lia.
Qed.

Lemma assign_end Q pad x :
  1 <= len pad -> assign (Q ++ pad) (len Q) x = Ok ((Q ++ [x]) ++ drop 1 pad).
Proof.
  intros Hp. pose proof (len_nonneg Q).
  rewrite assign_in_range by (rewrite len_app; lia). f_equal.
  replace (Z.to_nat (len Q)) with (length Q + 0)%nat by (unfold len; lia).
  rewrite insert_app_r. destruct pad as [|y pad]; [rewrite len_nil in Hp; lia|].
  simpl. by rewrite <- app_assoc.
Qed.

Lemma copy_end Q pad src :
  copy_at (Q ++ pad) (len Q) src
  = ((Q ++ take (Z.to_nat (Z.min (len pad) (len src))) src)
       ++ drop (Z.to_nat (Z.min (len pad) (len src))) pad,
     Z.min (len pad) (len src)).
Proof.
  unfold copy_at. pose proof (len_nonneg Q). pose proof (len_nonneg pad).
  pose proof (len_nonneg src).
  replace (len (Q ++ pad) - len Q) with (len pad) by (rewrite len_app; lia).
  set (c := Z.min (len pad) (len src)). f_equal.
  replace (Z.to_nat (len Q)) with (length Q) by (unfold len; lia).
  rewrite take_app_length. rewrite <- app_assoc. do 2 f_equal.
  replace (Z.to_nat (len Q + c)) with (length Q + Z.to_nat c)%nat by (unfold len; lia).
  by rewrite drop_app_add.
Qed.

End writer.

Lemma drop_drop_Z {A} (l : list A) a b :
  0 <= a -> 0 <= b -> drop (Z.to_nat a) (drop (Z.to_nat b) l) = drop (Z.to_nat (b + a)) l.
Proof. intros Ha Hb. rewrite drop_drop. f_equal. lia. Qed.

Lemma PutUvarint_loop_end fuel : forall (Q w pad : bytes) x,
  0 <= x < 2 ^ (7 * Z.of_nat fuel) -> (0 < fuel)%nat ->
  len (uvarint_bytes fuel x) <= len pad ->
  PutUvarint_loop fuel (Q ++ w ++ pad) (len Q) (len w) x
  = Ok (Q ++ (w ++ uvarint_bytes fuel x) ++ drop (Z.to_nat (len (uvarint_bytes fuel x))) pad,
        len w + len (uvarint_bytes fuel x)).
Proof.
  induction fuel as [|fuel IH]; intros Q w pad x Hx Hpos Hroom; [lia|]. clear Hpos.
  cbn [PutUvarint_loop uvarint_bytes] in *.
  assert (forall b : byte, 1 <= len pad ->
            assign (Q ++ w ++ pad) (len Q + len w) b
            = Ok (Q ++ (w ++ [b]) ++ drop 1 pad)) as Hassign.
  { intros b Hp. rewrite app_assoc, <- len_app, assign_end by done.
    by rewrite <- !app_assoc. }
  destruct (Z.leb_spec 128 x) as [Hbig|Hsmall].
  - rewrite len_cons in Hroom.
    pose proof (len_nonneg (uvarint_bytes fuel (Z.shiftr x 7))) as Hl0.
    rewrite (bind_Ok _ _ _ (Hassign _ ltac:(lia))).
    replace (len w + 1) with (len (w ++ [byte_of_Z (Z.lor (x mod 256) 128)]))
      by (by rewrite len_app).
    rewrite IH.
    + rewrite len_app, len_cons, len_nil, len_cons.
      change 1%nat with (Z.to_nat 1). rewrite drop_drop_Z by lia.
      rewrite <- (app_assoc w). simpl.
      replace (len w + (1 + 0) + len (uvarint_bytes fuel (Z.shiftr x 7)))
        with (len w + (1 + len (uvarint_bytes fuel (Z.shiftr x 7)))) by lia.
      done.
    + rewrite Z.shiftr_div_pow2 by lia. split; [apply Z.div_pos; lia|].
      apply Z.div_lt_upper_bound; [lia|].
      replace (7 * Z.of_nat (S fuel)) with (7 + 7 * Z.of_nat fuel) in Hx by lia.
      rewrite Z.pow_add_r in Hx by lia. lia.
    + destruct fuel; [|lia]. change (2 ^ (7 * Z.of_nat 1)) with 128 in Hx. lia.
    + change 1%nat with (Z.to_nat 1). rewrite len_drop; lia.
  - rewrite len_cons, len_nil in Hroom.
    rewrite (bind_Ok _ _ _ (Hassign _ ltac:(lia))).
    rewrite len_cons, len_nil. done.
Qed.

Lemma PutUvarint_end (Q pad : bytes) x :
  0 <= x < 2 ^ 64 -> len (uvarint x) <= len pad ->
  PutUvarint_at (Q ++ pad) (len Q) x
  = Ok ((Q ++ uvarint x) ++ drop (Z.to_nat (len (uvarint x))) pad, len (uvarint x)).
Proof.
  intros Hx Hroom. unfold PutUvarint_at.
  rewrite (bind_Ok _ _ _ (slice_from_end Q pad)).
  pose proof (PutUvarint_loop_end (Z.to_nat MaxVarintLen64) Q [] pad x) as H.
  cbn [app] in H. change (len (@nil byte)) with 0 in H.
  fold (uvarint x) in H. rewrite H.
  - by rewrite <- app_assoc.
  - unfold MaxVarintLen64. change (7 * Z.of_nat (Z.to_nat 10)) with 70. lia.
  - unfold MaxVarintLen64. lia.
  - done.
Qed.

End Writer.

(** ** Appending a record to a batch *)

Module Append.
Import binary leveldb Bytes Wire Varint Writer.

Lemma grow_spec b n : 0 <= n ->
  data (grow b n) = data b /\ index (grow b n) = index b
  /\ internalLen (grow b n) = internalLen b /\ n <= len (spare (grow b n)).
Proof.
  intros Hn. unfold grow. destruct (Z.ltb_spec (len (spare b)) n); [|done].
  cbn [data index internalLen spare]. repeat split.
  pose proof (len_nonneg (data b)).
  assert (0 <= Z.quot (len (data b))
                 (if batchGrowRec <? len (index b)
                  then Z.quot (len (index b)) batchGrowRec else 1)) as Hq.
  { apply Z.quot_pos; [done|]. unfold batchGrowRec.
    destruct (Z.ltb_spec 3000 (len (index b))); [|lia].
    assert (1 <= Z.quot (len (index b)) 3000); [|lia].
    apply Z.quot_le_lower_bound; lia. }
  rewrite len_replicate; lia.
Qed.

(** Writing a length-prefixed field at the end of a buffer. *)
Lemma field_end (Q pad s : bytes) :
  short s -> len (uvarint (len s)) + len s <= len pad ->
  PutUvarint_at (Q ++ pad) (len Q) (len s)
  = Ok ((Q ++ uvarint (len s)) ++ drop (Z.to_nat (len (uvarint (len s)))) pad,
        len (uvarint (len s)))
  /\ slice_from ((Q ++ uvarint (len s)) ++ drop (Z.to_nat (len (uvarint (len s)))) pad)
       (len Q + len (uvarint (len s)))
     = Ok (drop (Z.to_nat (len (uvarint (len s)))) pad)
  /\ copy_at ((Q ++ uvarint (len s)) ++ drop (Z.to_nat (len (uvarint (len s)))) pad)
       (len Q + len (uvarint (len s))) s
     = ((Q ++ uvarint (len s) ++ s)
          ++ drop (Z.to_nat (len (uvarint (len s)) + len s)) pad, len s).
Proof.
  intros Hs Hroom. unfold short in Hs.
  pose proof (len_nonneg s) as Hs0. pose proof (len_nonneg pad) as Hp0.
  pose proof (len_uvarint_le_5 (len s) ltac:(lia)) as Hw.
  split; [|split].
  - apply PutUvarint_end; lia.
  - rewrite <- (len_app Q). apply slice_from_end.
  - rewrite <- (len_app Q), copy_end.
    rewrite len_drop by lia.
    rewrite Z.min_r by lia. rewrite firstn_all2 by (unfold len in *; lia).
    rewrite drop_drop_Z by lia. by rewrite <- !app_assoc.
Qed.

Lemma appendRec_val b key value : short key -> short value ->
  exists sp, appendRec b keyTypeVal key value
   = Ok (mkBatch (data b ++ enc_rec (keyTypeVal, key, value)) sp
         (index b ++ [index_at (len (data b)) (keyTypeVal, key, value)])
         (internalLen b + (len key + len value + 8))).
Proof.
  intros Hk Hv. unfold appendRec.
  change (keyTypeVal =? keyTypeVal) with true. cbv zeta iota.
  pose proof (len_nonneg key) as Hk0. pose proof (len_nonneg value) as Hv0.
  pose proof (len_uvarint_le_5 (len key) ltac:(unfold short in Hk; lia)) as Hwk.
  pose proof (len_uvarint_le_5 (len value) ltac:(unfold short in Hv; lia)) as Hwv.
  set (n := 1 + MaxVarintLen32 + len key + (MaxVarintLen32 + len value)).
  assert (n = 11 + len key + len value) as Hn by (unfold n, MaxVarintLen32; lia).
  destruct (grow_spec b n ltac:(lia)) as (Hd & Hi & Hl & Hsp).
  rewrite Hd, Hi, Hl. set (sp := spare (grow b n)) in *.
  set (Q := data b). pose proof (len_nonneg Q) as HQ0.
  rewrite (bind_Ok _ _ _ (slice_to_app Q sp n ltac:(lia))).
  set (pad := take (Z.to_nat n) sp).
  assert (len pad = n) as Hpad by (apply len_take; lia).
  rewrite (bind_Ok _ _ _ (assign_end Q pad _ ltac:(lia))).
  set (t := byte_of_Z keyTypeVal).
  replace (len Q + 1) with (len (Q ++ [t])) by (by rewrite len_app).
  assert (len (drop 1 pad) = n - 1) as Hpad1.
  { change 1%nat with (Z.to_nat 1). rewrite len_drop; lia. }
  destruct (field_end (Q ++ [t]) (drop 1 pad) key Hk ltac:(lia)) as (E1 & E2 & E3).
  rewrite (bind_Ok _ _ _ E1). cbv beta iota.
  rewrite (bind_Ok _ _ _ E2). rewrite E3. cbv beta iota. clear E1 E2 E3.
  set (Q2 := (Q ++ [t]) ++ uvarint (len key) ++ key).
  set (pad2 := drop (Z.to_nat (len (uvarint (len key)) + len key)) (drop 1 pad)).
  assert (len (Q ++ [t]) + len (uvarint (len key)) + len key = len Q2) as ->.
  { unfold Q2. rewrite !len_app. lia. }
  assert (len pad2 = n - 1 - len (uvarint (len key)) - len key) as Hpad2.
  { unfold pad2. rewrite len_drop; lia. }
  destruct (field_end Q2 pad2 value Hv ltac:(lia)) as (E1 & E2 & E3).
  rewrite (bind_Ok _ _ _ E1). cbv beta iota.
  rewrite (bind_Ok _ _ _ E2). rewrite E3. cbv beta iota. clear E1 E2 E3.
  set (Q3 := Q2 ++ uvarint (len value) ++ value).
  assert (len Q2 + len (uvarint (len value)) + len value = len Q3) as ->.
  { unfold Q3. rewrite !len_app. lia. }
  rewrite (bind_Ok (Ok _) _ _ eq_refl). cbv beta iota.
  rewrite (bind_Ok _ _ _ (slice_to_end Q3 _)).
  eexists. f_equal. f_equal.
  - unfold Q3, Q2, enc_rec. change (keyTypeVal =? keyTypeVal) with true.
    cbv iota. rewrite <- !app_assoc. done.
  - unfold index_at. change (keyTypeVal =? keyTypeVal) with true. cbv iota.
    do 2 f_equal. f_equal; unfold Q2; rewrite !len_app, ?len_cons, ?len_nil; lia.
Qed.

Lemma appendRec_del b key : short key ->
  exists sp, appendRec b keyTypeDel key []
   = Ok (mkBatch (data b ++ enc_rec (keyTypeDel, key, [])) sp
         (index b ++ [index_at (len (data b)) (keyTypeDel, key, [])])
         (internalLen b + (len key + 0 + 8))).
Proof.
  intros Hk. unfold appendRec.
  change (keyTypeDel =? keyTypeVal) with false. cbv zeta iota.
  pose proof (len_nonneg key) as Hk0.
  pose proof (len_uvarint_le_5 (len key) ltac:(unfold short in Hk; lia)) as Hwk.
  set (n := 1 + MaxVarintLen32 + len key).
  assert (n = 6 + len key) as Hn by (unfold n, MaxVarintLen32; lia).
  destruct (grow_spec b n ltac:(lia)) as (Hd & Hi & Hl & Hsp).
  rewrite Hd, Hi, Hl. set (sp := spare (grow b n)) in *.
  set (Q := data b). pose proof (len_nonneg Q) as HQ0.
  rewrite (bind_Ok _ _ _ (slice_to_app Q sp n ltac:(lia))).
  set (pad := take (Z.to_nat n) sp).
  assert (len pad = n) as Hpad by (apply len_take; lia).
  rewrite (bind_Ok _ _ _ (assign_end Q pad _ ltac:(lia))).
  set (t := byte_of_Z keyTypeDel).
  replace (len Q + 1) with (len (Q ++ [t])) by (by rewrite len_app).
  assert (len (drop 1 pad) = n - 1) as Hpad1.
  { change 1%nat with (Z.to_nat 1). rewrite len_drop; lia. }
  destruct (field_end (Q ++ [t]) (drop 1 pad) key Hk ltac:(lia)) as (E1 & E2 & E3).
  rewrite (bind_Ok _ _ _ E1). cbv beta iota.
  rewrite (bind_Ok _ _ _ E2). rewrite E3. cbv beta iota. clear E1 E2 E3.
  set (Q2 := (Q ++ [t]) ++ uvarint (len key) ++ key).
  assert (len (Q ++ [t]) + len (uvarint (len key)) + len key = len Q2) as HQ2.
  { unfold Q2. rewrite !len_app. lia. }
  rewrite HQ2. rewrite (bind_Ok (Ok _) _ _ eq_refl). cbv beta iota.
  rewrite (bind_Ok _ _ _ (slice_to_end Q2 _)).
  eexists. f_equal. f_equal.
  - unfold Q2, enc_rec. change (keyTypeDel =? keyTypeVal) with false.
    cbv iota. rewrite <- !app_assoc, app_nil_r. done.
  - unfold index_at. change (keyTypeDel =? keyTypeVal) with false. cbv iota.
    do 2 f_equal. f_equal; rewrite !len_app, ?len_cons, ?len_nil; lia.
Qed.

End Append.

(** ** Decoding a batch *)

Module Decode.
Import binary leveldb Bytes Wire Varint Writer.

Lemma wrap_int_small x : - 2 ^ 63 <= x < 2 ^ 63 -> wrap_int x = x.
Proof. intros Hx. unfold wrap_int. rewrite Z.mod_small; lia. Qed.

Lemma len_enc_rec_pos r : 1 <= len (enc_rec r).
Proof.
  destruct r as [[kt key] value]. unfold enc_rec. rewrite len_cons.
  pose proof (len_nonneg (uvarint (len key) ++ key ++
    (if kt =? keyTypeVal then uvarint (len value) ++ value else []))). lia.
Qed.

Lemma elem_mid {A} (pre : list A) x post : elem (pre ++ x :: post) (len pre) = Ok x.
Proof.
  apply elem_lookup; [apply len_nonneg|].
  replace (Z.to_nat (len pre)) with (length pre) by (unfold len; lia).
  by rewrite list_lookup_middle.
Qed.

Lemma slice_from_app {A} (pre post : list A) :
  slice_from (pre ++ post) (len pre) = Ok post.
Proof. apply slice_from_end. Qed.

Section step.
Context {St : Type}.
Variable fn : St -> Z -> batchIndex -> res (St * error).

(** One turn of the loop of [decodeBatch] over a well-formed record. *)
Lemma decodeBatch_loop_step fuel pre r post st i :
  len (pre ++ enc_rec r ++ post) < 2 ^ 63 -> tag_ok r ->
  decodeBatch_loop fn (S fuel) (pre ++ enc_rec r ++ post) st i (len pre)
  = '(st', e) ← fn st i (index_at (len pre) r);
    match e with
    | nil_error =>
        decodeBatch_loop fn fuel (pre ++ enc_rec r ++ post) st' (wrap_int (i + 1))
          (len pre + len (enc_rec r))
    | _ => Ok (st', e)
    end.
Proof.
  destruct r as [[kt key] value]. intros Hlen Htag.
  pose proof (len_nonneg pre) as Hpre. pose proof (len_nonneg post) as Hpost.
  pose proof (len_nonneg key) as Hk0. pose proof (len_nonneg value) as Hv0.
  cbn [decodeBatch_loop].
  set (D := pre ++ enc_rec (kt, key, value) ++ post) in *.
  pose proof (len_enc_rec_pos (kt, key, value)) as Hr.
  assert (len D = len pre + len (enc_rec (kt, key, value)) + len post) as HD.
  { unfold D. rewrite !len_app. lia. }
  destruct (Z.ltb_spec (len pre) (len D)); [|lia].
  set (t := byte_of_Z kt).
  set (wk := len (uvarint (len key))) in *.
  set (vpart := if kt =? keyTypeVal then uvarint (len value) ++ value else []) in *.
  assert (enc_rec (kt, key, value) = t :: uvarint (len key) ++ key ++ vpart) as Henc
    by done.
  assert (len (enc_rec (kt, key, value)) = 1 + wk + len key + len vpart) as Hlr.
  { rewrite Henc, len_cons, !len_app. fold wk. lia. }
  pose proof (len_nonneg vpart) as Hvp.
  assert (0 <= wk) as Hwk0 by apply len_nonneg.
  pose proof (len_uvarint_le_10 (len key) ltac:(lia)) as Hwk. fold wk in Hwk.
  assert (byte_to_Z t = kt) as Ht.
  { unfold t. by destruct Htag as [-> | ->]. }
  assert (elem D (len pre) = Ok t) as E0.
  { unfold D. rewrite Henc. cbn [app]. apply elem_mid. }
  rewrite (bind_Ok _ _ _ E0), Ht. clear E0.
  destruct (Z.ltb_spec keyTypeVal kt) as [Hbad|_].
  { unfold tag_ok, keyTypeVal, keyTypeDel in *. lia. }
  rewrite (wrap_int_small (len pre + 1)) by lia.
  assert (slice_from D (len pre + 1)
          = Ok (uvarint (len key) ++ key ++ vpart ++ post)) as E1.
  { replace (len pre + 1) with (len (pre ++ [t])) by (by rewrite len_app).
    unfold D. rewrite Henc.
    replace (pre ++ (t :: uvarint (len key) ++ key ++ vpart) ++ post)
      with ((pre ++ [t]) ++ uvarint (len key) ++ key ++ vpart ++ post)
      by (rewrite <- ?app_assoc; cbn [app]; by rewrite <- ?app_assoc).
    apply slice_from_app. }
  rewrite (bind_Ok _ _ _ E1). clear E1.
  rewrite Uvarint_uvarint by lia. fold wk. cbv beta iota.
  unfold int_of_uint64.
  rewrite (wrap_int_small (len pre + 1 + wk)) by lia.
  rewrite (wrap_int_small (len key)) by lia.
  rewrite (wrap_int_small (len pre + 1 + wk + len key)) by lia.
  destruct (Z.leb_spec wk 0); [lia|].
  destruct (Z.ltb_spec (len D) (len pre + 1 + wk + len key)); [lia|].
  cbn [orb]. unfold index_at. fold wk.
  destruct (Z.eqb_spec kt keyTypeVal) as [Hval|Hdel].
  - set (wv := len (uvarint (len value))) in *.
    assert (len vpart = wv + len value) as Hlv by (unfold vpart; by rewrite len_app).
    assert (0 <= wv) as Hwv0 by apply len_nonneg.
    pose proof (len_uvarint_le_10 (len value) ltac:(lia)) as Hwv. fold wv in Hwv.
    assert (slice_from D (len pre + 1 + wk + len key)
            = Ok (uvarint (len value) ++ value ++ post)) as E1.
    { replace (len pre + 1 + wk + len key)
        with (len (pre ++ [t] ++ uvarint (len key) ++ key))
        by (rewrite !len_app, len_cons, len_nil; fold wk; lia).
      unfold D. rewrite Henc. unfold vpart.
      replace (pre ++ (t :: uvarint (len key) ++ key ++ uvarint (len value) ++ value)
                 ++ post)
        with ((pre ++ [t] ++ uvarint (len key) ++ key)
                ++ uvarint (len value) ++ value ++ post)
        by (rewrite <- ?app_assoc; cbn [app]; by rewrite <- ?app_assoc).
      apply slice_from_app. }
    rewrite (bind_Ok _ _ _ E1). clear E1.
    rewrite Uvarint_uvarint by lia. fold wv. cbv beta iota.
    rewrite (wrap_int_small (len pre + 1 + wk + len key + wv)) by lia.
    rewrite (wrap_int_small (len value)) by lia.
    rewrite (wrap_int_small (len pre + 1 + wk + len key + wv + len value)) by lia.
    destruct (Z.leb_spec wv 0); [lia|].
    destruct (Z.ltb_spec (len D) (len pre + 1 + wk + len key + wv + len value)); [lia|].
    cbn [orb]. rewrite (bind_Ok (Ok _) _ _ eq_refl). cbv beta iota.
    replace (len pre + 1 + wk + len key + wv + len value)
      with (len pre + len (enc_rec (kt, key, value))) by lia.
    done.
  - rewrite (bind_Ok (Ok _) _ _ eq_refl). cbv beta iota.
    assert (len vpart = 0) as Hlv.
    { unfold vpart. destruct (Z.eqb_spec kt keyTypeVal); done. }
    replace (len pre + 1 + wk + len key)
      with (len pre + len (enc_rec (kt, key, value))) by lia.
    done.
Qed.

End step.

(** The callback of [Batch.decode] over well-formed records. *)
Lemma decode_loop_records rs : forall fuel pre b i,
  len (pre ++ enc rs) < 2 ^ 63 -> Forall tag_ok rs -> (length rs < fuel)%nat ->
  exists il,
    decodeBatch_loop decode_fn fuel (pre ++ enc rs) b i (len pre)
    = Ok (mkBatch (data b) (spare b) (index b ++ indexes (len pre) rs) il, nil_error).
Proof.
  induction rs as [|r rs IH]; intros fuel pre b i Hlen Htag Hfuel.
  - destruct fuel as [|fuel]; [lia|]. cbn [decodeBatch_loop].
    unfold enc. cbn [map concat]. rewrite app_nil_r.
    destruct (Z.ltb_spec (len pre) (len pre)); [lia|].
    exists (internalLen b). cbn [indexes]. rewrite app_nil_r. by destruct b.
  - destruct fuel as [|fuel]; [simpl in Hfuel; lia|].
    apply Forall_cons in Htag as [Hr Htag].
    unfold enc in *. cbn [map concat] in *. fold (enc rs) in *.
    rewrite decodeBatch_loop_step by done.
    rewrite (bind_Ok (decode_fn b i _) _ _ eq_refl). cbv beta iota.
    replace (len pre + len (enc_rec r)) with (len (pre ++ enc_rec r))
      by (by rewrite len_app).
    rewrite (app_assoc pre).
    destruct (IH fuel (pre ++ enc_rec r)
                (mkBatch (data b) (spare b) (index b ++ [index_at (len pre) r])
                   (wrap_int (internalLen b + wrap_int (wrap_int
                      (keyLen (index_at (len pre) r) + valueLen (index_at (len pre) r)) + 8))))
                (wrap_int (i + 1))) as [il E].
    + by rewrite <- app_assoc.
    + done.
    + simpl in Hfuel. lia.
    + exists il. rewrite E. cbn [data spare index]. rewrite <- app_assoc.
      cbn [indexes app]. by rewrite len_app.
Qed.

Lemma len_enc_ge rs : Z.of_nat (length rs) <= len (enc rs).
Proof.
  induction rs as [|r rs IH]; [done|].
  unfold enc in *. cbn [map concat length]. rewrite len_app.
  pose proof (len_enc_rec_pos r). lia.
Qed.

(** [Load] of the bytes of well-formed records. *)
Lemma Load_enc b0 rs :
  len (enc rs) < 2 ^ 63 -> Forall tag_ok rs ->
  exists il, Load b0 (enc rs) = Ok (mkBatch (enc rs) [] (indexes 0 rs) il, nil_error).
Proof.
  intros Hlen Htag. unfold Load, decode, decodeBatch.
  destruct (decode_loop_records rs (S (length (enc rs))) [] (mkBatch (enc rs) [] [] 0) 0)
    as [il E].
  - done.
  - done.
  - pose proof (len_enc_ge rs). unfold len in *. lia.
  - cbn [app] in E. change (len (@nil byte)) with 0 in E.
    cbv zeta. rewrite E. exists il. by rewrite (bind_Ok (Ok _) _ _ eq_refl).
Qed.

End Decode.

(** ** Building a batch and reading it back *)

Module Roundtrip.
Import binary leveldb Bytes Wire Varint Writer Append Decode.

Lemma record_at_read b i : record_at b i = read (data b) <$> index b !! i.
Proof. unfold record_at. by destruct (index b !! i). Qed.

Lemma tag_ok_bop o : tag_ok (bop_record o).
Proof. destruct o; [by right|by left]. Qed.

Lemma apply_bop_spec b o : short_op o ->
  exists sp il, apply_bop b o
    = Ok (mkBatch (data b ++ enc_rec (bop_record o)) sp
            (index b ++ [index_at (len (data b)) (bop_record o)]) il).
Proof.
  destruct o as [key value|key]; cbn [short_op apply_bop bop_record].
  - intros [Hk Hv]. destruct (appendRec_val b key value Hk Hv) as [sp E].
    unfold Put. rewrite E. eauto.
  - intros Hk. destruct (appendRec_del b key Hk) as [sp E].
    unfold Delete. rewrite E. eauto.
Qed.

Lemma build_spec ops : forall b, Forall short_op ops ->
  exists sp il, build b ops
    = Ok (mkBatch (data b ++ enc (records ops)) sp
            (index b ++ indexes (len (data b)) (records ops)) il).
Proof.
  induction ops as [|o ops IH]; intros b Hs.
  - exists (spare b), (internalLen b). cbn [build records map indexes].
    unfold enc. cbn [map concat]. rewrite !app_nil_r. by destruct b.
  - apply Forall_cons in Hs as [Ho Hs].
    destruct (apply_bop_spec b o Ho) as (sp1 & il1 & E1).
    cbn [build]. rewrite (bind_Ok _ _ _ E1).
    destruct (IH (mkBatch (data b ++ enc_rec (bop_record o)) sp1
                   (index b ++ [index_at (len (data b)) (bop_record o)]) il1) Hs)
      as (sp & il & E).
    rewrite E. exists sp, il. cbn [data index records map indexes].
    unfold enc. cbn [map concat]. rewrite <- !app_assoc, len_app. done.
Qed.

(** Reading a record through its index entry. *)
Lemma read_index_at pre r post : tag_ok r ->
  read (pre ++ enc_rec r ++ post) (index_at (len pre) r)
  = Ok (let '(kt, key, value) := r in
        (kt, key, if kt =? keyTypeVal then value else [])).
Proof.
  destruct r as [[kt key] value]. intros Htag.
  unfold read, index_at, enc_rec, k, v.
  set (Qk := pre ++ [byte_of_Z kt] ++ uvarint (len key)).
  assert (len pre + 1 + len (uvarint (len key)) = len Qk) as ->.
  { unfold Qk. rewrite !len_app, len_cons, len_nil. lia. }
  pose proof (len_nonneg Qk). pose proof (len_nonneg key).
  pose proof (len_nonneg value). pose proof (len_nonneg post).
  pose proof (len_nonneg (uvarint (len value))).
  destruct (Z.eqb_spec kt keyTypeVal) as [Hval|Hdel];
    cbn [keyType keyPos keyLen valuePos valueLen].
  - replace (pre ++ (byte_of_Z kt :: uvarint (len key) ++ key
                       ++ uvarint (len value) ++ value) ++ post)
      with (Qk ++ key ++ (uvarint (len value) ++ value ++ post))
      by (unfold Qk; rewrite <- ?app_assoc; cbn [app]; by rewrite <- ?app_assoc).
    rewrite (RepFacts.slice_sub _ (len Qk) (len key)) by (rewrite ?len_app; lia).
    rewrite RepFacts.sub_app_mid. rewrite (bind_Ok (Ok _) _ _ eq_refl).
    destruct (Z.eqb_spec (len value) 0) as [Hz|Hnz]; cbn [negb].
    + destruct value; [done|]. rewrite len_cons in Hz.
      pose proof (len_nonneg value). lia.
    + set (Qv := Qk ++ key ++ uvarint (len value)).
      assert (len Qk + len key + len (uvarint (len value)) = len Qv) as ->.
      { unfold Qv. rewrite !len_app. lia. }
      replace (Qk ++ key ++ uvarint (len value) ++ value ++ post)
        with (Qv ++ value ++ post)
        by (unfold Qv; by rewrite <- ?app_assoc).
      pose proof (len_nonneg Qv).
      rewrite (RepFacts.slice_sub _ (len Qv) (len value)) by (rewrite ?len_app; lia).
      rewrite RepFacts.sub_app_mid. done.
  - replace (pre ++ (byte_of_Z kt :: uvarint (len key) ++ key ++ []) ++ post)
      with (Qk ++ key ++ post)
      by (unfold Qk; rewrite <- ?app_assoc; cbn [app]; by rewrite <- ?app_assoc).
    rewrite (RepFacts.slice_sub _ (len Qk) (len key)) by (rewrite ?len_app; lia).
    rewrite RepFacts.sub_app_mid. done.
Qed.

(** The normal form of a record: a delete carries no value. *)
Lemma norm_bop o :
  (let '(kt, key, value) := bop_record o in
   (kt, key, if kt =? keyTypeVal then value else [])) = bop_record o.
Proof. by destruct o. Qed.

Lemma read_indexes ops : forall pre post i,
  read (pre ++ enc (records ops) ++ post) <$> indexes (len pre) (records ops) !! i
  = (fun o => Ok (bop_record o)) <$> ops !! i.
Proof.
  induction ops as [|o ops IH]; intros pre post i; [done|].
  unfold records, enc in *. cbn [map concat indexes].
  destruct i as [|i]; cbn [lookup list_lookup fmap option_fmap option_map].
  - rewrite <- app_assoc, read_index_at by apply tag_ok_bop. by rewrite norm_bop.
  - specialize (IH (pre ++ enc_rec (bop_record o)) post i).
    rewrite len_app, <- !app_assoc in IH. rewrite <- app_assoc. apply IH.
Qed.

Lemma len_indexes rs : forall off, len (indexes off rs) = len rs.
Proof.
  induction rs as [|r rs IH]; intros off; [done|].
  cbn [indexes]. by rewrite !len_cons, IH.
Qed.

(** A batch of records whose lengths fit the reserved room: [Load] of
    what [Dump] returns gives the records back. *)
Theorem Load_Dump_short b0 ops :
  Forall short_op ops ->
  exists b, build newBatch ops = Ok b
    /\ Len b = len ops
    /\ (forall i, record_at b i = (fun o => Ok (bop_record o)) <$> ops !! i)
    /\ (len (Dump b) < 2 ^ 63 ->
        exists b', Load b0 (Dump b) = Ok (b', nil_error)
          /\ Len b' = Len b
          /\ forall i, record_at b' i = record_at b i).
Proof.
  intros Hs. destruct (build_spec ops newBatch Hs) as (sp & il & E).
  cbn [newBatch data index app] in E. change (len (@nil byte)) with 0 in E.
  eexists. split; [exact E|].
  assert (forall sp il i,
            record_at (mkBatch (enc (records ops)) sp (indexes 0 (records ops)) il) i
            = (fun o => Ok (bop_record o)) <$> ops !! i) as Hrec.
  { intros sp' il' i. rewrite record_at_read. cbn [data index].
    pose proof (read_indexes ops [] [] i) as H.
    cbn [app] in H. rewrite app_nil_r in H. exact H. }
  repeat split.
  - unfold Len. cbn [index]. rewrite len_indexes. unfold records, len.
    by rewrite length_map.
  - apply Hrec.
  - unfold Dump. cbn [data]. intros Hsize.
    destruct (Load_enc b0 (records ops) Hsize) as [il' E'].
    { unfold records. apply Forall_map. eapply Forall_impl; [exact Hs|].
      intros o _. apply tag_ok_bop. }
    eexists. split; [exact E'|]. split; [done|].
    intros i. by rewrite !Hrec.
Qed.

End Roundtrip.

(** ** Lengths the writer and the reader do not handle *)

Module Limits.
Import binary leveldb Bytes Wire Varint Writer Append Decode.

Lemma uvarint_2_35 : uvarint (2 ^ 35) = [x80; x80; x80; x80; x80; x01].
Proof. by vm_compute. Qed.

(** [Delete] of a key of [2^35] bytes: the last byte of the key is not
    written. *)
Lemma Delete_long key : len key = 2 ^ 35 ->
  exists sp il, Delete newBatch key
    = Ok (mkBatch ((x00 :: uvarint (2 ^ 35)) ++ take (Z.to_nat (len key - 1)) key) sp
            [mkIndex keyTypeDel 7 (len key) 0 0] il).
Proof.
  intros Hk. unfold Delete, appendRec.
  change (keyTypeDel =? keyTypeVal) with false. cbv zeta iota.
  set (n := 1 + MaxVarintLen32 + len key).
  assert (n = 6 + len key) as Hn by (unfold n, MaxVarintLen32; lia).
  destruct (grow_spec newBatch n ltac:(lia)) as (Hd & Hi & Hl & Hsp).
  rewrite Hd, Hi, Hl. set (sp := spare (grow newBatch n)) in *.
  cbn [newBatch data index internalLen app]. change (len (@nil byte)) with 0.
  pose proof (slice_to_app [] sp n ltac:(lia)) as E0.
  cbn [app] in E0. change (len (@nil byte)) with 0 in E0.
  rewrite (bind_Ok _ _ _ E0). clear E0.
  set (pad := take (Z.to_nat n) sp).
  assert (len pad = n) as Hpad by (apply len_take; lia).
  pose proof (assign_end [] pad (byte_of_Z keyTypeDel) ltac:(lia)) as E0.
  cbn [app] in E0. change (len (@nil byte)) with 0 in E0.
  rewrite (bind_Ok _ _ _ E0). clear E0.
  change (byte_of_Z keyTypeDel) with x00.
  assert (len (drop 1 pad) = n - 1) as Hpad1.
  { change 1%nat with (Z.to_nat 1). rewrite len_drop; lia. }
  assert (len (uvarint (len key)) = 6) as Hw by (by rewrite Hk).
  pose proof (PutUvarint_end [x00] (drop 1 pad) (len key) ltac:(lia) ltac:(lia)) as E1.
  change (len [x00]) with 1 in E1. cbn [app] in E1. change (0 + 1) with 1.
  rewrite (bind_Ok _ _ _ E1). cbv beta iota. clear E1. rewrite Hw.
  set (Q := x00 :: uvarint (len key)).
  assert (len Q = 1 + 6) as HQ by (unfold Q; by rewrite len_cons, Hw).
  set (pad2 := drop (Z.to_nat 6) (drop 1 pad)).
  assert (len pad2 = len key - 1) as Hpad2 by (unfold pad2; rewrite len_drop; lia).
  change (x00 :: uvarint (len key) ++ pad2) with (Q ++ pad2).
  rewrite <- HQ.
  rewrite (bind_Ok _ _ _ (slice_from_end Q pad2)).
  rewrite copy_end. rewrite Z.min_l by lia. rewrite Hpad2.
  rewrite (bind_Ok (Ok _) _ _ eq_refl). cbv beta iota.
  set (Q2 := Q ++ take (Z.to_nat (len key - 1)) key).
  assert (len Q + (len key - 1) = len Q2) as HQ2.
  { unfold Q2. rewrite len_app, len_take; lia. }
  rewrite HQ2.
  rewrite (bind_Ok _ _ _ (slice_to_end Q2 _)).
  eexists _, _. rewrite HQ. unfold Q2, Q. rewrite Hk at 1. done.
Qed.

(** [Load] of a delete record that announces one more key byte than
    follows. *)
Lemma Load_long b0 body : len body = 2 ^ 35 - 1 ->
  Load b0 ((x00 :: uvarint (2 ^ 35)) ++ body)
  = Ok (mkBatch ((x00 :: uvarint (2 ^ 35)) ++ body) [] [] 0,
        ErrBatchCorrupted "bad record: invalid key length").
Proof.
  intros Hb. unfold Load, decode, decodeBatch. cbv zeta.
  set (D := (x00 :: uvarint (2 ^ 35)) ++ body).
  assert (len D = 2 ^ 35 + 6) as HD.
  { unfold D. rewrite len_app, len_cons, uvarint_2_35, Hb. vm_compute. done. }
  cbn [decodeBatch_loop].
  destruct (Z.ltb_spec 0 (len D)); [|lia].
  assert (elem D 0 = Ok x00) as E0 by done.
  rewrite (bind_Ok _ _ _ E0). clear E0.
  change (keyTypeVal <? byte_to_Z x00) with false. cbv iota.
  change (wrap_int (0 + 1)) with (len [x00]).
  assert (slice_from D (len [x00]) = Ok (uvarint (2 ^ 35) ++ body)) as E1.
  { apply (slice_from_end [x00]). }
  rewrite (bind_Ok _ _ _ E1). clear E1.
  rewrite Uvarint_uvarint by lia. cbv beta iota.
  rewrite uvarint_2_35. change (len [x00]) with 1.
  change (len [x80; x80; x80; x80; x80; x01]) with 6.
  change (wrap_int (1 + 6)) with 7.
  change (wrap_int (7 + int_of_uint64 (2 ^ 35))) with (2 ^ 35 + 7).
  destruct (Z.ltb_spec (len D) (2 ^ 35 + 7)); [|lia].
  change (6 <=? 0) with false. cbn [orb].
  by rewrite (bind_Ok (Ok _) _ _ eq_refl).
Qed.

End Limits.

Module BatchClaims.
Import binary leveldb Bytes Wire Varint Writer Append Decode Limits.

Lemma len_long_key : len long_key = 2 ^ 35.
Proof. unfold long_key. apply len_replicate. lia. Qed.

(** C3.  [Load] of what [Dump] returns does not give every batch back.
    [appendRec] reserves [MaxVarintLen32] (five) bytes for the varint of a
    length, and the varint of a length of [2^35] or more takes six.  For a
    batch made by one [Delete] of a key of [2^35] bytes the last byte of the
    key is cut off the record; the batch has one record, and [Load] of its
    [Dump] fails with "bad record: invalid key length" and leaves a batch
    with no record. *)
Theorem dump_load_loses_long_key :
  exists b b',
    Delete newBatch long_key = Ok b
    /\ Len b = 1
    /\ Load newBatch (Dump b)
       = Ok (b', ErrBatchCorrupted "bad record: invalid key length")
    /\ Len b' = 0.
Proof.
  destruct (Delete_long long_key len_long_key) as (sp & il & E).
  eexists _, _. split; [exact E|]. split; [done|].
  unfold Dump. cbn [data]. split; [|shelve].
  apply Load_long. rewrite len_take; rewrite len_long_key; lia.
  Unshelve. done.
Qed.

Lemma rewind_turn fuel : forall b i,
  decodeBatch_loop decode_fn fuel rewind_input b i 0 = Diverge.
Proof.
  induction fuel as [|fuel IH]; intros b i; [done|].
  cbn [decodeBatch_loop].
  change (0 <? len rewind_input) with true. cbv iota.
  change (elem rewind_input 0) with (Ok x00).
  rewrite (bind_Ok (Ok _) _ _ eq_refl).
  change (keyTypeVal <? byte_to_Z x00) with false. cbv iota.
  change (wrap_int (0 + 1)) with 1.
  change (slice_from rewind_input 1)
    with (Ok [xf5; xff; xff; xff; xff; xff; xff; xff; xff; x01]).
  rewrite (bind_Ok (Ok _) _ _ eq_refl).
  change (Uvarint [xf5; xff; xff; xff; xff; xff; xff; xff; xff; x01])
    with (2 ^ 64 - 11, 10).
  cbv beta iota.
  change (wrap_int (1 + 10)) with 11.
  change (int_of_uint64 (2 ^ 64 - 11)) with (-11).
  change (wrap_int (11 + -11)) with 0.
  change (len rewind_input <? 0) with false.
  change (10 <=? 0) with false. cbn [orb].
  change (byte_to_Z x00 =? keyTypeVal) with false. cbv iota.
  rewrite (bind_Ok (Ok _) _ _ eq_refl). cbv beta iota.
  rewrite (bind_Ok (decode_fn b i _) _ _ eq_refl). cbv beta iota.
  apply IH.
Qed.

(** C4.  [decodeBatch] does not reject every length that runs past the
    buffer.  The check [o+int(x) > len(data)] converts the length to [int]
    first.  A delete record whose key length reads as [2^63] passes it (the
    sum is negative), the offset becomes negative, and the next turn indexes
    the buffer at a negative offset: a panic.  A delete record whose key
    length reads as [2^64 - 11] passes it as well, and the offset is back at
    the start of the buffer: the loop runs for ever. *)
Theorem decodeBatch_overflowing_length :
  decodeBatch decode_fn overflow_input newBatch = Panic
  /\ Load newBatch overflow_input = Panic
  /\ (forall fuel b i, decodeBatch_loop decode_fn fuel rewind_input b i 0 = Diverge)
  /\ Load newBatch rewind_input = Diverge.
Proof.
  split; [by vm_compute|]. split; [by vm_compute|]. split; [apply rewind_turn|].
  unfold Load, decode, decodeBatch. cbv zeta. by rewrite rewind_turn.
Qed.

End BatchClaims.

Module DecodeReasons.
Import binary leveldb Bytes Wire Varint Writer Append Decode Limits Reasons.

Lemma le_value_bound bs : 0 <= le_value bs < 256 ^ len bs.
Proof.
  induction bs as [|b bs IH]; [done|].
  cbn [le_value]. rewrite len_cons.
  pose proof (byte_to_Z_range b). pose proof (len_nonneg bs).
  rewrite Z.pow_add_r by lia. change (256 ^ 1) with 256. nia.
Qed.

(** [decodeBatch] gives no other reason than its three and those of the
    callback. *)
Lemma loop_reasons {St : Type} (fn : St -> Z -> batchIndex -> res (St * error))
    (Q : string -> Prop) :
  (forall st i ix st' r, fn st i ix = Ok (st', ErrBatchCorrupted r) -> Q r) ->
  forall fuel data0 st i o st' r,
    decodeBatch_loop fn fuel data0 st i o = Ok (st', ErrBatchCorrupted r) ->
    record_reason r \/ Q r.
Proof.
  intros Hfn. induction fuel as [|fuel IH]; intros data0 st i o st' r; [done|].
  cbn [decodeBatch_loop].
  destruct (o <? len data0); [|done].
  destruct (elem data0 o) as [t| |]; [|done|done].
  rewrite (bind_Ok (Ok _) _ _ eq_refl).
  destruct (Z.ltb_spec keyTypeVal (byte_to_Z t)).
  { intros [= <- <-]. left. apply rr_type.
    pose proof (byte_to_Z_range t). lia. }
  destruct (slice_from data0 (wrap_int (o + 1))) as [buf| |]; [|done|done].
  rewrite (bind_Ok (Ok _) _ _ eq_refl).
  destruct (Uvarint buf) as [x n].
  match goal with |- context [if ?c then _ else _] => destruct c end.
  { intros [= <- <-]. left. apply rr_key. }
  assert (forall ix st1 e1, fn st i ix = Ok (st1, e1) ->
            match e1 with
            | nil_error => forall o', decodeBatch_loop fn fuel data0 st1 (wrap_int (i + 1)) o'
                                      = Ok (st', ErrBatchCorrupted r) ->
                                      record_reason r \/ Q r
            | _ => Ok (st1, e1) = Ok (st', ErrBatchCorrupted r) -> record_reason r \/ Q r
            end) as Hcall.
  { intros ix st1 e1 E. destruct e1 as [| | |r1].
    - intros o'. apply IH.
    - done.
    - done.
    - intros [= <- <-]. right. by eapply Hfn. }
  destruct (byte_to_Z t =? keyTypeVal).
  - match goal with |- context [slice_from ?d ?k] =>
      destruct (slice_from d k) as [buf2| |] end; [|done|done].
    rewrite (bind_Ok (Ok _) _ _ eq_refl).
    destruct (Uvarint buf2) as [y m].
    match goal with |- context [if ?c then _ else _] => destruct c end.
    { rewrite (bind_Ok (Ok _) _ _ eq_refl). intros [= <- <-]. left. apply rr_value. }
    rewrite (bind_Ok (Ok _) _ _ eq_refl).
    match goal with |- context [fn st i ?ix] =>
      destruct (fn st i ix) as [[st1 e1]| |] eqn:E; [|done|done];
      specialize (Hcall ix st1 e1 E) end.
    rewrite (bind_Ok (Ok _) _ _ eq_refl).
    destruct e1; [apply Hcall|exact Hcall..].
  - rewrite (bind_Ok (Ok _) _ _ eq_refl).
    match goal with |- context [fn st i ?ix] =>
      destruct (fn st i ix) as [[st1 e1]| |] eqn:E; [|done|done];
      specialize (Hcall ix st1 e1 E) end.
    rewrite (bind_Ok (Ok _) _ _ eq_refl).
    destruct e1; [apply Hcall|exact Hcall..].
Qed.

(** [Batch.decode] gives the three reasons of a record, and the reason of
    a wrong count when a count is expected. *)
Lemma decode_reasons b data0 expectedLen b' r :
  decode b data0 expectedLen = Ok (b', ErrBatchCorrupted r) ->
  record_reason r
  \/ (0 <= expectedLen /\ expectedLen <> Len b'
      /\ r = reason_count expectedLen (Len b')).
Proof.
  unfold decode, decodeBatch. cbv zeta.
  destruct (decodeBatch_loop decode_fn (S (length data0)) data0
              (mkBatch data0 [] [] 0) 0 0) as [[b1 e]| |] eqn:E; [|done|done].
  rewrite (bind_Ok (Ok _) _ _ eq_refl).
  destruct e as [| | |r1].
  - destruct (Z.leb_spec 0 expectedLen); cbn [andb]; [|done].
    destruct (Z.eqb_spec (len (index b1)) expectedLen); cbn [negb]; [done|].
    intros [= <- <-]. right. unfold Len. split; [done|]. split; [congruence|done].
  - done.
  - done.
  - intros [= <- <-].
    assert (forall st i ix st' r0,
              decode_fn st i ix = Ok (st', ErrBatchCorrupted r0) -> False) as Hfn
      by (intros st i ix st' r0 H; discriminate H).
    destruct (loop_reasons decode_fn (fun _ => False) Hfn _ _ _ _ _ _ _ E) as [?|[]].
    by left.
Qed.

Lemma decodeBatchHeader_reasons data0 s k0 r :
  decodeBatchHeader data0 = Ok (s, k0, ErrBatchCorrupted r) ->
  r = "too short" /\ len data0 < batchHeaderLen.
Proof.
  unfold decodeBatchHeader.
  destruct (Z.ltb_spec (len data0) batchHeaderLen); [by intros [= <- <- <-]|].
  destruct (LittleEndian_Uint64 data0) as [sq| |]; [|done|done].
  rewrite (bind_Ok (Ok _) _ _ eq_refl).
  destruct (slice_from data0 8) as [rest| |]; [|done|done].
  rewrite (bind_Ok (Ok _) _ _ eq_refl).
  unfold LittleEndian_Uint32.
  destruct (slice_to rest 4) as [bs| |] eqn:E; [|done|done].
  rewrite (bind_Ok (Ok _) _ _ eq_refl). rewrite (bind_Ok (Ok _) _ _ eq_refl).
  apply slice_inv in E as (_ & _ & Hbs).
  pose proof (le_value_bound bs) as Hb.
  assert (len bs <= 4) as Hl.
  { rewrite Hbs. unfold len. rewrite length_take. lia. }
  assert (256 ^ len bs <= 256 ^ 4) as Hp.
  { apply Z.pow_le_mono_r; [lia|done]. }
  rewrite wrap_int_small by lia.
  destruct (Z.ltb_spec (le_value bs) 0); [lia|done].
Qed.

(** What [Uvarint] returns: a value of 64 bits and a count that does not
    exceed the bytes at hand. *)
Lemma Uvarint_loop_range buf : forall i x s v n,
  0 <= x -> 0 <= i ->
  Uvarint_loop buf i x s = (v, n) -> 0 <= v /\ n <= i + len buf.
Proof.
  induction buf as [|c buf IH]; intros i x s v n Hx Hi; cbn [Uvarint_loop].
  { intros [= <- <-]. change (len (@nil byte)) with 0. lia. }
  rewrite len_cons. pose proof (len_nonneg buf).
  destruct (i =? MaxVarintLen64); [intros [= <- <-]; lia|].
  destruct (byte_to_Z c <? 128).
  - destruct ((i =? MaxVarintLen64 - 1) && (1 <? byte_to_Z c));
      intros [= <- <-]; [lia|]. split; [|lia].
    apply Z.lor_nonneg. split; [done|]. unfold wrap_uint64.
    apply Z.mod_pos_bound. lia.
  - intros E. apply IH in E; [lia| |lia].
    apply Z.lor_nonneg. split; [done|]. unfold wrap_uint64.
    apply Z.mod_pos_bound. lia.
Qed.

Lemma Uvarint_range buf v n : Uvarint buf = (v, n) -> 0 <= v /\ n <= len buf.
Proof. intros E. apply Uvarint_loop_range in E; lia. Qed.

Lemma slice_from_drop {A} (pre rest : list A) k :
  0 <= k <= len rest ->
  slice_from (pre ++ rest) (len pre + k) = Ok (drop (Z.to_nat k) rest).
Proof.
  intros Hk. pose proof (len_nonneg pre).
  rewrite <- (take_drop (Z.to_nat k) rest) at 1. rewrite app_assoc.
  replace (len pre + k) with (len (pre ++ take (Z.to_nat k) rest))
    by (rewrite len_app, len_take; lia).
  apply slice_from_end.
Qed.

Section reject.
Context {St : Type}.
Variable fn : St -> Z -> batchIndex -> res (St * error).

(** A turn of the loop at an op tag that is not one of the two. *)
Lemma reject_tag fuel pre t rest st i :
  keyTypeVal < byte_to_Z t ->
  decodeBatch_loop fn (S fuel) (pre ++ t :: rest) st i (len pre)
  = Ok (st, ErrBatchCorrupted (reason_type (byte_to_Z t))).
Proof.
  intros Ht. cbn [decodeBatch_loop].
  pose proof (len_nonneg pre). pose proof (len_nonneg rest).
  destruct (Z.ltb_spec (len pre) (len (pre ++ t :: rest))) as [_|Hn].
  2:{ rewrite len_app, len_cons in Hn. lia. }
  rewrite elem_mid. rewrite (bind_Ok (Ok _) _ _ eq_refl).
  destruct (Z.ltb_spec keyTypeVal (byte_to_Z t)); [done|lia].
Qed.

(** A turn of the loop at a key length that is not a varint or runs past
    the end of the buffer. *)
Lemma reject_key fuel pre t rest st i x n :
  len (pre ++ t :: rest) < 2 ^ 63 ->
  byte_to_Z t <= keyTypeVal ->
  Uvarint rest = (x, n) ->
  n <= 0 \/ (len pre + 1 + n + x < 2 ^ 63 /\ len rest < n + x) ->
  decodeBatch_loop fn (S fuel) (pre ++ t :: rest) st i (len pre)
  = Ok (st, ErrBatchCorrupted reason_key).
Proof.
  intros Hlen Ht Hu Hbad. cbn [decodeBatch_loop].
  pose proof (len_nonneg pre). pose proof (len_nonneg rest).
  assert (len (pre ++ t :: rest) = len pre + 1 + len rest) as HD
    by (rewrite len_app, len_cons; lia).
  destruct (Z.ltb_spec (len pre) (len (pre ++ t :: rest))); [|lia].
  rewrite elem_mid. rewrite (bind_Ok (Ok _) _ _ eq_refl).
  destruct (Z.ltb_spec keyTypeVal (byte_to_Z t)); [lia|].
  rewrite (wrap_int_small (len pre + 1)) by lia.
  assert (slice_from (pre ++ t :: rest) (len pre + 1) = Ok rest) as E1.
  { replace (len pre + 1) with (len (pre ++ [t])) by (by rewrite len_app).
    rewrite (cons_middle t pre rest), app_assoc. apply slice_from_end. }
  rewrite (bind_Ok _ _ _ E1), Hu. cbv beta iota.
  destruct (Uvarint_range _ _ _ Hu) as [Hx Hn].
  destruct (Z.leb_spec n 0); [done|]. cbn [orb].
  destruct Hbad as [?|[Hfit Hpast]]; [lia|].
  unfold int_of_uint64.
  rewrite (wrap_int_small (len pre + 1 + n)) by lia.
  rewrite (wrap_int_small x) by lia.
  rewrite (wrap_int_small (len pre + 1 + n + x)) by lia.
  destruct (Z.ltb_spec (len (pre ++ t :: rest)) (len pre + 1 + n + x)); [done|lia].
Qed.

(** A turn of the loop at a put whose value length is not a varint or
    runs past the end of the buffer. *)
Lemma reject_value fuel pre t rest st i x n y m :
  len (pre ++ t :: rest) < 2 ^ 63 ->
  byte_to_Z t = keyTypeVal ->
  Uvarint rest = (x, n) -> 0 < n -> n + x <= len rest ->
  Uvarint (drop (Z.to_nat (n + x)) rest) = (y, m) ->
  m <= 0 \/ (len pre + 1 + n + x + m + y < 2 ^ 63 /\ len rest < n + x + m + y) ->
  decodeBatch_loop fn (S fuel) (pre ++ t :: rest) st i (len pre)
  = Ok (st, ErrBatchCorrupted reason_value).
Proof.
  intros Hlen Ht Hu Hn0 Hkey Hu2 Hbad. cbn [decodeBatch_loop].
  pose proof (len_nonneg pre). pose proof (len_nonneg rest).
  assert (len (pre ++ t :: rest) = len pre + 1 + len rest) as HD
    by (rewrite len_app, len_cons; lia).
  destruct (Z.ltb_spec (len pre) (len (pre ++ t :: rest))); [|lia].
  rewrite elem_mid. rewrite (bind_Ok (Ok _) _ _ eq_refl).
  destruct (Z.ltb_spec keyTypeVal (byte_to_Z t)); [lia|].
  rewrite (wrap_int_small (len pre + 1)) by lia.
  assert (slice_from (pre ++ t :: rest) (len pre + 1) = Ok rest) as E1.
  { replace (len pre + 1) with (len (pre ++ [t])) by (by rewrite len_app).
    rewrite (cons_middle t pre rest), app_assoc. apply slice_from_end. }
  rewrite (bind_Ok _ _ _ E1), Hu. cbv beta iota.
  destruct (Uvarint_range _ _ _ Hu) as [Hx Hn].
  destruct (Z.leb_spec n 0); [lia|]. cbn [orb].
  unfold int_of_uint64.
  rewrite (wrap_int_small (len pre + 1 + n)) by lia.
  rewrite (wrap_int_small x) by lia.
  rewrite (wrap_int_small (len pre + 1 + n + x)) by lia.
  destruct (Z.ltb_spec (len (pre ++ t :: rest)) (len pre + 1 + n + x)); [lia|].
  destruct (Z.eqb_spec (byte_to_Z t) keyTypeVal); [|done].
  assert (slice_from (pre ++ t :: rest) (len pre + 1 + n + x)
          = Ok (drop (Z.to_nat (n + x)) rest)) as E2.
  { replace (len pre + 1 + n + x) with (len (pre ++ [t]) + (n + x))
      by (rewrite len_app, len_cons, len_nil; lia).
    rewrite (cons_middle t pre rest), app_assoc. apply slice_from_drop. lia. }
  rewrite (bind_Ok _ _ _ E2), Hu2. cbv beta iota.
  destruct (Uvarint_range _ _ _ Hu2) as [Hy Hm].
  rewrite len_drop in Hm by lia.
  destruct (Z.leb_spec m 0); cbn [orb]; [by rewrite (bind_Ok (Ok _) _ _ eq_refl)|].
  destruct Hbad as [?|[Hfit Hpast]]; [lia|].
  rewrite (wrap_int_small (len pre + 1 + n + x + m)) by lia.
  rewrite (wrap_int_small y) by lia.
  rewrite (wrap_int_small (len pre + 1 + n + x + m + y)) by lia.
  destruct (Z.ltb_spec (len (pre ++ t :: rest)) (len pre + 1 + n + x + m + y)); [|lia].
  by rewrite (bind_Ok (Ok _) _ _ eq_refl).
Qed.

End reject.

(** *** A buffer that is accepted, with bytes after it *)

(** A varint that is read in full is read alike when bytes follow. *)
Lemma Uvarint_loop_app buf extra : forall i x s v n,
  0 <= i -> 0 < n ->
  Uvarint_loop buf i x s = (v, n) -> Uvarint_loop (buf ++ extra) i x s = (v, n).
Proof.
  induction buf as [|c buf IH]; intros i x s v n Hi Hn; cbn [Uvarint_loop app].
  { intros [= <- <-]. lia. }
  destruct (i =? MaxVarintLen64); [intros [= <- <-]; lia|].
  destruct (byte_to_Z c <? 128); [done|].
  apply IH; lia.
Qed.

Lemma Uvarint_app buf extra v n :
  0 < n -> Uvarint buf = (v, n) -> Uvarint (buf ++ extra) = (v, n).
Proof. intros Hn. by apply Uvarint_loop_app. Qed.

Lemma elem_app_l {A} (pre tail : list A) o :
  o < len pre -> elem (pre ++ tail) o = elem pre o.
Proof.
  intros Ho. unfold elem. destruct (Z.ltb_spec o 0); [done|].
  rewrite lookup_app_l; [done|]. unfold len in Ho. lia.
Qed.

Lemma slice_from_whole {A} (s : list A) o :
  0 <= o <= len s -> slice_from s o = Ok (drop (Z.to_nat o) s).
Proof.
  intros Ho. pose proof (slice_from_drop [] s o Ho) as H.
  cbn [app] in H. change (len (@nil A)) with 0 in H. by rewrite Z.add_0_l in H.
Qed.

Lemma slice_from_app_l {A} (pre tail : list A) o :
  0 <= o <= len pre -> slice_from (pre ++ tail) o = Ok (drop (Z.to_nat o) pre ++ tail).
Proof.
  intros Ho. pose proof (len_nonneg tail).
  rewrite slice_from_whole by (rewrite len_app; lia).
  rewrite drop_app_le; [done|]. unfold len in Ho. lia.
Qed.

Lemma slice_from_ok {A} (s : list A) o t :
  slice_from s o = Ok t -> 0 <= o <= len s.
Proof. unfold slice_from. intros H. apply slice_inv in H. lia. Qed.

(** The turns of [Batch.decode] over a buffer [pre] that it accepts are the
    same when the bytes [tail] follow [pre]: the loop arrives at the end of
    [pre] with the same index. *)
Lemma accepted_prefix fuel : forall pre tail D sp (extra : nat) b i o b1,
  len (pre ++ tail) < 2 ^ 63 -> o <= len pre ->
  decodeBatch_loop decode_fn fuel pre b i o = Ok (b1, nil_error) ->
  exists k i',
    decodeBatch_loop decode_fn (fuel + extra) (pre ++ tail)
      (mkBatch D sp (index b) (internalLen b)) i o
    = decodeBatch_loop decode_fn (S k + extra) (pre ++ tail)
        (mkBatch D sp (index b1) (internalLen b1)) i' (len pre).
Proof.
  induction fuel as [|fuel IH]; intros pre tail D sp extra b i o b1 Hlen Ho H; [done|].
  pose proof (len_nonneg pre) as Hp0. pose proof (len_nonneg tail) as Ht0.
  assert (len (pre ++ tail) = len pre + len tail) as Hpt by apply len_app.
  destruct (Z.ltb_spec o (len pre)) as [Hlt|Hge].
  2:{ cbn [decodeBatch_loop] in H. destruct (Z.ltb_spec o (len pre)); [lia|].
      injection H as <-. assert (o = len pre) as -> by lia. by exists fuel, i. }
  change (S fuel + extra)%nat with (S (fuel + extra)).
  cbn [decodeBatch_loop] in H |- *.
  destruct (Z.ltb_spec o (len pre)); [|lia].
  destruct (Z.ltb_spec o (len (pre ++ tail))); [|lia].
  rewrite (elem_app_l pre tail o) by lia.
  destruct (elem pre o) as [t| |] eqn:Et; [|done|done].
  apply elem_inv in Et as [Ho0 _].
  rewrite (bind_Ok (Ok _) _ _ eq_refl) in H. rewrite (bind_Ok (Ok _) _ _ eq_refl).
  destruct (Z.ltb_spec keyTypeVal (byte_to_Z t)); [done|].
  rewrite (wrap_int_small (o + 1)) in H |- * by lia.
  rewrite (slice_from_whole pre (o + 1)) in H by lia.
  rewrite (slice_from_app_l pre tail (o + 1)) by lia.
  rewrite (bind_Ok (Ok _) _ _ eq_refl) in H. rewrite (bind_Ok (Ok _) _ _ eq_refl).
  destruct (Uvarint (drop (Z.to_nat (o + 1)) pre)) as [x n] eqn:Hu.
  destruct (Z.leb_spec n 0) as [|Hn]; [done|]. cbn [orb] in H.
  rewrite (Uvarint_app _ tail _ _ Hn Hu). cbv beta iota.
  destruct (Z.leb_spec n 0); [lia|]. cbn [orb].
  destruct (Uvarint_range _ _ _ Hu) as [Hx Hnl]. rewrite len_drop in Hnl by lia.
  rewrite (wrap_int_small (o + 1 + n)) in H |- * by lia.
  set (kend := wrap_int (o + 1 + n + int_of_uint64 x)) in *.
  destruct (Z.ltb_spec (len pre) kend) as [|Hk]; [done|].
  destruct (Z.ltb_spec (len (pre ++ tail)) kend); [lia|].
  destruct (Z.eqb_spec (byte_to_Z t) keyTypeVal) as [Hval|Hdel].
  - destruct (slice_from pre kend) as [buf2| |] eqn:E2; [|done|done].
    pose proof (slice_from_ok _ _ _ E2) as Hk0.
    rewrite (slice_from_whole pre kend) in E2 by lia. injection E2 as <-.
    rewrite (slice_from_app_l pre tail kend) by lia.
    rewrite (bind_Ok (Ok _) _ _ eq_refl) in H. rewrite (bind_Ok (Ok _) _ _ eq_refl).
    destruct (Uvarint (drop (Z.to_nat kend) pre)) as [y m] eqn:Hu2.
    destruct (Z.leb_spec m 0) as [|Hm]; [done|]. cbn [orb] in H.
    rewrite (Uvarint_app _ tail _ _ Hm Hu2). cbv beta iota.
    destruct (Z.leb_spec m 0); [lia|]. cbn [orb].
    destruct (Uvarint_range _ _ _ Hu2) as [Hy Hml]. rewrite len_drop in Hml by lia.
    rewrite (wrap_int_small (kend + m)) in H |- * by lia.
    set (vend := wrap_int (kend + m + int_of_uint64 y)) in *.
    destruct (Z.ltb_spec (len pre) vend) as [|Hv]; [done|].
    destruct (Z.ltb_spec (len (pre ++ tail)) vend); [lia|].
    rewrite (bind_Ok (Ok _) _ _ eq_refl) in H. rewrite (bind_Ok (Ok _) _ _ eq_refl).
    unfold decode_fn in H |- *.
    rewrite (bind_Ok (Ok _) _ _ eq_refl) in H. rewrite (bind_Ok (Ok _) _ _ eq_refl).
    cbv beta iota in H |- *. cbn [data spare index internalLen] in H |- *.
    destruct (IH pre tail D sp extra _ _ _ _ Hlen Hv H) as (k & i' & E).
    exists k, i'. exact E.
  - rewrite (bind_Ok (Ok _) _ _ eq_refl) in H. rewrite (bind_Ok (Ok _) _ _ eq_refl).
    unfold decode_fn in H |- *.
    rewrite (bind_Ok (Ok _) _ _ eq_refl) in H. rewrite (bind_Ok (Ok _) _ _ eq_refl).
    cbv beta iota in H |- *. cbn [data spare index internalLen] in H |- *.
    destruct (IH pre tail D sp extra _ _ _ _ Hlen Hk H) as (k & i' & E).
    exists k, i'. exact E.
Qed.

(** [decode] of a buffer that [Load] accepts, followed by bytes the next
    turn rejects. *)
Lemma decode_after_accepted pre tail b0 b1 e r :
  len (pre ++ tail) < 2 ^ 63 ->
  Load b0 pre = Ok (b1, nil_error) ->
  (forall fuel b i,
     decodeBatch_loop decode_fn (S fuel) (pre ++ tail) b i (len pre)
     = Ok (b, ErrBatchCorrupted r)) ->
  decode b0 (pre ++ tail) e
  = Ok (mkBatch (pre ++ tail) [] (index b1) (internalLen b1), ErrBatchCorrupted r).
Proof.
  intros Hlen HL Hturn. unfold Load, decode, decodeBatch in *. cbv zeta in *.
  destruct (decodeBatch_loop decode_fn (S (length pre)) pre (mkBatch pre [] [] 0) 0 0)
    as [[b2 e2]| |] eqn:E; [|done|done].
  rewrite (bind_Ok (Ok _) _ _ eq_refl) in HL.
  destruct e2; [|done..]. cbn [Z.leb andb] in HL. injection HL as ->.
  assert (S (length (pre ++ tail)) = (S (length pre) + length tail)%nat) as ->
    by (rewrite length_app; lia).
  destruct (accepted_prefix _ pre tail (pre ++ tail) [] (length tail) _ 0 0 b1 Hlen
              (len_nonneg pre) E) as (k & i' & E').
  cbn [index internalLen] in E'. rewrite E'.
  change (S k + length tail)%nat with (S (k + length tail)).
  rewrite Hturn. by rewrite (bind_Ok (Ok _) _ _ eq_refl).
Qed.

(** The three reasons of [decodeBatch] differ. *)
Lemma reasons_distinct tag :
  reason_type tag <> reason_key /\ reason_type tag <> reason_value
  /\ reason_key <> reason_value.
Proof. by repeat split. Qed.

End DecodeReasons.

(** ** The internal key comparer *)

Module InternalKey.
Import binary leveldb Bytes Wire Mem Varint.

Lemma length_le_bytes k : forall v, length (le_bytes k v) = k.
Proof. induction k as [|k IH]; intros v; [done|]. cbn [le_bytes length]. by rewrite IH. Qed.

Lemma le_value_le_bytes k : forall v, 0 <= v ->
  le_value (le_bytes k v) = v mod 256 ^ Z.of_nat k.
Proof.
  induction k as [|k IH]; intros v Hv.
  - cbn [le_bytes le_value]. change (256 ^ Z.of_nat 0) with 1. by rewrite Z.mod_1_r.
  - cbn [le_bytes le_value]. rewrite byte_to_of_Z, IH.
    2:{ rewrite Z.shiftr_div_pow2 by lia. apply Z.div_pos; lia. }
    rewrite Z.shiftr_div_pow2 by lia. change (2 ^ 8) with 256.
    replace (256 ^ Z.of_nat (S k)) with (256 * 256 ^ Z.of_nat k)
      by (rewrite Nat2Z.inj_succ, Z.pow_succ_r; lia).
    assert (0 < 256 ^ Z.of_nat k) by (apply Z.pow_pos_nonneg; lia).
    rewrite Z.rem_mul_r by lia. lia.
Qed.

Lemma le_value_inj a : forall b,
  length a = length b -> le_value a = le_value b -> a = b.
Proof.
  induction a as [|x a IH]; intros [|y b] Hl Hv; try done.
  cbn [le_value length] in *.
  pose proof (byte_to_Z_range x). pose proof (byte_to_Z_range y).
  assert (byte_to_Z x = byte_to_Z y /\ le_value a = le_value b) as [Hx Ha] by lia.
  f_equal; [by apply byte_to_Z_inj|]. apply IH; [lia|done].
Qed.

(** The parts of an internal key. *)
Lemma ukey_app key t : length t = 8%nat -> ukey (key ++ t) = key.
Proof.
  intros Ht. unfold ukey. rewrite length_app, Ht.
  replace (length key + 8 - 8)%nat with (length key) by lia.
  by rewrite take_app_length.
Qed.

Lemma num_app key t : length t = 8%nat -> num (key ++ t) = le_value t.
Proof.
  intros Ht. unfold num. rewrite length_app, Ht.
  replace (length key + 8 - 8)%nat with (length key) by lia.
  by rewrite drop_app_length.
Qed.

Lemma internal_key_split ik : internal_key ik ->
  ik = ukey ik ++ drop (length ik - 8) ik /\ length (drop (length ik - 8) ik) = 8%nat.
Proof.
  unfold internal_key, len, ukey. intros H. split.
  - by rewrite take_drop.
  - rewrite length_drop. lia.
Qed.

Lemma internal_key_ikey key seq kt : internal_key (ikey key seq kt).
Proof.
  unfold internal_key, ikey. rewrite len_app. unfold len at 2.
  rewrite length_le_bytes. pose proof (len_nonneg key). lia.
Qed.

Lemma trailer_value seq kt :
  0 <= seq <= keyMaxSeq -> 0 <= kt <= keyTypeVal ->
  le_value (le_bytes 8 (Z.lor (Z.shiftl seq 8) kt)) = seq * 256 + kt.
Proof.
  intros Hs Hk. unfold keyMaxSeq, keyTypeVal in *.
  rewrite Z.lor_comm, lor_shifted by lia. change (2 ^ 8) with 256.
  rewrite le_value_le_bytes by lia. rewrite Z.mod_small; [lia|].
  change (256 ^ Z.of_nat 8) with (2 ^ 64). lia.
Qed.

Lemma num_ikey key seq kt :
  0 <= seq <= keyMaxSeq -> 0 <= kt <= keyTypeVal ->
  num (ikey key seq kt) = seq * 256 + kt.
Proof.
  intros Hs Hk. unfold ikey. rewrite num_app by apply length_le_bytes.
  by apply trailer_value.
Qed.

Lemma ukey_ikey key seq kt : ukey (ikey key seq kt) = key.
Proof. unfold ikey. apply ukey_app, length_le_bytes. Qed.

Lemma makeInternalKey_ok key seq kt :
  0 <= seq <= keyMaxSeq -> 0 <= kt <= keyTypeVal ->
  makeInternalKey key seq kt = Ok (ikey key seq kt).
Proof.
  intros Hs Hk. unfold makeInternalKey.
  destruct (Z.ltb_spec keyMaxSeq seq); [lia|].
  destruct (Z.ltb_spec keyTypeVal kt); [lia|]. done.
Qed.

Section icmp.
Variable ucmp : bytes -> bytes -> Z.
Hypothesis HU : BasicComparer any_key ucmp.

Lemma ucmp_zero a b : ucmp a b = 0 <-> a = b.
Proof. by apply (cmp_eq _ _ HU). Qed.

Lemma ucmp_flip a b : ucmp a b < 0 <-> 0 < ucmp b a.
Proof. by apply (cmp_flip _ _ HU). Qed.

Lemma icmp_lt a b :
  icmp ucmp a b < 0
  <-> ucmp (ukey a) (ukey b) < 0 \/ (ukey a = ukey b /\ num b < num a).
Proof.
  unfold icmp. destruct (Z.eqb_spec (ucmp (ukey a) (ukey b)) 0) as [E|E].
  - pose proof (proj1 (ucmp_zero _ _) E) as Hu.
    destruct (Z.ltb_spec (num b) (num a)); [split; [by right|lia]|].
    destruct (Z.ltb_spec (num a) (num b)); split; try lia; intros [?|[? ?]]; lia.
  - split; [by left|]. intros [?|[Hu ?]]; [done|].
    apply ucmp_zero in Hu. done.
Qed.

Lemma icmp_gt a b :
  0 < icmp ucmp a b
  <-> 0 < ucmp (ukey a) (ukey b) \/ (ukey a = ukey b /\ num a < num b).
Proof.
  unfold icmp. destruct (Z.eqb_spec (ucmp (ukey a) (ukey b)) 0) as [E|E].
  - pose proof (proj1 (ucmp_zero _ _) E) as Hu.
    destruct (Z.ltb_spec (num b) (num a)); [split; [lia|intros [?|[? ?]]; lia]|].
    destruct (Z.ltb_spec (num a) (num b)); split; try lia; try (by right);
      intros [?|[? ?]]; lia.
  - split; [by left|]. intros [?|[Hu ?]]; [done|].
    apply ucmp_zero in Hu. done.
Qed.

Lemma icmp_zero a b :
  icmp ucmp a b = 0 <-> ukey a = ukey b /\ num a = num b.
Proof.
  unfold icmp. destruct (Z.eqb_spec (ucmp (ukey a) (ukey b)) 0) as [E|E].
  - pose proof (proj1 (ucmp_zero _ _) E) as Hu.
    destruct (Z.ltb_spec (num b) (num a)); [split; [lia|intros [? ?]; lia]|].
    destruct (Z.ltb_spec (num a) (num b)); [split; [lia|intros [? ?]; lia]|].
    split; [intros _; split; [done|lia]|done].
  - split; [done|]. intros [Hu _]. apply ucmp_zero in Hu. done.
Qed.

(** The internal key comparer keeps the promises of a comparer on internal
    keys when its ordering policy keeps them. *)
Lemma icmp_lawful : BasicComparer internal_key (icmp ucmp).
Proof.
  split.
  - intros a b Ha Hb. rewrite icmp_zero. split; [|by intros ->].
    intros [Hu Hn].
    destruct (internal_key_split a Ha) as [Ea La].
    destruct (internal_key_split b Hb) as [Eb Lb].
    rewrite Ea, Eb, Hu. f_equal. apply le_value_inj; [congruence|done].
  - intros a b _ _. rewrite icmp_lt, icmp_gt, ucmp_flip. split.
    + intros [?|[? ?]]; [by left|right; done].
    + intros [?|[? ?]]; [by left|right; done].
  - intros a b c _ _ _. rewrite !icmp_lt.
    intros [Hab|[Eab Hab]] [Hbc|[Ebc Hbc]].
    + left. by apply (cmp_trans _ _ HU _ (ukey b)).
    + left. by rewrite <- Ebc.
    + left. by rewrite Eab.
    + right. split; [congruence|lia].
Qed.

End icmp.
End InternalKey.

(** ** Applying a batch to the store *)

Module MemProof.
Import memdb binary leveldb Rep Bytes Wire Mem RefTheory Store InternalKey.

Section mem.
Variable ucmp : bytes -> bytes -> Z.
Hypothesis HU : BasicComparer any_key ucmp.
Variable rand_Int : nat -> Z.
Variable growslice : Z -> Z -> Z.

Local Abbreviation cmp := (icmp ucmp).
Local Abbreviation HC := (icmp_lawful ucmp HU).

(** Internal keys with different sequence numbers differ. *)
Lemma ikey_seq_differ key seq kt key' seq' kt' :
  0 <= seq <= keyMaxSeq -> 0 <= kt <= keyTypeVal ->
  0 <= seq' <= keyMaxSeq -> 0 <= kt' <= keyTypeVal ->
  seq <> seq' -> cmp (ikey key seq kt) (ikey key' seq' kt') <> 0.
Proof.
  intros Hs Hk Hs' Hk' Hne E. apply (icmp_zero ucmp HU) in E as [_ E].
  rewrite !num_ikey in E by done. unfold keyTypeVal in *. lia.
Qed.

(** The shape of the entries of [mem_kvs]. *)
Lemma mem_kvs_elem rs : forall seq e,
  Forall tag_ok rs -> e ∈ mem_kvs seq rs ->
  exists key s kt, fst e = ikey key s kt
    /\ seq <= s < seq + len rs /\ 0 <= kt <= keyTypeVal.
Proof.
  induction rs as [|[[kt key] value] rs IH]; intros seq e Htag He.
  { by apply elem_of_nil in He. }
  apply Forall_cons in Htag as [Hr Htag]. cbn [mem_kvs] in He.
  rewrite len_cons. pose proof (len_nonneg rs).
  apply elem_of_cons in He as [->|He].
  - exists key, seq, kt. split; [done|]. split; [lia|].
    unfold tag_ok, keyTypeDel, keyTypeVal in *. lia.
  - destruct (IH _ _ Htag He) as (key' & s & kt' & E & Hs & Hk).
    exists key', s, kt'. split; [done|]. split; [lia|done].
Qed.

Lemma len_mem_kvs rs : forall seq, len (mem_kvs seq rs) = len rs.
Proof.
  induction rs as [|[[kt key] value] rs IH]; intros seq; [done|].
  cbn [mem_kvs]. by rewrite !len_cons, IH.
Qed.

Lemma mem_kvs_dom rs seq :
  Forall (fun e => internal_key (fst e)) (mem_kvs seq rs).
Proof.
  revert seq. induction rs as [|[[kt key] value] rs IH]; intros seq; [constructor|].
  cbn [mem_kvs]. constructor; [apply internal_key_ikey|apply IH].
Qed.

(** [putMem] is one [Put] per record, under the internal key of the
    record. *)
Lemma putMem_loop_spec data0 seq : forall ixs rs i p m,
  Forall2 (fun ix r => read data0 ix = Ok r) ixs rs ->
  Forall tag_ok rs ->
  0 <= seq + i -> seq + i + len rs <= keyMaxSeq + 1 ->
  Repr internal_key cmp p m ->
  exists p',
    putMem_loop cmp rand_Int growslice data0 seq i ixs p = Ok (p', nil_error)
    /\ run cmp rand_Int growslice p (mem_puts (seq + i) rs) = Ok p'
    /\ Repr internal_key cmp p' (replay cmp m (mem_puts (seq + i) rs)).
Proof.
  induction ixs as [|ix ixs IH]; intros rs i p m Hread Htag Hlo Hhi HR.
  - apply Forall2_nil_inv_l in Hread as ->. by exists p.
  - apply Forall2_cons_inv_l in Hread as ([[kt key] value] & rs' & Hr & Hread & ->).
    apply Forall_cons in Htag as [Ht Htag]. rewrite len_cons in Hhi.
    pose proof (len_nonneg rs').
    unfold read in Hr.
    apply bind_inv in Hr as (key0 & Hk & Hr).
    apply bind_inv in Hr as (value0 & Hv & Hr).
    injection Hr as Hkt -> ->.
    cbn [putMem_loop]. rewrite (bind_Ok _ _ _ Hk), Hkt.
    unfold wrap_uint64. rewrite Z.mod_small by (unfold keyMaxSeq in *; lia).
    rewrite (bind_Ok _ _ _ (makeInternalKey_ok key (seq + i) kt ltac:(lia)
               ltac:(unfold tag_ok, keyTypeDel, keyTypeVal in *; lia))).
    rewrite (bind_Ok _ _ _ Hv).
    destruct (Put_Repr internal_key cmp HC rand_Int growslice p m
                (ikey key (seq + i) kt) value HR (internal_key_ikey _ _ _))
      as (p1 & HP & HR1).
    rewrite (bind_Ok _ _ _ HP). cbv beta iota.
    destruct (IH rs' (i + 1) p1 _ Hread Htag ltac:(lia) ltac:(lia) HR1)
      as (p' & HL & Hrun & HR').
    exists p'. split; [done|].
    unfold mem_puts in *. cbn [mem_kvs put_ops map run apply_op fst snd replay fold_left replay_op].
    rewrite (bind_Ok _ _ _ HP). cbv beta iota.
    replace (seq + i + 1) with (seq + (i + 1)) by lia. done.
Qed.

(** What the puts of fresh, pairwise distinct keys leave in the map. *)
Lemma replay_mem_puts rs : forall seq p m,
  Forall tag_ok rs -> 0 <= seq -> seq + len rs <= keyMaxSeq + 1 ->
  Repr internal_key cmp p m ->
  (forall e, e ∈ mem_kvs seq rs -> RefMap.get cmp (fst e) m = None) ->
  exists p',
    run cmp rand_Int growslice p (mem_puts seq rs) = Ok p'
    /\ Repr internal_key cmp p' (replay cmp m (mem_puts seq rs))
    /\ len (replay cmp m (mem_puts seq rs)) = len m + len rs
    /\ (forall e, e ∈ mem_kvs seq rs ->
          RefMap.get cmp (fst e) (replay cmp m (mem_puts seq rs)) = Some (snd e))
    /\ (forall key s kt, s < seq -> 0 <= s -> 0 <= kt <= keyTypeVal ->
          RefMap.get cmp (ikey key s kt) (replay cmp m (mem_puts seq rs))
          = RefMap.get cmp (ikey key s kt) m).
Proof.
  induction rs as [|[[kt key] value] rs IH]; intros seq p m Htag Hlo Hhi HR Hfresh.
  - exists p. cbn. split; [done|]. split; [done|].
    split; [change (len (@nil record)) with 0; lia|].
    split; [|done]. intros e He. by apply elem_of_nil in He.
  - apply Forall_cons in Htag as [Ht Htag]. rewrite len_cons in *.
    pose proof (len_nonneg rs).
    assert (0 <= kt <= keyTypeVal) as Hkt
      by (unfold tag_ok, keyTypeDel, keyTypeVal in *; lia).
    pose proof (Repr_wf _ _ _ _ HR) as Hwf.
    destruct (Put_Repr internal_key cmp HC rand_Int growslice p m
                (ikey key seq kt) value HR (internal_key_ikey _ _ _))
      as (p1 & HP & HR1).
    assert (forall key' s' kt', s' <> seq -> 0 <= s' <= keyMaxSeq ->
              0 <= kt' <= keyTypeVal ->
              RefMap.get cmp (ikey key' s' kt') (RefMap.put cmp (ikey key seq kt) value m)
              = RefMap.get cmp (ikey key' s' kt') m) as Hother.
    { intros key' s' kt' Hne Hs' Hk'.
      rewrite (get_put internal_key cmp HC);
        [|apply Hwf|apply internal_key_ikey|apply internal_key_ikey].
      destruct (Z.eqb_spec (cmp (ikey key seq kt) (ikey key' s' kt')) 0) as [E|E]; [|done].
      exfalso. revert E. apply ikey_seq_differ; lia. }
    destruct (IH (seq + 1) p1 _ Htag ltac:(lia) ltac:(lia) HR1)
      as (p' & Hrun & HR' & Hlen & Hget & Hold).
    { intros e He.
      destruct (mem_kvs_elem rs (seq + 1) e Htag He) as (key' & s' & kt' & E & Hs' & Hk').
      rewrite E, Hother by lia. rewrite <- E. apply Hfresh.
      cbn [mem_kvs]. by apply list_elem_of_further. }
    exists p'. unfold mem_puts in *.
    cbn [mem_kvs put_ops map run apply_op fst snd replay fold_left replay_op].
    rewrite (bind_Ok _ _ _ HP). cbv beta iota.
    split; [done|]. split; [done|]. split; [|split].
    + unfold replay, put_ops in Hlen. rewrite Hlen.
      rewrite (len_put internal_key cmp HC); [|done|apply internal_key_ikey].
      pose proof (Hfresh (ikey key seq kt, value)) as Hf. cbn [fst] in Hf.
      rewrite Hf; [lia|]. cbn [mem_kvs]. apply list_elem_of_here.
    + intros e He. apply elem_of_cons in He as [->|He]; [|by apply Hget].
      cbn [fst snd]. unfold replay, put_ops in Hold.
      rewrite Hold by lia.
      rewrite (get_put internal_key cmp HC);
        [|apply Hwf|apply internal_key_ikey|apply internal_key_ikey].
      rewrite (cmp_self internal_key cmp HC) by apply internal_key_ikey. done.
    + intros key' s' kt' Hs' Hs0 Hk'. unfold replay, put_ops in Hold.
      rewrite Hold by lia. apply Hother; lia.
Qed.


End mem.
End MemProof.

Module MemClaims.
Import memdb binary leveldb Rep Bytes Wire Mem RefTheory Store Fresh
  Reach InternalKey Roundtrip MemProof.

Lemma empty_map (m : RefMap.t) : len m = 0 -> m = [].
Proof. destruct m; [done|]. rewrite len_cons. pose proof (len_nonneg m). lia. Qed.


(** The records of a batch that [Put] and [Delete] built. *)
Lemma build_holds ops b :
  Forall short_op ops -> build newBatch ops = Ok b -> holds b (records ops).
Proof.
  intros Hs Hb. destruct (Load_Dump_short newBatch ops Hs) as (b' & Hb' & HL & Hrec & _).
  rewrite Hb in Hb'. injection Hb' as <-.
  unfold holds. apply Forall2_same_length_lookup_2.
  - unfold Len, len in HL. unfold records. rewrite length_map. lia.
  - intros i ix r Hix Hr. specialize (Hrec i).
    rewrite record_at_read, Hix in Hrec. unfold records in Hr.
    rewrite list_lookup_fmap in Hr.
    destruct (ops !! i) as [o|]; [|done]. cbn in Hr, Hrec. congruence.
Qed.

Lemma three_batch_built : build newBatch three_ops = Ok three_batch.
Proof. by vm_compute. Qed.

Lemma three_ops_short : Forall short_op three_ops.
Proof. repeat constructor; by vm_compute. Qed.





(** The scenario of the specification, run: three records applied to an
    empty store from sequence number 100 go in under the sequence numbers
    100, 101 and 102, the delete with no value; reverting the batch leaves
    the store empty. *)
Example putMem_scenario :
  exists p1 p2,
    putMem (icmp bytes_Compare) rand0 grow2 three_batch 100 (empty_store 0)
    = Ok (p1, nil_error)
    /\ iterate_forward (icmp bytes_Compare) p1
       = Ok [(ikey (b_ "a") 100 keyTypeVal, b_ "1");
             (ikey (b_ "b") 101 keyTypeDel, []);
             (ikey (b_ "c") 102 keyTypeVal, b_ "3")]
    /\ memdb.Len p1 = 3
    /\ revertMem (icmp bytes_Compare) three_batch 100 p1 = Ok (p2, nil_error)
    /\ memdb.Len p2 = 0
    /\ iterate_forward (icmp bytes_Compare) p2 = Ok [].
Proof.
  eexists _, _. split; [vm_compute; reflexivity|].
  split; [vm_compute; reflexivity|]. split; [vm_compute; reflexivity|].
  split; [vm_compute; reflexivity|]. split; vm_compute; reflexivity.
Qed.




End MemClaims.

(** ** More on [Put], [Delete], [Reset] and the lookups *)

Module StoreMore.
Import memdb Rep RepFacts Chain Search FindGE Loops Frame Insert Overwrite RefFacts
  PutSpec PutProof DeleteProof Ops Fresh RefTheory Store HeightInv Reach.

Section more.
Variable dom : bytes -> Prop.
Variable cmp : bytes -> bytes -> Z.
Hypothesis HC : BasicComparer dom cmp.
Variable rand_Int : nat -> Z.
Variable growslice : Z -> Z -> Z.

Implicit Types (p : DB_) (m : RefMap.t) (key value : bytes).

(** Overwriting an entry changes the payload by the difference of the
    value lengths. *)
Lemma payload_put_old m key value old :
  wf dom cmp m -> dom key -> RefMap.get cmp key m = Some old ->
  RefMap.payload (RefMap.put cmp key value m)
  = RefMap.payload m + (len value - len old).
Proof.
  induction m as [|[k' v'] m IH]; intros Hwf Hk Hg; [done|].
  apply (wf_cons_inv dom cmp) in Hwf as (Hk' & Hwf & Hlt).
  cbn [RefMap.get RefMap.put] in *.
  destruct (Z.ltb_spec (cmp k' key) 0) as [Hlt'|Hge].
  - destruct (Z.eqb_spec (cmp k' key) 0); [lia|].
    unfold RefMap.payload in *. cbn [fold_right fst snd].
    rewrite IH by done. lia.
  - destruct (Z.eqb_spec (cmp k' key) 0) as [E|E].
    + injection Hg as ->. apply (cmp_eq _ _ HC) in E; [|done|done]. subst k'.
      unfold RefMap.payload. cbn [fold_right fst snd]. lia.
    + rewrite (not_lt_absent dom cmp HC m key k') in Hg; try done.
      * apply Hwf.
      * lia.
Qed.

(** [Put] appends the key and the value to the buffer, whether the key is
    new or not. *)
Lemma Put_kvData p l key value p' e :
  Inv dom cmp p l -> dom key ->
  Put cmp rand_Int growslice p key value = Ok (p', e) ->
  kvData p' = (kvData p ++ key) ++ value.
Proof.
  intros HI Hk.
  destruct (findGE_spec dom cmp HC true p l key HI Hk)
    as (l1 & l2 & pn & -> & H1 & H2 & Hf & _).
  unfold Put. rewrite (bind_Ok _ _ _ Hf). cbv beta iota.
  destruct (exact_hd cmp p key l2).
  - intros (nd & _ & H)%bind_inv. apply bind_inv in H as (m0 & _ & H).
    apply bind_inv in H as (nd' & _ & H). by injection H as <- _.
  - intros ([p1 h] & Hr & H)%bind_inv.
    unfold randHeight in Hr. apply bind_inv in Hr as ([r h'] & _ & Hr).
    injection Hr as <- <-.
    apply bind_inv in H as (p2 & Hp2 & H).
    assert (kvData p2 = kvData p) as Hkv.
    { cbn [maxHeight set_rnd set_prevNode] in Hp2.
      destruct (maxHeight p <? h').
      - apply bind_inv in Hp2 as (pn' & _ & Hp2). by injection Hp2 as <-.
      - by injection Hp2 as <-. }
    apply bind_inv in H as (prevs & _ & H). apply bind_inv in H as (nd & _ & H).
    injection H as <- _. cbn [kvData set_n set_kvSize set_nodeData append_kv].
    by rewrite Hkv.
Qed.

(** [Delete] leaves the buffer as it is. *)
Lemma Delete_kvData p l key p' e :
  Inv dom cmp p l -> dom key ->
  Delete cmp p key = Ok (p', e) -> kvData p' = kvData p.
Proof.
  intros HI Hk.
  destruct (findGE_spec dom cmp HC true p l key HI Hk)
    as (l1 & l2 & pn & -> & H1 & H2 & Hf & _).
  unfold Delete. rewrite (bind_Ok _ _ _ Hf). cbv beta iota.
  destruct (negb (exact_hd cmp p key l2)); [by intros [= <- _]|].
  intros (h & _ & H)%bind_inv. apply bind_inv in H as (prevs & _ & H).
  apply bind_inv in H as (nd & _ & H). apply bind_inv in H as (kl & _ & H).
  apply bind_inv in H as (vl & _ & H). by injection H as <- _.
Qed.

End more.
End StoreMore.

Module MemdbExtras.
Import memdb Rep RepFacts Chain Search Loops RefFacts Fresh RefTheory Store HeightInv Reach
  Backward Bytes StoreMore MemdbClaims.

(** X1.  On a store reached from a fresh one, [Put(key, value)] returns nil
    and the value is then what [Get(key)] returns, [Contains(key)] is true,
    and [Get] of every key that does not compare equal to [key] returns
    what it returned before the [Put]. *)
Theorem put_then_get
    (cmp : bytes -> bytes -> Z) (rand_Int : nat -> Z) (growslice : Z -> Z -> Z)
    (p : DB_) (key value : bytes) :
  BasicComparer any_key cmp ->
  reachable any_key cmp rand_Int growslice p ->
  exists p',
    Put cmp rand_Int growslice p key value = Ok (p', nil_error)
    /\ Get cmp p' key = Ok (p', value, nil_error)
    /\ Contains cmp p' key = Ok (p', true)
    /\ (forall key', cmp key key' <> 0 ->
          exists v e, Get cmp p key' = Ok (p, v, e) /\ Get cmp p' key' = Ok (p', v, e)).
Proof.
  intros HC Hreach.
  destruct (reachable_Repr any_key cmp HC rand_Int growslice p Hreach) as [m HR].
  pose proof (Repr_wf any_key cmp p m HR) as [_ Hdom].
  destruct (Put_Repr any_key cmp HC rand_Int growslice p m key value HR I) as (p' & HP & HR').
  exists p'. split; [done|].
  assert (RefMap.get cmp key (RefMap.put cmp key value m) = Some value) as Hg.
  { rewrite (get_put any_key cmp HC) by done.
    by rewrite (cmp_self any_key cmp HC key I). }
  split; [|split].
  - destruct (Get_Repr any_key cmp HC p' _ key HR' I) as (v & e & HG & Hv).
    rewrite Hg in Hv. by destruct Hv as [-> ->].
  - rewrite (Contains_Repr any_key cmp HC p' _ key HR' I). by rewrite Hg.
  - intros key' Hne.
    destruct (Get_Repr any_key cmp HC p m key' HR I) as (v & e & HG & Hv).
    destruct (Get_Repr any_key cmp HC p' _ key' HR' I) as (v' & e' & HG' & Hv').
    rewrite (get_put any_key cmp HC) in Hv' by done.
    destruct (Z.eqb_spec (cmp key key') 0); [done|].
    exists v, e. split; [done|]. rewrite HG'.
    destruct (RefMap.get cmp key' m); destruct Hv as [-> ->], Hv' as [-> ->]; done.
Qed.

Lemma put_then_get_witness :
  BasicComparer any_key bytes_Compare
  /\ reachable any_key bytes_Compare rand0 grow2 two_entry_store
  /\ exists p',
    Put bytes_Compare rand0 grow2 two_entry_store (b_ "b") (b_ "20") = Ok (p', nil_error)
    /\ Get bytes_Compare p' (b_ "b") = Ok (p', b_ "20", nil_error)
    /\ Contains bytes_Compare p' (b_ "b") = Ok (p', true)
    /\ (forall key', bytes_Compare (b_ "b") key' <> 0 ->
          exists v e, Get bytes_Compare two_entry_store key' = Ok (two_entry_store, v, e)
                      /\ Get bytes_Compare p' key' = Ok (p', v, e)).
Proof.
  split; [exact bytes_Compare_lawful|].
  split; [exact two_entry_store_reachable|].
  exact (put_then_get bytes_Compare rand0 grow2 two_entry_store (b_ "b") (b_ "20")
           bytes_Compare_lawful two_entry_store_reachable).
Defined.

(** X2.  What a [Put] does to the counters of a store reached from a fresh
    one.  For a key that [Get] does not find, [Len()] grows by one and
    [Size()] by the length of the key plus that of the value; for a key that
    is there, [Len()] stays and [Size()] changes by the difference between
    the new and the old value length.  In both cases the key and the value
    are appended to the buffer: the bytes in use, [Capacity() - Free()], grow
    by the two lengths, the room of an overwritten value is not taken
    back. *)
Theorem put_accounting
    (cmp : bytes -> bytes -> Z) (rand_Int : nat -> Z) (growslice : Z -> Z -> Z)
    (p : DB_) (key value : bytes) :
  BasicComparer any_key cmp ->
  reachable any_key cmp rand_Int growslice p ->
  exists p' old e,
    Get cmp p key = Ok (p, old, e)
    /\ Put cmp rand_Int growslice p key value = Ok (p', nil_error)
    /\ (e = ErrNotFound ->
          Len p' = Len p + 1 /\ Size p' = Size p + (len key + len value))
    /\ (e = nil_error ->
          Len p' = Len p /\ Size p' = Size p + (len value - len old))
    /\ (e = ErrNotFound \/ e = nil_error)
    /\ Capacity p' - Free p' = Capacity p - Free p + (len key + len value).
Proof.
  intros HC Hreach.
  destruct (reachable_Repr any_key cmp HC rand_Int growslice p Hreach) as [m HR].
  pose proof (Repr_wf any_key cmp p m HR) as Hwf.
  destruct (Put_Repr any_key cmp HC rand_Int growslice p m key value HR I) as (p' & HP & HR').
  destruct (Get_Repr any_key cmp HC p m key HR I) as (old & e & HG & Hv).
  exists p', old, e. split; [done|]. split; [done|].
  rewrite (Repr_Len any_key cmp p' _ HR'), (Repr_Len any_key cmp p m HR).
  rewrite (Repr_Size any_key cmp p' _ HR'), (Repr_Size any_key cmp p m HR).
  rewrite (len_put any_key cmp HC) by done.
  split; [|split; [|split]].
  - intros ->. destruct (RefMap.get cmp key m) eqn:Hg; [by destruct Hv|].
    split; [done|]. by apply (payload_put_new any_key cmp).
  - intros ->. destruct (RefMap.get cmp key m) as [v'|] eqn:Hg; [|by destruct Hv].
    destruct Hv as [-> _]. split; [lia|].
    by apply (payload_put_old any_key cmp HC).
  - destruct (RefMap.get cmp key m); destruct Hv as [_ ->]; auto.
  - destruct HR as (l & HI & _).
    pose proof (Put_kvData any_key cmp HC rand_Int growslice p l key value p' _ HI I HP) as Hkv.
    unfold Capacity, Free. rewrite Hkv, !len_app. lia.
Qed.

Lemma put_accounting_witness :
  BasicComparer any_key bytes_Compare
  /\ reachable any_key bytes_Compare rand0 grow2 two_entry_store
  /\ exists p' old e,
    Get bytes_Compare two_entry_store (b_ "a") = Ok (two_entry_store, old, e)
    /\ Put bytes_Compare rand0 grow2 two_entry_store (b_ "a") (b_ "123") = Ok (p', nil_error)
    /\ (e = ErrNotFound ->
          Len p' = Len two_entry_store + 1
          /\ Size p' = Size two_entry_store + (len (b_ "a") + len (b_ "123")))
    /\ (e = nil_error ->
          Len p' = Len two_entry_store
          /\ Size p' = Size two_entry_store + (len (b_ "123") - len old))
    /\ (e = ErrNotFound \/ e = nil_error)
    /\ Capacity p' - Free p'
       = Capacity two_entry_store - Free two_entry_store + (len (b_ "a") + len (b_ "123")).
Proof.
  split; [exact bytes_Compare_lawful|].
  split; [exact two_entry_store_reachable|].
  exact (put_accounting bytes_Compare rand0 grow2 two_entry_store (b_ "a") (b_ "123")
           bytes_Compare_lawful two_entry_store_reachable).
Defined.

(** X3.  On a store reached from a fresh one, after [Delete(key)], whatever
    it returned, [Get(key)] and a second [Delete(key)] report not-found and
    [Contains(key)] is false; [Get] of every key that does not compare equal
    returns what it returned before; [Len()] is one less when the first
    [Delete] returned nil; and the buffer keeps the bytes of the deleted
    entry: [Free()] and [Capacity()] are what they were. *)
Theorem delete_then_get
    (cmp : bytes -> bytes -> Z) (rand_Int : nat -> Z) (growslice : Z -> Z -> Z)
    (p : DB_) (key : bytes) :
  BasicComparer any_key cmp ->
  reachable any_key cmp rand_Int growslice p ->
  exists p' e p'',
    Delete cmp p key = Ok (p', e)
    /\ Get cmp p' key = Ok (p', [], ErrNotFound)
    /\ Contains cmp p' key = Ok (p', false)
    /\ Delete cmp p' key = Ok (p'', ErrNotFound)
    /\ (forall key', cmp key key' <> 0 ->
          exists v e', Get cmp p key' = Ok (p, v, e') /\ Get cmp p' key' = Ok (p', v, e'))
    /\ (e = nil_error -> Len p' = Len p - 1)
    /\ Free p' = Free p /\ Capacity p' = Capacity p.
Proof.
  intros HC Hreach.
  destruct (reachable_Repr any_key cmp HC rand_Int growslice p Hreach) as [m HR].
  pose proof (Repr_wf any_key cmp p m HR) as Hwf.
  destruct (Delete_Repr any_key cmp HC p m key HR I)
    as (p' & e & HD & HR' & Hcap & He & _).
  assert (RefMap.get cmp key (RefMap.delete cmp key m) = None) as Hg.
  { rewrite (get_delete any_key cmp HC) by done.
    by rewrite (cmp_self any_key cmp HC key I). }
  destruct (Delete_Repr any_key cmp HC p' _ key HR' I)
    as (p'' & e2 & HD2 & _ & _ & He2 & _).
  rewrite Hg in He2. subst e2.
  exists p', e, p''. split; [done|]. split; [|split; [|split; [done|split; [|split]]]].
  - destruct (Get_Repr any_key cmp HC p' _ key HR' I) as (v & e1 & HG & Hv).
    rewrite Hg in Hv. by destruct Hv as [-> ->].
  - rewrite (Contains_Repr any_key cmp HC p' _ key HR' I). by rewrite Hg.
  - intros key' Hne.
    destruct (Get_Repr any_key cmp HC p m key' HR I) as (v & e1 & HG & Hv).
    destruct (Get_Repr any_key cmp HC p' _ key' HR' I) as (v' & e1' & HG' & Hv').
    rewrite (get_delete any_key cmp HC) in Hv' by done.
    destruct (Z.eqb_spec (cmp key key') 0); [done|].
    exists v, e1. split; [done|]. rewrite HG'.
    destruct (RefMap.get cmp key' m); destruct Hv as [-> ->], Hv' as [-> ->]; done.
  - intros ->. rewrite (Repr_Len any_key cmp p' _ HR'), (Repr_Len any_key cmp p m HR).
    rewrite (len_delete cmp). by destruct (RefMap.get cmp key m).
  - destruct HR as (l & HI & _).
    pose proof (Delete_kvData any_key cmp HC p l key p' e HI I HD) as Hkv.
    unfold Free, Capacity in *. rewrite Hkv, Hcap. done.
Qed.

Lemma delete_then_get_witness :
  BasicComparer any_key bytes_Compare
  /\ reachable any_key bytes_Compare rand0 grow2 two_entry_store
  /\ exists p' e p'',
    Delete bytes_Compare two_entry_store (b_ "a") = Ok (p', e)
    /\ Get bytes_Compare p' (b_ "a") = Ok (p', [], ErrNotFound)
    /\ Contains bytes_Compare p' (b_ "a") = Ok (p', false)
    /\ Delete bytes_Compare p' (b_ "a") = Ok (p'', ErrNotFound)
    /\ (forall key', bytes_Compare (b_ "a") key' <> 0 ->
          exists v e', Get bytes_Compare two_entry_store key' = Ok (two_entry_store, v, e')
                       /\ Get bytes_Compare p' key' = Ok (p', v, e'))
    /\ (e = nil_error -> Len p' = Len two_entry_store - 1)
    /\ Free p' = Free two_entry_store /\ Capacity p' = Capacity two_entry_store.
Proof.
  split; [exact bytes_Compare_lawful|].
  split; [exact two_entry_store_reachable|].
  exact (delete_then_get bytes_Compare rand0 grow2 two_entry_store (b_ "a")
           bytes_Compare_lawful two_entry_store_reachable).
Defined.

(** X4.  [Reset] on a store reached from a fresh one returns the very store
    that [New_] returns for the capacity the buffer has by then: [Len()] and
    [Size()] are 0, [Free()] is [Capacity()], which [Reset] did not change,
    no key is found and the forward pass is empty. *)
Theorem reset_like_new
    (cmp : bytes -> bytes -> Z) (rand_Int : nat -> Z) (growslice : Z -> Z -> Z)
    (p : DB_) :
  BasicComparer any_key cmp ->
  reachable any_key cmp rand_Int growslice p ->
  exists p',
    Reset p = Ok p'
    /\ (0 <= Capacity p -> New_ (Capacity p) = Ok p')
    /\ Len p' = 0 /\ Size p' = 0
    /\ Capacity p' = Capacity p /\ Free p' = Capacity p
    /\ iterate_forward cmp p' = Ok []
    /\ (forall key, Get cmp p' key = Ok (p', [], ErrNotFound))
    /\ (forall key, Find cmp p' key = Ok (p', [], [], ErrNotFound)).
Proof.
  intros HC Hreach.
  destruct (reachable_Repr any_key cmp HC rand_Int growslice p Hreach) as (m & l & HI & _).
  pose proof (Reset_eq p (inv_head _ _ _ _ HI) (inv_prevNode _ _ _ _ HI)) as HR.
  fold (empty_store (kvCap p)) in HR.
  assert (Repr any_key cmp (empty_store (kvCap p)) []) as HR'
    by (exists []; split; [apply Inv_empty_store|done]).
  exists (empty_store (kvCap p)). split; [done|]. split.
  { intros Hc. by apply New__eq. }
  split; [done|]. split; [done|]. split; [done|].
  split; [unfold Free, Capacity; simpl; change (len (@nil byte)) with 0; lia|].
  split; [by apply (iterate_Repr any_key cmp)|]. split.
  - intros key. destruct (Get_Repr any_key cmp HC _ _ key HR' I) as (v & e & HG & Hv).
    simpl in Hv. by destruct Hv as [-> ->].
  - intros key. destruct (Find_Repr any_key cmp HC _ _ key HR' I) as (rk & v & e & HF & Hv).
    simpl in Hv. by destruct Hv as (-> & -> & ->).
Qed.

Lemma reset_like_new_witness :
  BasicComparer any_key bytes_Compare
  /\ reachable any_key bytes_Compare rand0 grow2 two_entry_store
  /\ exists p',
    Reset two_entry_store = Ok p'
    /\ (0 <= Capacity two_entry_store -> New_ (Capacity two_entry_store) = Ok p')
    /\ Len p' = 0 /\ Size p' = 0
    /\ Capacity p' = Capacity two_entry_store /\ Free p' = Capacity two_entry_store
    /\ iterate_forward bytes_Compare p' = Ok []
    /\ (forall key, Get bytes_Compare p' key = Ok (p', [], ErrNotFound))
    /\ (forall key, Find bytes_Compare p' key = Ok (p', [], [], ErrNotFound)).
Proof.
  split; [exact bytes_Compare_lawful|].
  split; [exact two_entry_store_reachable|].
  exact (reset_like_new bytes_Compare rand0 grow2 two_entry_store
           bytes_Compare_lawful two_entry_store_reachable).
Defined.

(** X5.  The three lookups agree on a store reached from a fresh one:
    [Contains(key)] is true exactly when [Get(key)] returns nil, and then
    [Find(key)] returns [key] itself with the value [Get] returns. *)
Theorem lookups_agree
    (cmp : bytes -> bytes -> Z) (rand_Int : nat -> Z) (growslice : Z -> Z -> Z)
    (p : DB_) (key : bytes) :
  BasicComparer any_key cmp ->
  reachable any_key cmp rand_Int growslice p ->
  exists b value e,
    Contains cmp p key = Ok (p, b)
    /\ Get cmp p key = Ok (p, value, e)
    /\ (b = true <-> e = nil_error)
    /\ (b = false <-> e = ErrNotFound)
    /\ (b = true -> Find cmp p key = Ok (p, key, value, nil_error)).
Proof.
  intros HC Hreach.
  destruct (reachable_Repr any_key cmp HC rand_Int growslice p Hreach) as [m HR].
  pose proof (Repr_wf any_key cmp p m HR) as Hwf.
  destruct (Get_Repr any_key cmp HC p m key HR I) as (v & e & HG & Hv).
  pose proof (Contains_Repr any_key cmp HC p m key HR I) as HCo.
  destruct (Find_Repr any_key cmp HC p m key HR I) as (rk & fv & fe & HF & Hfv).
  destruct (RefMap.get cmp key m) as [v'|] eqn:Hg.
  - destruct Hv as [-> ->]. exists true, v', nil_error.
    split; [done|]. split; [done|]. split; [done|]. split; [done|]. intros _.
    rewrite (get_find_ge any_key cmp HC m key v' Hwf I Hg) in Hfv.
    destruct Hfv as [[= -> ->] ->]. done.
  - destruct Hv as [-> ->]. exists false, [], ErrNotFound.
    split; [done|]. split; [done|]. split; [done|]. split; [done|]. done.
Qed.

Lemma lookups_agree_witness :
  BasicComparer any_key bytes_Compare
  /\ reachable any_key bytes_Compare rand0 grow2 two_entry_store
  /\ exists b value e,
    Contains bytes_Compare two_entry_store (b_ "b") = Ok (two_entry_store, b)
    /\ Get bytes_Compare two_entry_store (b_ "b") = Ok (two_entry_store, value, e)
    /\ (b = true <-> e = nil_error)
    /\ (b = false <-> e = ErrNotFound)
    /\ (b = true ->
        Find bytes_Compare two_entry_store (b_ "b")
        = Ok (two_entry_store, b_ "b", value, nil_error)).
Proof.
  split; [exact bytes_Compare_lawful|].
  split; [exact two_entry_store_reachable|].
  exact (lookups_agree bytes_Compare rand0 grow2 two_entry_store (b_ "b")
           bytes_Compare_lawful two_entry_store_reachable).
Defined.

End MemdbExtras.

Module Moves.
Import memdb Rep RepFacts Chain Search FindGE Loops Frame Insert Overwrite RefFacts
  PutSpec PutProof DeleteProof Ops Fresh RefTheory Store HeightInv Reach Backward Pass.

Lemma backward_loop_S cmp fuel p i :
  backward_loop cmp (S fuel) p i true
  = '(p', i', ok') ← Prev cmp p i;
    rest ← backward_loop cmp fuel p' i' ok';
    Ok ((Key i, Value i) :: rest).
Proof. reflexivity. Qed.

Lemma backward_loop_false cmp fuel p i : backward_loop cmp (S fuel) p i false = Ok [].
Proof. reflexivity. Qed.

#[global] Arguments backward_loop : simpl never.

(** *** Lists *)

Lemma upto_all f ys : Forall (fun y => f y = true) ys -> upto f ys = ys.
Proof.
  induction 1 as [|y ys Hy _ IH]; [done|]. cbn [upto]. by rewrite Hy, IH.
Qed.

Lemma filter_all {A} (f : A -> bool) ys :
  Forall (fun y => f y = true) ys -> List.filter f ys = ys.
Proof.
  induction 1 as [|y ys Hy _ IH]; [done|]. cbn [List.filter]. by rewrite Hy, IH.
Qed.

Lemma filter_none {A} (f : A -> bool) ys :
  Forall (fun y => f y = false) ys -> List.filter f ys = [].
Proof.
  induction 1 as [|y ys Hy _ IH]; [done|]. cbn [List.filter]. by rewrite Hy, IH.
Qed.

Lemma upto_snoc_false f ys y : f y = false -> upto f (ys ++ [y]) = upto f ys.
Proof.
  intros Hy. induction ys as [|z ys IH]; cbn [upto app].
  - by rewrite Hy.
  - destruct (f z); [by rewrite IH|done].
Qed.

(** On a sorted list, a test that fails from some node on accepts a
    prefix. *)
Lemma upto_filter (R : Z -> Z -> Prop) f ys :
  StronglySorted R ys ->
  (forall y z, y ∈ ys -> z ∈ ys -> R y z -> f y = false -> f z = false) ->
  upto f ys = List.filter f ys.
Proof.
  intros Hs Hmono. induction Hs as [|y ys Hs IH Hy]; [done|].
  cbn [upto List.filter]. destruct (f y) eqn:Hfy.
  - rewrite IH; [done|]. intros u z Hu Hz. apply Hmono; by apply list_elem_of_further.
  - symmetry. apply filter_none. rewrite Forall_forall in Hy |- *.
    intros z Hz. apply (Hmono y z); [apply list_elem_of_here| |by apply Hy|done].
    by apply list_elem_of_further.
Qed.

(** A test that fails up to some node accepts, from the back, a suffix. *)
Lemma upto_rev_filter (R : Z -> Z -> Prop) f ys :
  StronglySorted R ys ->
  (forall y z, y ∈ ys -> z ∈ ys -> R y z -> f z = false -> f y = false) ->
  upto f (rev ys) = rev (List.filter f ys).
Proof.
  intros Hs Hmono. induction Hs as [|y ys Hs IH Hy]; [done|].
  assert (upto f (rev ys) = rev (List.filter f ys)) as IH'.
  { apply IH. intros u z Hu Hz. apply Hmono; by apply list_elem_of_further. }
  cbn [rev List.filter]. destruct (f y) eqn:Hfy.
  - assert (Forall (fun z => f z = true) ys) as Hall.
    { rewrite Forall_forall in Hy |- *. intros z Hz.
      destruct (f z) eqn:Hfz; [done|].
      rewrite (Hmono y z) in Hfy; [done|apply list_elem_of_here| |by apply Hy|done].
      by apply list_elem_of_further. }
    rewrite (filter_all f ys Hall). cbn [rev]. apply upto_all.
    apply Forall_app. split; [by apply Forall_rev|by repeat constructor].
  - by rewrite upto_snoc_false.
Qed.

Lemma filter_ext_Forall {A} (f g : A -> bool) ys :
  Forall (fun y => f y = g y) ys -> List.filter f ys = List.filter g ys.
Proof.
  induction 1 as [|y ys Hy _ IH]; [done|]. cbn [List.filter]. by rewrite Hy, IH.
Qed.

Lemma filter_map_entries {A B} (g : A -> B) (f : B -> bool) (ys : list A) :
  List.filter f (map g ys) = map g (List.filter (fun y => f (g y)) ys).
Proof.
  induction ys as [|y ys IH]; [done|]. cbn [map List.filter].
  destruct (f (g y)); cbn [map]; by rewrite IH.
Qed.

Lemma sorted_before {A} (R : A -> A -> Prop) pre x ys :
  StronglySorted R (pre ++ x :: ys) -> Forall (fun y => R y x) pre.
Proof.
  induction pre as [|a pre IH]; [constructor|].
  cbn [app]. intros Hs. apply StronglySorted_cons in Hs as [Ha Hs].
  constructor; [|by apply IH].
  rewrite Forall_forall in Ha. apply Ha. rewrite elem_of_app, elem_of_cons. auto.
Qed.

(** The place where a list splits around a test is unique. *)
Lemma split_unique {A} (P : A -> Prop) (l1 l2 pre : list A) x ys :
  l1 ++ l2 = pre ++ x :: ys ->
  Forall P l1 -> Forall (fun y => ~ P y) l2 -> Forall P pre -> ~ P x ->
  l1 = pre /\ l2 = x :: ys.
Proof.
  revert pre. induction l1 as [|a l1 IH]; intros pre E H1 H2 Hpre Hx.
  - destruct pre as [|b pre]; [done|]. exfalso. cbn [app] in E. subst l2.
    apply Forall_cons in H2 as [Hb _]. apply Forall_cons in Hpre as [Hb' _]. done.
  - destruct pre as [|b pre]; cbn [app] in E.
    + injection E as -> _. apply Forall_cons in H1 as [Ha _]. done.
    + injection E as -> E. apply Forall_cons in H1 as [_ H1].
      apply Forall_cons in Hpre as [_ Hpre].
      destruct (IH pre E H1 H2 Hpre Hx) as [-> ->]. done.
Qed.

Section moves.
Variable dom : bytes -> Prop.
Variable cmp : bytes -> bytes -> Z.
Hypothesis HC : BasicComparer dom cmp.

Implicit Types (p : DB_) (l : list Z) (key : bytes) (i : dbIter_).

Local Abbreviation kof p x := (keyOf (nodeData p) (kvData p) x).
Local Abbreviation vof p x := (valOf (nodeData p) (kvData p) x).

(** *** [fill] *)

Lemma fill_lands p l i fw x cs cl :
  Inv dom cmp p l -> x = 0 \/ x ∈ l -> it_released i = false ->
  exists i' ok,
    fill cmp p (it_set_node (it_set_forward i fw) x) cs cl = Ok (i', ok)
    /\ lands cmp p i fw cs cl x i' ok.
Proof.
  intros HI Hx Hrel. unfold fill, lands. cbn [it_node it_set_node].
  destruct Hx as [->|Hx].
  { cbn [Z.eqb negb andb]. eexists _, _. split; [reflexivity|]. by repeat split. }
  pose proof (Inv_pos _ _ _ _ _ HI Hx) as Hpos.
  destruct (Z.eqb_spec x 0); [consts; lia|]. cbn [negb andb].
  destruct (read_entry _ _ p _ x HI Hx) as (E0 & E1 & E2 & Ek & Ev).
  rewrite (bind_Ok _ _ _ E0), (bind_Ok _ _ _ E1), (bind_Ok _ _ _ Ek).
  cbn [it_slice it_set_key it_set_node it_set_forward]. unfold inside.
  destruct (match it_slice i with
            | Some r => out_of_range cmp r cs cl (kof p x)
            | None => false
            end); cbn [negb].
  - eexists _, _. split; [reflexivity|]. by repeat split.
  - cbn [it_node it_set_key it_set_node].
    rewrite (bind_Ok _ _ _ E2), (bind_Ok _ _ _ Ev).
    eexists _, _. split; [reflexivity|]. by repeat split.
Qed.

(** *** The five moves *)

Lemma hd_in l2 l1 : hd 0 l2 = 0 \/ hd 0 l2 ∈ l1 ++ l2.
Proof.
  destruct l2 as [|y r]; [by left|right]. cbn [hd].
  rewrite elem_of_app, elem_of_cons. auto.
Qed.

Lemma head_next p l : Inv dom cmp p l ->
  elem (nodeData p) nNext = Ok (hd 0 l).
Proof.
  intros HI. pose proof (inv_head _ _ _ _ HI) as Hhead.
  rewrite (elem_rd (nodeData p) nNext ltac:(consts; lia)). f_equal.
  pose proof (inv_links _ _ _ _ HI 0 ltac:(consts; lia)) as Hl.
  rewrite (level0 dom cmp p l HI) in Hl. apply linked_hd in Hl. unfold next in Hl.
  by rewrite Z.add_0_r in Hl.
Qed.

Lemma node_next p pre x ys : Inv dom cmp p (pre ++ x :: ys) ->
  elem (nodeData p) (x + nNext) = Ok (hd 0 ys).
Proof.
  intros HI.
  assert (x ∈ pre ++ x :: ys) as Hxl by (rewrite elem_of_app, elem_of_cons; auto).
  destruct (Inv_node _ _ _ _ _ HI Hxl).
  rewrite (elem_rd (nodeData p) (x + nNext) ltac:(consts; lia)). f_equal.
  pose proof (inv_links _ _ _ _ HI 0 ltac:(consts; lia)) as Hl.
  rewrite (level0 dom cmp p _ HI) in Hl.
  replace (pre ++ x :: ys) with ((pre ++ [x]) ++ ys) in Hl by (by rewrite <- app_assoc).
  apply linked_app_last in Hl. rewrite lastd_snoc in Hl.
  apply linked_hd in Hl. unfold next in Hl. by rewrite Z.add_0_r in Hl.
Qed.

Lemma First_at p l i :
  Inv dom cmp p l -> it_released i = false ->
  match slice_start i with Some s => dom s | None => True end ->
  exists l1 l2 i' ok,
    l = l1 ++ l2 /\ split_start cmp p (slice_start i) l1 l2
    /\ First cmp p i = Ok (p, i', ok)
    /\ lands cmp p i true false true (hd 0 l2) i' ok.
Proof.
  intros HI Hrel Hs. unfold First. rewrite Hrel.
  replace (slice_start (it_set_forward i true)) with (slice_start i) by done.
  destruct (slice_start i) as [s|] eqn:Es.
  - destruct (findGE_spec dom cmp HC false p l s HI Hs)
      as (l1 & l2 & pn & -> & H1 & H2 & Hf & _).
    rewrite (bind_Ok _ _ _ Hf). cbv beta iota. rewrite (bind_Ok (Ok _) _ _ eq_refl).
    cbv beta iota.
    destruct (fill_lands p _ i true (hd 0 l2) false true HI (hd_in l2 l1) Hrel)
      as (i' & ok & Hfill & Hl).
    rewrite (bind_Ok _ _ _ Hfill). by exists l1, l2, i', ok.
  - rewrite (bind_Ok _ _ _ (head_next p l HI)). rewrite (bind_Ok (Ok _) _ _ eq_refl).
    cbv beta iota.
    destruct (fill_lands p _ i true (hd 0 l) false true HI (hd_in l []) Hrel)
      as (i' & ok & Hfill & Hl).
    rewrite (bind_Ok _ _ _ Hfill). by exists [], l, i', ok.
Qed.

Lemma Seek_at p l i key :
  Inv dom cmp p l -> it_released i = false -> dom key ->
  match slice_start i with Some s => dom s | None => True end ->
  exists l1 l2 i' ok,
    l = l1 ++ l2
    /\ Forall (before cmp p (match slice_start i with
                            | Some s => if cmp key s <? 0 then s else key
                            | None => key
                            end)) l1
    /\ Forall (fun y => ~ before cmp p (match slice_start i with
                                       | Some s => if cmp key s <? 0 then s else key
                                       | None => key
                                       end) y) l2
    /\ Seek cmp p i key = Ok (p, i', ok)
    /\ lands cmp p i true false true (hd 0 l2) i' ok.
Proof.
  intros HI Hrel Hk Hs. unfold Seek. rewrite Hrel.
  replace (slice_start (it_set_forward i true)) with (slice_start i) by done.
  set (key' := match slice_start i with
               | Some s => if cmp key s <? 0 then s else key
               | None => key
               end).
  assert (dom key') as Hk'.
  { unfold key'. destruct (slice_start i); [|done]. by destruct (cmp key b <? 0). }
  destruct (findGE_spec dom cmp HC false p l key' HI Hk')
    as (l1 & l2 & pn & -> & H1 & H2 & Hf & _).
  rewrite (bind_Ok _ _ _ Hf). cbv beta iota.
  destruct (fill_lands p _ i true (hd 0 l2) false true HI (hd_in l2 l1) Hrel)
    as (i' & ok & Hfill & Hl).
  rewrite (bind_Ok _ _ _ Hfill). by exists l1, l2, i', ok.
Qed.

Lemma lastd_in0 l1 l2 : lastd 0 l1 = 0 \/ lastd 0 l1 ∈ l1 ++ l2.
Proof. apply lastd_in. Qed.

Lemma Last_at p l i :
  Inv dom cmp p l -> it_released i = false ->
  match slice_limit i with Some t => dom t | None => True end ->
  exists l1 l2 i' ok,
    l = l1 ++ l2 /\ split_limit cmp p (slice_limit i) l1 l2
    /\ Last cmp p i = Ok (p, i', ok)
    /\ lands cmp p i false true false (lastd 0 l1) i' ok.
Proof.
  intros HI Hrel Hs. unfold Last. rewrite Hrel.
  replace (slice_limit (it_set_forward i false)) with (slice_limit i) by done.
  destruct (slice_limit i) as [t|] eqn:Et.
  - destruct (findLT_spec dom cmp HC p l t HI Hs) as (l1 & l2 & -> & H1 & H2 & Hf).
    rewrite (bind_Ok _ _ _ Hf).
    destruct (fill_lands p _ i false (lastd 0 l1) true false HI (lastd_in0 l1 l2) Hrel)
      as (i' & ok & Hfill & Hl).
    rewrite (bind_Ok _ _ _ Hfill). by exists l1, l2, i', ok.
  - rewrite (bind_Ok _ _ _ (findLast_spec dom cmp p l HI)).
    pose proof (lastd_in0 l []) as Hin. rewrite app_nil_r in Hin.
    destruct (fill_lands p _ i false (lastd 0 l) true false HI Hin Hrel)
      as (i' & ok & Hfill & Hl).
    rewrite (bind_Ok _ _ _ Hfill). exists l, [], i', ok. by rewrite app_nil_r.
Qed.

Lemma Next_at p pre x ys i :
  Inv dom cmp p (pre ++ x :: ys) -> it_released i = false -> it_node i = x ->
  exists i' ok,
    Next cmp p i = Ok (p, i', ok)
    /\ lands cmp p i true false true (hd 0 ys) i' ok.
Proof.
  intros HI Hrel Hnode. unfold Next. rewrite Hrel, Hnode.
  assert (x ∈ pre ++ x :: ys) as Hxl by (rewrite elem_of_app, elem_of_cons; auto).
  pose proof (Inv_pos _ _ _ _ _ HI Hxl) as Hpos.
  destruct (Z.eqb_spec x 0); [consts; lia|].
  cbn [it_node it_set_forward]. rewrite Hnode.
  rewrite (bind_Ok _ _ _ (node_next p pre x ys HI)).
  assert (hd 0 ys = 0 \/ hd 0 ys ∈ pre ++ x :: ys) as Hin.
  { destruct ys as [|y r]; [by left|right]. cbn [hd].
    rewrite elem_of_app, !elem_of_cons. auto. }
  destruct (fill_lands p _ i true (hd 0 ys) false true HI Hin Hrel)
    as (i' & ok & Hfill & Hl).
  rewrite (bind_Ok _ _ _ Hfill). by exists i', ok.
Qed.

Lemma Prev_at p pre x ys i :
  Inv dom cmp p (pre ++ x :: ys) -> it_released i = false -> it_node i = x ->
  it_key i = kof p x ->
  exists i' ok,
    Prev cmp p i = Ok (p, i', ok)
    /\ lands cmp p i false true false (lastd 0 pre) i' ok.
Proof.
  intros HI Hrel Hnode Hkey. unfold Prev. rewrite Hrel, Hnode.
  assert (x ∈ pre ++ x :: ys) as Hxl by (rewrite elem_of_app, elem_of_cons; auto).
  pose proof (Inv_pos _ _ _ _ _ HI Hxl) as Hpos.
  pose proof (Inv_dom _ _ _ _ _ HI Hxl) as Hdom.
  destruct (Z.eqb_spec x 0); [consts; lia|].
  cbn [it_key it_set_forward]. rewrite Hkey.
  destruct (findLT_spec dom cmp HC p _ (kof p x) HI Hdom) as (l1 & l2 & E & H1 & H2 & Hf).
  destruct (split_unique (before cmp p (kof p x)) l1 l2 pre x ys) as [-> ->]; try done.
  - pose proof (sorted_before _ pre x ys (inv_sorted _ _ _ _ HI)) as Hb.
    eapply Forall_impl; [exact Hb|]. by intros y Hy.
  - by apply (cmp_irrefl _ _ HC).
  - rewrite (bind_Ok _ _ _ Hf).
    destruct (fill_lands p _ i false (lastd 0 pre) true false HI
                (lastd_in0 pre (x :: ys)) Hrel) as (i' & ok & Hfill & Hl).
    rewrite (bind_Ok _ _ _ Hfill). by exists i', ok.
Qed.

(** *** The two passes *)

Lemma forward_loop_range p l fuel : forall ys pre x i,
  Inv dom cmp p l -> l = pre ++ x :: ys ->
  it_released i = false -> it_node i = x -> it_key i = kof p x -> it_value i = vof p x ->
  (S (length ys) < fuel)%nat ->
  forward_loop cmp fuel p i true
  = Ok (entries p (x :: upto (fun y => inside cmp (it_slice i) false true (kof p y)) ys)).
Proof.
  induction fuel as [|fuel IH]; intros ys pre x i HI El Hrel Hnode Hkey Hval Hfuel; [lia|].
  rewrite forward_loop_S. subst l.
  destruct (Next_at p pre x ys i HI Hrel Hnode) as (i' & ok & HN & Hl).
  rewrite (bind_Ok _ _ _ HN). cbv beta iota. unfold Key, Value. rewrite Hkey, Hval.
  destruct Hl as (Hrel' & Hsl' & _ & _ & Hcase).
  destruct ys as [|x' ys]; cbn [hd] in Hcase.
  - cbn [Z.eqb negb andb] in Hcase. destruct Hcase as (-> & _).
    destruct fuel; [simpl in Hfuel; lia|]. by rewrite forward_loop_false.
  - assert (x' ∈ pre ++ x :: x' :: ys) as Hx'
      by (rewrite elem_of_app, !elem_of_cons; auto).
    pose proof (Inv_pos _ _ _ _ _ HI Hx') as Hpos.
    destruct (Z.eqb_spec x' 0); [consts; lia|]. cbn [negb andb upto] in Hcase |- *.
    destruct (inside cmp (it_slice i) false true (kof p x')).
    + destruct Hcase as (-> & Hn' & Hk' & Hv').
      rewrite (IH ys (pre ++ [x]) x' i' HI); try done.
      * rewrite Hsl'. done.
      * by rewrite <- app_assoc.
      * simpl in Hfuel. lia.
    + destruct Hcase as (-> & _).
      destruct fuel; [simpl in Hfuel; lia|]. by rewrite forward_loop_false.
Qed.

Lemma snoc_or_nil {A} (xs : list A) : xs = [] \/ exists xs' y, xs = xs' ++ [y].
Proof. destruct xs using rev_ind; eauto. Qed.

Lemma backward_loop_range p l fuel : forall pre ys x i,
  Inv dom cmp p l -> l = pre ++ x :: ys ->
  it_released i = false -> it_node i = x -> it_key i = kof p x -> it_value i = vof p x ->
  (S (length pre) < fuel)%nat ->
  backward_loop cmp fuel p i true
  = Ok (entries p (x :: upto (fun y => inside cmp (it_slice i) true false (kof p y))
                          (rev pre))).
Proof.
  induction fuel as [|fuel IH]; intros pre ys x i HI El Hrel Hnode Hkey Hval Hfuel; [lia|].
  rewrite backward_loop_S. subst l.
  destruct (Prev_at p pre x ys i HI Hrel Hnode Hkey) as (i' & ok & HN & Hl).
  rewrite (bind_Ok _ _ _ HN). cbv beta iota. unfold Key, Value. rewrite Hkey, Hval.
  destruct Hl as (Hrel' & Hsl' & _ & _ & Hcase).
  destruct (snoc_or_nil pre) as [->|(pre' & x' & ->)].
  - change (lastd 0 []) with 0 in Hcase.
    cbn [Z.eqb negb andb] in Hcase. destruct Hcase as (-> & _).
    destruct fuel; [simpl in Hfuel; lia|]. by rewrite backward_loop_false.
  - rewrite lastd_snoc in Hcase. rewrite rev_unit.
    assert (x' ∈ (pre' ++ [x']) ++ x :: ys) as Hx'
      by (rewrite !elem_of_app, !elem_of_cons; auto).
    pose proof (Inv_pos _ _ _ _ _ HI Hx') as Hpos.
    destruct (Z.eqb_spec x' 0); [consts; lia|]. cbn [negb andb upto] in Hcase |- *.
    destruct (inside cmp (it_slice i) true false (kof p x')).
    + destruct Hcase as (-> & Hn' & Hk' & Hv').
      rewrite (IH pre' (x :: ys) x' i' HI); try done.
      * rewrite Hsl'. done.
      * by rewrite <- app_assoc.
      * rewrite length_app in Hfuel. simpl in Hfuel. lia.
    + destruct Hcase as (-> & _).
      destruct fuel; [simpl in Hfuel; lia|]. by rewrite backward_loop_false.
Qed.

Lemma fuel_enough p l : Inv dom cmp p l -> (S (length l) < loop_fuel p)%nat.
Proof.
  intros HI. pose proof (inv_count _ _ _ _ HI) as Hc. unfold loop_fuel.
  unfold len in Hc. consts. lia.
Qed.

(** The forward pass of an iterator, started by [First]. *)
Lemma forward_pass p l i :
  Inv dom cmp p l -> it_released i = false ->
  match slice_start i with Some s => dom s | None => True end ->
  exists l1 l2 i' ok,
    l = l1 ++ l2 /\ split_start cmp p (slice_start i) l1 l2
    /\ First cmp p i = Ok (p, i', ok)
    /\ forward_loop cmp (loop_fuel p) p i' ok
       = Ok (entries p (upto (fun y => inside cmp (it_slice i) false true (kof p y)) l2)).
Proof.
  intros HI Hrel Hs.
  destruct (First_at p l i HI Hrel Hs) as (l1 & l2 & i' & ok & -> & Hsp & HF & Hl).
  exists l1, l2, i', ok. split; [done|]. split; [done|]. split; [done|].
  destruct Hl as (Hrel' & Hsl' & _ & _ & Hcase).
  pose proof (fuel_enough p _ HI) as Hfuel.
  destruct l2 as [|x ys]; cbn [hd] in Hcase.
  - cbn [Z.eqb negb andb] in Hcase. destruct Hcase as (-> & _).
    destruct (loop_fuel p); [lia|]. by rewrite forward_loop_false.
  - assert (x ∈ l1 ++ x :: ys) as Hx by (rewrite elem_of_app, !elem_of_cons; auto).
    pose proof (Inv_pos _ _ _ _ _ HI Hx) as Hpos.
    destruct (Z.eqb_spec x 0); [consts; lia|]. cbn [negb andb upto] in Hcase |- *.
    destruct (inside cmp (it_slice i) false true (kof p x)).
    + destruct Hcase as (-> & Hn' & Hk' & Hv').
      rewrite (forward_loop_range p _ _ ys l1 x i' HI); try done.
      * by rewrite Hsl'.
      * rewrite length_app in Hfuel. simpl in Hfuel. lia.
    + destruct Hcase as (-> & _).
      destruct (loop_fuel p); [lia|]. by rewrite forward_loop_false.
Qed.

(** The backward pass of an iterator, started by [Last]. *)
Lemma backward_pass p l i :
  Inv dom cmp p l -> it_released i = false ->
  match slice_limit i with Some t => dom t | None => True end ->
  exists l1 l2 i' ok,
    l = l1 ++ l2 /\ split_limit cmp p (slice_limit i) l1 l2
    /\ Last cmp p i = Ok (p, i', ok)
    /\ backward_loop cmp (loop_fuel p) p i' ok
       = Ok (entries p (upto (fun y => inside cmp (it_slice i) true false (kof p y))
                          (rev l1))).
Proof.
  intros HI Hrel Hs.
  destruct (Last_at p l i HI Hrel Hs) as (l1 & l2 & i' & ok & -> & Hsp & HF & Hl).
  exists l1, l2, i', ok. split; [done|]. split; [done|]. split; [done|].
  destruct Hl as (Hrel' & Hsl' & _ & _ & Hcase).
  pose proof (fuel_enough p _ HI) as Hfuel.
  destruct (snoc_or_nil l1) as [->|(pre & x & ->)].
  - change (lastd 0 []) with 0 in Hcase.
    cbn [Z.eqb negb andb] in Hcase. destruct Hcase as (-> & _).
    destruct (loop_fuel p); [lia|]. by rewrite backward_loop_false.
  - rewrite lastd_snoc in Hcase. rewrite rev_unit.
    assert (x ∈ (pre ++ [x]) ++ l2) as Hx by (rewrite !elem_of_app, !elem_of_cons; auto).
    pose proof (Inv_pos _ _ _ _ _ HI Hx) as Hpos.
    destruct (Z.eqb_spec x 0); [consts; lia|]. cbn [negb andb upto] in Hcase |- *.
    destruct (inside cmp (it_slice i) true false (kof p x)).
    + destruct Hcase as (-> & Hn' & Hk' & Hv').
      rewrite (backward_loop_range p _ _ pre l2 x i' HI); try done.
      * by rewrite Hsl'.
      * by rewrite <- app_assoc.
      * rewrite !length_app in Hfuel. simpl in Hfuel. lia.
    + destruct Hcase as (-> & _).
      destruct (loop_fuel p); [lia|]. by rewrite backward_loop_false.
Qed.

(** *** The entries within a range *)

Lemma range_filter_forward p l1 l2 r :
  Inv dom cmp p (l1 ++ l2) -> split_start cmp p (Start r) l1 l2 ->
  match Limit r with Some t => dom t | None => True end ->
  List.filter (fun e => negb (out_of_range cmp r true true (fst e))) (entries p (l1 ++ l2))
  = entries p (upto (fun y => inside cmp (Some r) false true (kof p y)) l2).
Proof.
  intros HI Hsp Ht. unfold entries. rewrite filter_map_entries. f_equal.
  rewrite List.filter_app.
  pose proof (inv_sorted _ _ _ _ HI) as Hsorted.
  apply StronglySorted_app in Hsorted as (_ & _ & Hs2).
  assert (forall y, y ∈ l2 -> dom (kof p y)) as Hdom2.
  { intros y Hy. eapply Inv_dom; [exact HI|]. rewrite elem_of_app. auto. }
  rewrite (upto_filter (key_lt cmp (nodeData p) (kvData p)) _ l2 Hs2).
  - unfold split_start in Hsp. unfold inside, out_of_range. cbn [fst entry andb orb].
    destruct (Start r) as [s|].
    + destruct Hsp as [H1 H2]. rewrite filter_none, app_nil_l.
      * apply filter_ext_Forall. eapply Forall_impl; [exact H2|].
        intros y Hy. cbv beta in Hy |- *.
        destruct (Z.ltb_spec (cmp (kof p y) s) 0); [done|].
        by rewrite !orb_false_r.
      * eapply Forall_impl; [exact H1|]. intros y Hy. cbv beta in Hy |- *.
        destruct (Z.ltb_spec (cmp (kof p y) s) 0); [|lia].
        by rewrite orb_true_r.
    + subst l1. cbn [List.filter app]. apply filter_ext_Forall.
      apply Forall_forall. intros y _. by rewrite !orb_false_r.
  - intros y z Hy Hz Hyz. unfold inside, out_of_range. cbn [andb orb].
    rewrite !orb_false_r. destruct (Limit r) as [t|]; [|done].
    unfold key_lt in Hyz. intros Hfy. apply negb_false_iff in Hfy.
    apply negb_false_iff. apply Z.leb_le in Hfy. apply Z.leb_le.
    destruct (Z_lt_dec (cmp (kof p z) t) 0) as [Hlt|]; [|lia]. exfalso.
    assert (cmp (kof p y) t < 0); [|lia].
    eapply (cmp_trans _ _ HC); [by apply Hdom2|apply (Hdom2 z Hz)|done|done|done].
Qed.

Lemma range_filter_backward p l1 l2 r :
  Inv dom cmp p (l1 ++ l2) -> split_limit cmp p (Limit r) l1 l2 ->
  match Start r with Some s => dom s | None => True end ->
  rev (List.filter (fun e => negb (out_of_range cmp r true true (fst e)))
         (entries p (l1 ++ l2)))
  = entries p (upto (fun y => inside cmp (Some r) true false (kof p y)) (rev l1)).
Proof.
  intros HI Hsp Hs. unfold entries. rewrite filter_map_entries, <- map_rev. f_equal.
  rewrite List.filter_app.
  pose proof (inv_sorted _ _ _ _ HI) as Hsorted.
  apply StronglySorted_app in Hsorted as (_ & Hs1 & _).
  assert (forall y, y ∈ l1 -> dom (kof p y)) as Hdom1.
  { intros y Hy. eapply Inv_dom; [exact HI|]. rewrite elem_of_app. auto. }
  rewrite (upto_rev_filter (key_lt cmp (nodeData p) (kvData p)) _ l1 Hs1).
  - f_equal. unfold split_limit in Hsp. unfold inside, out_of_range.
    cbn [fst entry andb orb].
    destruct (Limit r) as [t|].
    + destruct Hsp as [H1 H2]. rewrite (filter_none _ l2), app_nil_r.
      * apply filter_ext_Forall. eapply Forall_impl; [exact H1|].
        intros y Hy. cbv beta in Hy |- *.
        destruct (Z.leb_spec 0 (cmp (kof p y) t)); [lia|]. done.
      * eapply Forall_impl; [exact H2|]. intros y Hy. cbv beta in Hy |- *.
        destruct (Z.leb_spec 0 (cmp (kof p y) t)); [done|lia].
    + subst l2. rewrite app_nil_r. apply filter_ext_Forall.
      apply Forall_forall. by intros y _.
  - intros y z Hy Hz Hyz. unfold inside, out_of_range. cbn [andb orb].
    destruct (Start r) as [s|]; [|done].
    unfold key_lt in Hyz. intros Hfz. apply negb_false_iff in Hfz.
    apply negb_false_iff. apply Z.ltb_lt in Hfz. apply Z.ltb_lt.
    eapply (cmp_trans _ _ HC); [by apply Hdom1|apply (Hdom1 z Hz)|done|done|done].
Qed.

End moves.
End Moves.

Module IterExtras.
Import memdb Rep RepFacts Chain Search FindGE Loops Frame Insert Overwrite RefFacts
  PutSpec PutProof DeleteProof Ops Fresh RefTheory Store HeightInv Reach Backward Bytes
  StoreMore MemdbClaims Pass Moves.

(** X6.  On a store reached from a fresh one, a forward pass of an
    iterator over the range [r] ([First], then [Next] until it returns
    false) yields, in order, exactly the entries of the full forward pass
    whose key is at or after [r.Start] and before [r.Limit]; a bound that is
    nil does not restrict. *)
Theorem range_forward_pass
    (cmp : bytes -> bytes -> Z) (rand_Int : nat -> Z) (growslice : Z -> Z -> Z)
    (p : DB_) (r : Range) :
  BasicComparer any_key cmp ->
  reachable any_key cmp rand_Int growslice p ->
  exists m,
    iterate_forward cmp p = Ok m
    /\ iterate_range cmp p r
       = Ok (List.filter (fun e => negb (out_of_range cmp r true true (fst e))) m).
Proof.
  intros HC Hreach.
  destruct (reachable_Repr any_key cmp HC rand_Int growslice p Hreach) as (m & l & HI & Hm).
  exists m. split; [apply (iterate_Repr any_key cmp); by exists l|].
  destruct (forward_pass any_key cmp HC p l (NewIterator (Some r)) HI eq_refl)
    as (l1 & l2 & i' & ok & -> & Hsp & HF & Hloop).
  { cbn. by destruct (Start r). }
  unfold iterate_range. rewrite (bind_Ok _ _ _ HF). cbv beta iota.
  rewrite Hloop. f_equal. subst m. symmetry.
  apply (range_filter_forward any_key cmp HC); [done|done|by destruct (Limit r)].
Qed.

Lemma range_forward_pass_witness :
  BasicComparer any_key bytes_Compare
  /\ reachable any_key bytes_Compare rand0 grow2 two_entry_store
  /\ exists m,
    iterate_forward bytes_Compare two_entry_store = Ok m
    /\ iterate_range bytes_Compare two_entry_store (mkRange (Some (b_ "b")) None)
       = Ok (List.filter
               (fun e => negb (out_of_range bytes_Compare (mkRange (Some (b_ "b")) None)
                                 true true (fst e))) m).
Proof.
  split; [exact bytes_Compare_lawful|].
  split; [exact two_entry_store_reachable|].
  exact (range_forward_pass bytes_Compare rand0 grow2 two_entry_store
           (mkRange (Some (b_ "b")) None) bytes_Compare_lawful two_entry_store_reachable).
Defined.

(** X7.  On a store reached from a fresh one, a backward pass ([Last],
    then [Prev] until it returns false) of an iterator without a range
    yields the entries of the forward pass in reverse order, and that of an
    iterator over the range [r] yields, in reverse order, the entries whose
    key is at or after [r.Start] and before [r.Limit]. *)
Theorem backward_pass_reverses
    (cmp : bytes -> bytes -> Z) (rand_Int : nat -> Z) (growslice : Z -> Z -> Z)
    (p : DB_) (r : Range) :
  BasicComparer any_key cmp ->
  reachable any_key cmp rand_Int growslice p ->
  exists m,
    iterate_forward cmp p = Ok m
    /\ iterate_backward cmp p = Ok (rev m)
    /\ iterate_range_backward cmp p r
       = Ok (rev (List.filter (fun e => negb (out_of_range cmp r true true (fst e))) m)).
Proof.
  intros HC Hreach.
  destruct (reachable_Repr any_key cmp HC rand_Int growslice p Hreach) as (m & l & HI & Hm).
  exists m. split; [apply (iterate_Repr any_key cmp); by exists l|]. split.
  - destruct (backward_pass any_key cmp HC p l (NewIterator None) HI eq_refl I)
      as (l1 & l2 & i' & ok & -> & Hsp & HF & Hloop).
    cbn in Hsp. subst l2. rewrite app_nil_r in *.
    unfold iterate_backward. rewrite (bind_Ok _ _ _ HF). cbv beta iota.
    rewrite Hloop. f_equal. subst m. rewrite upto_all.
    + unfold entries. by rewrite map_rev.
    + by apply Forall_forall.
  - destruct (backward_pass any_key cmp HC p l (NewIterator (Some r)) HI eq_refl)
      as (l1 & l2 & i' & ok & -> & Hsp & HF & Hloop).
    { cbn. by destruct (Limit r). }
    unfold iterate_range_backward. rewrite (bind_Ok _ _ _ HF). cbv beta iota.
    rewrite Hloop. f_equal. subst m. symmetry.
    apply (range_filter_backward any_key cmp HC); [done|done|by destruct (Start r)].
Qed.

Lemma backward_pass_reverses_witness :
  BasicComparer any_key bytes_Compare
  /\ reachable any_key bytes_Compare rand0 grow2 two_entry_store
  /\ exists m,
    iterate_forward bytes_Compare two_entry_store = Ok m
    /\ iterate_backward bytes_Compare two_entry_store = Ok (rev m)
    /\ iterate_range_backward bytes_Compare two_entry_store (mkRange None (Some (b_ "b")))
       = Ok (rev (List.filter
                    (fun e => negb (out_of_range bytes_Compare
                                      (mkRange None (Some (b_ "b"))) true true (fst e))) m)).
Proof.
  split; [exact bytes_Compare_lawful|].
  split; [exact two_entry_store_reachable|].
  exact (backward_pass_reverses bytes_Compare rand0 grow2 two_entry_store
           (mkRange None (Some (b_ "b"))) bytes_Compare_lawful two_entry_store_reachable).
Defined.

(** X8.  On a store reached from a fresh one, [Seek(key)] of an iterator
    without a range finds what [Find(key)] finds: it returns true exactly
    when [Find] returns nil, and then [Key()] and [Value()] are the key and
    the value [Find] returns; otherwise the iterator is not valid and
    [Key()] and [Value()] are empty.  [Error()] stays as it was. *)
Theorem seek_is_find
    (cmp : bytes -> bytes -> Z) (rand_Int : nat -> Z) (growslice : Z -> Z -> Z)
    (p : DB_) (i : dbIter_) (key : bytes) :
  BasicComparer any_key cmp ->
  reachable any_key cmp rand_Int growslice p ->
  it_released i = false -> it_slice i = None ->
  exists i' ok rkey value e,
    Seek cmp p i key = Ok (p, i', ok)
    /\ Find cmp p key = Ok (p, rkey, value, e)
    /\ (ok = true <-> e = nil_error)
    /\ (ok = false <-> e = ErrNotFound)
    /\ Valid i' = ok /\ Key i' = rkey /\ Value i' = value /\ Error i' = Error i.
Proof.
  intros HC Hreach Hrel Hsl.
  destruct (reachable_Repr any_key cmp HC rand_Int growslice p Hreach) as (m & l & HI & Hm).
  destruct (Seek_at any_key cmp HC p l i key HI Hrel I) as
    (l1 & l2 & i' & ok & -> & H1 & H2 & HS & Hl).
  { unfold slice_start. by rewrite Hsl. }
  unfold slice_start in H1, H2. rewrite Hsl in H1, H2.
  destruct (Find_spec any_key cmp HC p _ key HI I) as (rk & v & e & HF & Hv).
  rewrite (entries_app p l1 l2), (find_ge_app cmp) in Hv by by apply entries_before.
  exists i', ok, rk, v, e. split; [done|]. split; [done|].
  destruct Hl as (_ & _ & _ & Herr & Hcase). unfold inside in Hcase. rewrite Hsl in Hcase.
  cbn [negb] in Hcase. rewrite andb_true_r in Hcase.
  unfold Valid, Key, Value, Error.
  destruct l2 as [|y ys]; cbn [hd] in Hcase.
  - cbn [Z.eqb negb] in Hcase. destruct Hcase as (-> & -> & -> & ->).
    cbn in Hv. destruct Hv as (-> & -> & ->). done.
  - assert (y ∈ l1 ++ y :: ys) as Hy by (rewrite elem_of_app, elem_of_cons; auto).
    pose proof (Inv_pos _ _ _ _ _ HI Hy) as Hpos.
    destruct (Z.eqb_spec y 0); [consts; lia|]. cbn [negb] in Hcase.
    destruct Hcase as (-> & -> & -> & ->).
    apply Forall_cons in H2 as [Hy2 _].
    change (~ cmp (keyOf (nodeData p) (kvData p) y) key < 0) in Hy2.
    cbn [entries map RefMap.find_ge entry] in Hv.
    destruct (Z.ltb_spec (cmp (keyOf (nodeData p) (kvData p) y) key) 0); [done|].
    destruct Hv as [[= -> ->] ->].
    destruct (Z.eqb_spec y 0); [done|]. done.
Qed.

Lemma seek_is_find_witness :
  BasicComparer any_key bytes_Compare
  /\ reachable any_key bytes_Compare rand0 grow2 two_entry_store
  /\ it_released (NewIterator None) = false /\ it_slice (NewIterator None) = None
  /\ exists i' ok rkey value e,
    Seek bytes_Compare two_entry_store (NewIterator None) (b_ "aa") = Ok (two_entry_store, i', ok)
    /\ Find bytes_Compare two_entry_store (b_ "aa") = Ok (two_entry_store, rkey, value, e)
    /\ (ok = true <-> e = nil_error)
    /\ (ok = false <-> e = ErrNotFound)
    /\ Valid i' = ok /\ Key i' = rkey /\ Value i' = value
    /\ Error i' = Error (NewIterator None).
Proof.
  split; [exact bytes_Compare_lawful|].
  split; [exact two_entry_store_reachable|].
  split; [reflexivity|]. split; [reflexivity|].
  exact (seek_is_find bytes_Compare rand0 grow2 two_entry_store (NewIterator None) (b_ "aa")
           bytes_Compare_lawful two_entry_store_reachable eq_refl eq_refl).
Defined.

(** X9.  On a store reached from a fresh one, an iterator without a range
    that [Seek] has put on an entry comes back to that entry when a [Next]
    that returns true is followed by [Prev], and when a [Prev] that returns
    true is followed by [Next]. *)
Theorem next_prev_inverse
    (cmp : bytes -> bytes -> Z) (rand_Int : nat -> Z) (growslice : Z -> Z -> Z)
    (p : DB_) (i0 : dbIter_) (key : bytes) (i1 i2 : dbIter_) :
  BasicComparer any_key cmp ->
  reachable any_key cmp rand_Int growslice p ->
  it_released i0 = false -> it_slice i0 = None ->
  Seek cmp p i0 key = Ok (p, i1, true) ->
  (Next cmp p i1 = Ok (p, i2, true) ->
     exists i3, Prev cmp p i2 = Ok (p, i3, true)
                /\ Key i3 = Key i1 /\ Value i3 = Value i1)
  /\ (Prev cmp p i1 = Ok (p, i2, true) ->
        exists i3, Next cmp p i2 = Ok (p, i3, true)
                   /\ Key i3 = Key i1 /\ Value i3 = Value i1).
Proof.
  intros HC Hreach Hrel Hsl HS.
  destruct (reachable_Repr any_key cmp HC rand_Int growslice p Hreach) as (m & l & HI & Hm).
  destruct (Seek_at any_key cmp HC p l i0 key HI Hrel I) as
    (l1 & l2 & i' & ok & -> & _ & _ & HS' & Hl).
  { unfold slice_start. by rewrite Hsl. }
  rewrite HS in HS'. injection HS' as <- <-.
  destruct Hl as (Hrel1 & Hsl1 & _ & _ & Hcase). rewrite Hsl in Hsl1.
  destruct l2 as [|x ys]; cbn [hd] in Hcase.
  { cbn [Z.eqb negb andb] in Hcase. by destruct Hcase. }
  destruct (negb (x =? 0) && _) in Hcase; [|by destruct Hcase].
  destruct Hcase as (_ & Hn1 & Hk1 & Hv1).
  unfold Key, Value. split.
  - intros HN.
    destruct (Next_at any_key cmp p l1 x ys i1 HI Hrel1 Hn1) as (i2' & ok2 & HN' & Hl2).
    rewrite HN in HN'. injection HN' as <- <-.
    destruct Hl2 as (Hrel2 & Hsl2 & _ & _ & Hcase2). rewrite Hsl1 in Hsl2.
    destruct ys as [|x' ys']; cbn [hd] in Hcase2.
    { cbn [Z.eqb negb andb] in Hcase2. by destruct Hcase2. }
    destruct (negb (x' =? 0) && _) in Hcase2; [|by destruct Hcase2].
    destruct Hcase2 as (_ & Hn2 & Hk2 & Hv2).
    replace (l1 ++ x :: x' :: ys') with ((l1 ++ [x]) ++ x' :: ys') in HI
      by (by rewrite <- app_assoc).
    destruct (Prev_at any_key cmp HC p (l1 ++ [x]) x' ys' i2 HI Hrel2 Hn2 Hk2)
      as (i3 & ok3 & HP & Hl3).
    destruct Hl3 as (_ & _ & _ & _ & Hcase3). rewrite lastd_snoc in Hcase3.
    unfold inside in Hcase3. rewrite Hsl2 in Hcase3. cbn [negb] in Hcase3.
    assert (x ∈ (l1 ++ [x]) ++ x' :: ys') as Hx
      by (rewrite !elem_of_app, !elem_of_cons; auto).
    pose proof (Inv_pos _ _ _ _ _ HI Hx) as Hpos.
    destruct (Z.eqb_spec x 0); [consts; lia|]. cbn [negb andb] in Hcase3.
    destruct Hcase3 as (-> & _ & Hk3 & Hv3).
    exists i3. split; [done|]. by rewrite Hk3, Hv3, Hk1, Hv1.
  - intros HP.
    destruct (Prev_at any_key cmp HC p l1 x ys i1 HI Hrel1 Hn1 Hk1) as (i2' & ok2 & HP' & Hl2).
    rewrite HP in HP'. injection HP' as <- <-.
    destruct Hl2 as (Hrel2 & Hsl2 & _ & _ & Hcase2). rewrite Hsl1 in Hsl2.
    destruct (snoc_or_nil l1) as [->|(pre & x' & ->)].
    { change (lastd 0 []) with 0 in Hcase2.
      cbn [Z.eqb negb andb] in Hcase2. by destruct Hcase2. }
    rewrite lastd_snoc in Hcase2.
    destruct (negb (x' =? 0) && _) in Hcase2; [|by destruct Hcase2].
    destruct Hcase2 as (_ & Hn2 & Hk2 & Hv2).
    rewrite <- app_assoc in HI. cbn [app] in HI.
    destruct (Next_at any_key cmp p pre x' (x :: ys) i2 HI Hrel2 Hn2)
      as (i3 & ok3 & HN & Hl3).
    destruct Hl3 as (_ & _ & _ & _ & Hcase3). cbn [hd] in Hcase3.
    unfold inside in Hcase3. rewrite Hsl2 in Hcase3. cbn [negb] in Hcase3.
    assert (x ∈ pre ++ x' :: x :: ys) as Hx
      by (rewrite !elem_of_app, !elem_of_cons; auto).
    pose proof (Inv_pos _ _ _ _ _ HI Hx) as Hpos.
    destruct (Z.eqb_spec x 0); [consts; lia|]. cbn [negb andb] in Hcase3.
    destruct Hcase3 as (-> & _ & Hk3 & Hv3).
    exists i3. split; [done|]. by rewrite Hk3, Hv3, Hk1, Hv1.
Qed.

Lemma next_prev_inverse_witness :
  BasicComparer any_key bytes_Compare
  /\ reachable any_key bytes_Compare rand0 grow2 two_entry_store
  /\ it_released (NewIterator None) = false /\ it_slice (NewIterator None) = None
  /\ Seek bytes_Compare two_entry_store (NewIterator None) (b_ "a")
     = Ok (two_entry_store, iter_at_a, true)
  /\ Next bytes_Compare two_entry_store iter_at_a = Ok (two_entry_store, iter_at_b, true)
  /\ exists i3, Prev bytes_Compare two_entry_store iter_at_b = Ok (two_entry_store, i3, true)
                /\ Key i3 = Key iter_at_a /\ Value i3 = Value iter_at_a.
Proof.
  split; [exact bytes_Compare_lawful|].
  split; [exact two_entry_store_reachable|].
  split; [reflexivity|]. split; [reflexivity|].
  split; [vm_compute; reflexivity|].
  split; [vm_compute; reflexivity|].
  apply (next_prev_inverse bytes_Compare rand0 grow2 two_entry_store (NewIterator None)
           (b_ "a") iter_at_a iter_at_b bytes_Compare_lawful two_entry_store_reachable
           eq_refl eq_refl).
  - vm_compute; reflexivity.
  - vm_compute; reflexivity.
Defined.

(** X10.  The two ends of a store reached from a fresh one, for an
    iterator without a range.  [Prev] right after [First] returns false and
    leaves the iterator not valid, and the [Next] that follows starts over:
    it returns what [First] returned, on the same entry.  In the same way
    [Next] right after [Last] returns false, and the [Prev] that follows
    returns what [Last] returned, on the same entry. *)
Theorem iterator_ends
    (cmp : bytes -> bytes -> Z) (rand_Int : nat -> Z) (growslice : Z -> Z -> Z)
    (p : DB_) (i0 : dbIter_) :
  BasicComparer any_key cmp ->
  reachable any_key cmp rand_Int growslice p ->
  it_released i0 = false -> it_slice i0 = None ->
  (exists i1 ok1 i2 i3,
     First cmp p i0 = Ok (p, i1, ok1)
     /\ Prev cmp p i1 = Ok (p, i2, false) /\ Valid i2 = false
     /\ Next cmp p i2 = Ok (p, i3, ok1)
     /\ Key i3 = Key i1 /\ Value i3 = Value i1)
  /\ (exists j1 ok1 j2 j3,
        Last cmp p i0 = Ok (p, j1, ok1)
        /\ Next cmp p j1 = Ok (p, j2, false) /\ Valid j2 = false
        /\ Prev cmp p j2 = Ok (p, j3, ok1)
        /\ Key j3 = Key j1 /\ Value j3 = Value j1).
Proof.
  intros HC Hreach Hrel Hsl.
  destruct (reachable_Repr any_key cmp HC rand_Int growslice p Hreach) as (m & l & HI & Hm).
  assert (forall i, it_slice i = None -> slice_start i = None /\ slice_limit i = None)
    as Hnone by (intros i Hi; unfold slice_start, slice_limit; by rewrite Hi).
  assert (forall x, x ∈ l -> negb (x =? 0) = true) as Hlive.
  { intros x Hx. pose proof (Inv_pos _ _ _ _ _ HI Hx).
    destruct (Z.eqb_spec x 0); [consts; lia|done]. }
  assert (forall i x cs cl, it_slice i = None ->
            inside cmp (it_slice i) cs cl (keyOf (nodeData p) (kvData p) x) = true)
    as Hin by (intros i x cs cl Hi; unfold inside; by rewrite Hi).
  unfold Valid, Key, Value. split.
  - destruct (First_at any_key cmp HC p l i0 HI Hrel) as
      (l1 & l2 & i1 & ok1 & El & Hsp & HF & Hl1).
    { by rewrite (proj1 (Hnone i0 Hsl)). }
    rewrite (proj1 (Hnone i0 Hsl)) in Hsp. cbn in Hsp. subst l1. cbn [app] in El. subst l2.
    destruct Hl1 as (Hrel1 & Hsl1 & Hfw1 & _ & Hcase1). rewrite Hsl in Hsl1.
    rewrite (Hin i0 _ _ _ Hsl), andb_true_r in Hcase1.
    (* the [Prev] after [First] *)
    assert (exists i2, Prev cmp p i1 = Ok (p, i2, false)
              /\ it_released i2 = false /\ it_slice i2 = None
              /\ it_node i2 = 0 /\ it_forward i2 = false) as (i2 & HP & Hrel2 & Hsl2 & Hn2 & Hfw2).
    { destruct l as [|x ys]; cbn [hd] in Hcase1.
      - cbn [Z.eqb negb] in Hcase1. destruct Hcase1 as (_ & Hn1 & _).
        unfold Prev. rewrite Hrel1, Hn1, Hfw1. cbn [Z.eqb].
        destruct (Last_at any_key cmp HC p [] i1 HI Hrel1) as
          (l1 & l2 & i2 & ok2 & El & _ & HL & Hl2).
        { by rewrite (proj2 (Hnone i1 Hsl1)). }
        symmetry in El. apply app_eq_nil in El as [-> ->].
        destruct Hl2 as (Hrel2 & Hsl2 & Hfw2 & _ & Hcase2).
        change (lastd 0 []) with 0 in Hcase2. cbn [Z.eqb negb andb] in Hcase2.
        destruct Hcase2 as (-> & Hn2 & _). exists i2. rewrite Hsl2. done.
      - rewrite (Hlive x ltac:(apply list_elem_of_here)) in Hcase1.
        destruct Hcase1 as (_ & Hn1 & Hk1 & _).
        destruct (Prev_at any_key cmp HC p [] x ys i1 HI Hrel1 Hn1 Hk1)
          as (i2 & ok2 & HP & Hl2).
        destruct Hl2 as (Hrel2 & Hsl2 & Hfw2 & _ & Hcase2).
        change (lastd 0 []) with 0 in Hcase2. cbn [Z.eqb negb andb] in Hcase2.
        destruct Hcase2 as (-> & Hn2 & _). exists i2. rewrite Hsl2. done. }
    exists i1, ok1, i2.
    (* the [Next] after that *)
    destruct (First_at any_key cmp HC p l i2 HI Hrel2) as
      (l1 & l2 & i3 & ok3 & El & Hsp & HF3 & Hl3).
    { by rewrite (proj1 (Hnone i2 Hsl2)). }
    rewrite (proj1 (Hnone i2 Hsl2)) in Hsp. cbn in Hsp. subst l1. cbn [app] in El. subst l2.
    destruct Hl3 as (_ & _ & _ & _ & Hcase3).
    rewrite (Hin i2 _ _ _ Hsl2), andb_true_r in Hcase3.
    assert (Next cmp p i2 = First cmp p i2) as HN.
    { unfold Next. rewrite Hrel2, Hn2, Hfw2. cbn [Z.eqb negb].
      unfold First. by rewrite Hrel2. }
    exists i3. split; [done|]. split; [done|]. split; [by rewrite Hn2|].
    rewrite HN, HF3.
    destruct (negb (hd 0 l =? 0)).
    + destruct Hcase1 as (-> & _ & -> & ->), Hcase3 as (-> & _ & -> & ->). done.
    + destruct Hcase1 as (-> & _ & -> & ->), Hcase3 as (-> & _ & -> & ->). done.
  - destruct (Last_at any_key cmp HC p l i0 HI Hrel) as
      (l1 & l2 & j1 & ok1 & El & Hsp & HL & Hl1).
    { by rewrite (proj2 (Hnone i0 Hsl)). }
    rewrite (proj2 (Hnone i0 Hsl)) in Hsp. cbn in Hsp. subst l2.
    rewrite app_nil_r in El. subst l1.
    destruct Hl1 as (Hrel1 & Hsl1 & Hfw1 & _ & Hcase1). rewrite Hsl in Hsl1.
    rewrite (Hin i0 _ _ _ Hsl), andb_true_r in Hcase1.
    (* the [Next] after [Last] *)
    assert (exists j2, Next cmp p j1 = Ok (p, j2, false)
              /\ it_released j2 = false /\ it_slice j2 = None
              /\ it_node j2 = 0 /\ it_forward j2 = true) as (j2 & HN & Hrel2 & Hsl2 & Hn2 & Hfw2).
    { destruct (snoc_or_nil l) as [El|(pre & x & El)].
      - rewrite El in Hcase1. change (lastd 0 []) with 0 in Hcase1.
        cbn [Z.eqb negb] in Hcase1. destruct Hcase1 as (_ & Hn1 & _).
        unfold Next. rewrite Hrel1, Hn1, Hfw1. cbn [Z.eqb negb].
        destruct (First_at any_key cmp HC p l j1 HI Hrel1) as
          (l1 & l2 & j2 & ok2 & El2 & _ & HF & Hl2).
        { by rewrite (proj1 (Hnone j1 Hsl1)). }
        rewrite El in El2. symmetry in El2. apply app_eq_nil in El2 as [-> ->].
        destruct Hl2 as (Hrel2 & Hsl2 & Hfw2 & _ & Hcase2).
        cbn [hd Z.eqb negb andb] in Hcase2.
        destruct Hcase2 as (-> & Hn2 & _). exists j2. rewrite Hsl2. done.
      - rewrite El, lastd_snoc in Hcase1.
        rewrite (Hlive x) in Hcase1
          by (rewrite El, elem_of_app, elem_of_cons; auto).
        destruct Hcase1 as (_ & Hn1 & Hk1 & _).
        assert (Inv any_key cmp p (pre ++ [x])) as HI' by by rewrite <- El.
        destruct (Next_at any_key cmp p pre x [] j1 HI' Hrel1 Hn1)
          as (j2 & ok2 & HN & Hl2).
        destruct Hl2 as (Hrel2 & Hsl2 & Hfw2 & _ & Hcase2).
        cbn [hd Z.eqb negb andb] in Hcase2.
        destruct Hcase2 as (-> & Hn2 & _). exists j2. rewrite Hsl2. done. }
    exists j1, ok1, j2.
    (* the [Prev] after that *)
    destruct (Last_at any_key cmp HC p l j2 HI Hrel2) as
      (l1 & l2 & j3 & ok3 & El & Hsp & HL3 & Hl3).
    { by rewrite (proj2 (Hnone j2 Hsl2)). }
    rewrite (proj2 (Hnone j2 Hsl2)) in Hsp. cbn in Hsp. subst l2.
    rewrite app_nil_r in El. subst l1.
    destruct Hl3 as (_ & _ & _ & _ & Hcase3).
    rewrite (Hin j2 _ _ _ Hsl2), andb_true_r in Hcase3.
    assert (Prev cmp p j2 = Last cmp p j2) as HP.
    { unfold Prev. rewrite Hrel2, Hn2, Hfw2. cbn [Z.eqb].
      unfold Last. by rewrite Hrel2. }
    exists j3. split; [done|]. split; [done|]. split; [by rewrite Hn2|].
    rewrite HP, HL3.
    destruct (negb (lastd 0 l =? 0)).
    + destruct Hcase1 as (-> & _ & -> & ->), Hcase3 as (-> & _ & -> & ->). done.
    + destruct Hcase1 as (-> & _ & -> & ->), Hcase3 as (-> & _ & -> & ->). done.
Qed.

Lemma iterator_ends_witness :
  BasicComparer any_key bytes_Compare
  /\ reachable any_key bytes_Compare rand0 grow2 two_entry_store
  /\ it_released (NewIterator None) = false /\ it_slice (NewIterator None) = None
  /\ exists i1 ok1 i2 i3,
     First bytes_Compare two_entry_store (NewIterator None) = Ok (two_entry_store, i1, ok1)
     /\ Prev bytes_Compare two_entry_store i1 = Ok (two_entry_store, i2, false)
     /\ Valid i2 = false
     /\ Next bytes_Compare two_entry_store i2 = Ok (two_entry_store, i3, ok1)
     /\ Key i3 = Key i1 /\ Value i3 = Value i1.
Proof.
  split; [exact bytes_Compare_lawful|].
  split; [exact two_entry_store_reachable|].
  split; [reflexivity|]. split; [reflexivity|].
  exact (proj1 (iterator_ends bytes_Compare rand0 grow2 two_entry_store (NewIterator None)
                  bytes_Compare_lawful two_entry_store_reachable eq_refl eq_refl)).
Defined.

(** X11.  After [Release], on any store whatever: the iterator is not
    valid, [Key()] and [Value()] are empty, each of [First], [Last],
    [Seek], [Next] and [Prev] returns false without reading the store and
    sets [Error()] to ErrIterReleased, the iterator stays released after
    such a call, and a second [Release] changes nothing. *)
Theorem released_iterator_fails
    (cmp : bytes -> bytes -> Z) (p : DB_) (i : dbIter_) (key : bytes) :
  it_released i = false ->
  Valid (Release i) = false /\ Key (Release i) = [] /\ Value (Release i) = []
  /\ Release (Release i) = Release i
  /\ (forall i', it_released i' = true ->
        First cmp p i' = Ok (p, it_set_err i' ErrIterReleased, false)
        /\ Last cmp p i' = Ok (p, it_set_err i' ErrIterReleased, false)
        /\ Seek cmp p i' key = Ok (p, it_set_err i' ErrIterReleased, false)
        /\ Next cmp p i' = Ok (p, it_set_err i' ErrIterReleased, false)
        /\ Prev cmp p i' = Ok (p, it_set_err i' ErrIterReleased, false)
        /\ Error (it_set_err i' ErrIterReleased) = ErrIterReleased
        /\ it_released (it_set_err i' ErrIterReleased) = true)
  /\ it_released (Release i) = true.
Proof.
  intros Hrel. unfold Release. rewrite Hrel. cbn [negb].
  split; [done|]. split; [done|]. split; [done|]. split; [done|]. split; [|done].
  intros i' Hi'. unfold First, Last, Seek, Next, Prev. rewrite Hi'. done.
Qed.

Lemma released_iterator_fails_witness :
  it_released iter_at_a = false
  /\ Valid (Release iter_at_a) = false
  /\ Next bytes_Compare two_entry_store (Release iter_at_a)
     = Ok (two_entry_store, it_set_err (Release iter_at_a) ErrIterReleased, false).
Proof.
  split; [reflexivity|].
  destruct (released_iterator_fails bytes_Compare two_entry_store iter_at_a [] eq_refl)
    as (Hv & _ & _ & _ & Hmoves & Hr).
  split; [exact Hv|]. exact (proj1 (proj2 (proj2 (proj2 (Hmoves _ Hr))))).
Defined.

End IterExtras.

(** ** Replaying, joining and reusing batches *)

Module BatchMore.
Import binary leveldb Bytes Wire Mem Varint Writer Append
  Decode Roundtrip.

Lemma read_parts d ix kt key value :
  read d ix = Ok (kt, key, value) ->
  keyType ix = kt /\ k ix d = Ok key /\ v ix d = Ok value.
Proof.
  unfold read. intros (key0 & Hk & H)%bind_inv.
  apply bind_inv in H as (value0 & Hv & H). by injection H as <- <- <-.
Qed.

(** *** What [Put] and [Delete] build, with the internal length *)

Lemma weigh_nonneg rs : 0 <= weigh rs.
Proof.
  induction rs as [|[[kt key] value] rs IH]; [done|].
  unfold weigh in *. cbn [fold_right].
  pose proof (len_nonneg key). pose proof (len_nonneg value). lia.
Qed.

Lemma weigh_app rs1 rs2 : weigh (rs1 ++ rs2) = weigh rs1 + weigh rs2.
Proof.
  induction rs1 as [|[[kt key] value] rs1 IH]; [done|].
  unfold weigh in *. cbn [fold_right app]. rewrite IH. lia.
Qed.

Lemma build_exact ops : forall b, Forall short_op ops ->
  exists sp, build b ops
    = Ok (mkBatch (data b ++ enc (records ops)) sp
            (index b ++ indexes (len (data b)) (records ops))
            (internalLen b + weigh (records ops))).
Proof.
  induction ops as [|o ops IH]; intros b Hs.
  - exists (spare b). cbn [build records map indexes weigh fold_right].
    unfold enc. cbn [map concat]. rewrite !app_nil_r, Z.add_0_r. by destruct b.
  - apply Forall_cons in Hs as [Ho Hs].
    assert (exists sp1, apply_bop b o
              = Ok (mkBatch (data b ++ enc_rec (bop_record o)) sp1
                      (index b ++ [index_at (len (data b)) (bop_record o)])
                      (internalLen b + weigh [bop_record o]))) as [sp1 E1].
    { destruct o as [key value|key]; cbn [short_op apply_bop bop_record] in *.
      - destruct Ho as [Hk Hv]. destruct (appendRec_val b key value Hk Hv) as [sp E].
        unfold Put. rewrite E. exists sp. do 2 f_equal.
        unfold weigh. cbn [fold_right]. lia.
      - destruct (appendRec_del b key Ho) as [sp E].
        unfold Delete. rewrite E. exists sp. do 2 f_equal.
        unfold weigh. cbn [fold_right]. change (len (@nil byte)) with 0. lia. }
    cbn [build]. rewrite (bind_Ok _ _ _ E1).
    destruct (IH (mkBatch (data b ++ enc_rec (bop_record o)) sp1
                   (index b ++ [index_at (len (data b)) (bop_record o)])
                   (internalLen b + weigh [bop_record o])) Hs) as (sp & E).
    rewrite E. exists sp. cbn [data index internalLen records map indexes].
    unfold enc. cbn [map concat]. rewrite <- !app_assoc, len_app. do 2 f_equal.
    change (bop_record o :: map bop_record ops) with ([bop_record o] ++ records ops).
    rewrite weigh_app. lia.
Qed.

(** The entries of the index read the records, whatever follows the
    records in the buffer. *)
Lemma holds_indexes rs : forall pre post, Forall tag_ok rs ->
  Forall2 (fun ix r => read (pre ++ enc rs ++ post) ix
                       = Ok (let '(kt, key, value) := r in
                             (kt, key, if kt =? keyTypeVal then value else [])))
          (indexes (len pre) rs) rs.
Proof.
  induction rs as [|r rs IH]; intros pre post Htag; [constructor|].
  apply Forall_cons in Htag as [Hr Htag].
  unfold enc in *. cbn [map concat indexes]. constructor.
  - rewrite <- app_assoc. by apply read_index_at.
  - specialize (IH (pre ++ enc_rec r) post Htag).
    rewrite len_app, <- !app_assoc in IH. rewrite <- app_assoc. exact IH.
Qed.

(** *** [Replay] and [replayInternal] *)

Section replay.
Context {R : Type} `{BatchReplay R}.

Lemma Replay_loop_records ops : forall pre post (r : R),
  Replay_loop (pre ++ enc (records ops) ++ post) (indexes (len pre) (records ops)) r
  = play ops r.
Proof.
  induction ops as [|o ops IH]; intros pre post r; [done|].
  unfold records, enc in *. cbn [map concat indexes Replay_loop].
  rewrite <- app_assoc.
  pose proof (read_index_at pre (bop_record o)
                (concat (map enc_rec (map bop_record ops)) ++ post) (tag_ok_bop o)) as Hr.
  assert (forall r', Replay_loop
            (pre ++ enc_rec (bop_record o) ++ concat (map enc_rec (map bop_record ops)) ++ post)
            (indexes (len pre + len (enc_rec (bop_record o))) (map bop_record ops)) r'
          = play ops r') as Hrest.
  { intros r'. specialize (IH (pre ++ enc_rec (bop_record o)) post r').
    rewrite len_app, <- !app_assoc in IH. exact IH. }
  destruct o as [key value|key]; cbn [bop_record play] in *.
  - apply read_parts in Hr as (Hkt & Hk & Hv). rewrite Hkt.
    change (keyTypeVal =? keyTypeVal) with true in *. cbv iota in *.
    rewrite (bind_Ok _ _ _ Hk), (bind_Ok _ _ _ Hv).
    destruct (BatchReplay_Put r key value) as [r'| |]; [apply Hrest|done|done].
  - apply read_parts in Hr as (Hkt & Hk & Hv). rewrite Hkt.
    change (keyTypeDel =? keyTypeVal) with false. change (keyTypeDel =? keyTypeDel) with true.
    cbv iota. rewrite (bind_Ok _ _ _ Hk).
    destruct (BatchReplay_Delete r key) as [r'| |]; [apply Hrest|done|done].
Qed.

End replay.

Section replayInternal.
Context {St : Type}.
Variable fn : St -> Z -> Z -> bytes -> bytes -> res (St * error).

Lemma replayInternal_loop_records ops : forall pre post i (st : St),
  replayInternal_loop fn (pre ++ enc (records ops) ++ post) i
    (indexes (len pre) (records ops)) st
  = visit fn i (records ops) st.
Proof.
  induction ops as [|o ops IH]; intros pre post i st; [done|].
  unfold records, enc in *. cbn [map concat indexes replayInternal_loop visit].
  rewrite <- app_assoc.
  pose proof (read_index_at pre (bop_record o)
                (concat (map enc_rec (map bop_record ops)) ++ post) (tag_ok_bop o)) as Hr.
  rewrite norm_bop in Hr.
  assert (forall st', replayInternal_loop fn
            (pre ++ enc_rec (bop_record o) ++ concat (map enc_rec (map bop_record ops)) ++ post)
            (i + 1)
            (indexes (len pre + len (enc_rec (bop_record o))) (map bop_record ops)) st'
          = visit fn (i + 1) (map bop_record ops) st') as Hrest.
  { intros st'. specialize (IH (pre ++ enc_rec (bop_record o)) post (i + 1) st').
    rewrite len_app, <- !app_assoc in IH. exact IH. }
  destruct (bop_record o) as [[kt key] value].
  apply read_parts in Hr as (Hkt & Hk & Hv). rewrite Hkt.
  rewrite (bind_Ok _ _ _ Hk), (bind_Ok _ _ _ Hv).
  destruct (fn st i kt key value) as [[st' e]| |]; [|done|done].
  cbn. destruct e; [apply Hrest|done|done|done].
Qed.

End replayInternal.

(** *** Reading through a longer buffer *)

Lemma slice_app_l {A} (d e : list A) lo hi t :
  slice d lo hi = Ok t -> slice (d ++ e) lo hi = Ok t.
Proof.
  intros (Hlo & Hhi & ->)%slice_inv. pose proof (len_nonneg e).
  rewrite slice_in_range by (rewrite ?len_app; lia).
  f_equal. unfold len in *. rewrite drop_app_le by lia. rewrite take_app_le; [done|].
  rewrite length_drop. lia.
Qed.

Lemma slice_app_r {A} (pre d : list A) lo hi t :
  slice d lo hi = Ok t -> slice (pre ++ d) (len pre + lo) (len pre + hi) = Ok t.
Proof.
  intros (Hlo & Hhi & ->)%slice_inv. pose proof (len_nonneg pre).
  rewrite slice_in_range by (rewrite ?len_app; lia). f_equal.
  replace (len pre + hi - (len pre + lo)) with (hi - lo) by lia.
  replace (Z.to_nat (len pre + lo)) with (length pre + Z.to_nat lo)%nat by (unfold len; lia).
  by rewrite drop_app_add.
Qed.

Lemma read_app_l d e ix r : read d ix = Ok r -> read (d ++ e) ix = Ok r.
Proof.
  destruct r as [[kt key] value]. intros (Hkt & Hk & Hv)%read_parts.
  unfold read, k, v in *. rewrite (slice_app_l _ e _ _ _ Hk).
  rewrite (bind_Ok (Ok _) _ _ eq_refl).
  destruct (negb (valueLen ix =? 0)).
  - rewrite (slice_app_l _ e _ _ _ Hv). rewrite (bind_Ok (Ok _) _ _ eq_refl). by rewrite Hkt.
  - injection Hv as <-. rewrite (bind_Ok (Ok _) _ _ eq_refl). by rewrite Hkt.
Qed.

Lemma read_shift pre d ix r :
  len pre + len d < 2 ^ 63 -> read d ix = Ok r ->
  read (pre ++ d) (append_shift (len pre) ix) = Ok r.
Proof.
  destruct r as [[kt key] value]. intros Hlen (Hkt & Hk & Hv)%read_parts.
  pose proof (len_nonneg pre). unfold k in Hk. unfold v in Hv.
  pose proof Hk as (Hb1 & Hb2 & _)%slice_inv.
  unfold read, k, v, append_shift. cbn [keyType keyPos keyLen valuePos valueLen].
  rewrite (wrap_int_small (keyPos ix + len pre)) by lia.
  replace (keyPos ix + len pre) with (len pre + keyPos ix) by lia.
  replace (len pre + keyPos ix + keyLen ix) with (len pre + (keyPos ix + keyLen ix)) by lia.
  rewrite (slice_app_r pre d _ _ _ Hk). rewrite (bind_Ok (Ok _) _ _ eq_refl).
  destruct (Z.eqb_spec (valueLen ix) 0) as [Hz|Hnz]; cbn [negb] in *.
  - injection Hv as <-. rewrite (bind_Ok (Ok _) _ _ eq_refl). by rewrite Hkt.
  - pose proof Hv as (Hc1 & Hc2 & _)%slice_inv.
    rewrite (wrap_int_small (valuePos ix + len pre)) by lia.
    replace (valuePos ix + len pre) with (len pre + valuePos ix) by lia.
    replace (len pre + valuePos ix + valueLen ix)
      with (len pre + (valuePos ix + valueLen ix)) by lia.
    rewrite (slice_app_r pre d _ _ _ Hv). rewrite (bind_Ok (Ok _) _ _ eq_refl).
    by rewrite Hkt.
Qed.

(** *** [append] *)

Lemma append_loop_spec ob post : forall pre fuel,
  (length post < fuel)%nat ->
  append_loop fuel (pre ++ post) (len pre) ob = Ok (pre ++ map (append_shift ob) post).
Proof.
  induction post as [|ix post IH]; intros pre fuel Hfuel.
  - destruct fuel; [simpl in Hfuel; lia|]. cbn [append_loop map].
    destruct (Z.ltb_spec (len pre) (len (pre ++ []))) as [Hlt|_]; [|done].
    rewrite app_nil_r in Hlt. lia.
  - destruct fuel; [simpl in Hfuel; lia|]. cbn [append_loop map].
    pose proof (len_nonneg post).
    destruct (Z.ltb_spec (len pre) (len (pre ++ ix :: post))) as [_|Hge];
      [|rewrite len_app, len_cons in Hge; lia].
    rewrite (bind_Ok _ _ _ (elem_mid pre ix post)).
    rewrite (bind_Ok _ _ _ (assign_end pre (ix :: post) _
               ltac:(rewrite len_cons; lia))).
    cbn [drop]. replace (len pre + 1) with (len (pre ++ [append_shift ob ix]))
      by (by rewrite len_app).
    rewrite IH by (simpl in Hfuel; lia). by rewrite <- app_assoc.
Qed.

Lemma len_zero_nil {A} (l : list A) : len l = 0 -> l = [].
Proof. destruct l; [done|]. rewrite len_cons. pose proof (len_nonneg l). lia. Qed.

Lemma append_spec growslice b p rs1 rs2 :
  holds b rs1 -> holds p rs2 -> len (data b) + len (data p) < 2 ^ 63 ->
  exists sp ixs,
    append growslice b p
    = Ok (mkBatch (data b ++ data p) sp ixs (wrap_int (internalLen b + internalLen p)))
    /\ len ixs = len (index b) + len (index p)
    /\ Forall2 (fun ix r => read (data b ++ data p) ix = Ok r) ixs (rs1 ++ rs2).
Proof.
  intros Hb Hp Hlen. unfold holds in *. unfold append.
  assert (exists sp, append_bytes growslice (data b) (spare b) (data p)
                     = (data b ++ data p, sp)) as [sp ->].
  { unfold append_bytes. destruct (len (data p) <=? len (spare b)); by eexists. }
  destruct (Z.eqb_spec (len (data b)) 0) as [Hz|Hnz]; cbn [negb].
  - rewrite (bind_Ok (Ok _) _ _ eq_refl). eexists _, _. split; [reflexivity|].
    split; [by rewrite len_app|].
    apply len_zero_nil in Hz. rewrite Hz in *. cbn [app].
    apply Forall2_app; [|done].
    eapply Forall2_impl; [exact Hb|]. intros ix r Hr. by apply (read_app_l [] (data p)).
  - pose proof (append_loop_spec (len (data b)) (index p) (index b)
                  (S (length (index p))) ltac:(lia)) as Hloop.
    rewrite (bind_Ok _ _ _ Hloop). eexists _, _. split; [reflexivity|]. split.
    + rewrite !len_app. unfold len. by rewrite length_map.
    + apply Forall2_app.
      * eapply Forall2_impl; [exact Hb|]. intros ix r Hr. by apply read_app_l.
      * apply Forall2_fmap_l. eapply Forall2_impl; [exact Hp|].
        intros ix r Hr. by apply read_shift.
Qed.

(** *** The internal length that [Load] computes *)

Lemma decode_loop_weigh ops : forall fuel pre b i,
  len (pre ++ enc (records ops)) < 2 ^ 63 -> (length ops < fuel)%nat ->
  0 <= internalLen b -> internalLen b + weigh (records ops) < 2 ^ 63 ->
  decodeBatch_loop decode_fn fuel (pre ++ enc (records ops)) b i (len pre)
  = Ok (mkBatch (data b) (spare b) (index b ++ indexes (len pre) (records ops))
          (internalLen b + weigh (records ops)), nil_error).
Proof.
  induction ops as [|o ops IH]; intros fuel pre b i Hlen Hfuel Hil Hw.
  - destruct fuel as [|fuel]; [lia|]. cbn [decodeBatch_loop].
    unfold enc. cbn [records map concat]. rewrite app_nil_r.
    destruct (Z.ltb_spec (len pre) (len pre)); [lia|].
    cbn [indexes weigh fold_right]. rewrite app_nil_r, Z.add_0_r. by destruct b.
  - destruct fuel as [|fuel]; [simpl in Hfuel; lia|].
    unfold records, enc in *. cbn [map concat] in *.
    change (bop_record o :: map bop_record ops) with ([bop_record o] ++ records ops) in Hw.
    rewrite weigh_app in Hw. pose proof (weigh_nonneg (records ops)) as Hw0.
    rewrite decodeBatch_loop_step by (done || apply tag_ok_bop).
    rewrite (bind_Ok (decode_fn b i _) _ _ eq_refl). cbv beta iota.
    replace (len pre + len (enc_rec (bop_record o))) with (len (pre ++ enc_rec (bop_record o)))
      by (by rewrite len_app).
    rewrite (app_assoc pre).
    assert (keyLen (index_at (len pre) (bop_record o))
            + valueLen (index_at (len pre) (bop_record o)) + 8 = weigh [bop_record o]) as Hk.
    { destruct o as [key value|key]; unfold weigh; cbn; [lia|].
      change (len (@nil byte)) with 0. lia. }
    assert (8 <= weigh [bop_record o]) as H8.
    { rewrite <- Hk. destruct o as [key value|key]; cbn;
        [pose proof (len_nonneg key); pose proof (len_nonneg value); lia|
         pose proof (len_nonneg key); lia]. }
    rewrite (wrap_int_small (keyLen _ + valueLen _)) by lia.
    rewrite (wrap_int_small (keyLen _ + valueLen _ + 8)) by lia.
    rewrite Hk. rewrite (wrap_int_small (internalLen b + _)) by lia.
    rewrite IH; cbn [data spare index internalLen].
    + rewrite <- app_assoc. cbn [indexes app]. rewrite len_app. do 3 f_equal.
      change (bop_record o :: map bop_record ops) with ([bop_record o] ++ records ops).
      rewrite weigh_app. unfold records. lia.
    + by rewrite <- app_assoc.
    + simpl in Hfuel. lia.
    + lia.
    + unfold records in *. lia.
Qed.

Lemma Load_weigh b0 ops :
  len (enc (records ops)) < 2 ^ 63 -> weigh (records ops) < 2 ^ 63 ->
  Load b0 (enc (records ops))
  = Ok (mkBatch (enc (records ops)) [] (indexes 0 (records ops)) (weigh (records ops)),
        nil_error).
Proof.
  intros Hlen Hw. unfold Load, decode, decodeBatch. cbv zeta.
  pose proof (decode_loop_weigh ops (S (length (enc (records ops)))) []
                (mkBatch (enc (records ops)) [] [] 0) 0) as E.
  cbn [app data spare index internalLen] in E.
  change (len (@nil byte)) with 0 in E. rewrite E; [| done | | done | done].
  - by rewrite (bind_Ok (Ok _) _ _ eq_refl).
  - pose proof (len_enc_ge (records ops)). unfold records, len in *.
    rewrite length_map in *. lia.
Qed.

Lemma play_build ops : forall b, play ops b = build b ops.
Proof.
  induction ops as [|o ops IH]; intros b; [done|].
  destruct o as [key value|key]; cbn [play build apply_bop BatchReplay_Put
    BatchReplay_Delete Batch_BatchReplay].
  - destruct (Put b key value); [apply IH|done|done].
  - destruct (Delete b key); [apply IH|done|done].
Qed.

Lemma records_tag_ok ops : Forall tag_ok (records ops).
Proof. unfold records. apply Forall_map, Forall_forall. intros o _. apply tag_ok_bop. Qed.

Lemma built_record_at ops sp il i :
  record_at (mkBatch (enc (records ops)) sp (indexes 0 (records ops)) il) i
  = (fun o => Ok (bop_record o)) <$> ops !! i.
Proof.
  rewrite record_at_read. cbn [data index].
  pose proof (read_indexes ops [] [] i) as Hr.
  cbn [app] in Hr. rewrite app_nil_r in Hr. exact Hr.
Qed.

End BatchMore.

Module BatchExtras.
Import binary leveldb Bytes Wire Mem Varint Writer Append
  Decode Roundtrip MemClaims BatchMore.

(** X12.  A batch built from an empty one by [Put] and [Delete] calls
    whose keys and values are shorter than [2^35] bytes: [Dump()] is the
    concatenation of the records on the wire (op tag, varint key length, key
    and, for a put, varint value length and value), [Len()] is the number of
    calls and the internal length is the sum over the calls of key length
    plus value length plus 8; [Load] of the dump returns nil and gives a
    batch with the same dump, [Len()], internal length and records. *)
Theorem dump_load_round_trip (b0 : Batch) (ops : list bop) :
  Forall short_op ops ->
  len (enc (records ops)) < 2 ^ 63 -> weigh (records ops) < 2 ^ 63 ->
  exists b b',
    build newBatch ops = Ok b
    /\ Dump b = enc (records ops) /\ Len b = len ops
    /\ internalLen b = weigh (records ops)
    /\ Load b0 (Dump b) = Ok (b', nil_error)
    /\ Dump b' = Dump b /\ Len b' = Len b /\ internalLen b' = internalLen b
    /\ forall i, record_at b' i = record_at b i
                 /\ record_at b i = (fun o => Ok (bop_record o)) <$> ops !! i.
Proof.
  intros Hs Hlen Hw. destruct (build_exact ops newBatch Hs) as (sp & E).
  cbn [newBatch data index internalLen app] in E. change (len (@nil byte)) with 0 in E.
  rewrite Z.add_0_l in E.
  eexists _, _. split; [exact E|]. unfold Dump, Len. cbn [data index internalLen].
  split; [done|]. split.
  { rewrite len_indexes. unfold records, len. by rewrite length_map. }
  split; [done|]. split; [by apply Load_weigh|]. cbn [data index internalLen].
  split; [done|]. split; [done|]. split; [done|].
  intros i. by rewrite !built_record_at.
Qed.

Lemma dump_load_round_trip_witness :
  Forall short_op three_ops
  /\ len (enc (records three_ops)) < 2 ^ 63 /\ weigh (records three_ops) < 2 ^ 63
  /\ exists b b',
    build newBatch three_ops = Ok b
    /\ Dump b = enc (records three_ops) /\ Len b = len three_ops
    /\ internalLen b = weigh (records three_ops)
    /\ Load newBatch (Dump b) = Ok (b', nil_error)
    /\ Dump b' = Dump b /\ Len b' = Len b /\ internalLen b' = internalLen b
    /\ forall i, record_at b' i = record_at b i
                 /\ record_at b i = (fun o => Ok (bop_record o)) <$> three_ops !! i.
Proof.
  split; [exact three_ops_short|].
  split; [vm_compute; reflexivity|]. split; [vm_compute; reflexivity|].
  apply (dump_load_round_trip newBatch three_ops three_ops_short).
  - vm_compute; reflexivity.
  - vm_compute; reflexivity.
Defined.

(** X13.  [Replay] of a batch built by [Put] and [Delete] calls (keys and
    values shorter than [2^35] bytes) makes the same calls, in the same
    order and with the same keys and values, on the receiver, and returns
    nil; replayed into an empty batch it builds the batch again; and the
    batch that [Load] makes of the dump replays the same calls. *)
Theorem replay_plays {R : Type} `{BatchReplay R} (ops : list bop) (b : Batch) (r : R) :
  Forall short_op ops -> build newBatch ops = Ok b ->
  Replay b r = (r' ← play ops r; Ok (r', nil_error))
  /\ Replay b newBatch = Ok (b, nil_error)
  /\ (forall b0 b', len (Dump b) < 2 ^ 63 ->
        Load b0 (Dump b) = Ok (b', nil_error) -> Replay b' r = Replay b r).
Proof.
  intros Hs Hb. destruct (build_exact ops newBatch Hs) as (sp & E).
  cbn [newBatch data index internalLen app] in E. change (len (@nil byte)) with 0 in E.
  rewrite Hb in E. injection E as ->.
  assert (forall (R' : Type) (H' : BatchReplay R') sp' il' (r0 : R'),
            Replay (mkBatch (enc (records ops)) sp' (indexes 0 (records ops)) il') r0
            = (r' ← play ops r0; Ok (r', nil_error))) as Hre.
  { intros R' H' sp' il' r0. unfold Replay. cbn [data index].
    pose proof (Replay_loop_records ops [] [] r0) as Hl.
    cbn [app] in Hl. rewrite app_nil_r in Hl. change (len (@nil byte)) with 0 in Hl.
    by rewrite Hl. }
  split; [apply Hre|]. split.
  - rewrite Hre, play_build, Hb. done.
  - intros b0 b' Hlen HL. unfold Dump in *. cbn [data] in *.
    destruct (Load_enc b0 (records ops) Hlen (records_tag_ok ops)) as [il' E'].
    rewrite HL in E'. injection E' as ->. by rewrite !Hre.
Qed.

Lemma replay_plays_witness :
  Forall short_op three_ops /\ build newBatch three_ops = Ok three_batch
  /\ Replay three_batch newBatch = Ok (three_batch, nil_error).
Proof.
  split; [exact three_ops_short|]. split; [exact three_batch_built|].
  exact (proj1 (proj2 (replay_plays three_ops three_batch newBatch
                         three_ops_short three_batch_built))).
Defined.

(** X14.  [replayInternal] of a batch built by [Put] and [Delete] calls
    (keys and values shorter than [2^35] bytes) hands the callback the
    records in order, numbered from 0, each with its op tag, key and value,
    stops at the first call that returns an error and returns that error;
    when no call fails it returns nil. *)
Theorem replayInternal_visits {St : Type}
    (fn : St -> Z -> Z -> bytes -> bytes -> res (St * error))
    (ops : list bop) (b : Batch) (st : St) :
  Forall short_op ops -> build newBatch ops = Ok b ->
  replayInternal fn b st = visit fn 0 (records ops) st.
Proof.
  intros Hs Hb. destruct (build_exact ops newBatch Hs) as (sp & E).
  cbn [newBatch data index internalLen app] in E. change (len (@nil byte)) with 0 in E.
  rewrite Hb in E. injection E as ->.
  unfold replayInternal. cbn [data index].
  pose proof (replayInternal_loop_records fn ops [] [] 0 st) as Hl.
  cbn [app] in Hl. rewrite app_nil_r in Hl. exact Hl.
Qed.

Lemma replayInternal_visits_witness :
  Forall short_op three_ops /\ build newBatch three_ops = Ok three_batch
  /\ replayInternal
       (fun (st : list (Z * record)) i kt key value =>
          Ok (st ++ [(i, (kt, key, value))],
              if i =? 1 then ErrBatchCorrupted "stop" else nil_error))
       three_batch []
     = Ok ([(0, (keyTypeVal, b_ "a", b_ "1")); (1, (keyTypeDel, b_ "b", []))],
           ErrBatchCorrupted "stop").
Proof.
  split; [exact three_ops_short|]. split; [exact three_batch_built|].
  rewrite (replayInternal_visits _ three_ops three_batch [] three_ops_short three_batch_built).
  reflexivity.
Defined.

(** X15.  [b.append(p)] for two batches whose index entries read records
    from their buffers (the records [rs1] of [b], [rs2] of [p]): the buffer
    of the result is the buffer of [b] followed by that of [p], [Len()] is
    the sum, the index entries read the records of [b] followed by those of
    [p], and the internal length is the sum of the two (when the sum is an
    [int]).  The total length is below [2^63], as that of a slice is. *)
Theorem append_joins (growslice : Z -> Z -> Z) (b p : Batch) (rs1 rs2 : list record) :
  holds b rs1 -> holds p rs2 -> len (Dump b) + len (Dump p) < 2 ^ 63 ->
  exists bp,
    append growslice b p = Ok bp
    /\ Dump bp = Dump b ++ Dump p
    /\ Len bp = Len b + Len p
    /\ holds bp (rs1 ++ rs2)
    /\ (- 2 ^ 63 <= internalLen b + internalLen p < 2 ^ 63 ->
        internalLen bp = internalLen b + internalLen p).
Proof.
  intros Hb Hp Hlen.
  destruct (append_spec growslice b p rs1 rs2 Hb Hp Hlen) as (sp & ixs & E & Hl & Hr).
  eexists. split; [exact E|]. unfold Dump, Len, holds. cbn [data index internalLen].
  split; [done|]. split; [done|]. split; [done|].
  intros Hil. by apply wrap_int_small.
Qed.

Lemma append_joins_witness :
  holds three_batch (records three_ops) /\ holds three_batch (records three_ops)
  /\ len (Dump three_batch) + len (Dump three_batch) < 2 ^ 63
  /\ exists bp,
    append grow2 three_batch three_batch = Ok bp
    /\ Dump bp = Dump three_batch ++ Dump three_batch
    /\ Len bp = Len three_batch + Len three_batch
    /\ holds bp (records three_ops ++ records three_ops)
    /\ (- 2 ^ 63 <= internalLen three_batch + internalLen three_batch < 2 ^ 63 ->
        internalLen bp = internalLen three_batch + internalLen three_batch).
Proof.
  split; [exact (build_holds three_ops three_batch three_ops_short three_batch_built)|].
  split; [exact (build_holds three_ops three_batch three_ops_short three_batch_built)|].
  split; [vm_compute; reflexivity|].
  apply (append_joins grow2 three_batch three_batch).
  - exact (build_holds three_ops three_batch three_ops_short three_batch_built).
  - exact (build_holds three_ops three_batch three_ops_short three_batch_built).
  - vm_compute; reflexivity.
Defined.

(** X16.  [Reset] empties a batch: [Len()] and the internal length are 0
    and [Dump()] is empty.  A batch that was reset, and one made by
    [MakeBatch(n)], take [Put] and [Delete] calls (keys and values shorter
    than [2^35] bytes) as a new batch does: the same dump, the same records,
    the same internal length.  [MakeBatch] of a negative size panics. *)
Theorem reset_reuse (b : Batch) (n : Z) (ops : list bop) :
  Forall short_op ops ->
  Len (Reset b) = 0 /\ Dump (Reset b) = [] /\ internalLen (Reset b) = 0
  /\ (n < 0 -> MakeBatch n = Panic)
  /\ exists b1 b2,
       build newBatch ops = Ok b1 /\ build (Reset b) ops = Ok b2
       /\ Dump b2 = Dump b1 /\ Len b2 = Len b1 /\ internalLen b2 = internalLen b1
       /\ (forall i, record_at b2 i = record_at b1 i)
       /\ (0 <= n ->
           exists mb b3,
             MakeBatch n = Ok mb /\ build mb ops = Ok b3
             /\ Dump b3 = Dump b1 /\ Len b3 = Len b1 /\ internalLen b3 = internalLen b1
             /\ forall i, record_at b3 i = record_at b1 i).
Proof.
  intros Hs. split; [done|]. split; [done|]. split; [done|]. split.
  { intros Hn. unfold MakeBatch. destruct (Z.ltb_spec n 0); [done|lia]. }
  destruct (build_exact ops newBatch Hs) as (sp1 & E1).
  destruct (build_exact ops (Reset b) Hs) as (sp2 & E2).
  cbn [newBatch Reset data index internalLen app] in E1, E2.
  change (len (@nil byte)) with 0 in E1, E2.
  eexists _, _. split; [exact E1|]. split; [exact E2|].
  unfold Dump, Len. cbn [data index internalLen].
  split; [done|]. split; [done|]. split; [done|]. split.
  { intros i. by rewrite !built_record_at. }
  intros Hn. unfold MakeBatch. destruct (Z.ltb_spec n 0); [lia|].
  destruct (build_exact ops (mkBatch [] (replicate (Z.to_nat n) x00) [] 0) Hs) as (sp3 & E3).
  cbn [data index internalLen app] in E3. change (len (@nil byte)) with 0 in E3.
  eexists _, _. split; [reflexivity|]. split; [exact E3|]. cbn [data index internalLen].
  split; [done|]. split; [done|]. split; [done|].
  intros i. by rewrite !built_record_at.
Qed.

Lemma reset_reuse_witness :
  Forall short_op three_ops
  /\ Len (Reset three_batch) = 0
  /\ exists b1 b2,
       build newBatch three_ops = Ok b1 /\ build (Reset three_batch) three_ops = Ok b2
       /\ Dump b2 = Dump b1.
Proof.
  split; [exact three_ops_short|].
  destruct (reset_reuse three_batch 8 three_ops three_ops_short)
    as (HL & _ & _ & _ & b1 & b2 & E1 & E2 & HD & _).
  split; [exact HL|]. exists b1, b2. split; [exact E1|]. split; [exact E2|exact HD].
Defined.

End BatchExtras.

(** ** A batch in the journal, and back into the store *)

Module ToMem.
Import memdb binary leveldb Rep Bytes Wire Mem Varint
  Writer Append Decode Roundtrip Reasons DecodeReasons InternalKey RefTheory Store Fresh
  Reach MemProof MemClaims BatchMore.

(** *** The header *)

Lemma slice_to_len {A} (Q pad : list A) k : len Q = k -> slice_to (Q ++ pad) k = Ok Q.
Proof. intros <-. apply slice_to_end. Qed.

Lemma slice_from_len {A} (Q pad : list A) k : len Q = k -> slice_from (Q ++ pad) k = Ok pad.
Proof. intros <-. apply slice_from_end. Qed.

Lemma len_le_bytes k v : len (le_bytes k v) = Z.of_nat k.
Proof. unfold len. by rewrite length_le_bytes. Qed.

Lemma decodeBatchHeader_enc seq n rest :
  0 <= seq -> 0 <= n ->
  decodeBatchHeader (le_bytes 8 seq ++ le_bytes 4 n ++ rest)
  = Ok (seq mod 2 ^ 64, n mod 2 ^ 32, nil_error).
Proof.
  intros Hs Hn. unfold decodeBatchHeader. pose proof (len_nonneg rest).
  rewrite !len_app, !len_le_bytes. unfold batchHeaderLen.
  destruct (Z.ltb_spec (Z.of_nat 8 + (Z.of_nat 4 + len rest)) (8 + 4)); [lia|].
  unfold LittleEndian_Uint64, LittleEndian_Uint32.
  rewrite (slice_to_len (le_bytes 8 seq) _ 8) by apply len_le_bytes.
  rewrite (bind_Ok (Ok _) _ _ eq_refl). rewrite (bind_Ok (Ok _) _ _ eq_refl).
  rewrite (slice_from_len (le_bytes 8 seq) _ 8) by apply len_le_bytes.
  rewrite (bind_Ok (Ok _) _ _ eq_refl).
  rewrite (slice_to_len (le_bytes 4 n) _ 4) by apply len_le_bytes.
  rewrite (bind_Ok (Ok _) _ _ eq_refl). rewrite (bind_Ok (Ok _) _ _ eq_refl).
  rewrite !le_value_le_bytes by done.
  change (256 ^ Z.of_nat 8) with (2 ^ 64). change (256 ^ Z.of_nat 4) with (2 ^ 32).
  pose proof (Z.mod_pos_bound n (2 ^ 32) ltac:(lia)).
  rewrite wrap_int_small by lia.
  destruct (Z.ltb_spec (n mod 2 ^ 32) 0); [lia|done].
Qed.

Lemma encodeBatchHeader_bytes dst seq n :
  encodeBatchHeader dst seq n = Ok (le_bytes 8 seq ++ le_bytes 4 (n mod 2 ^ 32)).
Proof.
  unfold encodeBatchHeader, wrap_uint32.
  assert (exists B, ensureBuffer dst batchHeaderLen = B /\ length B = 12%nat) as (B & -> & HB).
  { unfold ensureBuffer, batchHeaderLen. destruct (Z.ltb_spec (len dst) (8 + 4)).
    - eexists. split; [reflexivity|]. by rewrite length_replicate.
    - eexists. split; [reflexivity|]. rewrite length_take. unfold len in *. lia. }
  unfold LittleEndian_PutUint64_at, LittleEndian_PutUint32_at.
  pose proof (slice_from_len [] B 0 eq_refl) as E0. cbn [app] in E0.
  rewrite E0. rewrite (bind_Ok (Ok _) _ _ eq_refl).
  destruct (Z.ltb_spec (len B) 8); [unfold len in *; lia|].
  rewrite (bind_Ok (Ok _) _ _ eq_refl).
  change (Z.to_nat 0) with 0%nat. change (Z.to_nat (0 + 8)) with 8%nat.
  change (Z.to_nat (8 + 4)) with 12%nat. change (Z.to_nat 8) with 8%nat.
  change (take 0 B) with (@nil byte). cbn [app].
  rewrite (slice_from_len (le_bytes 8 seq) (drop 8 B) 8) by apply len_le_bytes.
  rewrite (bind_Ok (Ok _) _ _ eq_refl).
  destruct (Z.ltb_spec (len (drop 8 B)) 4) as [Hlt|_].
  { unfold len in Hlt. rewrite length_drop in Hlt. lia. }
  f_equal. rewrite take_app_length' by (by rewrite length_le_bytes).
  rewrite drop_ge; [by rewrite app_nil_r|].
  rewrite length_app, length_le_bytes, length_drop. lia.
Qed.

(** *** [decodeBatchToMem] *)

(** A turn of the loop of [decodeBatch] depends on the turns that are left
    only when the callback returns nil. *)
Lemma loop_turn {St : Type} (fn : St -> Z -> batchIndex -> res (St * error))
    (f1 f2 : nat) data0 st i o :
  (forall ix st' o', fn st i ix = Ok (st', nil_error) ->
     decodeBatch_loop fn f1 data0 st' (wrap_int (i + 1)) o'
     = decodeBatch_loop fn f2 data0 st' (wrap_int (i + 1)) o') ->
  decodeBatch_loop fn (S f1) data0 st i o = decodeBatch_loop fn (S f2) data0 st i o.
Proof.
  intros Hrec. cbn [decodeBatch_loop].
  destruct (o <? len data0); [|done].
  destruct (elem data0 o) as [t| |]; [|done|done].
  rewrite !(bind_Ok (Ok _) _ _ eq_refl).
  destruct (keyTypeVal <? byte_to_Z t); [done|].
  destruct (slice_from data0 (wrap_int (o + 1))) as [buf| |]; [|done|done].
  rewrite !(bind_Ok (Ok _) _ _ eq_refl).
  destruct (Uvarint buf) as [x n].
  match goal with |- context [if ?c then _ else _] => destruct c end; [done|].
  destruct (byte_to_Z t =? keyTypeVal).
  - match goal with |- context [slice_from ?d ?k] =>
      destruct (slice_from d k) as [buf2| |] end; [|done|done].
    rewrite !(bind_Ok (Ok _) _ _ eq_refl).
    destruct (Uvarint buf2) as [y m].
    match goal with |- context [if ?c then _ else _] => destruct c end.
    { by rewrite !(bind_Ok (Ok _) _ _ eq_refl). }
    rewrite !(bind_Ok (Ok _) _ _ eq_refl).
    match goal with |- context [fn st i ?ix] =>
      destruct (fn st i ix) as [[st1 e1]| |] eqn:E; [|done|done] end.
    rewrite !(bind_Ok (Ok _) _ _ eq_refl).
    destruct e1; [|done..]. by eapply Hrec.
  - rewrite !(bind_Ok (Ok _) _ _ eq_refl).
    match goal with |- context [fn st i ?ix] =>
      destruct (fn st i ix) as [[st1 e1]| |] eqn:E; [|done|done] end.
    rewrite !(bind_Ok (Ok _) _ _ eq_refl).
    destruct e1; [|done..]. by eapply Hrec.
Qed.

Section tomem.
Variable cmp : bytes -> bytes -> Z.
Variable rand_Int : nat -> Z.
Variable growslice : Z -> Z -> Z.

Local Abbreviation Put_ := (memdb.Put cmp rand_Int growslice).
Local Abbreviation putMem_loop_ := (putMem_loop cmp rand_Int growslice).
Local Abbreviation toMem_fn := (decodeBatchToMem_fn cmp rand_Int growslice).

(** [Put] of the store never returns an error. *)
Lemma Put_nil p key value p' e : Put_ p key value = Ok (p', e) -> e = nil_error.
Proof.
  unfold memdb.Put. intros ([[p1 node] ex] & _ & H)%bind_inv. destruct ex.
  - apply bind_inv in H as (nd & _ & H). apply bind_inv in H as (m0 & _ & H).
    apply bind_inv in H as (nd' & _ & H). by injection H.
  - apply bind_inv in H as ([p2 h] & _ & H). apply bind_inv in H as (p3 & _ & H).
    apply bind_inv in H as (prevs & _ & H). apply bind_inv in H as (nd & _ & H).
    by injection H.
Qed.

Lemma putMem_loop_nil data0 seq : forall ixs i mdb mdb' e,
  putMem_loop_ data0 seq i ixs mdb = Ok (mdb', e) -> e = nil_error.
Proof.
  induction ixs as [|ix ixs IH]; intros i mdb mdb' e; cbn [putMem_loop].
  - by intros [= _ <-].
  - intros (key & _ & H)%bind_inv. apply bind_inv in H as (ik & _ & H).
    apply bind_inv in H as (value & _ & H).
    apply bind_inv in H as ([mdb1 e1] & HP & H).
    apply Put_nil in HP as ->. by eapply IH.
Qed.

(** [putMem] depends on the buffer only through what the index entries
    read. *)
Lemma putMem_loop_ext D1 D2 seq : forall ixs i mdb,
  Forall (fun ix => exists r, read D1 ix = Ok r /\ read D2 ix = Ok r) ixs ->
  putMem_loop_ D1 seq i ixs mdb = putMem_loop_ D2 seq i ixs mdb.
Proof.
  induction ixs as [|ix ixs IH]; intros i mdb Hf; [done|].
  apply Forall_cons in Hf as [([[kt key] value] & H1 & H2) Hf].
  apply read_parts in H1 as (_ & Hk1 & Hv1). apply read_parts in H2 as (_ & Hk2 & Hv2).
  cbn [putMem_loop]. rewrite Hk1, Hk2. rewrite !(bind_Ok (Ok _) _ _ eq_refl).
  destruct (makeInternalKey key (wrap_uint64 (seq + i)) (keyType ix)) as [ik| |];
    [|done|done].
  rewrite !(bind_Ok (Ok _) _ _ eq_refl). rewrite Hv1, Hv2.
  rewrite !(bind_Ok (Ok _) _ _ eq_refl).
  destruct (Put_ mdb ik value) as [[mdb1 e1]| |]; [|done|done].
  rewrite !(bind_Ok (Ok _) _ _ eq_refl). cbv beta iota.
  destruct e1; [by apply IH|done|done|done].
Qed.

Lemma toMem_fn_eq D seq batchLen mdb d i ix :
  toMem_fn D seq batchLen (mdb, d) i ix
  = if batchLen <=? i
    then Ok (mdb, d, newErrBatchCorrupted "invalid records length")
    else
      key ← k ix D;
      ik ← makeInternalKey key (wrap_uint64 (seq + i)) (keyType ix);
      value ← v ix D;
      '(mdb, err) ← Put_ mdb ik value;
      match err with
      | nil_error => Ok (mdb, wrap_int (d + 1), nil_error)
      | _ => Ok (mdb, d, err)
      end.
Proof. reflexivity. Qed.

(** The callback fails only at a record past the count, and then with the
    bare reason. *)
Lemma toMem_fn_nil D seq batchLen st i ix st' :
  toMem_fn D seq batchLen st i ix = Ok (st', nil_error) -> i < batchLen.
Proof.
  destruct st as [mdb d]. rewrite toMem_fn_eq.
  destruct (Z.leb_spec batchLen i); [done|]. done.
Qed.

Lemma toMem_fn_reason D seq batchLen st i ix st' r :
  toMem_fn D seq batchLen st i ix = Ok (st', ErrBatchCorrupted r) ->
  r = "invalid records length".
Proof.
  destruct st as [mdb d]. rewrite toMem_fn_eq.
  destruct (Z.leb_spec batchLen i) as [Hle|Hgt]; [by intros [= _ <-]|].
  intros (key & _ & Hb)%bind_inv. apply bind_inv in Hb as (ik & _ & Hb).
  apply bind_inv in Hb as (value & _ & Hb).
  apply bind_inv in Hb as ([mdb1 e1] & HP & Hb).
  apply Put_nil in HP as ->. done.
Qed.

(** The turns [decodeBatchToMem] allows for are enough, whatever the buffer
    holds: with more of them the loop returns the same. *)
Lemma toMem_turns D seq batchLen : forall (m k : nat) data0 st i o,
  0 <= i -> i + Z.of_nat m < 2 ^ 63 -> (Z.to_nat (batchLen - i) <= m)%nat ->
  decodeBatch_loop (toMem_fn D seq batchLen) (S m + k) data0 st i o
  = decodeBatch_loop (toMem_fn D seq batchLen) (S m) data0 st i o.
Proof.
  induction m as [|m IH]; intros k data0 st i o Hi Him Hm.
  - apply loop_turn. intros ix st' o' Hnil. apply toMem_fn_nil in Hnil. lia.
  - apply loop_turn. intros ix st' o' Hnil. apply toMem_fn_nil in Hnil.
    rewrite wrap_int_small by lia. apply IH; lia.
Qed.

Lemma decodeBatch_within_enough D seq batchLen (k : nat) data0 st :
  0 <= batchLen < 2 ^ 62 ->
  decodeBatch_loop (toMem_fn D seq batchLen) (S (Z.to_nat batchLen) + k) data0 st 0 0
  = decodeBatch_within (toMem_fn D seq batchLen) batchLen data0 st.
Proof.
  intros Hb. unfold decodeBatch_within. apply toMem_turns; [done|lia|].
  rewrite Z.sub_0_r. done.
Qed.

(** The reasons of [decodeBatchToMem]. *)
Lemma decodeBatchToMem_reasons data0 expectSeq mdb mdb' s n r :
  decodeBatchToMem cmp rand_Int growslice data0 expectSeq mdb
  = Ok (mdb', (s, n, ErrBatchCorrupted r)) ->
  (r = "too short" /\ len data0 < batchHeaderLen /\ mdb' = mdb)
  \/ record_reason r
  \/ r = "invalid records length"
  \/ (exists d, d <> n /\ r = reason_count n d).
Proof.
  unfold decodeBatchToMem.
  destruct (decodeBatchHeader data0) as [[[s0 n0] e0]| |] eqn:EH; [|done|done].
  rewrite (bind_Ok (Ok _) _ _ eq_refl). cbv beta iota.
  destruct e0 as [| | |r0].
  - destruct (slice_from data0 batchHeaderLen) as [data1| |]; [|done|done].
    rewrite (bind_Ok (Ok _) _ _ eq_refl).
    destruct (decodeBatch_within (toMem_fn data1 s0 n0) n0 data1 (mdb, 0))
      as [[[mdb1 d1] e1]| |] eqn:EL; [|done|done].
    rewrite (bind_Ok (Ok _) _ _ eq_refl). cbv beta iota.
    destruct e1 as [| | |r1].
    + destruct (Z.eqb_spec d1 n0); cbn [negb]; [done|].
      intros [= <- <- <- <-]. right. right. right. by exists d1.
    + done.
    + done.
    + intros [= <- <- <- <-]. unfold decodeBatch_within in EL.
      destruct (loop_reasons (toMem_fn data1 s0 n0) (fun r => r = "invalid records length")
                  (toMem_fn_reason data1 s0 n0) _ _ _ _ _ _ _ EL) as [?|?]; auto.
  - done.
  - done.
  - intros [= <- <- <- <-].
    apply decodeBatchHeader_reasons in EH as [-> ?]. by left.
Qed.

(** The loop of [decodeBatch] under the callback of [decodeBatchToMem], over
    well-formed records: the records the count [batchLen] admits are put,
    as [putMem] puts them; a record beyond the count ends the loop. *)
Lemma toMem_loop seq batchLen D rs : forall fuel pre mdb d i,
  D = pre ++ enc rs -> len D < 2 ^ 63 -> Forall tag_ok rs ->
  (Nat.min (length rs) (Z.to_nat (batchLen - i)) < fuel)%nat ->
  0 <= i -> i + len rs < 2 ^ 63 -> 0 <= d -> d + len rs < 2 ^ 63 ->
  decodeBatch_loop (toMem_fn D seq batchLen) fuel D (mdb, d) i (len pre)
  = '(mdb', _) ← putMem_loop_ D seq i
                   (indexes (len pre) (take (Z.to_nat (batchLen - i)) rs)) mdb;
    Ok (mdb', d + len (take (Z.to_nat (batchLen - i)) rs),
        if (Z.to_nat (batchLen - i) <? length rs)%nat
        then newErrBatchCorrupted "invalid records length" else nil_error).
Proof.
  induction rs as [|r rs IH]; intros fuel pre mdb d i HD Hlen Htag Hfuel Hi Hir Hd Hdr.
  - destruct fuel as [|fuel]; [cbn [length] in Hfuel; lia|]. cbn [decodeBatch_loop].
    unfold enc in HD. cbn [map concat] in HD. rewrite app_nil_r in HD. subst D.
    destruct (Z.ltb_spec (len pre) (len pre)); [lia|].
    rewrite take_nil. cbn [indexes putMem_loop length].
    rewrite (bind_Ok (Ok _) _ _ eq_refl). cbv beta iota.
    change (len (@nil record)) with 0. rewrite Z.add_0_r.
    by destruct (Z.to_nat (batchLen - i)).
  - destruct fuel as [|fuel]; [lia|].
    apply Forall_cons in Htag as [Hr Htag]. rewrite len_cons in Hir, Hdr.
    pose proof (len_nonneg rs) as Hrs0.
    unfold enc in HD. cbn [map concat] in HD. fold (enc rs) in HD. subst D.
    rewrite decodeBatch_loop_step by done.
    pose proof (read_index_at pre r (enc rs) Hr) as Hread.
    set (D := pre ++ enc_rec r ++ enc rs) in *.
    rewrite toMem_fn_eq.
    destruct (Z.leb_spec batchLen i) as [Hge|Hlt].
    + rewrite (bind_Ok (Ok _) _ _ eq_refl). cbv beta iota.
      replace (Z.to_nat (batchLen - i)) with 0%nat by lia.
      cbn [take indexes putMem_loop length Nat.ltb Nat.leb].
      rewrite (bind_Ok (Ok _) _ _ eq_refl). cbv beta iota.
      change (len (@nil record)) with 0. by rewrite Z.add_0_r.
    + replace (Z.to_nat (batchLen - i)) with (S (Z.to_nat (batchLen - (i + 1)))) by lia.
      set (n' := Z.to_nat (batchLen - (i + 1))).
      cbn [take indexes putMem_loop length].
      destruct r as [[kt key] value].
      apply read_parts in Hread as (Hkt & Hk & Hv).
      rewrite Hk. rewrite !(bind_Ok (Ok _) _ _ eq_refl).
      destruct (makeInternalKey key (wrap_uint64 (seq + i))
                  (keyType (index_at (len pre) (kt, key, value)))) as [ik| |];
        [|done|done].
      rewrite !(bind_Ok (Ok _) _ _ eq_refl). rewrite Hv.
      rewrite !(bind_Ok (Ok _) _ _ eq_refl).
      destruct (Put_ mdb ik (if kt =? keyTypeVal then value else [])) as [[mdb1 e1]| |] eqn:HP;
        [|done|done].
      apply Put_nil in HP as ->.
      rewrite !(bind_Ok (Ok _) _ _ eq_refl). cbv beta iota.
      change (S n' <? S (length rs))%nat with (n' <? length rs)%nat.
      rewrite (wrap_int_small (d + 1)) by lia.
      rewrite (wrap_int_small (i + 1)) by lia.
      replace (len pre + len (enc_rec (kt, key, value)))
        with (len (pre ++ enc_rec (kt, key, value))) by (by rewrite len_app).
      rewrite (IH fuel (pre ++ enc_rec (kt, key, value)) mdb1 (d + 1) (i + 1));
        try done; try lia.
      * fold n'. rewrite len_cons.
        replace (d + 1 + len (take n' rs)) with (d + (1 + len (take n' rs))) by lia.
        done.
      * unfold D. by rewrite <- app_assoc.
      * cbn [length] in Hfuel. lia.
Qed.

Lemma decodeBatchToMem_spec seq n rs e mdb :
  Forall tag_ok rs -> len (enc rs) < 2 ^ 63 -> 0 <= seq < 2 ^ 64 -> 0 <= n < 2 ^ 32 ->
  decodeBatchToMem cmp rand_Int growslice (le_bytes 8 seq ++ le_bytes 4 n ++ enc rs) e mdb
  = '(mdb', _) ← putMem_loop_ (enc rs) seq 0 (indexes 0 (take (Z.to_nat n) rs)) mdb;
    Ok (mdb', (seq, n,
               if n <? len rs then newErrBatchCorrupted "invalid records length"
               else if n =? len rs then nil_error
               else newErrBatchCorrupted (reason_count n (len rs)))).
Proof.
  intros Htag Hlen Hs Hn. unfold decodeBatchToMem.
  rewrite decodeBatchHeader_enc by lia. rewrite !Z.mod_small by lia.
  rewrite (bind_Ok (Ok _) _ _ eq_refl). cbv beta iota.
  rewrite app_assoc.
  rewrite (slice_from_len (le_bytes 8 seq ++ le_bytes 4 n) (enc rs) batchHeaderLen)
    by (rewrite len_app, !len_le_bytes; done).
  rewrite (bind_Ok (Ok _) _ _ eq_refl). unfold decodeBatch_within.
  pose proof (len_enc_ge rs) as Hge. pose proof (len_nonneg rs) as Hrs0.
  pose proof (toMem_loop seq n (enc rs) rs (S (Z.to_nat n)) [] mdb 0 0) as E.
  change (len (@nil byte)) with 0 in E. rewrite Z.sub_0_r, Z.add_0_l in E.
  rewrite E; try done; try (unfold len in *; lia). clear E.
  destruct (putMem_loop_ (enc rs) seq 0 (indexes 0 (take (Z.to_nat n) rs)) mdb)
    as [[mdb' e']| |]; [|done|done].
  rewrite !(bind_Ok (Ok _) _ _ eq_refl). cbv beta iota. rewrite Z.add_0_l.
  destruct (Nat.ltb_spec (Z.to_nat n) (length rs)) as [Hlt|Hge'].
  - unfold newErrBatchCorrupted at 1. cbv iota.
    destruct (Z.ltb_spec n (len rs)); [done|unfold len in *; lia].
  - destruct (Z.ltb_spec n (len rs)); [unfold len in *; lia|].
    rewrite take_ge by lia.
    destruct (Z.eqb_spec (len rs) n) as [->|Hne]; cbn [negb].
    + by rewrite Z.eqb_refl.
    + destruct (Z.eqb_spec n (len rs)); [lia|done].
Qed.

End tomem.

(** *** Writing batches *)

Lemma enc_app rs1 rs2 : enc (rs1 ++ rs2) = enc rs1 ++ enc rs2.
Proof. unfold enc. by rewrite map_app, concat_app. Qed.

Lemma writeBatches_loop_buffer batches : forall wr : bytes,
  writeBatches_loop wr batches = Ok (wr ++ concat (map Dump batches), nil_error).
Proof.
  induction batches as [|b batches IH]; intros wr; cbn [writeBatches_loop map concat].
  - by rewrite app_nil_r.
  - cbn [Writer_Write Buffer_Writer]. rewrite (bind_Ok (Ok _) _ _ eq_refl). cbv beta iota.
    rewrite IH. unfold Dump. by rewrite <- app_assoc.
Qed.

(** The batches [batches] were built by the calls [opss], one list of calls
    each. *)
Lemma built_dumps opss : forall batches,
  Forall2 (fun ops b => Forall short_op ops /\ build newBatch ops = Ok b) opss batches ->
  concat (map Dump batches) = enc (records (concat opss))
  /\ Forall2 (fun ops b => Len b = len ops) opss batches.
Proof.
  induction opss as [|ops opss IH]; intros batches Hb.
  - apply Forall2_nil_inv_l in Hb as ->. done.
  - apply Forall2_cons_inv_l in Hb as (b & batches' & [Hs Hbuild] & Hb & ->).
    destruct (IH batches' Hb) as [Hd Hl].
    destruct (build_exact ops newBatch Hs) as (sp & E). rewrite Hbuild in E.
    injection E as ->. cbn [newBatch data index app]. split.
    + cbn [map concat Dump data]. rewrite Hd.
      unfold records. by rewrite map_app, <- enc_app.
    + constructor; [|done]. unfold Len. cbn [index].
      change (len (@nil byte)) with 0. rewrite len_indexes.
      unfold records, len. by rewrite length_map.
Qed.

Lemma batchesLen_sum (opss : list (list bop)) : forall batches acc,
  Forall2 (fun ops b => Len b = len ops) opss batches ->
  0 <= acc -> acc + len (concat opss) < 2 ^ 63 ->
  fold_left (fun batchLen batch => wrap_int (batchLen + Len batch)) batches acc
  = acc + len (concat opss).
Proof.
  induction opss as [|ops opss IH]; intros batches acc Hb Hacc Hsum.
  - apply Forall2_nil_inv_l in Hb as ->. cbn. change (len (@nil bop)) with 0. lia.
  - apply Forall2_cons_inv_l in Hb as (b & batches' & Hl & Hb & ->).
    cbn [concat fold_left] in *. rewrite len_app in Hsum.
    pose proof (len_nonneg ops). pose proof (len_nonneg (concat opss)).
    rewrite Hl, wrap_int_small by lia. rewrite IH by (done || lia).
    rewrite len_app. lia.
Qed.

Lemma two_batch_built : build newBatch two_ops = Ok two_batch.
Proof. by vm_compute. Qed.

Lemma two_ops_short : Forall short_op two_ops.
Proof. repeat constructor; by vm_compute. Qed.

(** What the index entries of records read does not depend on the bytes
    after the records. *)
Lemma indexes_read_both rs post : Forall tag_ok rs ->
  Forall (fun ix => exists r, read (enc rs ++ post) ix = Ok r /\ read (enc rs) ix = Ok r)
         (indexes 0 rs).
Proof.
  intros Htag.
  pose proof (holds_indexes rs [] post Htag) as H1.
  pose proof (holds_indexes rs [] [] Htag) as H2.
  cbn [app] in H1, H2. rewrite app_nil_r in H2. change (len (@nil byte)) with 0 in H1, H2.
  generalize dependent (enc rs ++ post). generalize dependent (enc rs).
  intros D2 H2 D1 H1. clear Htag.
  revert H2. induction H1 as [|ix r ixs rs' Hr _ IH]; intros H2; [constructor|].
  apply Forall2_cons in H2 as [Hr2 H2]. constructor; [|by apply IH].
  eexists. split; [exact Hr|exact Hr2].
Qed.

(** What the index entries read, as records of their own. *)
Lemma Forall2_norm D ixs : forall rs,
  Forall2 (fun ix r => read D ix
                       = Ok (let '(kt, key, value) := r in
                             (kt, key, if kt =? keyTypeVal then value else [])))
          ixs rs ->
  Forall tag_ok rs ->
  exists rs', Forall2 (fun ix r => read D ix = Ok r) ixs rs'
              /\ Forall tag_ok rs' /\ len rs' = len rs.
Proof.
  induction ixs as [|ix ixs IH]; intros rs H Htag.
  - apply Forall2_nil_inv_l in H as ->. by exists [].
  - apply Forall2_cons_inv_l in H as ([[kt key] value] & rs0 & Hr & H & ->).
    apply Forall_cons in Htag as [Ht Htag].
    destruct (IH rs0 H Htag) as (rs' & H' & Htag' & Hl).
    exists ((kt, key, if kt =? keyTypeVal then value else []) :: rs').
    split; [by constructor|]. split; [by constructor|]. by rewrite !len_cons, Hl.
Qed.

Lemma empty_store_internal :
  reachable internal_key (icmp bytes_Compare) rand0 grow2 (empty_store 0).
Proof. apply (reach_New _ _ _ _ 0). reflexivity. Qed.

Section returns.
Variable ucmp : bytes -> bytes -> Z.
Hypothesis HU : BasicComparer any_key ucmp.
Variable rand_Int : nat -> Z.
Variable growslice : Z -> Z -> Z.

(** [decodeBatchToMem] on a header and well-formed records, on a store
    under the internal key comparer and with sequence numbers of 56 bits:
    the records the count admits are put, and the function returns. *)
Lemma toMem_returns seq n expectSeq rs mdb :
  reachable internal_key (icmp ucmp) rand_Int growslice mdb ->
  Forall tag_ok rs -> len (enc rs) < 2 ^ 63 -> 0 <= n < 2 ^ 32 ->
  0 <= seq -> seq + Z.min n (len rs) <= keyMaxSeq + 1 ->
  exists mdb',
    putMem_loop (icmp ucmp) rand_Int growslice (enc rs) seq 0
      (indexes 0 (take (Z.to_nat n) rs)) mdb = Ok (mdb', nil_error)
    /\ (memdb.Len mdb = 0 -> memdb.Len mdb' = Z.min n (len rs))
    /\ decodeBatchToMem (icmp ucmp) rand_Int growslice
         (le_bytes 8 seq ++ le_bytes 4 n ++ enc rs) expectSeq mdb
       = Ok (mdb', (seq, n,
                    if n <? len rs then newErrBatchCorrupted "invalid records length"
                    else if n =? len rs then nil_error
                    else newErrBatchCorrupted (reason_count n (len rs)))).
Proof.
  intros Hreach Htag Hlen Hn Hs Hhi.
  pose proof (icmp_lawful ucmp HU) as HC.
  destruct (reachable_Repr internal_key (icmp ucmp) HC rand_Int growslice mdb Hreach)
    as [m HR].
  remember (take (Z.to_nat n) rs) as rs1 eqn:Hrs1.
  assert (enc rs = enc rs1 ++ enc (drop (Z.to_nat n) rs)) as Hsplit.
  { subst rs1. by rewrite <- enc_app, take_drop. }
  assert (Forall tag_ok rs1) as Htag1 by (subst rs1; by apply Forall_take).
  assert (len rs1 = Z.min n (len rs)) as Hl1.
  { subst rs1. unfold len. rewrite length_take. lia. }
  pose proof (holds_indexes rs1 [] (enc (drop (Z.to_nat n) rs)) Htag1) as Hh.
  cbn [app] in Hh. change (len (@nil byte)) with 0 in Hh. rewrite <- Hsplit in Hh.
  destruct (Forall2_norm _ _ _ Hh Htag1) as (rs' & Hh' & Htag' & Hl').
  assert (len rs' = Z.min n (len rs)) as Hl2 by (etrans; [exact Hl'|exact Hl1]).
  assert (0 <= seq + 0) as Hlo0 by lia.
  assert (seq + 0 + len rs' <= keyMaxSeq + 1) as Hhi0 by lia.
  assert (seq + len rs' <= keyMaxSeq + 1) as Hhi1 by lia.
  destruct (putMem_loop_spec ucmp HU rand_Int growslice (enc rs) seq (indexes 0 rs1) rs' 0
              mdb m Hh' Htag' Hlo0 Hhi0 HR) as (p' & HP & Hrun & HR').
  rewrite Z.add_0_r in *.
  exists p'. split; [exact HP|]. split.
  - intros Hempty. rewrite (Repr_Len _ _ _ _ HR) in Hempty.
    apply empty_map in Hempty. subst m.
    destruct (replay_mem_puts ucmp HU rand_Int growslice rs' seq mdb [] Htag' Hs
                Hhi1 HR) as (p1 & _ & _ & Hlen' & _); [done|].
    rewrite (Repr_Len _ _ _ _ HR'), Hlen'.
    change (len (@nil (bytes * bytes))) with 0. lia.
  - pose proof (len_nonneg rs) as Hrs0.
    rewrite decodeBatchToMem_spec by (done || unfold keyMaxSeq in *; lia).
    rewrite <- Hrs1, HP. by rewrite (bind_Ok (Ok _) _ _ eq_refl).
Qed.

End returns.

End ToMem.

Module JournalExtras.
Import memdb binary leveldb Rep Bytes Wire Mem Varint
  Writer Append Decode Roundtrip Reasons DecodeReasons InternalKey Fresh Reach MemClaims
  BatchMore ToMem.

(** X17.  [decodeBatchToMem] on a buffer made of a twelve-byte header
    (sequence number [seq] in eight bytes, record count in four, both
    little-endian) and well-formed records, the count being the number of
    records, applied to a store made by [New_], [Put], [Delete] and [Reset]
    under the internal key comparer, the sequence numbers [seq .. seq+n-1]
    being sequence numbers (56 bits): it returns [seq], the count and nil,
    and leaves the store that [putMem(seq, mdb)] of the batch that [Load]
    makes of the records leaves, which returns nil as well.  The argument
    [expectSeq] has no effect. *)
Theorem decodeBatchToMem_is_putMem (ucmp : bytes -> bytes -> Z) (rand_Int : nat -> Z)
    (growslice : Z -> Z -> Z) (seq expectSeq : Z) (rs : list record) (b0 : Batch)
    (mdb : memdb.DB_) :
  BasicComparer any_key ucmp ->
  reachable internal_key (icmp ucmp) rand_Int growslice mdb ->
  Forall tag_ok rs -> len (enc rs) < 2 ^ 63 -> len rs < 2 ^ 32 ->
  0 <= seq -> seq + len rs <= keyMaxSeq + 1 ->
  exists b mdb',
    Load b0 (enc rs) = Ok (b, nil_error)
    /\ Len b = len rs
    /\ putMem (icmp ucmp) rand_Int growslice b seq mdb = Ok (mdb', nil_error)
    /\ decodeBatchToMem (icmp ucmp) rand_Int growslice
         (le_bytes 8 seq ++ le_bytes 4 (len rs) ++ enc rs) expectSeq mdb
       = Ok (mdb', (seq, len rs, nil_error)).
Proof.
  intros HU Hreach Htag Hlen Hn Hs Hhi. pose proof (len_nonneg rs) as Hrs.
  destruct (Load_enc b0 rs Hlen Htag) as [il E].
  destruct (toMem_returns ucmp HU rand_Int growslice seq (len rs) expectSeq rs mdb
              Hreach Htag Hlen ltac:(lia) Hs ltac:(lia)) as (mdb' & HP & _ & HD).
  rewrite take_ge in HP by (unfold len; lia).
  rewrite Z.ltb_irrefl, Z.eqb_refl in HD.
  eexists _, mdb'. split; [exact E|].
  split; [unfold Len; cbn [index]; by rewrite len_indexes|].
  split; [exact HP|exact HD].
Qed.

Lemma decodeBatchToMem_is_putMem_witness :
  BasicComparer any_key bytes_Compare
  /\ reachable internal_key (icmp bytes_Compare) rand0 grow2 (empty_store 0)
  /\ Forall tag_ok (records three_ops) /\ len (enc (records three_ops)) < 2 ^ 63
  /\ len (records three_ops) < 2 ^ 32
  /\ 0 <= 5 /\ 5 + len (records three_ops) <= keyMaxSeq + 1
  /\ exists b mdb',
    Load newBatch (enc (records three_ops)) = Ok (b, nil_error)
    /\ Len b = len (records three_ops)
    /\ putMem (icmp bytes_Compare) rand0 grow2 b 5 (empty_store 0) = Ok (mdb', nil_error)
    /\ decodeBatchToMem (icmp bytes_Compare) rand0 grow2
         (le_bytes 8 5 ++ le_bytes 4 (len (records three_ops)) ++ enc (records three_ops))
         0 (empty_store 0)
       = Ok (mdb', (5, len (records three_ops), nil_error)).
Proof.
  split; [exact bytes_Compare_lawful|]. split; [exact empty_store_internal|].
  split; [exact (records_tag_ok three_ops)|].
  split; [vm_compute; reflexivity|]. split; [vm_compute; reflexivity|].
  split; [lia|]. split; [vm_compute; discriminate|].
  apply (decodeBatchToMem_is_putMem bytes_Compare rand0 grow2 5 0 (records three_ops)
           newBatch (empty_store 0) bytes_Compare_lawful empty_store_internal
           (records_tag_ok three_ops)).
  - vm_compute; reflexivity.
  - vm_compute; reflexivity.
  - lia.
  - vm_compute; discriminate.
Defined.

(** X18.  [decodeBatchToMem] when the count [n] in the header is not the
    number of records that follow (well-formed records), on a store made by
    [New_], [Put], [Delete] and [Reset] under the internal key comparer and
    with sequence numbers of 56 bits for the records that are put: it
    returns [seq], [n] and a corrupted-batch error, whose reason is "invalid
    records length" when there are more than [n] records and "invalid
    records length: n vs m" when there are only [m].  By then the first [n]
    records, or all of them when there are fewer than [n], are in the store,
    as [putMem(seq, mdb)] of the batch loaded from these records puts them,
    and they stay there: a store that was empty has that many entries. *)
Theorem decodeBatchToMem_count_mismatch (ucmp : bytes -> bytes -> Z) (rand_Int : nat -> Z)
    (growslice : Z -> Z -> Z) (seq n expectSeq : Z) (rs : list record) (b0 : Batch)
    (mdb : memdb.DB_) :
  BasicComparer any_key ucmp ->
  reachable internal_key (icmp ucmp) rand_Int growslice mdb ->
  Forall tag_ok rs -> len (enc rs) < 2 ^ 63 -> 0 <= n < 2 ^ 32 -> n <> len rs ->
  0 <= seq -> seq + Z.min n (len rs) <= keyMaxSeq + 1 ->
  exists b mdb',
    Load b0 (enc (take (Z.to_nat n) rs)) = Ok (b, nil_error)
    /\ Len b = Z.min n (len rs)
    /\ putMem (icmp ucmp) rand_Int growslice b seq mdb = Ok (mdb', nil_error)
    /\ (memdb.Len mdb = 0 -> memdb.Len mdb' = Z.min n (len rs))
    /\ decodeBatchToMem (icmp ucmp) rand_Int growslice
         (le_bytes 8 seq ++ le_bytes 4 n ++ enc rs) expectSeq mdb
       = Ok (mdb', (seq, n,
                    newErrBatchCorrupted
                      (if n <? len rs then "invalid records length"
                       else reason_count n (len rs)))).
Proof.
  intros HU Hreach Htag Hlen Hn Hne Hs Hhi.
  set (rs1 := take (Z.to_nat n) rs).
  assert (enc rs = enc rs1 ++ enc (drop (Z.to_nat n) rs)) as Hsplit.
  { unfold rs1. by rewrite <- enc_app, take_drop. }
  assert (Forall tag_ok rs1) as Htag1 by (by apply Forall_take).
  assert (len (enc rs1) < 2 ^ 63) as Hlen1.
  { rewrite Hsplit, len_app in Hlen.
    pose proof (len_nonneg (enc (drop (Z.to_nat n) rs))). lia. }
  destruct (Load_enc b0 rs1 Hlen1 Htag1) as [il E].
  destruct (toMem_returns ucmp HU rand_Int growslice seq n expectSeq rs mdb
              Hreach Htag Hlen Hn Hs Hhi) as (mdb' & HP & HLen & HD).
  fold rs1 in HP.
  eexists _, mdb'. split; [exact E|]. split.
  { unfold Len. cbn [index]. rewrite len_indexes. unfold rs1, len.
    rewrite length_take. lia. }
  split.
  { unfold putMem. cbn [data index].
    rewrite <- (putMem_loop_ext (icmp ucmp) rand_Int growslice (enc rs) (enc rs1) seq
                  (indexes 0 rs1) 0 mdb)
      by (rewrite Hsplit; by apply indexes_read_both).
    exact HP. }
  split; [exact HLen|]. rewrite HD.
  destruct (Z.ltb_spec n (len rs)); [done|].
  destruct (Z.eqb_spec n (len rs)); [lia|done].
Qed.

Lemma decodeBatchToMem_count_mismatch_witness :
  BasicComparer any_key bytes_Compare
  /\ reachable internal_key (icmp bytes_Compare) rand0 grow2 (empty_store 0)
  /\ Forall tag_ok (records three_ops) /\ len (enc (records three_ops)) < 2 ^ 63
  /\ 0 <= 2 < 2 ^ 32 /\ 2 <> len (records three_ops)
  /\ 0 <= 5 /\ 5 + Z.min 2 (len (records three_ops)) <= keyMaxSeq + 1
  /\ exists b mdb',
    Load newBatch (enc (take (Z.to_nat 2) (records three_ops))) = Ok (b, nil_error)
    /\ Len b = Z.min 2 (len (records three_ops))
    /\ putMem (icmp bytes_Compare) rand0 grow2 b 5 (empty_store 0) = Ok (mdb', nil_error)
    /\ (memdb.Len (empty_store 0) = 0 -> memdb.Len mdb' = Z.min 2 (len (records three_ops)))
    /\ decodeBatchToMem (icmp bytes_Compare) rand0 grow2
         (le_bytes 8 5 ++ le_bytes 4 2 ++ enc (records three_ops)) 0 (empty_store 0)
       = Ok (mdb', (5, 2,
                    newErrBatchCorrupted
                      (if 2 <? len (records three_ops) then "invalid records length"
                       else reason_count 2 (len (records three_ops))))).
Proof.
  split; [exact bytes_Compare_lawful|]. split; [exact empty_store_internal|].
  split; [exact (records_tag_ok three_ops)|].
  split; [vm_compute; reflexivity|]. split; [lia|].
  split; [vm_compute; discriminate|]. split; [lia|].
  split; [vm_compute; discriminate|].
  apply (decodeBatchToMem_count_mismatch bytes_Compare rand0 grow2 5 2 0
           (records three_ops) newBatch (empty_store 0) bytes_Compare_lawful
           empty_store_internal (records_tag_ok three_ops)).
  - vm_compute; reflexivity.
  - lia.
  - vm_compute; discriminate.
  - lia.
  - vm_compute; discriminate.
Defined.

(** X19.  The header of a batch in the journal: [encodeBatchHeader(dst,
    seq, batchLen)] returns twelve bytes, whatever [dst] holds, and
    [decodeBatchHeader] of these bytes, whatever follows them, returns
    [seq], the count [batchLen] reduced to 32 bits and nil.  On fewer than
    twelve bytes [decodeBatchHeader] returns 0, 0 and the error "too short",
    and [decodeBatchToMem] returns the same and leaves the store as it
    was. *)
Theorem header_round_trip (cmp : bytes -> bytes -> Z) (rand_Int : nat -> Z)
    (growslice : Z -> Z -> Z) (dst rest : bytes) (seq batchLen : Z) :
  0 <= seq < 2 ^ 64 ->
  exists hdr,
    encodeBatchHeader dst seq batchLen = Ok hdr /\ len hdr = batchHeaderLen
    /\ decodeBatchHeader (hdr ++ rest) = Ok (seq, batchLen mod 2 ^ 32, nil_error)
    /\ forall (data0 : bytes) (expectSeq : Z) (mdb : memdb.DB_),
         len data0 < batchHeaderLen ->
         decodeBatchHeader data0 = Ok (0, 0, newErrBatchCorrupted "too short")
         /\ decodeBatchToMem cmp rand_Int growslice data0 expectSeq mdb
            = Ok (mdb, (0, 0, newErrBatchCorrupted "too short")).
Proof.
  intros Hs. eexists. split; [apply encodeBatchHeader_bytes|].
  pose proof (Z.mod_pos_bound batchLen (2 ^ 32) ltac:(lia)) as Hm.
  split; [by rewrite len_app, !len_le_bytes|]. split.
  - rewrite <- app_assoc, decodeBatchHeader_enc by lia.
    by rewrite (Z.mod_small seq), Z.mod_mod by lia.
  - intros data0 expectSeq mdb Hshort.
    assert (decodeBatchHeader data0 = Ok (0, 0, newErrBatchCorrupted "too short")) as E.
    { unfold decodeBatchHeader. destruct (Z.ltb_spec (len data0) batchHeaderLen); [done|lia]. }
    split; [exact E|]. unfold decodeBatchToMem. by rewrite E.
Qed.

Lemma header_round_trip_witness :
  0 <= 7 < 2 ^ 64
  /\ exists hdr,
    encodeBatchHeader (b_ "abc") 7 3 = Ok hdr /\ len hdr = batchHeaderLen
    /\ decodeBatchHeader (hdr ++ b_ "rest") = Ok (7, 3 mod 2 ^ 32, nil_error)
    /\ forall (data0 : bytes) (expectSeq : Z) (mdb : memdb.DB_),
         len data0 < batchHeaderLen ->
         decodeBatchHeader data0 = Ok (0, 0, newErrBatchCorrupted "too short")
         /\ decodeBatchToMem bytes_Compare rand0 grow2 data0 expectSeq mdb
            = Ok (mdb, (0, 0, newErrBatchCorrupted "too short")).
Proof.
  split; [lia|].
  apply (header_round_trip bytes_Compare rand0 grow2 (b_ "abc") (b_ "rest") 7 3). lia.
Defined.

(** X20.  Batches through the journal: [writeBatchesWithHeader] into a
    buffer in memory, with batches built by [Put] and [Delete] calls (keys
    and values shorter than [2^35] bytes, fewer than [2^32] calls together),
    appends a twelve-byte header and then the dumps of the batches in order
    and returns nil.  [decodeBatchToMem] of what was written, on a store made
    by [New_], [Put], [Delete] and [Reset] under the internal key comparer
    and with sequence numbers of 56 bits for all the records, returns [seq],
    the total number of records and nil, and leaves the store that
    [putMem(seq, mdb)] of the one batch that [Load] makes of the joined
    dumps leaves, which returns nil as well. *)
Theorem journal_round_trip (ucmp : bytes -> bytes -> Z) (rand_Int : nat -> Z)
    (growslice : Z -> Z -> Z) (opss : list (list bop)) (batches : list Batch)
    (seq expectSeq : Z) (wr : bytes) (b0 : Batch) (mdb : memdb.DB_) :
  BasicComparer any_key ucmp ->
  reachable internal_key (icmp ucmp) rand_Int growslice mdb ->
  Forall2 (fun ops b => Forall short_op ops /\ build newBatch ops = Ok b) opss batches ->
  len (concat (map Dump batches)) < 2 ^ 63 -> len (concat opss) < 2 ^ 32 ->
  0 <= seq -> seq + len (concat opss) <= keyMaxSeq + 1 ->
  exists hdr b mdb',
    writeBatchesWithHeader wr batches seq
    = Ok (wr ++ hdr ++ concat (map Dump batches), nil_error)
    /\ len hdr = batchHeaderLen
    /\ batchesLen batches = len (concat opss)
    /\ Load b0 (concat (map Dump batches)) = Ok (b, nil_error)
    /\ Len b = len (concat opss)
    /\ putMem (icmp ucmp) rand_Int growslice b seq mdb = Ok (mdb', nil_error)
    /\ decodeBatchToMem (icmp ucmp) rand_Int growslice
         (hdr ++ concat (map Dump batches)) expectSeq mdb
       = Ok (mdb', (seq, len (concat opss), nil_error)).
Proof.
  intros HU Hreach Hb Hlen Hn Hs Hhi. destruct (built_dumps opss batches Hb) as [Hd Hl].
  pose proof (len_nonneg (concat opss)) as Hc.
  assert (batchesLen batches = len (concat opss)) as HbL.
  { unfold batchesLen. rewrite (batchesLen_sum opss batches 0 Hl) by lia. lia. }
  rewrite Hd in *. set (rs := records (concat opss)) in *.
  assert (len rs = len (concat opss)) as Hrs.
  { unfold rs, records, len. by rewrite length_map. }
  destruct (Load_enc b0 rs Hlen (records_tag_ok _)) as [il E].
  destruct (toMem_returns ucmp HU rand_Int growslice seq (len rs) expectSeq rs mdb
              Hreach (records_tag_ok _) Hlen ltac:(lia) Hs ltac:(lia))
    as (mdb' & HP & _ & HD).
  rewrite take_ge in HP by (unfold len; lia).
  rewrite Z.ltb_irrefl, Z.eqb_refl in HD.
  exists (le_bytes 8 seq ++ le_bytes 4 (len rs)). eexists _, mdb'. split.
  { unfold writeBatchesWithHeader. rewrite HbL, encodeBatchHeader_bytes.
    rewrite (bind_Ok (Ok _) _ _ eq_refl). cbn [Writer_Write Buffer_Writer].
    rewrite (bind_Ok (Ok _) _ _ eq_refl). cbv beta iota.
    rewrite writeBatches_loop_buffer, Hd. fold rs.
    rewrite Z.mod_small by lia. rewrite Hrs. by rewrite <- !app_assoc. }
  split; [by rewrite len_app, !len_le_bytes|]. split; [done|]. split; [exact E|].
  split; [unfold Len; cbn [index]; by rewrite len_indexes|].
  split; [exact HP|].
  rewrite <- app_assoc, HD, Hrs. done.
Qed.

Lemma journal_round_trip_witness :
  BasicComparer any_key bytes_Compare
  /\ reachable internal_key (icmp bytes_Compare) rand0 grow2 (empty_store 0)
  /\ Forall2 (fun ops b => Forall short_op ops /\ build newBatch ops = Ok b)
       [three_ops; two_ops] [three_batch; two_batch]
  /\ len (concat (map Dump [three_batch; two_batch])) < 2 ^ 63
  /\ len (concat [three_ops; two_ops]) < 2 ^ 32
  /\ 0 <= 9 /\ 9 + len (concat [three_ops; two_ops]) <= keyMaxSeq + 1
  /\ exists hdr b mdb',
    writeBatchesWithHeader (b_ "log") [three_batch; two_batch] 9
    = Ok (b_ "log" ++ hdr ++ concat (map Dump [three_batch; two_batch]), nil_error)
    /\ len hdr = batchHeaderLen
    /\ batchesLen [three_batch; two_batch] = len (concat [three_ops; two_ops])
    /\ Load newBatch (concat (map Dump [three_batch; two_batch])) = Ok (b, nil_error)
    /\ Len b = len (concat [three_ops; two_ops])
    /\ putMem (icmp bytes_Compare) rand0 grow2 b 9 (empty_store 0) = Ok (mdb', nil_error)
    /\ decodeBatchToMem (icmp bytes_Compare) rand0 grow2
         (hdr ++ concat (map Dump [three_batch; two_batch])) 0 (empty_store 0)
       = Ok (mdb', (9, len (concat [three_ops; two_ops]), nil_error)).
Proof.
  assert (Forall2 (fun ops b => Forall short_op ops /\ build newBatch ops = Ok b)
            [three_ops; two_ops] [three_batch; two_batch]) as Hb.
  { constructor; [split; [exact three_ops_short|exact three_batch_built]|].
    constructor; [split; [exact two_ops_short|exact two_batch_built]|]. constructor. }
  split; [exact bytes_Compare_lawful|]. split; [exact empty_store_internal|].
  split; [exact Hb|].
  split; [vm_compute; reflexivity|]. split; [vm_compute; reflexivity|].
  split; [lia|]. split; [vm_compute; discriminate|].
  apply (journal_round_trip bytes_Compare rand0 grow2 [three_ops; two_ops]
           [three_batch; two_batch] 9 0 (b_ "log") newBatch (empty_store 0)
           bytes_Compare_lawful empty_store_internal Hb).
  - vm_compute; reflexivity.
  - vm_compute; reflexivity.
  - lia.
  - vm_compute; discriminate.
Defined.

End JournalExtras.

(** ** Writing to the store under an iterator *)

Module Places.
Import memdb Rep RepFacts Chain Search FindGE Loops Frame Insert Overwrite RefFacts
  PutSpec PutProof DeleteProof Ops Fresh RefTheory Store HeightInv Reach Backward Bytes
  StoreMore Pass Moves.

Lemma map_eq_elem {A B} (f g : A -> B) (xs : list A) :
  map f xs = map g xs -> forall x, x ∈ xs -> f x = g x.
Proof.
  induction xs as [|a xs IH]; intros E x Hx; [by apply elem_of_nil in Hx|].
  cbn [map] in E. injection E as Ea E.
  apply elem_of_cons in Hx as [->|Hx]; [done|by apply IH].
Qed.

Section places.
Variable dom : bytes -> Prop.
Variable cmp : bytes -> bytes -> Z.
Hypothesis HC : BasicComparer dom cmp.
Variable rand_Int : nat -> Z.
Variable growslice : Z -> Z -> Z.

Implicit Types (p : DB_) (l : list Z) (key : bytes) (i : dbIter_).

Local Abbreviation kof p x := (keyOf (nodeData p) (kvData p) x).
Local Abbreviation vof p x := (valOf (nodeData p) (kvData p) x).

(** [Put] leaves every live node live, with its key; the value of a node
    changes only when the node carries the key that is put. *)
Lemma Put_places p l key value :
  Inv dom cmp p l -> dom key ->
  exists p' l', Put cmp rand_Int growslice p key value = Ok (p', nil_error)
    /\ Inv dom cmp p' l'
    /\ forall x, x ∈ l ->
         x ∈ l' /\ kof p' x = kof p x
         /\ vof p' x = (if cmp (kof p x) key =? 0 then value else vof p x).
Proof.
  intros HI Hk.
  destruct (findGE_spec dom cmp HC true p l key HI Hk)
    as (l1 & l2 & pn & -> & H1 & H2 & Hf & Hpnl & Hpn).
  specialize (Hpn eq_refl).
  assert (forall x, x ∈ l1 -> (cmp (kof p x) key =? 0) = false) as Hl1.
  { intros x Hx. rewrite Forall_forall in H1.
    assert (cmp (kof p x) key < 0) as Hlt by exact (H1 x Hx).
    destruct (Z.eqb_spec (cmp (kof p x) key) 0); [lia|done]. }
  destruct (exact_hd cmp p key l2) eqn:Hex.
  - destruct l2 as [|y r]; [done|]. simpl in Hex, Hf. apply Z.eqb_eq in Hex.
    destruct (Put_overwrite_spec dom cmp HC rand_Int growslice p l1 y r pn key value
                HI Hk H1 Hex Hpnl Hf) as (p' & HP & HI' & He).
    exists p', (l1 ++ y :: r). split; [done|]. split; [done|].
    rewrite !entries_app, (put_app cmp) in He by by apply entries_before.
    unfold entries in He. cbn [map RefMap.put entry] in He.
    destruct (Z.ltb_spec (cmp (kof p y) key) 0); [lia|].
    rewrite Hex in He. cbn [Z.eqb] in He.
    apply app_inj_1 in He as [E1 E2]; [|by rewrite !length_map].
    injection E2 as Eky Evy Er.
    assert (y ∈ l1 ++ y :: r) as Hyl by (rewrite elem_of_app, elem_of_cons; auto).
    pose proof (Inv_dom _ _ _ _ _ HI Hyl) as Hdy.
    pose proof (proj1 (cmp_eq _ _ HC _ _ Hdy Hk) Hex) as Hky.
    intros x Hx. split; [done|].
    apply elem_of_app in Hx as [Hx|Hx]; [|apply elem_of_cons in Hx as [->|Hx]].
    + pose proof (map_eq_elem _ _ _ E1 x Hx) as E. unfold entry in E.
      injection E as -> ->. by rewrite Hl1.
    + rewrite Eky, Evy, Hky. split; [done|].
      by rewrite (proj2 (cmp_eq _ _ HC key key Hk Hk) eq_refl).
    + pose proof (map_eq_elem _ _ _ Er x Hx) as E. unfold entry in E.
      injection E as -> ->. split; [done|].
      assert (x ∈ l1 ++ y :: r) as Hxl by (rewrite elem_of_app, elem_of_cons; auto).
      pose proof (Inv_dom _ _ _ _ _ HI Hxl) as Hdx.
      pose proof (inv_sorted _ _ _ _ HI) as Hs.
      replace (l1 ++ y :: r) with ((l1 ++ [y]) ++ r) in Hs by (by rewrite <- app_assoc).
      assert (cmp (kof p y) (kof p x) < 0) as Hyx.
      { apply (StronglySorted_app_1_elem_of _ _ _ _ _ Hs); [|done].
        rewrite elem_of_app, elem_of_cons. auto. }
      rewrite Hky in Hyx. apply (cmp_flip _ _ HC) in Hyx; [|done|done].
      destruct (Z.eqb_spec (cmp (kof p x) key) 0); [lia|done].
  - destruct (Put_insert_spec dom cmp HC rand_Int growslice p l1 l2 pn key value
                HI Hk H1 H2 Hex Hpnl Hpn Hf) as (p' & HP & HI' & He).
    exists p', (l1 ++ len (nodeData p) :: l2). split; [done|]. split; [done|].
    pose proof (entries_not_exact dom cmp HC p l1 l2 key HI Hk H2 Hex) as Hne.
    rewrite !entries_app, (put_app cmp) in He by by apply entries_before.
    assert (RefMap.put cmp key value (entries p l2) = (key, value) :: entries p l2) as Eput.
    { destruct l2 as [|y r]; [done|]. unfold entries. cbn [map RefMap.put entry].
      apply Forall_cons in H2 as [Hy _].
      assert (~ cmp (kof p y) key < 0) as Hy' by exact Hy.
      destruct (Z.ltb_spec (cmp (kof p y) key) 0); [done|].
      simpl in Hex. by rewrite Hex. }
    rewrite Eput in He. unfold entries in He. cbn [map] in He.
    apply app_inj_1 in He as [E1 E2]; [|by rewrite !length_map].
    injection E2 as _ _ Er.
    intros x Hx. split.
    { rewrite elem_of_app, elem_of_cons. apply elem_of_app in Hx as [?|?]; auto. }
    apply elem_of_app in Hx as [Hx|Hx].
    + pose proof (map_eq_elem _ _ _ E1 x Hx) as E. unfold entry in E.
      injection E as -> ->. by rewrite Hl1.
    + pose proof (map_eq_elem _ _ _ Er x Hx) as E. unfold entry in E.
      injection E as -> ->. split; [done|].
      unfold entries in Hne. rewrite Forall_map, Forall_forall in Hne.
      specialize (Hne x Hx). cbn [entry fst] in Hne.
      destruct (Z.eqb_spec (cmp (kof p x) key) 0); [done|done].
Qed.

(** [Delete] leaves every live node that does not carry the key live, with
    its key and its value. *)
Lemma Delete_places p l key :
  Inv dom cmp p l -> dom key ->
  exists p' l' e, Delete cmp p key = Ok (p', e)
    /\ Inv dom cmp p' l'
    /\ forall x, x ∈ l -> cmp (kof p x) key <> 0 ->
         x ∈ l' /\ kof p' x = kof p x /\ vof p' x = vof p x.
Proof.
  intros HI Hk.
  destruct (findGE_spec dom cmp HC true p l key HI Hk)
    as (l1 & l2 & pn & -> & H1 & H2 & Hf & Hpnl & Hpn).
  specialize (Hpn eq_refl).
  destruct (exact_hd cmp p key l2) eqn:Hex.
  - destruct l2 as [|y r]; [done|]. simpl in Hex, Hf. apply Z.eqb_eq in Hex.
    destruct (Delete_found_spec dom cmp HC p l1 y r pn key HI Hk H1 Hex Hpnl Hpn Hf)
      as (p' & Hd & HI' & He & _).
    exists p', (l1 ++ r), nil_error. split; [done|]. split; [done|].
    rewrite (entries_app p l1 (y :: r)), (delete_app cmp) in He by by apply entries_before.
    unfold entries in He. cbn [map RefMap.delete entry] in He.
    rewrite Hex in He. cbn [Z.eqb] in He. rewrite <- map_app in He.
    intros x Hx Hne.
    assert (x ∈ l1 ++ r) as Hx'.
    { rewrite elem_of_app in *. rewrite elem_of_cons in Hx.
      destruct Hx as [?|[->|?]]; auto. done. }
    split; [done|].
    pose proof (map_eq_elem _ _ _ He x Hx') as E. unfold entry in E.
    by injection E as -> ->.
  - exists (set_prevNode p pn), (l1 ++ l2), ErrNotFound. split.
    { unfold Delete. rewrite (bind_Ok _ _ _ Hf). done. }
    split; [by apply Inv_set_prevNode|]. done.
Qed.

(** Two moves to the same node leave the same iterator behind. *)
Lemma lands_same p i j fw cs cl x i1 ok1 j1 ok2 :
  it_slice i = it_slice j -> it_err i = it_err j ->
  lands cmp p i fw cs cl x i1 ok1 -> lands cmp p j fw cs cl x j1 ok2 ->
  i1 = j1 /\ ok1 = ok2.
Proof.
  intros Hs He (a1 & a2 & a3 & a4 & a5) (b1 & b2 & b3 & b4 & b5).
  rewrite <- Hs in b2, b5. rewrite <- He in b4.
  destruct i1, j1. cbn in *.
  destruct (negb (x =? 0) && _);
    destruct a5 as (? & ? & ? & ?), b5 as (? & ? & ? & ?); split; congruence.
Qed.

(** An iterator without a range whose node is live and whose key is the key
    of the node moves as an iterator does that has just sought that key. *)
Lemma place_kept p l x i :
  Inv dom cmp p l -> x ∈ l -> it_released i = false -> it_slice i = None ->
  it_err i = nil_error -> it_node i = x -> it_key i = kof p x ->
  exists j, Seek cmp p (NewIterator None) (it_key i) = Ok (p, j, true)
    /\ it_key j = kof p x /\ it_value j = vof p x
    /\ Next cmp p i = Next cmp p j /\ Prev cmp p i = Prev cmp p j.
Proof.
  intros HI Hx Hrel Hsl Herr Hnode Hkey.
  pose proof (Inv_dom _ _ _ _ _ HI Hx) as Hdx.
  pose proof (Inv_pos _ _ _ _ _ HI Hx) as Hpos.
  apply list_elem_of_split in Hx as (pre & ys & ->).
  destruct (Seek_at dom cmp HC p _ (NewIterator None) (it_key i) HI eq_refl)
    as (l1 & l2 & j & ok & E & H1 & H2 & HS & Hl); [by rewrite Hkey|done|].
  cbn [slice_start NewIterator it_slice] in H1, H2. rewrite Hkey in H1, H2.
  destruct (split_unique (fun y => cmp (kof p y) (kof p x) < 0) l1 l2 pre x ys)
    as [-> ->]; [done|exact H1|exact H2| |by apply (cmp_irrefl dom cmp HC)|].
  { pose proof (sorted_before _ pre x ys (inv_sorted _ _ _ _ HI)) as Hs.
    eapply Forall_impl; [exact Hs|]. intros y Hy. exact Hy. }
  destruct Hl as (Hrelj & Hslj & _ & Herrj & Hcase).
  cbn [hd NewIterator it_slice it_err] in Hslj, Herrj, Hcase.
  unfold inside in Hcase. cbn [negb andb] in Hcase.
  destruct (Z.eqb_spec x 0); [consts; lia|]. cbn [negb andb] in Hcase.
  destruct Hcase as (-> & Hnj & Hkj & Hvj).
  exists j. rewrite Hkey. split; [by rewrite <- Hkey|]. split; [done|]. split; [done|].
  split.
  - destruct (Next_at dom cmp p pre x ys i HI Hrel Hnode) as (i2 & ok2 & HN & Hl2).
    destruct (Next_at dom cmp p pre x ys j HI Hrelj Hnj) as (j2 & okj & HNj & Hlj).
    destruct (lands_same p i j true false true (hd 0 ys) i2 ok2 j2 okj) as [-> ->];
      [congruence|congruence|done|done|].
    by rewrite HN, HNj.
  - destruct (Prev_at dom cmp HC p pre x ys i HI Hrel Hnode Hkey) as (i2 & ok2 & HN & Hl2).
    destruct (Prev_at dom cmp HC p pre x ys j HI Hrelj Hnj Hkj) as (j2 & okj & HNj & Hlj).
    destruct (lands_same p i j false true false (lastd 0 pre) i2 ok2 j2 okj) as [-> ->];
      [congruence|congruence|done|done|].
    by rewrite HN, HNj.
Qed.

(** What [Seek] that returns true leaves on an iterator without a range. *)
Lemma Seek_true_at p l k i :
  Inv dom cmp p l -> dom k ->
  Seek cmp p (NewIterator None) k = Ok (p, i, true) ->
  it_released i = false /\ it_slice i = None /\ it_err i = nil_error
  /\ it_node i ∈ l /\ it_key i = kof p (it_node i) /\ it_value i = vof p (it_node i).
Proof.
  intros HI Hk HS.
  destruct (Seek_at dom cmp HC p l (NewIterator None) k HI eq_refl Hk I)
    as (l1 & l2 & i' & ok & -> & _ & _ & HS' & Hl).
  rewrite HS in HS'. injection HS' as <- <-.
  destruct Hl as (Hrel & Hsl & _ & Herr & Hcase).
  destruct l2 as [|x ys]; cbn [hd] in Hcase.
  { cbn [Z.eqb negb andb] in Hcase. by destruct Hcase. }
  destruct (negb (x =? 0) && _) in Hcase; [|by destruct Hcase].
  destruct Hcase as (_ & Hn & Hkey & Hv). rewrite Hn.
  repeat (split; [done|]). split; [|done].
  rewrite elem_of_app, elem_of_cons. auto.
Qed.

End places.
End Places.

Module IterWrites.
Import memdb Rep RepFacts Chain Search FindGE Loops Frame Insert Overwrite RefFacts
  PutSpec PutProof DeleteProof Ops Fresh RefTheory Store HeightInv Reach Backward Bytes
  StoreMore MemdbClaims Pass Moves Places.

(** X21.  An iterator keeps its place across a [Put].  On a store reached
    from a fresh one, let [Seek] have put an iterator without a range on an
    entry, and let any key then be put into the store.  On the store as it
    is then, [Next] and [Prev] of this iterator return what they return for
    a new iterator that has just sought the key of the entry: the entry
    after it and the one before it, the key that was put among them.
    [Value()] of the iterator is not refreshed: when the key that was put is
    the key of the entry, the store holds the new value, the iterator the
    one it read. *)
Theorem put_under_iterator
    (cmp : bytes -> bytes -> Z) (rand_Int : nat -> Z) (growslice : Z -> Z -> Z)
    (p : DB_) (k : bytes) (i : dbIter_) (key value : bytes) :
  BasicComparer any_key cmp ->
  reachable any_key cmp rand_Int growslice p ->
  Seek cmp p (NewIterator None) k = Ok (p, i, true) ->
  exists p' j,
    Put cmp rand_Int growslice p key value = Ok (p', nil_error)
    /\ Seek cmp p' (NewIterator None) (Key i) = Ok (p', j, true)
    /\ Key j = Key i
    /\ Value j = (if cmp (Key i) key =? 0 then value else Value i)
    /\ Next cmp p' i = Next cmp p' j
    /\ Prev cmp p' i = Prev cmp p' j.
Proof.
  intros HC Hreach HS.
  destruct (reachable_Repr any_key cmp HC rand_Int growslice p Hreach) as (m & l & HI & Hm).
  destruct (Seek_true_at any_key cmp HC p l k i HI I HS)
    as (Hrel & Hsl & Herr & Hx & Hkey & Hval).
  destruct (Put_places any_key cmp HC rand_Int growslice p l key value HI I)
    as (p' & l' & HP & HI' & Hkeep).
  destruct (Hkeep _ Hx) as (Hx' & Hk' & Hv').
  destruct (place_kept any_key cmp HC p' l' (it_node i) i HI' Hx' Hrel Hsl Herr eq_refl)
    as (j & HSj & Hkj & Hvj & HN & HPr); [congruence|].
  exists p', j. unfold Key, Value. split; [done|]. split; [done|].
  split; [congruence|]. split; [|done].
  rewrite Hvj, Hv', Hkey, Hval. done.
Qed.

Lemma put_under_iterator_witness :
  BasicComparer any_key bytes_Compare
  /\ reachable any_key bytes_Compare rand0 grow2 two_entry_store
  /\ Seek bytes_Compare two_entry_store (NewIterator None) (b_ "a")
     = Ok (two_entry_store, iter_at_a, true)
  /\ exists p' j,
    Put bytes_Compare rand0 grow2 two_entry_store (b_ "ab") (b_ "9") = Ok (p', nil_error)
    /\ Seek bytes_Compare p' (NewIterator None) (Key iter_at_a) = Ok (p', j, true)
    /\ Key j = Key iter_at_a
    /\ Value j = (if bytes_Compare (Key iter_at_a) (b_ "ab") =? 0 then b_ "9"
                  else Value iter_at_a)
    /\ Next bytes_Compare p' iter_at_a = Next bytes_Compare p' j
    /\ Prev bytes_Compare p' iter_at_a = Prev bytes_Compare p' j.
Proof.
  split; [exact bytes_Compare_lawful|].
  split; [exact two_entry_store_reachable|].
  split; [vm_compute; reflexivity|].
  apply (put_under_iterator bytes_Compare rand0 grow2 two_entry_store (b_ "a") iter_at_a
           (b_ "ab") (b_ "9") bytes_Compare_lawful two_entry_store_reachable).
  vm_compute; reflexivity.
Defined.

(** X22.  An iterator keeps its place across a [Delete] of another key.
    On a store reached from a fresh one, let [Seek] have put an iterator
    without a range on an entry, and let [Delete] then be called with a key
    that is not the key of this entry (whether the key is found or not).
    On the store as it is then, the entry is still there with its value,
    and [Next] and [Prev] of this iterator return what they return for a
    new iterator that has just sought the key of the entry. *)
Theorem delete_under_iterator
    (cmp : bytes -> bytes -> Z) (rand_Int : nat -> Z) (growslice : Z -> Z -> Z)
    (p : DB_) (k : bytes) (i : dbIter_) (key : bytes) :
  BasicComparer any_key cmp ->
  reachable any_key cmp rand_Int growslice p ->
  Seek cmp p (NewIterator None) k = Ok (p, i, true) ->
  cmp (Key i) key <> 0 ->
  exists p' e j,
    Delete cmp p key = Ok (p', e)
    /\ Seek cmp p' (NewIterator None) (Key i) = Ok (p', j, true)
    /\ Key j = Key i /\ Value j = Value i
    /\ Next cmp p' i = Next cmp p' j
    /\ Prev cmp p' i = Prev cmp p' j.
Proof.
  intros HC Hreach HS Hne.
  destruct (reachable_Repr any_key cmp HC rand_Int growslice p Hreach) as (m & l & HI & Hm).
  destruct (Seek_true_at any_key cmp HC p l k i HI I HS)
    as (Hrel & Hsl & Herr & Hx & Hkey & Hval).
  destruct (Delete_places any_key cmp HC p l key HI I)
    as (p' & l' & e & HD & HI' & Hkeep).
  unfold Key in Hne. rewrite Hkey in Hne.
  destruct (Hkeep _ Hx Hne) as (Hx' & Hk' & Hv').
  destruct (place_kept any_key cmp HC p' l' (it_node i) i HI' Hx' Hrel Hsl Herr eq_refl)
    as (j & HSj & Hkj & Hvj & HN & HPr); [congruence|].
  exists p', e, j. unfold Key, Value. split; [done|]. split; [done|].
  split; [congruence|]. split; [congruence|]. done.
Qed.

Lemma delete_under_iterator_witness :
  BasicComparer any_key bytes_Compare
  /\ reachable any_key bytes_Compare rand0 grow2 two_entry_store
  /\ Seek bytes_Compare two_entry_store (NewIterator None) (b_ "a")
     = Ok (two_entry_store, iter_at_a, true)
  /\ bytes_Compare (Key iter_at_a) (b_ "b") <> 0
  /\ exists p' e j,
    Delete bytes_Compare two_entry_store (b_ "b") = Ok (p', e)
    /\ Seek bytes_Compare p' (NewIterator None) (Key iter_at_a) = Ok (p', j, true)
    /\ Key j = Key iter_at_a /\ Value j = Value iter_at_a
    /\ Next bytes_Compare p' iter_at_a = Next bytes_Compare p' j
    /\ Prev bytes_Compare p' iter_at_a = Prev bytes_Compare p' j.
Proof.
  split; [exact bytes_Compare_lawful|].
  split; [exact two_entry_store_reachable|].
  split; [vm_compute; reflexivity|].
  split; [vm_compute; discriminate|].
  apply (delete_under_iterator bytes_Compare rand0 grow2 two_entry_store (b_ "a") iter_at_a
           (b_ "b") bytes_Compare_lawful two_entry_store_reachable).
  - vm_compute; reflexivity.
  - vm_compute; discriminate.
Defined.

(** X23.  [Seek] of an iterator over a range.  On a store reached from a
    fresh one, [Seek(key)] of an iterator over the range [r] looks for the
    first entry at or after the later of [key] and [r.Start], that is the
    entry [Find] returns for that key, and returns true exactly when there
    is such an entry and its key is before [r.Limit]; [Key()] and [Value()]
    are then those of the entry, and empty otherwise.  With a start bound,
    [First()] is [Seek] of that bound. *)
Theorem seek_in_range
    (cmp : bytes -> bytes -> Z) (rand_Int : nat -> Z) (growslice : Z -> Z -> Z)
    (p : DB_) (r : Range) (key : bytes) :
  BasicComparer any_key cmp ->
  reachable any_key cmp rand_Int growslice p ->
  exists i' ok rkey value e,
    Seek cmp p (NewIterator (Some r)) key = Ok (p, i', ok)
    /\ Find cmp p (match Start r with
                   | Some s => if cmp key s <? 0 then s else key
                   | None => key
                   end) = Ok (p, rkey, value, e)
    /\ (ok = true <-> e = nil_error /\ match Limit r with
                                       | Some t => cmp rkey t < 0
                                       | None => True
                                       end)
    /\ Valid i' = ok
    /\ (ok = true -> Key i' = rkey /\ Value i' = value)
    /\ (ok = false -> Key i' = [] /\ Value i' = [])
    /\ (forall s, Start r = Some s ->
          First cmp p (NewIterator (Some r)) = Seek cmp p (NewIterator (Some r)) s).
Proof.
  intros HC Hreach.
  destruct (reachable_Repr any_key cmp HC rand_Int growslice p Hreach) as (m & l & HI & Hm).
  destruct (Seek_at any_key cmp HC p l (NewIterator (Some r)) key HI eq_refl I) as
    (l1 & l2 & i' & ok & -> & H1 & H2 & HS & Hl).
  { cbn. by destruct (Start r). }
  cbn [slice_start NewIterator it_slice] in H1, H2.
  set (key' := match Start r with
               | Some s => if cmp key s <? 0 then s else key
               | None => key
               end) in *.
  destruct (Find_spec any_key cmp HC p _ key' HI I) as (rk & v & e & HF & Hv).
  rewrite (entries_app p l1 l2), (find_ge_app cmp) in Hv by by apply entries_before.
  exists i', ok, rk, v, e. split; [done|]. split; [done|].
  destruct Hl as (_ & _ & _ & _ & Hcase). unfold inside in Hcase.
  cbn [NewIterator it_slice] in Hcase. unfold out_of_range in Hcase.
  cbn [andb orb] in Hcase. rewrite orb_false_r in Hcase.
  unfold Valid, Key, Value.
  assert (forall s, Start r = Some s ->
            First cmp p (NewIterator (Some r)) = Seek cmp p (NewIterator (Some r)) s) as HFi.
  { intros s Hs. unfold First, Seek. cbn [NewIterator it_released it_set_forward it_slice
      slice_start it_node it_forward it_key it_value it_err]. rewrite Hs.
    assert (cmp s s = 0) as -> by (by apply (cmp_eq _ _ HC)). cbn [Z.ltb Z.compare].
    destruct (findGE cmp p s false) as [[[p1 x] ex]| |]; [|done|done].
    by rewrite !(bind_Ok (Ok _) _ _ eq_refl). }
  destruct l2 as [|y ys]; cbn [hd] in Hcase.
  - cbn [Z.eqb negb andb] in Hcase. destruct Hcase as (-> & -> & -> & ->).
    cbn in Hv. destruct Hv as (-> & -> & ->).
    split; [split; [done|by intros [? _]]|]. split; [done|]. split; [done|]. done.
  - assert (y ∈ l1 ++ y :: ys) as Hy by (rewrite elem_of_app, elem_of_cons; auto).
    pose proof (Inv_pos _ _ _ _ _ HI Hy) as Hpos.
    destruct (Z.eqb_spec y 0); [consts; lia|]. cbn [negb andb] in Hcase.
    apply Forall_cons in H2 as [Hy2 _].
    assert (~ cmp (keyOf (nodeData p) (kvData p) y) key' < 0) as Hy2' by exact Hy2.
    cbn [entries map RefMap.find_ge entry] in Hv.
    destruct (Z.ltb_spec (cmp (keyOf (nodeData p) (kvData p) y) key') 0); [done|].
    destruct Hv as [[= -> ->] ->].
    destruct (Limit r) as [t|].
    + destruct (Z.leb_spec 0 (cmp (keyOf (nodeData p) (kvData p) y) t));
        cbn [negb] in Hcase.
      * destruct Hcase as (-> & -> & -> & ->).
        split; [split; [done|intros [_ ?]; lia]|]. done.
      * destruct Hcase as (-> & -> & -> & ->).
        split; [done|]. split; [by destruct (Z.eqb_spec y 0)|]. done.
    + cbn [negb] in Hcase. destruct Hcase as (-> & -> & -> & ->).
      split; [done|]. split; [by destruct (Z.eqb_spec y 0)|]. done.
Qed.

Lemma seek_in_range_witness :
  BasicComparer any_key bytes_Compare
  /\ reachable any_key bytes_Compare rand0 grow2 two_entry_store
  /\ exists i' ok rkey value e,
    Seek bytes_Compare two_entry_store
      (NewIterator (Some (mkRange (Some (b_ "b")) (Some (b_ "c"))))) (b_ "a")
    = Ok (two_entry_store, i', ok)
    /\ Find bytes_Compare two_entry_store
         (match Start (mkRange (Some (b_ "b")) (Some (b_ "c"))) with
          | Some s => if bytes_Compare (b_ "a") s <? 0 then s else b_ "a"
          | None => b_ "a"
          end) = Ok (two_entry_store, rkey, value, e)
    /\ (ok = true <-> e = nil_error
                      /\ match Limit (mkRange (Some (b_ "b")) (Some (b_ "c"))) with
                         | Some t => bytes_Compare rkey t < 0
                         | None => True
                         end)
    /\ Valid i' = ok
    /\ (ok = true -> Key i' = rkey /\ Value i' = value)
    /\ (ok = false -> Key i' = [] /\ Value i' = [])
    /\ (forall s, Start (mkRange (Some (b_ "b")) (Some (b_ "c"))) = Some s ->
          First bytes_Compare two_entry_store
            (NewIterator (Some (mkRange (Some (b_ "b")) (Some (b_ "c")))))
          = Seek bytes_Compare two_entry_store
              (NewIterator (Some (mkRange (Some (b_ "b")) (Some (b_ "c"))))) s).
Proof.
  split; [exact bytes_Compare_lawful|].
  split; [exact two_entry_store_reachable|].
  exact (seek_in_range bytes_Compare rand0 grow2 two_entry_store
           (mkRange (Some (b_ "b")) (Some (b_ "c"))) (b_ "a")
           bytes_Compare_lawful two_entry_store_reachable).
Defined.

End IterWrites.

(** ** The reasons of batch decoding *)

Module DecodeClaims.
Import memdb binary leveldb Bytes Wire Varint Writer
  Append Decode Roundtrip Limits Reasons DecodeReasons BatchMore ToMem.

(** C8, counterexample.  Two reasons of [decodeBatch] that are not among
    the four strings: the reason for an op tag carries the tag in
    hexadecimal, and a value length has a reason of its own. *)
Lemma reasons_not_enumerated :
  Load newBatch [x02]
  = Ok (mkBatch [x02] [] [] 0, ErrBatchCorrupted "bad record: invalid type 0x2")
  /\ ~ enumerated_reason "bad record: invalid type 0x2"
  /\ Load newBatch [x01; x00; x05]
     = Ok (mkBatch [x01; x00; x05] [] [] 0,
           ErrBatchCorrupted "bad record: invalid value length")
  /\ ~ enumerated_reason "bad record: invalid value length".
Proof.
  split; [by vm_compute|]. split.
  { intros [H|[H|[(x & y & H)|H]]]; discriminate H. }
  split; [by vm_compute|].
  intros [H|[H|[(x & y & H)|H]]]; discriminate H.
Qed.

(** [decodeBatchToMem] on a header followed by records whose first one
    [decodeBatch] rejects: the callback is not reached. *)
Lemma decodeBatchToMem_first cmp rand_Int growslice seq n body expectSeq mdb r :
  0 <= seq < 2 ^ 64 -> 0 <= n < 2 ^ 32 ->
  (forall fuel st i,
     decodeBatch_loop (decodeBatchToMem_fn cmp rand_Int growslice body seq n)
       (S fuel) body st i 0 = Ok (st, ErrBatchCorrupted r)) ->
  decodeBatchToMem cmp rand_Int growslice (le_bytes 8 seq ++ le_bytes 4 n ++ body)
    expectSeq mdb
  = Ok (mdb, (seq, n, ErrBatchCorrupted r)).
Proof.
  intros Hs Hn Hrej. unfold decodeBatchToMem.
  rewrite decodeBatchHeader_enc by lia. rewrite !Z.mod_small by lia.
  rewrite (bind_Ok (Ok _) _ _ eq_refl). cbv beta iota.
  rewrite app_assoc.
  rewrite (slice_from_len (le_bytes 8 seq ++ le_bytes 4 n) body batchHeaderLen)
    by (rewrite len_app, !len_le_bytes; done).
  rewrite (bind_Ok (Ok _) _ _ eq_refl). unfold decodeBatch_within.
  rewrite Hrej. by rewrite (bind_Ok (Ok _) _ _ eq_refl).
Qed.

(** C8, as the code has it.  A buffer [pre] that [Load] accepts, followed
    by a byte [t] and the bytes [rest], shorter than [2^63] bytes.
    [Batch.decode] keeps the records of [pre] and
    - rejects an op tag [t] above 0x01 with "bad record: invalid type "
      followed by the tag in hexadecimal;
    - rejects a key length that is not a varint, or that runs past the end
      of the buffer (the offset it leads to being below [2^63]), with
      "bad record: invalid key length";
    - rejects the value length of a put likewise, with
      "bad record: invalid value length".
    On any buffer [Batch.decode] gives no reason but these three and, when
    the number of records is not the one expected, "invalid records length:
    X vs Y".  [decodeBatchHeader] gives "too short" for less than twelve
    bytes and no other reason.  [decodeBatchToMem] gives, on any buffer, no
    reason but "too short", the three reasons of a record, "invalid records
    length" alone (records follow beyond the count of the header) and
    "invalid records length: X vs Y" (fewer records than the count); it
    gives each of the last two, and each of the three reasons of a record
    when the first record after the header is [t] and [rest].  The three
    reasons of a record differ. *)
Theorem decode_rejections_and_reasons
    (pre : bytes) (t : byte) (rest : bytes) (b0 b1 : Batch) (e : Z) :
  Load b0 pre = Ok (b1, nil_error) ->
  len (pre ++ t :: rest) < 2 ^ 63 ->
  (keyTypeVal < byte_to_Z t ->
     decode b0 (pre ++ t :: rest) e
     = Ok (mkBatch (pre ++ t :: rest) [] (index b1) (internalLen b1),
           ErrBatchCorrupted (reason_type (byte_to_Z t))))
  /\ (byte_to_Z t <= keyTypeVal ->
      forall x n, Uvarint rest = (x, n) ->
        n <= 0 \/ (len pre + 1 + n + x < 2 ^ 63 /\ len rest < n + x) ->
        decode b0 (pre ++ t :: rest) e
        = Ok (mkBatch (pre ++ t :: rest) [] (index b1) (internalLen b1),
              ErrBatchCorrupted reason_key))
  /\ (byte_to_Z t = keyTypeVal ->
      forall x n y m, Uvarint rest = (x, n) -> 0 < n -> n + x <= len rest ->
        Uvarint (drop (Z.to_nat (n + x)) rest) = (y, m) ->
        m <= 0 \/ (len pre + 1 + n + x + m + y < 2 ^ 63
                   /\ len rest < n + x + m + y) ->
        decode b0 (pre ++ t :: rest) e
        = Ok (mkBatch (pre ++ t :: rest) [] (index b1) (internalLen b1),
              ErrBatchCorrupted reason_value))
  /\ (forall data0 b' r, decode b0 data0 e = Ok (b', ErrBatchCorrupted r) ->
        record_reason r
        \/ (0 <= e /\ e <> Len b' /\ r = reason_count e (Len b')))
  /\ (0 <= e -> e <> Len b1 ->
        decode b0 pre e = Ok (b1, ErrBatchCorrupted (reason_count e (Len b1))))
  /\ (forall data0,
        (len data0 < batchHeaderLen ->
           decodeBatchHeader data0 = Ok (0, 0, ErrBatchCorrupted "too short"))
        /\ (forall s k0 r,
              decodeBatchHeader data0 = Ok (s, k0, ErrBatchCorrupted r) ->
              r = "too short" /\ len data0 < batchHeaderLen))
  /\ (forall cmp rand_Int growslice data0 expectSeq mdb,
        (len data0 < batchHeaderLen ->
           decodeBatchToMem cmp rand_Int growslice data0 expectSeq mdb
           = Ok (mdb, (0, 0, ErrBatchCorrupted "too short")))
        /\ (forall mdb' s n r,
              decodeBatchToMem cmp rand_Int growslice data0 expectSeq mdb
              = Ok (mdb', (s, n, ErrBatchCorrupted r)) ->
              (r = "too short" /\ len data0 < batchHeaderLen /\ mdb' = mdb)
              \/ record_reason r
              \/ r = "invalid records length"
              \/ (exists d, d <> n /\ r = reason_count n d)))
  /\ (forall cmp rand_Int growslice seq expectSeq mdb,
        0 <= seq < 2 ^ 64 ->
        (forall rs, rs <> [] -> Forall tag_ok rs -> len (enc rs) < 2 ^ 63 ->
           decodeBatchToMem cmp rand_Int growslice
             (le_bytes 8 seq ++ le_bytes 4 0 ++ enc rs) expectSeq mdb
           = Ok (mdb, (seq, 0, ErrBatchCorrupted "invalid records length")))
        /\ (forall n, 0 < n < 2 ^ 32 ->
              decodeBatchToMem cmp rand_Int growslice
                (le_bytes 8 seq ++ le_bytes 4 n) expectSeq mdb
              = Ok (mdb, (seq, n, ErrBatchCorrupted (reason_count n 0)))))
  /\ (forall cmp rand_Int growslice seq n expectSeq mdb,
        0 <= seq < 2 ^ 64 -> 0 <= n < 2 ^ 32 ->
        (keyTypeVal < byte_to_Z t ->
           decodeBatchToMem cmp rand_Int growslice
             (le_bytes 8 seq ++ le_bytes 4 n ++ t :: rest) expectSeq mdb
           = Ok (mdb, (seq, n, ErrBatchCorrupted (reason_type (byte_to_Z t)))))
        /\ (byte_to_Z t <= keyTypeVal ->
            forall x k, Uvarint rest = (x, k) ->
              k <= 0 \/ (1 + k + x < 2 ^ 63 /\ len rest < k + x) ->
              decodeBatchToMem cmp rand_Int growslice
                (le_bytes 8 seq ++ le_bytes 4 n ++ t :: rest) expectSeq mdb
              = Ok (mdb, (seq, n, ErrBatchCorrupted reason_key)))
        /\ (byte_to_Z t = keyTypeVal ->
            forall x k y m, Uvarint rest = (x, k) -> 0 < k -> k + x <= len rest ->
              Uvarint (drop (Z.to_nat (k + x)) rest) = (y, m) ->
              m <= 0 \/ (1 + k + x + m + y < 2 ^ 63 /\ len rest < k + x + m + y) ->
              decodeBatchToMem cmp rand_Int growslice
                (le_bytes 8 seq ++ le_bytes 4 n ++ t :: rest) expectSeq mdb
              = Ok (mdb, (seq, n, ErrBatchCorrupted reason_value))))
  /\ (reason_type (byte_to_Z t) <> reason_key
      /\ reason_type (byte_to_Z t) <> reason_value
      /\ reason_key <> reason_value).
Proof.
  intros HL Hlen.
  split; [|split; [|split; [|split; [|split; [|split; [|split; [|split; [|split]]]]]]]].
  - intros Ht. apply (decode_after_accepted pre (t :: rest) b0 b1 e _ Hlen HL).
    intros fuel b i. by apply reject_tag.
  - intros Ht x n Hu Hbad.
    apply (decode_after_accepted pre (t :: rest) b0 b1 e _ Hlen HL).
    intros fuel b i. by apply (reject_key _ _ _ _ _ _ _ x n).
  - intros Ht x n y m Hu Hn Hkey Hu2 Hbad.
    apply (decode_after_accepted pre (t :: rest) b0 b1 e _ Hlen HL).
    intros fuel b i. by apply (reject_value _ _ _ _ _ _ _ x n y m).
  - intros data0 b' r. apply decode_reasons.
  - intros He Hne. unfold Load, decode in *. cbv zeta in *.
    destruct (decodeBatch decode_fn pre (mkBatch pre [] [] 0))
      as [[b2 e2]| |]; [|done|done].
    rewrite (bind_Ok (Ok _) _ _ eq_refl) in HL.
    rewrite (bind_Ok (Ok _) _ _ eq_refl).
    destruct e2; [|done..]. cbn [andb negb Z.leb] in HL.
    injection HL as ->. unfold Len in Hne.
    destruct (Z.leb_spec 0 e); [|lia].
    destruct (Z.eqb_spec (len (index b1)) e); [lia|]. done.
  - intros data0. split.
    + intros Hshort. unfold decodeBatchHeader.
      destruct (Z.ltb_spec (len data0) batchHeaderLen); [done|lia].
    + intros s k0 r. apply decodeBatchHeader_reasons.
  - intros cmp rand_Int growslice data0 expectSeq mdb. split.
    + intros Hshort. unfold decodeBatchToMem, decodeBatchHeader.
      destruct (Z.ltb_spec (len data0) batchHeaderLen); [|lia].
      by rewrite (bind_Ok (Ok _) _ _ eq_refl).
    + intros mdb' s n r. apply decodeBatchToMem_reasons.
  - intros cmp rand_Int growslice seq expectSeq mdb Hs. split.
    + intros rs Hrs Htag Hl.
      rewrite decodeBatchToMem_spec by (done || lia).
      change (Z.to_nat 0) with 0%nat. rewrite take_0. cbn [indexes putMem_loop].
      rewrite (bind_Ok (Ok _) _ _ eq_refl). cbv beta iota.
      destruct (Z.ltb_spec 0 (len rs)) as [|Hz]; [done|].
      destruct rs; [done|]. rewrite len_cons in Hz.
      pose proof (len_nonneg rs). lia.
    + intros n Hn.
      pose proof (decodeBatchToMem_spec cmp rand_Int growslice seq n [] expectSeq mdb
                    (Forall_nil_2 _)) as E.
      change (enc []) with (@nil byte) in E. rewrite app_nil_r in E.
      rewrite E by (done || lia).
      rewrite take_nil. cbn [indexes putMem_loop].
      rewrite (bind_Ok (Ok _) _ _ eq_refl). cbv beta iota.
      change (len (@nil record)) with 0.
      destruct (Z.ltb_spec n 0); [lia|]. destruct (Z.eqb_spec n 0); [lia|]. done.
  - intros cmp rand_Int growslice seq n expectSeq mdb Hs Hn.
    assert (len ([] ++ t :: rest) < 2 ^ 63) as Hlen0.
    { rewrite len_app, len_cons in Hlen. cbn [app]. rewrite len_cons.
      pose proof (len_nonneg pre). lia. }
    split; [|split].
    + intros Ht. apply decodeBatchToMem_first; [done..|]. intros fuel st i.
      by apply (reject_tag _ fuel [] t rest st i).
    + intros Ht x k Hu Hbad. apply decodeBatchToMem_first; [done..|]. intros fuel st i.
      apply (reject_key _ fuel [] t rest st i x k Hlen0 Ht Hu).
      change (len (@nil byte)) with 0. destruct Hbad as [?|[? ?]]; [by left|right; lia].
    + intros Ht x k y m Hu Hk Hkey Hu2 Hbad.
      apply decodeBatchToMem_first; [done..|]. intros fuel st i.
      apply (reject_value _ fuel [] t rest st i x k y m Hlen0 Ht Hu Hk Hkey Hu2).
      change (len (@nil byte)) with 0. destruct Hbad as [?|[? ?]]; [by left|right; lia].
  - apply reasons_distinct.
Qed.

Lemma decode_rejections_and_reasons_witness :
  Load newBatch padded_delete = Ok (padded_batch, nil_error)
  /\ len (padded_delete ++ [x02]) < 2 ^ 63
  /\ keyTypeVal < byte_to_Z x02
  /\ decode newBatch (padded_delete ++ [x02]) (-1)
     = Ok (mkBatch (padded_delete ++ [x02]) [] (index padded_batch)
             (internalLen padded_batch),
           ErrBatchCorrupted (reason_type (byte_to_Z x02))).
Proof.
  assert (Load newBatch padded_delete = Ok (padded_batch, nil_error)) as H1
    by (vm_compute; reflexivity).
  assert (len (padded_delete ++ [x02]) < 2 ^ 63) as H2 by (vm_compute; reflexivity).
  assert (keyTypeVal < byte_to_Z x02) as H3 by (vm_compute; reflexivity).
  split; [exact H1|]. split; [exact H2|]. split; [exact H3|].
  exact (proj1 (decode_rejections_and_reasons padded_delete x02 [] newBatch padded_batch
                  (-1) H1 H2) H3).
Defined.

End DecodeClaims.
